(** * Kithare front end: the lexer of [src/lexer.c] and the parser of
    [src/parser.c], embedded as Rocq functions, with the properties the
    specification states about them. *)

From Stdlib Require Import ZArith List Bool Lia String Ascii.
Import ListNotations.

Set Implicit Arguments.
Set Warnings "-register-all".

(** ** Code points and the source buffer *)

(** A [char32_t] is a [Z] in [0, 2^32).  [U "c"] is the C literal [U'c']. *)
Definition U (a : ascii) : Z := Z.of_N (N_of_ascii a).
Arguments U a%_char.

(** The literals that have no one-character spelling here: the null
    terminator, the double quote, and the control characters behind the
    escapes of [kh_lexChar]. *)
Definition U_nul : Z := 0.
Definition U_dquote : Z := 34.
Definition U_bell : Z := 7.
Definition U_backspace : Z := 8.
Definition U_tab : Z := 9.
Definition U_newline : Z := 10.
Definition U_vtab : Z := 11.
Definition U_formfeed : Z := 12.
Definition U_return : Z := 13.

(** The code points of a C string literal [U"..."]. *)
Fixpoint codes (s : string) : list Z :=
  match s with
  | EmptyString => []
  | String a s' => U a :: codes s'
  end.

(** The buffer is the list of code points that precede the terminating
    zero; reading at or past the end yields that zero, which is all the
    lexer ever reads there.  A cursor ([char32_t*]) is an index. *)
Definition peek (buf : list Z) (cursor : nat) : Z := nth cursor buf 0%Z.

(** Unsigned 64-bit wrap-around ([uint64_t] arithmetic). *)
Definition wrap64 (z : Z) : Z := (z mod 2 ^ 64)%Z.

(** [(size_t)-1], the "no limit" argument of [kh_lexInt]. *)
Definition SIZE_MAX : Z := (2 ^ 64 - 1)%Z.

(** The exponent part [kh_lexFloat] scanned: [e] or [p], its sign, the
    value [kh_lexInt] accumulated and its overflow flag. *)
Record khExponent := {
  exp_binary : bool;
  exp_negative : bool;
  exp_value : Z;
  exp_overflowed : bool
}.

(** A [double].  IEEE arithmetic and [pow] are not modelled: a value is
    either the conversion of an integer or the literal [kh_lexFloat]
    scanned, kept as its base, its integer and fraction digits and its
    exponent part. *)
Inductive khDouble :=
| khDouble_ofInteger (integer : Z)
| khDouble_literal (base : Z) (whole fraction : list Z)
    (exponent : option khExponent).

(** ** <wctype.h> in the C locale *)
Module Wctype.
Local Open Scope Z_scope.

Definition iswspace (c : Z) : bool :=
  (c =? 32) || ((9 <=? c) && (c <=? 13)).

Definition iswalpha (c : Z) : bool :=
  ((65 <=? c) && (c <=? 90)) || ((97 <=? c) && (c <=? 122)).

Definition iswalnum (c : Z) : bool :=
  iswalpha c || ((48 <=? c) && (c <=? 57)).

End Wctype.

(** ** The lexer, [src/lexer.c] *)
Module Lexer.
Import Wctype.
Local Open Scope Z_scope.

(** Modelled from the spec: the token header ([kithare/token.h]) is not
    among the sources.  The keyword codes are the spec's fixed keyword
    set; the operator and delimiter codes are the names [lexer.c] uses,
    with the square-bracket-close code the spec lists next to them. *)
Inductive khKeywordToken :=
| khKeywordToken_IMPORT | khKeywordToken_INCLUDE | khKeywordToken_AS
| khKeywordToken_TRY | khKeywordToken_DEF | khKeywordToken_CLASS
| khKeywordToken_STRUCT | khKeywordToken_ENUM | khKeywordToken_ALIAS
| khKeywordToken_REF | khKeywordToken_WILD | khKeywordToken_PUBLIC
| khKeywordToken_PRIVATE | khKeywordToken_STATIC | khKeywordToken_INCASE
| khKeywordToken_IF | khKeywordToken_ELIF | khKeywordToken_ELSE
| khKeywordToken_FOR | khKeywordToken_WHILE | khKeywordToken_DO
| khKeywordToken_BREAK | khKeywordToken_CONTINUE | khKeywordToken_RETURN
| khKeywordToken_IN.

Inductive khOperatorToken :=
| khOperatorToken_ADD | khOperatorToken_SUB | khOperatorToken_MUL
| khOperatorToken_DIV | khOperatorToken_MODULO | khOperatorToken_POWER
| khOperatorToken_IADD | khOperatorToken_ISUB | khOperatorToken_IMUL
| khOperatorToken_IDIV | khOperatorToken_IMODULO | khOperatorToken_IPOWER
| khOperatorToken_ASSIGN | khOperatorToken_ID
| khOperatorToken_INCREMENT | khOperatorToken_DECREMENT
| khOperatorToken_EQUALS | khOperatorToken_NOT_EQUAL
| khOperatorToken_LESS | khOperatorToken_MORE
| khOperatorToken_ELESS | khOperatorToken_EMORE
| khOperatorToken_NOT | khOperatorToken_AND | khOperatorToken_OR
| khOperatorToken_XOR
| khOperatorToken_BIT_AND | khOperatorToken_BIT_OR
| khOperatorToken_BIT_LSHIFT | khOperatorToken_BIT_RSHIFT
| khOperatorToken_IBIT_AND | khOperatorToken_IBIT_OR
| khOperatorToken_IBIT_XOR | khOperatorToken_IBIT_LSHIFT
| khOperatorToken_IBIT_RSHIFT.

Inductive khDelimiterToken :=
| khDelimiterToken_DOT | khDelimiterToken_COMMA | khDelimiterToken_COLON
| khDelimiterToken_SEMICOLON | khDelimiterToken_EXCLAMATION
| khDelimiterToken_PARENTHESES_OPEN | khDelimiterToken_PARENTHESES_CLOSE
| khDelimiterToken_CURLY_BRACKET_OPEN | khDelimiterToken_CURLY_BRACKET_CLOSE
| khDelimiterToken_SQUARE_BRACKET_OPEN | khDelimiterToken_SQUARE_BRACKET_CLOSE
| khDelimiterToken_ARROW | khDelimiterToken_ELLIPSIS.

(** Modelled from the spec: the token kinds of the missing token header.
    Every [khToken_from...] constructor [lexer.c] calls is a
    constructor, holding the value of its field.  The integer tokens
    of [kh_lexNumber] hold the accumulator narrowed to the integer
    type the suffix table of the spec and the comments of
    [kh_lexNumber] give the field (see [integer_suffix]); the code
    point [kh_lex] passes to [khToken_fromByte] for a byte character
    is held as it is, [kh_lexChar] having reported it when it is above
    255.  [khToken_fromNewline] and [khToken_fromEof] are the spec's
    [NEWLINE] and [EOF] kinds, which no line of [lexer.c] builds. *)
Inductive khToken :=
| khToken_fromNone
| khToken_fromComment
| khToken_fromNewline
| khToken_fromEof
| khToken_fromIdentifier (identifier : list Z)
| khToken_fromKeyword (keyword : khKeywordToken)
| khToken_fromDelimiter (delimiter : khDelimiterToken)
| khToken_fromOperator (operator_v : khOperatorToken)
| khToken_fromChar (char_v : Z)
| khToken_fromString (string_v : list Z)
| khToken_fromBuffer (buffer : list Z)
| khToken_fromByte (byte : Z)
| khToken_fromSbyte (sbyte : Z)
| khToken_fromShort (short_v : Z)
| khToken_fromUshort (ushort_v : Z)
| khToken_fromInt (int_v : Z)
| khToken_fromUint (uint_v : Z)
| khToken_fromLong (long_v : Z)
| khToken_fromUlong (ulong_v : Z)
| khToken_fromFloat (float_v : khDouble)
| khToken_fromDouble (double_v : khDouble)
| khToken_fromIfloat (ifloat : khDouble)
| khToken_fromIdouble (idouble : khDouble).

(** [khLexError]: where the cursor stood and the message. *)
Record khLexError := { ptr : nat; error : string }.

(** The [ERROR_STR] macro, with a non-null [errors] array. *)
Definition ERROR_STR (errors : list khLexError) (cursor : nat) (msg : string)
  : list khLexError :=
  errors ++ [{| ptr := cursor; error := msg |}].

Definition digitOf (chr : Z) : Z :=
  if (U "0" <=? chr) && (chr <=? U "9") then chr - U "0"
  else if (U "A" <=? chr) && (chr <=? U "Z") then chr - U "A" + 10
  else if (U "a" <=? chr) && (chr <=? U "z") then chr - U "a" + 10
  else 255.

(** A loop [while (p(c)) cursor++;] over the code points [c] from the
    cursor on, for a classifier [p] that is false at the terminator: the
    number of code points it passes. *)
Fixpoint span (p : Z -> bool) (rest : list Z) : nat :=
  match rest with
  | [] => O
  | c :: rest' => if p c then S (span p rest') else O
  end.

(** The loop of [kh_lexInt] over the code points from the cursor on.
    [track] is [had_overflowed != NULL]. *)
Fixpoint kh_lexInt_loop (rest : list Z) (base max_length result : Z)
    (track had_overflowed : bool) (cursor : nat) : Z * bool * nat :=
  match rest with
  | [] => (result, had_overflowed, cursor)
  | c :: rest' =>
      if (digitOf c <? base) && (0 <? max_length) then
        let previous := result in
        let result := wrap64 (result * base) in
        let result := wrap64 (result + digitOf c) in
        let had_overflowed :=
          if (result <? previous) && track then true else had_overflowed in
        kh_lexInt_loop rest' base (max_length - 1) result track
          had_overflowed (S cursor)
      else (result, had_overflowed, cursor)
  end.

(** [kh_lexInt]: the value, the overflow flag and the new cursor. *)
Definition kh_lexInt (buf : list Z) (cursor : nat) (base max_length : Z)
    (track : bool) : Z * bool * nat :=
  kh_lexInt_loop (skipn cursor buf) base max_length 0 track false cursor.

(** The digits a loop [while (digitOf(c) < base)] of [kh_lexFloat] passes. *)
Definition digits_from (buf : list Z) (cursor : nat) (base : Z) : list Z :=
  let rest := skipn cursor buf in
  map digitOf (firstn (span (fun c => digitOf c <? base) rest) rest).

(** The exponent of [kh_lexFloat], after the [e] or [p] was passed. *)
Definition kh_lexFloat_exponent (buf : list Z) (cursor : nat) (binary : bool)
  : khExponent * nat :=
  if peek buf cursor =? U "-" then
    let cursor := S cursor in
    let '(value, had_overflowed, cursor) :=
      kh_lexInt buf cursor 10 SIZE_MAX true in
    ({| exp_binary := binary; exp_negative := true; exp_value := value;
        exp_overflowed := had_overflowed |}, cursor)
  else
    let cursor := if peek buf cursor =? U "+" then S cursor else cursor in
    let '(value, had_overflowed, cursor) :=
      kh_lexInt buf cursor 10 SIZE_MAX true in
    ({| exp_binary := binary; exp_negative := false; exp_value := value;
        exp_overflowed := had_overflowed |}, cursor).

Definition kh_lexFloat (buf : list Z) (cursor : nat) (base : Z)
  : khDouble * nat :=
  let whole := digits_from buf cursor base in
  let cursor := (cursor + List.length whole)%nat in
  let '(fraction, cursor) :=
    if peek buf cursor =? U "." then
      let cursor := S cursor in
      let fraction := digits_from buf cursor base in
      (fraction, (cursor + List.length fraction)%nat)
    else ([], cursor) in
  let c := peek buf cursor in
  if (c =? U "e") || (c =? U "E") then
    let '(exponent, cursor) := kh_lexFloat_exponent buf (S cursor) false in
    (khDouble_literal base whole fraction (Some exponent), cursor)
  else if (c =? U "p") || (c =? U "P") then
    let '(exponent, cursor) := kh_lexFloat_exponent buf (S cursor) true in
    (khDouble_literal base whole fraction (Some exponent), cursor)
  else (khDouble_literal base whole fraction None, cursor).

(** [case U'x': case U'X':] *)
Definition is_case (c : Z) (lower upper : ascii) : bool :=
  (c =? U lower) || (c =? U upper).

(** The suffix [switch] of a floating-point literal. *)
Definition float_suffix (buf : list Z) (cursor : nat) (floating : khDouble)
  : khToken * nat :=
  let c := peek buf cursor in
  let cursor := S cursor in
  if is_case c "f" "F" then (khToken_fromFloat floating, cursor)
  else if is_case c "d" "D" then (khToken_fromDouble floating, cursor)
  else if is_case c "i" "I" then
    let c := peek buf cursor in
    let cursor := S cursor in
    if is_case c "f" "F" then (khToken_fromIfloat floating, cursor)
    else if is_case c "d" "D" then (khToken_fromIdouble floating, cursor)
    else (khToken_fromIdouble floating, (cursor - 1)%nat)
  else (khToken_fromDouble floating, (cursor - 1)%nat).

(** The conversion of the [uint64_t] accumulator to the integer type
    of a token field, which the call of the token constructor makes:
    to an unsigned type of [bits] bits the value modulo [2 ^ bits]; to
    a signed type the two's-complement reading of these bits (C leaves
    the result to the implementation when the value is out of range;
    this is what gcc and clang define). *)
Definition narrow_unsigned (bits : Z) (integer : Z) : Z :=
  integer mod 2 ^ bits.

Definition narrow_signed (bits : Z) (integer : Z) : Z :=
  let low := integer mod 2 ^ bits in
  if low <? 2 ^ (bits - 1) then low else low - 2 ^ bits.

(** The suffix [switch] of an integer literal.  The field types are
    those of the comments of the cases and of the suffix table of the
    spec: byte u8, sbyte i8, short i16, ushort u16, int i32, uint u32,
    long i64, ulong u64. *)
Definition integer_suffix (buf : list Z) (cursor : nat) (integer : Z)
  : khToken * nat :=
  let c := peek buf cursor in
  let cursor := S cursor in
  if is_case c "b" "B" then
    (khToken_fromByte (narrow_unsigned 8 integer), cursor)
  else if is_case c "s" "S" then
    let c := peek buf cursor in
    let cursor := S cursor in
    if is_case c "b" "B" then
      (khToken_fromSbyte (narrow_signed 8 integer), cursor)
    else if is_case c "s" "S" then
      (khToken_fromShort (narrow_signed 16 integer), cursor)
    else if is_case c "l" "L" then
      (khToken_fromLong (narrow_signed 64 integer), cursor)
    else (khToken_fromShort (narrow_signed 16 integer), (cursor - 1)%nat)
  else if is_case c "l" "L" then
    (khToken_fromLong (narrow_signed 64 integer), cursor)
  else if is_case c "u" "U" then
    let c := peek buf cursor in
    let cursor := S cursor in
    if is_case c "b" "B" then
      (khToken_fromByte (narrow_unsigned 8 integer), cursor)
    else if is_case c "s" "S" then
      (khToken_fromUshort (narrow_unsigned 16 integer), cursor)
    else if is_case c "l" "L" then
      (khToken_fromUlong (narrow_unsigned 64 integer), cursor)
    else (khToken_fromUint (narrow_unsigned 32 integer), (cursor - 1)%nat)
  else if is_case c "f" "F" then
    (khToken_fromFloat (khDouble_ofInteger integer), cursor)
  else if is_case c "d" "D" then
    (khToken_fromDouble (khDouble_ofInteger integer), cursor)
  else if is_case c "i" "I" then
    let c := peek buf cursor in
    let cursor := S cursor in
    if is_case c "f" "F" then
      (khToken_fromIfloat (khDouble_ofInteger integer), cursor)
    else if is_case c "d" "D" then
      (khToken_fromIdouble (khDouble_ofInteger integer), cursor)
    else (khToken_fromIdouble (khDouble_ofInteger integer), (cursor - 1)%nat)
  else (khToken_fromInt (narrow_signed 32 integer), (cursor - 1)%nat).

(** The base prefix of [kh_lexNumber]: the base and the cursor after it. *)
Definition number_base (buf : list Z) (cursor : nat) : Z * nat :=
  if peek buf cursor =? U "0" then
    let cursor := S cursor in
    let c := peek buf cursor in
    let cursor := S cursor in
    if is_case c "b" "B" then (2, cursor)
    else if is_case c "o" "O" then (8, cursor)
    else if is_case c "x" "X" then (16, cursor)
    else (10, (cursor - 2)%nat)
  else (10, cursor).

Definition base_error (base : Z) : option string :=
  if base =? 2 then Some "expecting a binary number, either 0 or 1"%string
  else if base =? 8 then Some "expecting an octal number, from 0 to 7"%string
  else if base =? 10 then
    Some "expecting a decimal number, from 0 to 9"%string
  else if base =? 16 then
    Some "expecting a hexadecimal number, from 0 to 9 or A to F"%string
  else None.

Definition kh_lexNumber (buf : list Z) (cursor : nat)
    (errors : list khLexError) : khToken * nat * list khLexError :=
  if digitOf (peek buf cursor) >? 9 then
    (khToken_fromNone, cursor,
     ERROR_STR errors cursor "expecting a decimal number, from 0 to 9")
  else
    let '(base, cursor) := number_base buf cursor in
    let origin := cursor in
    let '(integer, had_overflowed, cursor) :=
      kh_lexInt buf cursor base SIZE_MAX true in
    if Nat.eqb cursor origin then
      (khToken_fromNone, cursor,
       match base_error base with
       | Some msg => ERROR_STR errors cursor msg
       | None => errors
       end)
    else
      let c := peek buf cursor in
      if is_case c "e" "E" || is_case c "p" "P" || (c =? U ".")
         || had_overflowed then
        let cursor := origin in
        let '(floating, cursor) := kh_lexFloat buf cursor base in
        let '(token, cursor) := float_suffix buf cursor floating in
        (token, cursor, errors)
      else
        let '(token, cursor) := integer_suffix buf cursor integer in
        (token, cursor, errors).

(** [kh_lexSymbol].  [delim] and [oper] are the two [return
    khToken_from...] forms of its cases. *)
Definition kh_lexSymbol (buf : list Z) (cursor : nat)
    (errors : list khLexError) : khToken * nat * list khLexError :=
  let delim d (cursor : nat) := (khToken_fromDelimiter d, cursor, errors) in
  let oper o (cursor : nat) := (khToken_fromOperator o, cursor, errors) in
  let c := peek buf cursor in
  let cursor := S cursor in
  if c =? U "," then delim khDelimiterToken_COMMA cursor
  else if c =? U ":" then delim khDelimiterToken_COLON cursor
  else if c =? U ";" then delim khDelimiterToken_SEMICOLON cursor
  else if c =? U "(" then delim khDelimiterToken_PARENTHESES_OPEN cursor
  else if c =? U ")" then delim khDelimiterToken_PARENTHESES_CLOSE cursor
  else if c =? U "{" then delim khDelimiterToken_CURLY_BRACKET_OPEN cursor
  else if c =? U "}" then delim khDelimiterToken_CURLY_BRACKET_CLOSE cursor
  else if c =? U "[" then delim khDelimiterToken_SQUARE_BRACKET_OPEN cursor
  else if c =? U "]" then delim khDelimiterToken_CURLY_BRACKET_CLOSE cursor
  else if c =? U "." then
    if (peek buf cursor =? U ".") && (peek buf (cursor + 1) =? U ".") then
      delim khDelimiterToken_ELLIPSIS (cursor + 2)%nat
    else delim khDelimiterToken_DOT cursor
  else if c =? U "+" then
    let c := peek buf cursor in
    let cursor := S cursor in
    if c =? U "+" then oper khOperatorToken_INCREMENT cursor
    else if c =? U "=" then oper khOperatorToken_IADD cursor
    else oper khOperatorToken_ADD (cursor - 1)%nat
  else if c =? U "-" then
    let c := peek buf cursor in
    let cursor := S cursor in
    if c =? U "-" then oper khOperatorToken_DECREMENT cursor
    else if c =? U "=" then oper khOperatorToken_ISUB cursor
    else if c =? U ">" then delim khDelimiterToken_ARROW cursor
    else oper khOperatorToken_SUB (cursor - 1)%nat
  else if c =? U "*" then
    if peek buf cursor =? U "=" then oper khOperatorToken_IMUL (S cursor)
    else oper khOperatorToken_MUL cursor
  else if c =? U "/" then
    if peek buf cursor =? U "=" then oper khOperatorToken_IDIV (S cursor)
    else oper khOperatorToken_DIV cursor
  else if c =? U "%" then
    if peek buf cursor =? U "=" then oper khOperatorToken_IMODULO (S cursor)
    else oper khOperatorToken_MODULO cursor
  else if c =? U "^" then
    if peek buf cursor =? U "=" then oper khOperatorToken_IPOWER (S cursor)
    else oper khOperatorToken_POWER cursor
  else if c =? U "=" then
    if peek buf cursor =? U "=" then oper khOperatorToken_EQUALS (S cursor)
    else oper khOperatorToken_ASSIGN cursor
  else if c =? U "@" then oper khOperatorToken_ID cursor
  else if c =? U "!" then
    if peek buf cursor =? U "=" then oper khOperatorToken_NOT_EQUAL (S cursor)
    else delim khDelimiterToken_EXCLAMATION cursor
  else if c =? U "<" then
    let c := peek buf cursor in
    let cursor := S cursor in
    if c =? U "=" then oper khOperatorToken_ELESS cursor
    else if c =? U "<" then
      if peek buf cursor =? U "=" then
        oper khOperatorToken_IBIT_LSHIFT (S cursor)
      else oper khOperatorToken_BIT_LSHIFT cursor
    else oper khOperatorToken_LESS (cursor - 1)%nat
  else if c =? U ">" then
    let c := peek buf cursor in
    let cursor := S cursor in
    if c =? U "=" then oper khOperatorToken_EMORE cursor
    else if c =? U "<" then
      if peek buf cursor =? U "=" then
        oper khOperatorToken_IBIT_RSHIFT (S cursor)
      else oper khOperatorToken_BIT_RSHIFT cursor
    else oper khOperatorToken_MORE (cursor - 1)%nat
  else if c =? U "~" then
    if peek buf cursor =? U "=" then oper khOperatorToken_IBIT_XOR (S cursor)
    else oper khOperatorToken_BIT_OR cursor
  else if c =? U "&" then
    if peek buf cursor =? U "=" then oper khOperatorToken_IBIT_AND (S cursor)
    else oper khOperatorToken_BIT_AND cursor
  else if c =? U "|" then
    if peek buf cursor =? U "=" then oper khOperatorToken_IBIT_OR (S cursor)
    else oper khOperatorToken_BIT_OR cursor
  else if c =? U_nul then
    let cursor := (cursor - 1)%nat in
    (khToken_fromNone, cursor,
     ERROR_STR errors cursor "expecting a token, met with a dead end")
  else
    let cursor := (cursor - 1)%nat in
    (khToken_fromNone, cursor, ERROR_STR errors cursor "unknown character").

(** [kh_compareCstring] of [kithare/string.h]: the array holds exactly
    the code points of the C string. *)
Fixpoint kh_compareCstring (identifier : list Z) (cstring : list Z) : bool :=
  match identifier, cstring with
  | [], [] => true
  | a :: identifier', b :: cstring' =>
      (a =? b) && kh_compareCstring identifier' cstring'
  | _, _ => false
  end.

(** The [CASE_OPERATOR] and [CASE_KEYWORD] cascades of [kh_lexWord], in
    the order of the source: the first string that compares equal. *)
Definition word_operators : list (string * khOperatorToken) :=
  [ ("not", khOperatorToken_NOT); ("and", khOperatorToken_AND);
    ("or", khOperatorToken_OR); ("xor", khOperatorToken_XOR) ]%string.

Definition word_keywords : list (string * khKeywordToken) :=
  [ ("import", khKeywordToken_IMPORT); ("include", khKeywordToken_INCLUDE);
    ("as", khKeywordToken_AS); ("try", khKeywordToken_TRY);
    ("def", khKeywordToken_DEF); ("class", khKeywordToken_CLASS);
    ("struct", khKeywordToken_STRUCT); ("enum", khKeywordToken_ENUM);
    ("alias", khKeywordToken_ALIAS);
    ("ref", khKeywordToken_REF); ("public", khKeywordToken_PUBLIC);
    ("private", khKeywordToken_PRIVATE); ("static", khKeywordToken_STATIC);
    ("if", khKeywordToken_IF); ("elif", khKeywordToken_ELIF);
    ("else", khKeywordToken_ELSE); ("for", khKeywordToken_FOR);
    ("while", khKeywordToken_WHILE); ("do", khKeywordToken_DO);
    ("break", khKeywordToken_BREAK); ("continue", khKeywordToken_CONTINUE);
    ("return", khKeywordToken_RETURN) ]%string.

Fixpoint first_case {A : Type} (identifier : list Z)
    (cases : list (string * A)) : option A :=
  match cases with
  | [] => None
  | (cstring, code) :: cases' =>
      if kh_compareCstring identifier (codes cstring) then Some code
      else first_case identifier cases'
  end.

Definition kh_lexWord (buf : list Z) (cursor : nat)
    (errors : list khLexError) : khToken * nat * list khLexError :=
  let origin := cursor in
  let cursor := (cursor + span iswalnum (skipn cursor buf))%nat in
  let identifier := firstn (cursor - origin) (skipn origin buf) in
  match first_case identifier word_operators with
  | Some operator_v => (khToken_fromOperator operator_v, cursor, errors)
  | None =>
      match first_case identifier word_keywords with
      | Some keyword => (khToken_fromKeyword keyword, cursor, errors)
      | None => (khToken_fromIdentifier identifier, cursor, errors)
      end
  end.

(** An escape made of [length] hexadecimal digits: [\x], [\u], [\U]. *)
Definition hex_escape (buf : list Z) (cursor : nat) (length : nat)
    (msg : string) (errors : list khLexError)
  : Z * nat * list khLexError :=
  let origin := cursor in
  let '(value, _, cursor) :=
    kh_lexInt buf cursor 16 (Z.of_nat length) false in
  let chr := value mod 2 ^ 32 in
  if negb (Nat.eqb cursor (origin + length)) then
    (chr, cursor, ERROR_STR errors cursor msg)
  else (chr, cursor, errors).

(** The body of [kh_lexChar] between the two quote checks.  The last
    component says that the body left through [return chr]. *)
Definition kh_lexChar_body (buf : list Z) (cursor : nat)
    (with_quotes is_byte : bool) (errors : list khLexError)
  : Z * nat * list khLexError * bool :=
  if peek buf cursor =? U "\" then
    let cursor := S cursor in
    let c := peek buf cursor in
    let cursor := S cursor in
    if c =? U "0" then (U_nul, cursor, errors, false)
    else if c =? U "n" then (U_newline, cursor, errors, false)
    else if c =? U "r" then (U_return, cursor, errors, false)
    else if c =? U "t" then (U_tab, cursor, errors, false)
    else if c =? U "v" then (U_vtab, cursor, errors, false)
    else if c =? U "b" then (U_backspace, cursor, errors, false)
    else if c =? U "a" then (U_bell, cursor, errors, false)
    else if c =? U "f" then (U_formfeed, cursor, errors, false)
    else if c =? U "\" then (U "\", cursor, errors, false)
    else if c =? U "'" then (U "'", cursor, errors, false)
    else if c =? U_dquote then (U_dquote, cursor, errors, false)
    else if c =? U "x" then
      (hex_escape buf cursor 2
         "expecting 2 hexadecimal digits for 1 byte character, from 0 to 9 or A to F"
         errors, false)
    else if c =? U "u" then
      if is_byte then
        let cursor := (cursor - 1)%nat in
        (0, cursor,
         ERROR_STR errors cursor
           "only allowing one byte characters, 2 byte unicode escapes are not allowed",
         false)
      else
        (hex_escape buf cursor 4
           "expecting 4 hexadecimal digits for 2 byte unicode character, from 0 to 9 or A to F"
           errors, false)
    else if c =? U "U" then
      if is_byte then
        let cursor := (cursor - 1)%nat in
        (0, cursor,
         ERROR_STR errors cursor
           "only allowing one byte characters, 4 byte unicode escapes are not allowed",
         false)
      else
        (hex_escape buf cursor 8
           "expecting 8 hexadecimal digits for 4 byte unicode character, from 0 to 9 or A to F"
           errors, false)
    else if c =? U_nul then
      let cursor := (cursor - 1)%nat in
      (0, cursor,
       ERROR_STR errors cursor
         "expecting a backslash escape character, met with a dead end",
       true)
    else
      let cursor := (cursor - 1)%nat in
      (0, cursor, ERROR_STR errors cursor "unknown backslash escape character",
       false)
  else
    let c := peek buf cursor in
    if c =? U "'" then
      (0, cursor,
       if with_quotes then
         ERROR_STR errors cursor
           "a character cannot be closed empty, did you mean U'\''"
       else errors,
       false)
    else if c =? U_newline then
      (0, cursor,
       ERROR_STR errors cursor
         "a newline instead of an inline character, did you mean U'\n'",
       false)
    else if c =? U_nul then
      (0, cursor,
       ERROR_STR errors cursor "expecting a character, met with a dead end",
       true)
    else
      let chr := c in
      if is_byte && (chr >? 255) then
        (chr, cursor,
         ERROR_STR errors cursor
           "only allowing one byte characters, unicode character is forbidden",
         false)
      else (chr, S cursor, errors, false).

Definition kh_lexChar (buf : list Z) (cursor : nat)
    (with_quotes is_byte : bool) (errors : list khLexError)
  : Z * nat * list khLexError :=
  let '(cursor, errors) :=
    if with_quotes then
      if peek buf cursor =? U "'" then (S cursor, errors)
      else
        (cursor,
         ERROR_STR errors cursor
           "expecting a single quote opening for a character")
    else (cursor, errors) in
  let '(chr, cursor, errors, returned) :=
    kh_lexChar_body buf cursor with_quotes is_byte errors in
  if returned then (chr, cursor, errors)
  else if with_quotes then
    if peek buf cursor =? U "'" then (chr, S cursor, errors)
    else
      (chr, cursor,
       ERROR_STR errors cursor
         "expecting a single quote closing of the character")
  else (chr, cursor, errors).

(** The [while (true)] loop of [kh_lexString].  It is the one loop of
    the lexer that need not end, so it runs on fuel: [None] is a loop
    that is still running when the fuel is spent. *)
Fixpoint kh_lexString_loop (fuel : nat) (buf : list Z)
    (is_buffer multiline : bool) (string : list Z) (cursor : nat)
    (errors : list khLexError)
  : option (list Z * nat * list khLexError) :=
  match fuel with
  | O => None
  | S fuel' =>
      let c := peek buf cursor in
      if c =? U_dquote then
        if multiline then
          if (peek buf (cursor + 1) =? U_dquote)
             && (peek buf (cursor + 2) =? U_dquote) then
            Some (string, (cursor + 3)%nat, errors)
          else
            kh_lexString_loop fuel' buf is_buffer multiline
              (string ++ [U_dquote]) (S cursor) errors
        else Some (string, S cursor, errors)
      else if c =? U_newline then
        if multiline then
          kh_lexString_loop fuel' buf is_buffer multiline
            (string ++ [U_newline]) (S cursor) errors
        else
          kh_lexString_loop fuel' buf is_buffer multiline string cursor
            (ERROR_STR errors cursor
               "a newline instead of an inline character, use U'\n' or a multiline string instead")
      else if c =? U_nul then
        Some (string, cursor,
              ERROR_STR errors cursor
                "expecting a character, met with a dead end")
      else
        let '(chr, cursor, errors) :=
          kh_lexChar buf cursor false is_buffer errors in
        kh_lexString_loop fuel' buf is_buffer multiline (string ++ [chr])
          cursor errors
  end.

Definition kh_lexString (fuel : nat) (buf : list Z) (cursor : nat)
    (is_buffer : bool) (errors : list khLexError)
  : option (list Z * nat * list khLexError) :=
  let '(multiline, cursor, errors) :=
    if peek buf cursor =? U_dquote then
      let cursor := S cursor in
      if (peek buf cursor =? U_dquote)
         && (peek buf (cursor + 1) =? U_dquote) then
        (true, (cursor + 2)%nat, errors)
      else (false, cursor, errors)
    else
      (false, cursor,
       ERROR_STR errors cursor "expecting a double quote for a string") in
  kh_lexString_loop fuel buf is_buffer multiline [] cursor errors.

(** [kh_lex].  The fuel is that of [kh_lexString]; every other path
    returns whatever the fuel. *)
Definition kh_lex (fuel : nat) (buf : list Z) (cursor : nat)
    (errors : list khLexError)
  : option (khToken * nat * list khLexError) :=
  let cursor := (cursor + span iswspace (skipn cursor buf))%nat in
  let c := peek buf cursor in
  if iswalpha c then
    if is_case c "b" "B" then
      let cursor := S cursor in
      let c := peek buf cursor in
      if c =? U "'" then
        let '(chr, cursor, errors) := kh_lexChar buf cursor true true errors in
        Some (khToken_fromByte chr, cursor, errors)
      else if c =? U_dquote then
        match kh_lexString fuel buf cursor true errors with
        | Some (string, cursor, errors) =>
            Some (khToken_fromBuffer (map (fun chr => chr mod 256) string),
                  cursor, errors)
        | None => None
        end
      else
        let cursor := (cursor - 1)%nat in
        Some (kh_lexWord buf cursor errors)
    else Some (kh_lexWord buf cursor errors)
  else if digitOf c <? 10 then Some (kh_lexNumber buf cursor errors)
  else if c =? U "'" then
    let '(chr, cursor, errors) := kh_lexChar buf cursor true false errors in
    Some (khToken_fromChar chr, cursor, errors)
  else if c =? U_dquote then
    match kh_lexString fuel buf cursor false errors with
    | Some (string, cursor, errors) =>
        Some (khToken_fromString string, cursor, errors)
    | None => None
    end
  else if c =? U "#" then
    let cursor := S cursor in
    let in_comment c := negb ((c =? U_newline) || (c =? U_nul)) in
    let cursor := (cursor + span in_comment (skipn cursor buf))%nat in
    let cursor := if peek buf cursor =? U_newline then S cursor else cursor in
    Some (khToken_fromComment, cursor, errors)
  else Some (kh_lexSymbol buf cursor errors).

(** *** Notions the properties are stated with *)

(** The code points on which an iteration of the loop of
    [kh_lexString] neither returns nor moves the cursor: a raw newline
    outside a multiline string, a single quote, and a code point above
    255 in a byte buffer. *)
Definition stalls (is_buffer multiline : bool) (c : Z) : bool :=
  ((c =? U_newline) && negb multiline)
  || (c =? U "'")
  || (is_buffer && (c >? 255)).

(** The string literal [kh_lex] is about to scan from [cursor], if
    any: whether it is a byte buffer, and where its opening quote is. *)
Definition string_start (buf : list Z) (cursor : nat) : option (bool * nat) :=
  let cursor := (cursor + span iswspace (skipn cursor buf))%nat in
  let c := peek buf cursor in
  if c =? U_dquote then Some (false, cursor)
  else if is_case c "b" "B" && (peek buf (S cursor) =? U_dquote) then
    Some (true, S cursor)
  else None.

(** The opening quote at [quote] is that of a multiline string. *)
Definition opens_multiline (buf : list Z) (quote : nat) : bool :=
  (peek buf (S quote) =? U_dquote) && (peek buf (S quote + 1) =? U_dquote).

(** [token] is one of the tokens [lexer.c] has a constructor call for. *)
Definition built (token : khToken) : Prop :=
  token <> khToken_fromNewline /\ token <> khToken_fromEof.

(** What [kh_lexWord] does with the word it isolated. *)
Definition word_token (identifier : list Z) : khToken :=
  match first_case identifier word_operators with
  | Some operator_v => khToken_fromOperator operator_v
  | None =>
      match first_case identifier word_keywords with
      | Some keyword => khToken_fromKeyword keyword
      | None => khToken_fromIdentifier identifier
      end
  end.

(** The cursor [kh_lexChar_body] leaves. *)
Definition body_cursor (r : Z * nat * list khLexError * bool) : nat :=
  snd (fst (fst r)).

(** The words [kh_lexWord] has a [CASE_KEYWORD] line for: the spec's
    fixed set without [wild], [incase] and [in]. *)
Definition lexed_keywords : list (string * khKeywordToken) :=
  [ ("import", khKeywordToken_IMPORT); ("include", khKeywordToken_INCLUDE);
    ("as", khKeywordToken_AS); ("try", khKeywordToken_TRY);
    ("def", khKeywordToken_DEF); ("class", khKeywordToken_CLASS);
    ("struct", khKeywordToken_STRUCT); ("enum", khKeywordToken_ENUM);
    ("alias", khKeywordToken_ALIAS); ("ref", khKeywordToken_REF);
    ("public", khKeywordToken_PUBLIC); ("private", khKeywordToken_PRIVATE);
    ("static", khKeywordToken_STATIC); ("if", khKeywordToken_IF);
    ("elif", khKeywordToken_ELIF); ("else", khKeywordToken_ELSE);
    ("for", khKeywordToken_FOR); ("while", khKeywordToken_WHILE);
    ("do", khKeywordToken_DO); ("break", khKeywordToken_BREAK);
    ("continue", khKeywordToken_CONTINUE);
    ("return", khKeywordToken_RETURN) ]%string.

(** The word operators of the spec. *)
Definition lexed_word_operators : list (string * khOperatorToken) :=
  [ ("not", khOperatorToken_NOT); ("and", khOperatorToken_AND);
    ("or", khOperatorToken_OR); ("xor", khOperatorToken_XOR) ]%string.

(** The words of the two sets, as code points. *)
Definition reserved_words : list (list Z) :=
  map (fun entry => codes (fst entry)) lexed_word_operators
  ++ map (fun entry => codes (fst entry)) lexed_keywords.

(** [w] is a word [kh_lex] lexes as a word when [rest] follows it: it is
    made of alphanumeric code points, the first alphabetic, [rest] does
    not go on with one, and it is not the [b] of a byte character or
    byte buffer literal. *)
Definition is_word (w rest : list Z) : Prop :=
  iswalpha (hd 0 w) = true
  /\ Forall (fun c => iswalnum c = true) w
  /\ iswalnum (hd 0 rest) = false
  /\ (is_case (hd 0 w) "b" "B" = true -> List.length w = 1%nat ->
      hd 0 rest <> U "'" /\ hd 0 rest <> U_dquote).

(** The value of a digit sequence in a base, most significant first. *)
Definition value_of (base : Z) (digits : list Z) : Z :=
  fold_left (fun value digit => value * base + digit) digits 0.

(** [errors'] is [errors] with diagnostics pushed behind it, each at a
    position from [lo] to [hi]. *)
Definition reported (errors errors' : list khLexError) (lo hi : nat) : Prop :=
  exists new,
    errors' = errors ++ new
    /\ Forall (fun e => (lo <= ptr e <= hi)%nat) new.

(** A code point that the loop of [kh_lexString] takes as itself: not
    the double quote, the terminator or the backslash, and not one it
    stalls on. *)
Definition plain (is_buffer multiline : bool) (c : Z) : bool :=
  negb (c =? U_dquote) && negb (c =? U_nul) && negb (c =? U "\")
  && negb (stalls is_buffer multiline c).

(** The base prefixes of [kh_lexNumber], with their bases; no prefix
    is base ten. *)
Definition number_prefixes : list (string * Z) :=
  [ ("", 10); ("0b", 2); ("0B", 2); ("0o", 8); ("0O", 8); ("0x", 16);
    ("0X", 16) ]%string.

(** The spellings [kh_lexSymbol] has a case for, each with the token
    of the case. *)
Definition lexed_symbols : list (string * khToken) :=
  [ (",", khToken_fromDelimiter khDelimiterToken_COMMA);
    (":", khToken_fromDelimiter khDelimiterToken_COLON);
    (";", khToken_fromDelimiter khDelimiterToken_SEMICOLON);
    ("(", khToken_fromDelimiter khDelimiterToken_PARENTHESES_OPEN);
    (")", khToken_fromDelimiter khDelimiterToken_PARENTHESES_CLOSE);
    ("{", khToken_fromDelimiter khDelimiterToken_CURLY_BRACKET_OPEN);
    ("}", khToken_fromDelimiter khDelimiterToken_CURLY_BRACKET_CLOSE);
    ("[", khToken_fromDelimiter khDelimiterToken_SQUARE_BRACKET_OPEN);
    ("]", khToken_fromDelimiter khDelimiterToken_CURLY_BRACKET_CLOSE);
    (".", khToken_fromDelimiter khDelimiterToken_DOT);
    ("...", khToken_fromDelimiter khDelimiterToken_ELLIPSIS);
    ("+", khToken_fromOperator khOperatorToken_ADD);
    ("++", khToken_fromOperator khOperatorToken_INCREMENT);
    ("+=", khToken_fromOperator khOperatorToken_IADD);
    ("-", khToken_fromOperator khOperatorToken_SUB);
    ("--", khToken_fromOperator khOperatorToken_DECREMENT);
    ("-=", khToken_fromOperator khOperatorToken_ISUB);
    ("->", khToken_fromDelimiter khDelimiterToken_ARROW);
    ("*", khToken_fromOperator khOperatorToken_MUL);
    ("*=", khToken_fromOperator khOperatorToken_IMUL);
    ("/", khToken_fromOperator khOperatorToken_DIV);
    ("/=", khToken_fromOperator khOperatorToken_IDIV);
    ("%", khToken_fromOperator khOperatorToken_MODULO);
    ("%=", khToken_fromOperator khOperatorToken_IMODULO);
    ("^", khToken_fromOperator khOperatorToken_POWER);
    ("^=", khToken_fromOperator khOperatorToken_IPOWER);
    ("=", khToken_fromOperator khOperatorToken_ASSIGN);
    ("==", khToken_fromOperator khOperatorToken_EQUALS);
    ("@", khToken_fromOperator khOperatorToken_ID);
    ("!", khToken_fromDelimiter khDelimiterToken_EXCLAMATION);
    ("!=", khToken_fromOperator khOperatorToken_NOT_EQUAL);
    ("<", khToken_fromOperator khOperatorToken_LESS);
    ("<=", khToken_fromOperator khOperatorToken_ELESS);
    ("<<", khToken_fromOperator khOperatorToken_BIT_LSHIFT);
    ("<<=", khToken_fromOperator khOperatorToken_IBIT_LSHIFT);
    (">", khToken_fromOperator khOperatorToken_MORE);
    (">=", khToken_fromOperator khOperatorToken_EMORE);
    ("><", khToken_fromOperator khOperatorToken_BIT_RSHIFT);
    ("><=", khToken_fromOperator khOperatorToken_IBIT_RSHIFT);
    ("~", khToken_fromOperator khOperatorToken_BIT_OR);
    ("~=", khToken_fromOperator khOperatorToken_IBIT_XOR);
    ("&", khToken_fromOperator khOperatorToken_BIT_AND);
    ("&=", khToken_fromOperator khOperatorToken_IBIT_AND);
    ("|", khToken_fromOperator khOperatorToken_BIT_OR);
    ("|=", khToken_fromOperator khOperatorToken_IBIT_OR) ]%string.

(** The code points a longer spelling goes on with. *)
Definition symbol_continuations : list Z := codes "+-=<>.".

(** The code point neither continues a spelling nor is one of them. *)
Definition ends_symbol (c : Z) : bool :=
  negb (existsb (Z.eqb c) symbol_continuations).

End Lexer.


(** ** The parser, [src/parser.c] *)
Module Parser.

(** [khstring]: an array of code points. *)
Definition khstring := list Z.

(** Modelled from the spec: the token header ([kithare/core/token.h])
    that [parser.c] includes is not among the sources.  The codes are
    the names [parser.c] uses, completed with the spec's keyword set
    and its [@] operator. *)
Inductive khKeywordToken :=
| khKeywordToken_IMPORT | khKeywordToken_INCLUDE | khKeywordToken_AS
| khKeywordToken_TRY | khKeywordToken_DEF | khKeywordToken_CLASS
| khKeywordToken_STRUCT | khKeywordToken_ENUM | khKeywordToken_ALIAS
| khKeywordToken_REF | khKeywordToken_WILD | khKeywordToken_PUBLIC
| khKeywordToken_PRIVATE | khKeywordToken_STATIC | khKeywordToken_INCASE
| khKeywordToken_IF | khKeywordToken_ELIF | khKeywordToken_ELSE
| khKeywordToken_FOR | khKeywordToken_WHILE | khKeywordToken_DO
| khKeywordToken_BREAK | khKeywordToken_CONTINUE | khKeywordToken_RETURN
| khKeywordToken_IN.

Inductive khOperatorToken :=
| khOperatorToken_ADD | khOperatorToken_SUB | khOperatorToken_MUL
| khOperatorToken_DIV | khOperatorToken_MOD | khOperatorToken_POW
| khOperatorToken_IADD | khOperatorToken_ISUB | khOperatorToken_IMUL
| khOperatorToken_IDIV | khOperatorToken_IMOD | khOperatorToken_IPOW
| khOperatorToken_IDOT | khOperatorToken_ASSIGN | khOperatorToken_ID
| khOperatorToken_INCREMENT | khOperatorToken_DECREMENT
| khOperatorToken_EQUAL | khOperatorToken_NOT_EQUAL
| khOperatorToken_LESS | khOperatorToken_MORE
| khOperatorToken_ELESS | khOperatorToken_EMORE
| khOperatorToken_NOT | khOperatorToken_AND | khOperatorToken_OR
| khOperatorToken_XOR
| khOperatorToken_BIT_NOT | khOperatorToken_BIT_AND
| khOperatorToken_BIT_OR | khOperatorToken_BIT_XOR
| khOperatorToken_BIT_LSHIFT | khOperatorToken_BIT_RSHIFT
| khOperatorToken_IBIT_AND | khOperatorToken_IBIT_OR
| khOperatorToken_IBIT_XOR | khOperatorToken_IBIT_LSHIFT
| khOperatorToken_IBIT_RSHIFT.

Inductive khDelimiterToken :=
| khDelimiterToken_DOT | khDelimiterToken_COMMA | khDelimiterToken_COLON
| khDelimiterToken_SEMICOLON | khDelimiterToken_EXCLAMATION
| khDelimiterToken_PARENTHESIS_OPEN | khDelimiterToken_PARENTHESIS_CLOSE
| khDelimiterToken_CURLY_BRACKET_OPEN | khDelimiterToken_CURLY_BRACKET_CLOSE
| khDelimiterToken_SQUARE_BRACKET_OPEN | khDelimiterToken_SQUARE_BRACKET_CLOSE
| khDelimiterToken_ARROW | khDelimiterToken_ELLIPSIS.

Scheme Equality for khKeywordToken.
Scheme Equality for khOperatorToken.
Scheme Equality for khDelimiterToken.

(** A [khToken]: its [type] with the member of the union that goes with
    it.  The [begin] pointer is not modelled. *)
Inductive khToken :=
| khTokenType_INVALID
| khTokenType_EOF
| khTokenType_NEWLINE
| khTokenType_COMMENT
| khTokenType_IDENTIFIER (identifier : khstring)
| khTokenType_KEYWORD (keyword : khKeywordToken)
| khTokenType_DELIMITER (delimiter : khDelimiterToken)
| khTokenType_OPERATOR (operator_v : khOperatorToken)
| khTokenType_CHAR (char_v : Z)
| khTokenType_STRING (string_v : khstring)
| khTokenType_BUFFER (buffer : list Z)
| khTokenType_BYTE (byte : Z)
| khTokenType_INTEGER (integer : Z)
| khTokenType_UINTEGER (uinteger : Z)
| khTokenType_FLOAT (float_v : khDouble)
| khTokenType_DOUBLE (double_v : khDouble)
| khTokenType_IFLOAT (ifloat : khDouble)
| khTokenType_IDOUBLE (idouble : khDouble).

Definition is_keyword (token : khToken) (k : khKeywordToken) : bool :=
  match token with
  | khTokenType_KEYWORD keyword => khKeywordToken_beq keyword k
  | _ => false
  end.

Definition is_delimiter (token : khToken) (d : khDelimiterToken) : bool :=
  match token with
  | khTokenType_DELIMITER delimiter => khDelimiterToken_beq delimiter d
  | _ => false
  end.

Definition is_operator (token : khToken) (o : khOperatorToken) : bool :=
  match token with
  | khTokenType_OPERATOR operator_v => khOperatorToken_beq operator_v o
  | _ => false
  end.

Definition is_EOF (token : khToken) : bool :=
  match token with khTokenType_EOF => true | _ => false end.

Definition is_NEWLINE (token : khToken) : bool :=
  match token with khTokenType_NEWLINE => true | _ => false end.

Definition is_COMMENT (token : khToken) : bool :=
  match token with khTokenType_COMMENT => true | _ => false end.

(** *** The syntax tree ([kithare/core/ast.h], from its use in
    [parser.c]).  The [begin] and [end] pointers of a node are not
    modelled. *)
Inductive khAstUnaryExpressionType :=
| khAstUnaryExpressionType_POSITIVE | khAstUnaryExpressionType_NEGATIVE
| khAstUnaryExpressionType_PRE_INCREMENT
| khAstUnaryExpressionType_PRE_DECREMENT
| khAstUnaryExpressionType_POST_INCREMENT
| khAstUnaryExpressionType_POST_DECREMENT
| khAstUnaryExpressionType_NOT | khAstUnaryExpressionType_BIT_NOT.

Inductive khAstBinaryExpressionType :=
| khAstBinaryExpressionType_ADD | khAstBinaryExpressionType_SUB
| khAstBinaryExpressionType_MUL | khAstBinaryExpressionType_DIV
| khAstBinaryExpressionType_MOD | khAstBinaryExpressionType_POW
| khAstBinaryExpressionType_IADD | khAstBinaryExpressionType_ISUB
| khAstBinaryExpressionType_IMUL | khAstBinaryExpressionType_IDIV
| khAstBinaryExpressionType_IMOD | khAstBinaryExpressionType_IPOW
| khAstBinaryExpressionType_IDOT | khAstBinaryExpressionType_ASSIGN
| khAstBinaryExpressionType_AND | khAstBinaryExpressionType_OR
| khAstBinaryExpressionType_XOR
| khAstBinaryExpressionType_BIT_AND | khAstBinaryExpressionType_BIT_OR
| khAstBinaryExpressionType_BIT_XOR
| khAstBinaryExpressionType_BIT_LSHIFT | khAstBinaryExpressionType_BIT_RSHIFT
| khAstBinaryExpressionType_IBIT_AND | khAstBinaryExpressionType_IBIT_OR
| khAstBinaryExpressionType_IBIT_XOR
| khAstBinaryExpressionType_IBIT_LSHIFT
| khAstBinaryExpressionType_IBIT_RSHIFT.

Inductive khAstComparisonExpressionType :=
| khAstComparisonExpressionType_EQUAL
| khAstComparisonExpressionType_NOT_EQUAL
| khAstComparisonExpressionType_LESS | khAstComparisonExpressionType_MORE
| khAstComparisonExpressionType_ELESS | khAstComparisonExpressionType_EMORE.

Inductive khAstExpression :=
| khAstExpressionType_INVALID
| khAstExpressionType_IDENTIFIER (identifier : khstring)
| khAstExpressionType_CHAR (char_v : Z)
| khAstExpressionType_STRING (string_v : khstring)
| khAstExpressionType_BUFFER (buffer : list Z)
| khAstExpressionType_BYTE (byte : Z)
| khAstExpressionType_INTEGER (integer : Z)
| khAstExpressionType_UINTEGER (uinteger : Z)
| khAstExpressionType_FLOAT (float_v : khDouble)
| khAstExpressionType_DOUBLE (double_v : khDouble)
| khAstExpressionType_IFLOAT (ifloat : khDouble)
| khAstExpressionType_IDOUBLE (idouble : khDouble)
| khAstExpressionType_VARIABLE_DECLARATION (is_static is_wild is_ref : bool)
    (name : khstring)
    (optional_type optional_initializer : option khAstExpression)
| khAstExpressionType_LAMBDA (arguments : list khAstExpression)
    (optional_variadic_argument : option khAstExpression)
    (is_return_type_ref : bool)
    (optional_return_type : option khAstExpression) (content : list khAst)
| khAstExpressionType_FUNCTION_TYPE (are_arguments_refs : list bool)
    (argument_types : list khAstExpression) (is_return_type_ref : bool)
    (optional_return_type : option khAstExpression)
| khAstExpressionType_TUPLE (values : list khAstExpression)
| khAstExpressionType_ARRAY (values : list khAstExpression)
| khAstExpressionType_DICT (keys values : list khAstExpression)
| khAstExpressionType_UNARY (type : khAstUnaryExpressionType)
    (operand : khAstExpression)
| khAstExpressionType_BINARY (type : khAstBinaryExpressionType)
    (left right : khAstExpression)
| khAstExpressionType_TERNARY (value condition otherwise : khAstExpression)
| khAstExpressionType_COMPARISON
    (operations : list khAstComparisonExpressionType)
    (operands : list khAstExpression)
| khAstExpressionType_CALL (callee : khAstExpression)
    (arguments : list khAstExpression)
| khAstExpressionType_INDEX (indexee : khAstExpression)
    (arguments : list khAstExpression)
| khAstExpressionType_SCOPE (value : khAstExpression)
    (scope_names : list khstring)
| khAstExpressionType_TEMPLATIZE (value : khAstExpression)
    (template_arguments : list khAstExpression)
with khAst :=
| khAstType_INVALID
| khAstType_IMPORT (path : list khstring) (relative : bool)
    (optional_alias : option khstring)
| khAstType_INCLUDE (path : list khstring) (relative : bool)
| khAstType_FUNCTION (is_incase is_static : bool)
    (name_point : khAstExpression) (arguments : list khAstExpression)
    (optional_variadic_argument : option khAstExpression)
    (is_return_type_ref : bool)
    (optional_return_type : option khAstExpression) (content : list khAst)
| khAstType_CLASS (is_incase : bool) (name : khstring)
    (template_arguments : list khstring)
    (optional_base_type : option khAstExpression) (content : list khAst)
| khAstType_STRUCT (is_incase : bool) (name : khstring)
    (template_arguments : list khstring)
    (optional_base_type : option khAstExpression) (content : list khAst)
| khAstType_ENUM (name : khstring) (members : list khstring)
| khAstType_ALIAS (is_incase : bool) (name : khstring)
    (expression : khAstExpression)
| khAstType_IF_BRANCH (branch_conditions : list khAstExpression)
    (branch_contents : list (list khAst)) (else_content : list khAst)
| khAstType_WHILE_LOOP (condition : khAstExpression) (content : list khAst)
| khAstType_DO_WHILE_LOOP (condition : khAstExpression)
    (content : list khAst)
| khAstType_FOR_LOOP
    (initial_expression loop_condition update_expression : khAstExpression)
    (content : list khAst)
| khAstType_FOR_EACH_LOOP (iterators : list khAstExpression)
    (iteratee : khAstExpression) (content : list khAst)
| khAstType_BREAK
| khAstType_CONTINUE
| khAstType_RETURN (values : list khAstExpression)
| khAstType_EXPRESSION (expression : khAstExpression).

(** *** The parser's state and its monad

    [kh_lexToken] is not among the sources.  The parser only ever asks
    it for the token at a cursor, so a cursor is modelled as the tokens
    from that point on: [kh_lexToken] returns the first of them and
    moves past it, and at the end of the input it returns [EOF] and
    stays.  The diagnostics [kh_raiseError] collects are the list
    [errors], in the order raised. *)
Record pstate := { cursor : list khToken; errors : list string }.

(** A parsing function: from a state to its result and the next state.
    [None] is a call whose budget ran out, see [kh_parseExpression]
    below. *)
Definition M (A : Type) : Type := pstate -> option (A * pstate).

Definition ret {A : Type} (a : A) : M A := fun s => Some (a, s).

Definition bind {A B : Type} (m : M A) (k : A -> M B) : M B :=
  fun s => match m s with
           | Some (a, s') => k a s'
           | None => None
           end.

Definition out_of_budget {A : Type} : M A := fun _ => None.

Declare Scope parser_scope.
Delimit Scope parser_scope with parser.
Notation "x <- m ;; k" := (bind m (fun x => k))
  (at level 61, m at next level, right associativity) : parser_scope.
Notation "m ;; k" := (bind m (fun _ => k))
  (at level 61, right associativity) : parser_scope.
Notation "' pat <- m ;; k" := (bind m (fun x => match x with pat => k end))
  (at level 61, pat pattern, m at next level, right associativity)
  : parser_scope.
Local Open Scope string_scope.
Local Open Scope list_scope.
Local Open Scope parser_scope.

Definition get_cursor : M (list khToken) := fun s => Some (cursor s, s).

Definition set_cursor (c : list khToken) : M unit :=
  fun s => Some (tt, {| cursor := c; errors := errors s |}).

Definition raiseError (message : string) : M unit :=
  fun s => Some (tt, {| cursor := cursor s; errors := errors s ++ [message] |}).

(** The [while] loop of [currentToken] from the tokens [rest]: the token
    it ends on, and the cursor it leaves, which stands on that token. *)
Fixpoint currentToken_from (rest : list khToken) (ignore_newline : bool)
  : khToken * list khToken :=
  match rest with
  | [] => (khTokenType_EOF, [])
  | token :: rest' =>
      if is_COMMENT token || (is_NEWLINE token && ignore_newline) then
        currentToken_from rest' ignore_newline
      else (token, rest)
  end.

Definition currentToken (ignore_newline : bool) : M khToken :=
  fun s =>
    let '(token, c) := currentToken_from (cursor s) ignore_newline in
    Some (token, {| cursor := c; errors := errors s |}).

(** [skipToken]: the same loop, then past the token it ended on.  Its
    closing guard (the cursor did not move and is not on the terminator)
    cannot fire here, where only [EOF] leaves the cursor in place. *)
Definition skipToken (ignore_newline : bool) : M unit :=
  fun s =>
    let '(token, c) := currentToken_from (cursor s) ignore_newline in
    Some (tt, {| cursor := tl c; errors := errors s |}).

Definition isEnd (c : list khToken) : bool :=
  is_EOF (fst (currentToken_from c true)).

(** [if (cond) raiseError(...)] *)
Definition raiseError_if (cond : bool) (message : string) : M unit :=
  if cond then raiseError message else ret tt.

(** The statement terminator check that closes most statements. *)
Definition ends_statement (token : khToken) : bool :=
  is_NEWLINE token || is_EOF token
  || is_delimiter token khDelimiterToken_SEMICOLON.

(** *** The parsing functions

    They are mutually recursive through [kh_parseExpression] and
    [sparseStatement].  Each is written over the two functions [pe] and
    [ps] that stand for these, and over a budget [n] that bounds the
    iterations of each of its loops and its direct recursion;
    [kh_parseExpression] and [kh_parseAst] tie the knot. *)
Section Parsing.

Variable pe : bool -> bool -> M khAstExpression.
Variable ps : M khAst.
Variable n : nat.

(** [sparseSpecifiers].  [to_incase] and [to_static] say that the
    [is_incase] and [is_static] pointers are not null; the result is
    what they are left pointing at. *)
Fixpoint sparseSpecifiers_loop (k : nat) (allow_incase to_incase
    allow_static to_static ignore_newline : bool) (token : khToken)
    (is_incase is_static : bool) : M (bool * bool) :=
  match token with
  | khTokenType_KEYWORD khKeywordToken_INCASE =>
      match k with
      | O => out_of_budget
      | S k' =>
          raiseError_if (negb allow_incase)
            "the `incase` keyword is not allowed here" ;;
          let is_incase :=
            if allow_incase && to_incase then true else is_incase in
          skipToken ignore_newline ;;
          token <- currentToken ignore_newline ;;
          sparseSpecifiers_loop k' allow_incase to_incase allow_static
            to_static ignore_newline token is_incase is_static
      end
  | khTokenType_KEYWORD khKeywordToken_STATIC =>
      match k with
      | O => out_of_budget
      | S k' =>
          raiseError_if (negb allow_static)
            "the `static` keyword is not allowed here" ;;
          let is_static :=
            if allow_static && to_static then true else is_static in
          skipToken ignore_newline ;;
          token <- currentToken ignore_newline ;;
          sparseSpecifiers_loop k' allow_incase to_incase allow_static
            to_static ignore_newline token is_incase is_static
      end
  | _ => ret (is_incase, is_static)
  end.

Definition sparseSpecifiers (allow_incase to_incase allow_static to_static
    ignore_newline : bool) : M (bool * bool) :=
  token <- currentToken ignore_newline ;;
  sparseSpecifiers_loop n allow_incase to_incase allow_static to_static
    ignore_newline token false false.

(** [exparseList] *)
Fixpoint exparseList_loop (k : nat) (closing_delimiter : khDelimiterToken)
    (filter_type : bool) (expressions : list khAstExpression)
  : M (list khAstExpression) :=
  match k with
  | O => out_of_budget
  | S k' =>
      expression <- pe true filter_type ;;
      let expressions := expressions ++ [expression] in
      token <- currentToken true ;;
      if is_delimiter token khDelimiterToken_COMMA then
        skipToken true ;;
        _ <- currentToken true ;;
        exparseList_loop k' closing_delimiter filter_type expressions
      else if is_delimiter token closing_delimiter then
        skipToken true ;;
        ret expressions
      else
        raiseError
          "expecting a comma with another element or a closing delimiter" ;;
        ret expressions
  end.

Definition exparseList (opening_delimiter closing_delimiter
    : khDelimiterToken) (ignore_newline filter_type : bool)
  : M (list khAstExpression) :=
  token <- currentToken ignore_newline ;;
  token <-
    (if is_delimiter token opening_delimiter then
       skipToken true ;;
       currentToken true
     else
       raiseError "expecting an opening delimiter" ;;
       ret token) ;;
  if is_delimiter token closing_delimiter then
    skipToken true ;;
    ret []
  else exparseList_loop n closing_delimiter filter_type [].

(** [exparseDict] *)
Fixpoint exparseDict_loop (k : nat) (keys values : list khAstExpression)
  : M khAstExpression :=
  match k with
  | O => out_of_budget
  | S k' =>
      key <- pe true false ;;
      let keys := keys ++ [key] in
      token <- currentToken true ;;
      (if is_delimiter token khDelimiterToken_COLON then
         skipToken true ;;
         _ <- currentToken true ;;
         ret tt
       else
         raiseError "expecting a colon after the key for its value pair") ;;
      value <- pe true false ;;
      let values := values ++ [value] in
      token <- currentToken true ;;
      if is_delimiter token khDelimiterToken_COMMA then
        skipToken true ;;
        _ <- currentToken true ;;
        exparseDict_loop k' keys values
      else if is_delimiter token khDelimiterToken_CURLY_BRACKET_CLOSE then
        skipToken true ;;
        ret (khAstExpressionType_DICT keys values)
      else
        raiseError
          "expecting a comma with another pair of key and value or a closing delimiter" ;;
        ret (khAstExpressionType_DICT keys values)
  end.

Definition exparseDict (ignore_newline : bool) : M khAstExpression :=
  token <- currentToken ignore_newline ;;
  token <-
    (if is_delimiter token khDelimiterToken_CURLY_BRACKET_OPEN then
       skipToken true ;;
       currentToken true
     else
       raiseError "expecting an opening curly bracket" ;;
       ret token) ;;
  if is_delimiter token khDelimiterToken_CURLY_BRACKET_CLOSE then
    skipToken true ;;
    ret (khAstExpressionType_DICT [] [])
  else exparseDict_loop n [] [].

(** [exparseVariableDeclaration] *)
Definition exparseVariableDeclaration (ignore_newline : bool)
  : M khAstExpression :=
  _ <- currentToken ignore_newline ;;
  '(_, is_static) <- sparseSpecifiers false false true true ignore_newline ;;
  token <- currentToken ignore_newline ;;
  '(is_wild, token) <-
    (if is_keyword token khKeywordToken_WILD then
       skipToken ignore_newline ;;
       token <- currentToken ignore_newline ;;
       ret (true, token)
     else ret (false, token)) ;;
  '(is_ref, token) <-
    (if is_keyword token khKeywordToken_REF then
       skipToken ignore_newline ;;
       token <- currentToken ignore_newline ;;
       ret (true, token)
     else ret (false, token)) ;;
  '(name, token) <-
    (match token with
     | khTokenType_IDENTIFIER identifier =>
         skipToken ignore_newline ;;
         token <- currentToken ignore_newline ;;
         ret (identifier, token)
     | _ =>
         raiseError "expecting a name for the variable in the declaration" ;;
         ret ([], token)
     end) ;;
  token <-
    (if is_delimiter token khDelimiterToken_COLON then
       skipToken ignore_newline ;;
       currentToken ignore_newline
     else
       raiseError
         "expecting a colon to separate the name and the type of the variable" ;;
       ret token) ;;
  '(optional_type, token) <-
    (if negb (is_operator token khOperatorToken_ASSIGN) then
       type <- pe ignore_newline true ;;
       token <- currentToken ignore_newline ;;
       ret (Some type, token)
     else ret (None, token)) ;;
  optional_initializer <-
    (if is_operator token khOperatorToken_ASSIGN then
       skipToken ignore_newline ;;
       initializer <- pe ignore_newline false ;;
       ret (Some initializer)
     else ret None) ;;
  ret (khAstExpressionType_VARIABLE_DECLARATION is_static is_wild is_ref name
         optional_type optional_initializer).

(** [exparseFunctionType] *)
Fixpoint exparseFunctionType_loop (k : nat) (token : khToken)
    (are_arguments_refs : list bool) (argument_types : list khAstExpression)
  : M (list bool * list khAstExpression) :=
  match k with
  | O => out_of_budget
  | S k' =>
      are_arguments_refs <-
        (if is_keyword token khKeywordToken_REF then
           skipToken true ;;
           ret (are_arguments_refs ++ [true])
         else ret (are_arguments_refs ++ [false])) ;;
      argument_type <- pe true true ;;
      let argument_types := argument_types ++ [argument_type] in
      token <- currentToken true ;;
      if is_delimiter token khDelimiterToken_COMMA then
        skipToken true ;;
        token <- currentToken true ;;
        exparseFunctionType_loop k' token are_arguments_refs argument_types
      else if is_delimiter token khDelimiterToken_PARENTHESIS_CLOSE then
        skipToken true ;;
        ret (are_arguments_refs, argument_types)
      else
        raiseError
          "expecting a comma or another argument type after an argument type" ;;
        ret (are_arguments_refs, argument_types)
  end.

Definition exparseFunctionType (ignore_newline : bool) : M khAstExpression :=
  token <- currentToken ignore_newline ;;
  token <-
    (if is_keyword token khKeywordToken_DEF then
       skipToken ignore_newline ;;
       currentToken ignore_newline
     else
       raiseError "expecting a `def` keyword" ;;
       ret token) ;;
  token <-
    (if is_delimiter token khDelimiterToken_EXCLAMATION then
       skipToken ignore_newline ;;
       currentToken ignore_newline
     else
       raiseError "expecting an exclamation mark" ;;
       ret token) ;;
  token <-
    (if is_delimiter token khDelimiterToken_PARENTHESIS_OPEN then
       skipToken true ;;
       currentToken true
     else
       raiseError "expecting an opening parenthesis" ;;
       ret token) ;;
  '(are_arguments_refs, argument_types) <-
    (if is_delimiter token khDelimiterToken_CURLY_BRACKET_CLOSE then
       skipToken true ;;
       ret ([], [])
     else exparseFunctionType_loop n token [] []) ;;
  token <- currentToken ignore_newline ;;
  if is_delimiter token khDelimiterToken_ARROW then
    skipToken ignore_newline ;;
    token <- currentToken ignore_newline ;;
    is_return_type_ref <-
      (if is_keyword token khKeywordToken_REF then
         skipToken ignore_newline ;;
         ret true
       else ret false) ;;
    return_type <- pe ignore_newline true ;;
    ret (khAstExpressionType_FUNCTION_TYPE are_arguments_refs argument_types
           is_return_type_ref (Some return_type))
  else
    ret (khAstExpressionType_FUNCTION_TYPE are_arguments_refs argument_types
           false None).

(** [sparseBlock] *)
Fixpoint sparseBlock_loop (k : nat) (token : khToken) (block : list khAst)
  : M (list khAst) :=
  if is_delimiter token khDelimiterToken_CURLY_BRACKET_CLOSE then
    skipToken true ;;
    ret block
  else if is_EOF token then
    raiseError "expecting a statement, met with a dead end" ;;
    ret block
  else
    match k with
    | O => out_of_budget
    | S k' =>
        statement <- ps ;;
        token <- currentToken true ;;
        sparseBlock_loop k' token (block ++ [statement])
    end.

Definition sparseBlock : M (list khAst) :=
  token <- currentToken true ;;
  token <-
    (if is_delimiter token khDelimiterToken_CURLY_BRACKET_OPEN then
       skipToken true ;;
       currentToken true
     else
       raiseError "expecting an opening curly bracket" ;;
       ret token) ;;
  sparseBlock_loop n token [].

(** [sparseFunctionOrLambda]: what it leaves in [arguments],
    [optional_variadic_argument], [is_return_type_ref],
    [optional_return_type] and [content]. *)
Fixpoint sparseFunctionOrLambda_arguments (k : nat) (token : khToken)
    (arguments : list khAstExpression)
  : M (list khAstExpression * option khAstExpression) :=
  if is_delimiter token khDelimiterToken_PARENTHESIS_CLOSE then
    ret (arguments, None)
  else if is_delimiter token khDelimiterToken_ELLIPSIS then
    skipToken true ;;
    variadic <- exparseVariableDeclaration true ;;
    token <- currentToken true ;;
    raiseError_if
      (negb (is_delimiter token khDelimiterToken_PARENTHESIS_CLOSE))
      "expecting a closing parenthesis after the variadic argument" ;;
    ret (arguments, Some variadic)
  else
    match k with
    | O => out_of_budget
    | S k' =>
        argument <- exparseVariableDeclaration true ;;
        let arguments := arguments ++ [argument] in
        token <- currentToken true ;;
        if is_delimiter token khDelimiterToken_COMMA then
          skipToken true ;;
          token <- currentToken true ;;
          sparseFunctionOrLambda_arguments k' token arguments
        else if is_delimiter token khDelimiterToken_PARENTHESIS_CLOSE then
          sparseFunctionOrLambda_arguments k' token arguments
        else if is_EOF token then
          raiseError
            "expecting a comma with another argument or a closing parenthesis, met with a dead end" ;;
          ret (arguments, None)
        else
          raiseError
            "expecting a comma with another argument or a closing parenthesis" ;;
          skipToken true ;;
          token <- currentToken true ;;
          sparseFunctionOrLambda_arguments k' token arguments
    end.

Definition sparseFunctionOrLambda
  : M (list khAstExpression * option khAstExpression * bool
       * option khAstExpression * list khAst) :=
  token <- currentToken false ;;
  token <-
    (if is_delimiter token khDelimiterToken_PARENTHESIS_OPEN then
       skipToken true ;;
       currentToken true
     else
       raiseError "expecting an opening parenthesis for the arguments" ;;
       ret token) ;;
  '(arguments, optional_variadic_argument) <-
    sparseFunctionOrLambda_arguments n token [] ;;
  skipToken true ;;
  token <- currentToken true ;;
  '(is_return_type_ref, optional_return_type) <-
    (if is_delimiter token khDelimiterToken_ARROW then
       skipToken true ;;
       token <- currentToken true ;;
       is_return_type_ref <-
         (if is_keyword token khKeywordToken_REF then
            skipToken true ;;
            ret true
          else ret false) ;;
       return_type <- pe true true ;;
       _ <- currentToken true ;;
       ret (is_return_type_ref, Some return_type)
     else ret (false, None)) ;;
  content <- sparseBlock ;;
  ret (arguments, optional_variadic_argument, is_return_type_ref,
       optional_return_type, content).

(** [exparseLambda] *)
Definition exparseLambda (ignore_newline : bool) : M khAstExpression :=
  token <- currentToken ignore_newline ;;
  (if is_keyword token khKeywordToken_DEF then
     skipToken ignore_newline ;;
     _ <- currentToken ignore_newline ;;
     ret tt
   else raiseError "expecting a `def` keyword") ;;
  '(arguments, optional_variadic_argument, is_return_type_ref,
    optional_return_type, content) <- sparseFunctionOrLambda ;;
  ret (khAstExpressionType_LAMBDA arguments optional_variadic_argument
         is_return_type_ref optional_return_type content).

(** A constant of [exparseOther]: [if (filter_type) raiseError(...);
    skipToken(...);] and the node. *)
Definition exparseOther_constant (ignore_newline filter_type : bool)
    (message : string) (expression : khAstExpression) : M khAstExpression :=
  raiseError_if filter_type message ;;
  skipToken ignore_newline ;;
  ret expression.

(** [exparseOther].  Its [switch (token.keyword)] under [case
    khTokenType_DELIMITER] reads the member of the union the delimiter
    code was stored in. *)
Definition exparseOther (ignore_newline filter_type : bool)
  : M khAstExpression :=
  token <- currentToken ignore_newline ;;
  match token with
  | khTokenType_IDENTIFIER identifier =>
      initial <- get_cursor ;;
      skipToken ignore_newline ;;
      next_token <- currentToken ignore_newline ;;
      if negb filter_type && is_delimiter next_token khDelimiterToken_COLON
      then
        set_cursor initial ;;
        exparseVariableDeclaration ignore_newline
      else ret (khAstExpressionType_IDENTIFIER identifier)
  | khTokenType_KEYWORD khKeywordToken_DEF =>
      cursor <- get_cursor ;;
      skipToken ignore_newline ;;
      next_token <- currentToken ignore_newline ;;
      set_cursor cursor ;;
      if is_delimiter next_token khDelimiterToken_EXCLAMATION then
        exparseFunctionType ignore_newline
      else
        raiseError_if filter_type "expecting a type, not a lambda" ;;
        exparseLambda ignore_newline
  | khTokenType_KEYWORD khKeywordToken_STATIC
  | khTokenType_KEYWORD khKeywordToken_WILD
  | khTokenType_KEYWORD khKeywordToken_REF =>
      raiseError_if filter_type
        "expecting a type, not a variable declaration" ;;
      exparseVariableDeclaration ignore_newline
  | khTokenType_KEYWORD _ =>
      raiseError "unexpected delimiter in an expression" ;;
      skipToken ignore_newline ;;
      ret khAstExpressionType_INVALID
  | khTokenType_DELIMITER khDelimiterToken_PARENTHESIS_OPEN =>
      values <-
        exparseList khDelimiterToken_PARENTHESIS_OPEN
          khDelimiterToken_PARENTHESIS_CLOSE ignore_newline filter_type ;;
      match values with
      | [value] => ret value
      | _ => ret (khAstExpressionType_TUPLE values)
      end
  | khTokenType_DELIMITER khDelimiterToken_SQUARE_BRACKET_OPEN =>
      raiseError_if filter_type "expecting a type, not an array" ;;
      values <-
        exparseList khDelimiterToken_SQUARE_BRACKET_OPEN
          khDelimiterToken_SQUARE_BRACKET_CLOSE ignore_newline filter_type ;;
      ret (khAstExpressionType_ARRAY values)
  | khTokenType_DELIMITER khDelimiterToken_CURLY_BRACKET_OPEN =>
      raiseError_if filter_type "expecting a type, not a dict" ;;
      exparseDict ignore_newline
  | khTokenType_DELIMITER _ =>
      raiseError "unexpected token in an expression" ;;
      skipToken ignore_newline ;;
      ret khAstExpressionType_INVALID
  | khTokenType_CHAR char_v =>
      exparseOther_constant ignore_newline filter_type
        "expecting a type, not a character"
        (khAstExpressionType_CHAR char_v)
  | khTokenType_STRING string_v =>
      exparseOther_constant ignore_newline filter_type
        "expecting a type, not a string"
        (khAstExpressionType_STRING string_v)
  | khTokenType_BUFFER buffer =>
      exparseOther_constant ignore_newline filter_type
        "expecting a type, not a buffer"
        (khAstExpressionType_BUFFER buffer)
  | khTokenType_BYTE byte =>
      exparseOther_constant ignore_newline filter_type
        "expecting a type, not a byte"
        (khAstExpressionType_BYTE byte)
  | khTokenType_INTEGER integer =>
      skipToken ignore_newline ;;
      ret (khAstExpressionType_INTEGER integer)
  | khTokenType_UINTEGER uinteger =>
      skipToken ignore_newline ;;
      ret (khAstExpressionType_UINTEGER uinteger)
  | khTokenType_FLOAT float_v =>
      exparseOther_constant ignore_newline filter_type
        "expecting a type, not a floating-point number"
        (khAstExpressionType_FLOAT float_v)
  | khTokenType_DOUBLE double_v =>
      exparseOther_constant ignore_newline filter_type
        "expecting a type, not a double floating-point number"
        (khAstExpressionType_DOUBLE double_v)
  | khTokenType_IFLOAT ifloat =>
      exparseOther_constant ignore_newline filter_type
        "expecting a type, not an imaginary floating-point number"
        (khAstExpressionType_IFLOAT ifloat)
  | khTokenType_IDOUBLE idouble =>
      exparseOther_constant ignore_newline filter_type
        "expecting a type, not an imaginary double floating-point number"
        (khAstExpressionType_IDOUBLE idouble)
  | _ =>
      raiseError "unexpected token in an expression" ;;
      skipToken ignore_newline ;;
      ret khAstExpressionType_INVALID
  end.

(** [exparseScopeTemplatization] *)
Fixpoint exparseScope_names (k : nat) (ignore_newline : bool)
    (token : khToken) (scope_names : list khstring)
  : M (khToken * list khstring) :=
  if is_delimiter token khDelimiterToken_DOT then
    match k with
    | O => out_of_budget
    | S k' =>
        skipToken ignore_newline ;;
        token <- currentToken ignore_newline ;;
        match token with
        | khTokenType_IDENTIFIER identifier =>
            skipToken ignore_newline ;;
            token <- currentToken ignore_newline ;;
            exparseScope_names k' ignore_newline token
              (scope_names ++ [identifier])
        | _ =>
            raiseError "expecting an identifier to scope into" ;;
            exparseScope_names k' ignore_newline token scope_names
        end
    end
  else ret (token, scope_names).

Fixpoint exparseScopeTemplatization_loop (k : nat) (ignore_newline : bool)
    (token : khToken) (expression : khAstExpression) : M khAstExpression :=
  match token with
  | khTokenType_DELIMITER khDelimiterToken_DOT =>
      match k with
      | O => out_of_budget
      | S k' =>
          '(token, scope_names) <-
            exparseScope_names n ignore_newline token [] ;;
          exparseScopeTemplatization_loop k' ignore_newline token
            (khAstExpressionType_SCOPE expression scope_names)
      end
  | khTokenType_DELIMITER khDelimiterToken_EXCLAMATION =>
      match k with
      | O => out_of_budget
      | S k' =>
          skipToken ignore_newline ;;
          token <- currentToken ignore_newline ;;
          match token with
          | khTokenType_IDENTIFIER identifier =>
              exparseScopeTemplatization_loop k' ignore_newline token
                (khAstExpressionType_TEMPLATIZE expression
                   [khAstExpressionType_IDENTIFIER identifier])
          | khTokenType_DELIMITER khDelimiterToken_PARENTHESIS_OPEN =>
              template_arguments <-
                exparseList khDelimiterToken_PARENTHESIS_OPEN
                  khDelimiterToken_PARENTHESIS_CLOSE ignore_newline true ;;
              exparseScopeTemplatization_loop k' ignore_newline token
                (khAstExpressionType_TEMPLATIZE expression
                   template_arguments)
          | _ =>
              raiseError "expecting a type argument for templatizing" ;;
              exparseScopeTemplatization_loop k' ignore_newline token
                expression
          end
      end
  | _ => ret expression
  end.

Definition exparseScopeTemplatization (ignore_newline filter_type : bool)
  : M khAstExpression :=
  _ <- currentToken ignore_newline ;;
  expression <- exparseOther ignore_newline filter_type ;;
  token <- currentToken ignore_newline ;;
  exparseScopeTemplatization_loop n ignore_newline token expression.

(** [exparseReverseUnary].  After a post-increment or post-decrement
    case the [switch] on the token type falls through to its [default]
    and leaves the loop. *)
Fixpoint exparseReverseUnary_loop (k : nat) (ignore_newline filter_type
    : bool) (token : khToken) (expression : khAstExpression)
  : M khAstExpression :=
  match token with
  | khTokenType_DELIMITER khDelimiterToken_PARENTHESIS_OPEN =>
      if filter_type then ret expression
      else
        match k with
        | O => out_of_budget
        | S k' =>
            arguments <-
              exparseList khDelimiterToken_PARENTHESIS_OPEN
                khDelimiterToken_PARENTHESIS_CLOSE ignore_newline
                filter_type ;;
            token <- currentToken ignore_newline ;;
            exparseReverseUnary_loop k' ignore_newline filter_type token
              (khAstExpressionType_CALL expression arguments)
        end
  | khTokenType_DELIMITER khDelimiterToken_SQUARE_BRACKET_OPEN =>
      match k with
      | O => out_of_budget
      | S k' =>
          arguments <-
            exparseList khDelimiterToken_SQUARE_BRACKET_OPEN
              khDelimiterToken_SQUARE_BRACKET_CLOSE ignore_newline
              filter_type ;;
          token <- currentToken ignore_newline ;;
          exparseReverseUnary_loop k' ignore_newline filter_type token
            (khAstExpressionType_INDEX expression arguments)
      end
  | khTokenType_OPERATOR khOperatorToken_INCREMENT =>
      if filter_type then ret expression
      else
        skipToken ignore_newline ;;
        _ <- currentToken ignore_newline ;;
        ret (khAstExpressionType_UNARY
               khAstUnaryExpressionType_POST_INCREMENT expression)
  | khTokenType_OPERATOR khOperatorToken_DECREMENT =>
      if filter_type then ret expression
      else
        skipToken ignore_newline ;;
        _ <- currentToken ignore_newline ;;
        ret (khAstExpressionType_UNARY
               khAstUnaryExpressionType_POST_INCREMENT expression)
  | _ => ret expression
  end.

Definition exparseReverseUnary (ignore_newline filter_type : bool)
  : M khAstExpression :=
  _ <- currentToken ignore_newline ;;
  expression <- exparseScopeTemplatization ignore_newline filter_type ;;
  token <- currentToken ignore_newline ;;
  exparseReverseUnary_loop n ignore_newline filter_type token expression.

(** The macro [RCD_UNARY_CASE(FUNCTION, OPERATOR)].  Its body names
    neither parameter: the operand is parsed by [exparseUnary] and the
    node is of type [khAstUnaryExpressionType_NOT]. *)
Definition RCD_UNARY_CASE (exparseUnary : bool -> bool -> M khAstExpression)
    (FUNCTION : bool -> bool -> M khAstExpression)
    (OPERATOR : khAstUnaryExpressionType) (ignore_newline filter_type : bool)
  : M khAstExpression :=
  skipToken ignore_newline ;;
  expression <- exparseUnary ignore_newline filter_type ;;
  ret (khAstExpressionType_UNARY khAstUnaryExpressionType_NOT expression).

(** [exparseUnary]; [k] bounds its recursion on itself. *)
Fixpoint exparseUnary_rec (k : nat) (ignore_newline filter_type : bool)
  : M khAstExpression :=
  if filter_type then exparseReverseUnary ignore_newline filter_type
  else
    token <- currentToken ignore_newline ;;
    let unary_case OPERATOR :=
      match k with
      | O => out_of_budget
      | S k' =>
          RCD_UNARY_CASE (exparseUnary_rec k') exparseReverseUnary OPERATOR
            ignore_newline filter_type
      end in
    match token with
    | khTokenType_OPERATOR khOperatorToken_ADD =>
        unary_case khAstUnaryExpressionType_POSITIVE
    | khTokenType_OPERATOR khOperatorToken_SUB =>
        unary_case khAstUnaryExpressionType_NEGATIVE
    | khTokenType_OPERATOR khOperatorToken_INCREMENT =>
        unary_case khAstUnaryExpressionType_PRE_INCREMENT
    | khTokenType_OPERATOR khOperatorToken_DECREMENT =>
        unary_case khAstUnaryExpressionType_PRE_DECREMENT
    | khTokenType_OPERATOR khOperatorToken_NOT =>
        unary_case khAstUnaryExpressionType_NOT
    | khTokenType_OPERATOR khOperatorToken_BIT_NOT =>
        unary_case khAstUnaryExpressionType_BIT_NOT
    | _ => exparseReverseUnary ignore_newline filter_type
    end.

Definition exparseUnary (ignore_newline filter_type : bool)
  : M khAstExpression :=
  exparseUnary_rec n ignore_newline filter_type.

(** The loop the binary levels share: [while] the token is an operator
    that [cases] maps to a node type, the block of [RCD_BINARY_CASE]
    (and of the loop of [RCD_BINARY]) with the operand parser [LOWER];
    any other token leaves the loop. *)
Fixpoint RCD_BINARY_loop (LOWER : bool -> bool -> M khAstExpression)
    (cases : khOperatorToken -> option khAstBinaryExpressionType) (k : nat)
    (ignore_newline filter_type : bool) (token : khToken)
    (expression : khAstExpression) : M khAstExpression :=
  match token with
  | khTokenType_OPERATOR operator_v =>
      match cases operator_v with
      | Some OPERATOR =>
          match k with
          | O => out_of_budget
          | S k' =>
              skipToken ignore_newline ;;
              let left := expression in
              right <- LOWER ignore_newline filter_type ;;
              let expression :=
                khAstExpressionType_BINARY OPERATOR left right in
              token <- currentToken ignore_newline ;;
              RCD_BINARY_loop LOWER cases k' ignore_newline filter_type token
                expression
          end
      | None => ret expression
      end
  | _ => ret expression
  end.

(** The frame of a binary level: the first operand, the early return
    under [filter_type], then the loop. *)
Definition binary_level (LOWER : bool -> bool -> M khAstExpression)
    (cases : khOperatorToken -> option khAstBinaryExpressionType)
    (ignore_newline filter_type : bool) : M khAstExpression :=
  _ <- currentToken ignore_newline ;;
  expression <- LOWER ignore_newline filter_type ;;
  if filter_type then ret expression
  else
    token <- currentToken ignore_newline ;;
    RCD_BINARY_loop LOWER cases n ignore_newline filter_type token expression.

(** The macro [RCD_BINARY(LOWER, TOKEN_OPERATOR, OPERATOR)]. *)
Definition RCD_BINARY (LOWER : bool -> bool -> M khAstExpression)
    (TOKEN_OPERATOR : khOperatorToken) (OPERATOR : khAstBinaryExpressionType)
  : bool -> bool -> M khAstExpression :=
  binary_level LOWER
    (fun operator_v =>
       if khOperatorToken_beq operator_v TOKEN_OPERATOR then Some OPERATOR
       else None).

Definition exparsePow : bool -> bool -> M khAstExpression :=
  RCD_BINARY exparseUnary khOperatorToken_POW khAstBinaryExpressionType_POW.

Definition exparseMulDivMod : bool -> bool -> M khAstExpression :=
  binary_level exparsePow
    (fun operator_v =>
       match operator_v with
       | khOperatorToken_MUL => Some khAstBinaryExpressionType_MUL
       | khOperatorToken_DIV => Some khAstBinaryExpressionType_DIV
       | khOperatorToken_MOD => Some khAstBinaryExpressionType_MOD
       | _ => None
       end).

Definition exparseAddSub : bool -> bool -> M khAstExpression :=
  binary_level exparseMulDivMod
    (fun operator_v =>
       match operator_v with
       | khOperatorToken_ADD => Some khAstBinaryExpressionType_ADD
       | khOperatorToken_SUB => Some khAstBinaryExpressionType_SUB
       | _ => None
       end).

Definition exparseBitwiseShifts : bool -> bool -> M khAstExpression :=
  binary_level exparseAddSub
    (fun operator_v =>
       match operator_v with
       | khOperatorToken_BIT_LSHIFT =>
           Some khAstBinaryExpressionType_BIT_LSHIFT
       | khOperatorToken_BIT_RSHIFT =>
           Some khAstBinaryExpressionType_BIT_RSHIFT
       | _ => None
       end).

Definition exparseBitwiseAnd : bool -> bool -> M khAstExpression :=
  RCD_BINARY exparseBitwiseShifts khOperatorToken_BIT_AND
    khAstBinaryExpressionType_BIT_AND.

Definition exparseBitwiseXor : bool -> bool -> M khAstExpression :=
  RCD_BINARY exparseBitwiseAnd khOperatorToken_BIT_XOR
    khAstBinaryExpressionType_BIT_XOR.

Definition exparseBitwiseOr : bool -> bool -> M khAstExpression :=
  RCD_BINARY exparseBitwiseXor khOperatorToken_BIT_OR
    khAstBinaryExpressionType_BIT_OR.

(** [exparseComparisonOperators] *)
Definition comparison_of (operator_v : khOperatorToken)
  : option khAstComparisonExpressionType :=
  match operator_v with
  | khOperatorToken_EQUAL => Some khAstComparisonExpressionType_EQUAL
  | khOperatorToken_NOT_EQUAL => Some khAstComparisonExpressionType_NOT_EQUAL
  | khOperatorToken_LESS => Some khAstComparisonExpressionType_LESS
  | khOperatorToken_MORE => Some khAstComparisonExpressionType_MORE
  | khOperatorToken_ELESS => Some khAstComparisonExpressionType_ELESS
  | khOperatorToken_EMORE => Some khAstComparisonExpressionType_EMORE
  | _ => None
  end.

Definition is_comparison (token : khToken) : bool :=
  is_operator token khOperatorToken_EQUAL
  || is_operator token khOperatorToken_NOT_EQUAL
  || is_operator token khOperatorToken_LESS
  || is_operator token khOperatorToken_MORE
  || is_operator token khOperatorToken_ELESS
  || is_operator token khOperatorToken_EMORE.

Fixpoint exparseComparisonOperators_loop (k : nat) (ignore_newline
    filter_type : bool) (token : khToken)
    (operations : list khAstComparisonExpressionType)
    (operands : list khAstExpression) : M khAstExpression :=
  match token with
  | khTokenType_OPERATOR operator_v =>
      match comparison_of operator_v with
      | Some operation =>
          match k with
          | O => out_of_budget
          | S k' =>
              let operations := operations ++ [operation] in
              skipToken ignore_newline ;;
              operand <- exparseBitwiseOr ignore_newline filter_type ;;
              let operands := operands ++ [operand] in
              token <- currentToken ignore_newline ;;
              exparseComparisonOperators_loop k' ignore_newline filter_type
                token operations operands
          end
      | None => ret (khAstExpressionType_COMPARISON operations operands)
      end
  | _ => ret (khAstExpressionType_COMPARISON operations operands)
  end.

Definition exparseComparisonOperators (ignore_newline filter_type : bool)
  : M khAstExpression :=
  _ <- currentToken ignore_newline ;;
  expression <- exparseBitwiseOr ignore_newline filter_type ;;
  if filter_type then ret expression
  else
    token <- currentToken ignore_newline ;;
    if is_comparison token then
      exparseComparisonOperators_loop n ignore_newline filter_type token []
        [expression]
    else ret expression.

(** [exparseLogicalNot]; [k] bounds its recursion on itself. *)
Fixpoint exparseLogicalNot_rec (k : nat) (ignore_newline filter_type : bool)
  : M khAstExpression :=
  if filter_type then exparseComparisonOperators ignore_newline filter_type
  else
    token <- currentToken ignore_newline ;;
    if is_operator token khOperatorToken_NOT then
      match k with
      | O => out_of_budget
      | S k' =>
          skipToken ignore_newline ;;
          expression <- exparseLogicalNot_rec k' ignore_newline filter_type ;;
          ret (khAstExpressionType_UNARY khAstUnaryExpressionType_NOT
                 expression)
      end
    else exparseComparisonOperators ignore_newline filter_type.

Definition exparseLogicalNot (ignore_newline filter_type : bool)
  : M khAstExpression :=
  exparseLogicalNot_rec n ignore_newline filter_type.

Definition exparseLogicalAnd : bool -> bool -> M khAstExpression :=
  RCD_BINARY exparseLogicalNot khOperatorToken_AND
    khAstBinaryExpressionType_AND.

Definition exparseLogicalXor : bool -> bool -> M khAstExpression :=
  RCD_BINARY exparseLogicalAnd khOperatorToken_XOR
    khAstBinaryExpressionType_XOR.

Definition exparseLogicalOr : bool -> bool -> M khAstExpression :=
  RCD_BINARY exparseLogicalXor khOperatorToken_OR
    khAstBinaryExpressionType_OR.

(** [exparseTernary] *)
Fixpoint exparseTernary_loop (k : nat) (ignore_newline filter_type : bool)
    (token : khToken) (expression : khAstExpression) : M khAstExpression :=
  if is_keyword token khKeywordToken_IF then
    match k with
    | O => out_of_budget
    | S k' =>
        skipToken ignore_newline ;;
        condition <- exparseLogicalOr ignore_newline filter_type ;;
        token <- currentToken ignore_newline ;;
        (if is_keyword token khKeywordToken_ELSE then skipToken ignore_newline
         else
           raiseError "expecting an `else` keyword after the condition") ;;
        otherwise <- exparseLogicalOr ignore_newline filter_type ;;
        let value := expression in
        let expression :=
          khAstExpressionType_TERNARY value condition otherwise in
        token <- currentToken ignore_newline ;;
        exparseTernary_loop k' ignore_newline filter_type token expression
    end
  else ret expression.

Definition exparseTernary (ignore_newline filter_type : bool)
  : M khAstExpression :=
  _ <- currentToken ignore_newline ;;
  expression <- exparseLogicalOr ignore_newline filter_type ;;
  if filter_type then ret expression
  else
    token <- currentToken ignore_newline ;;
    exparseTernary_loop n ignore_newline filter_type token expression.

(** [exparseInplaceOperators], the body of [kh_parseExpression] *)
Definition exparseInplaceOperators : bool -> bool -> M khAstExpression :=
  binary_level exparseTernary
    (fun operator_v =>
       match operator_v with
       | khOperatorToken_IADD => Some khAstBinaryExpressionType_IADD
       | khOperatorToken_ISUB => Some khAstBinaryExpressionType_ISUB
       | khOperatorToken_IMUL => Some khAstBinaryExpressionType_IMUL
       | khOperatorToken_IDIV => Some khAstBinaryExpressionType_IDIV
       | khOperatorToken_IMOD => Some khAstBinaryExpressionType_IMOD
       | khOperatorToken_IPOW => Some khAstBinaryExpressionType_IPOW
       | khOperatorToken_IDOT => Some khAstBinaryExpressionType_IDOT
       | khOperatorToken_ASSIGN => Some khAstBinaryExpressionType_ASSIGN
       | khOperatorToken_IBIT_AND => Some khAstBinaryExpressionType_IBIT_AND
       | khOperatorToken_IBIT_OR => Some khAstBinaryExpressionType_IBIT_OR
       | khOperatorToken_IBIT_XOR => Some khAstBinaryExpressionType_IBIT_XOR
       | khOperatorToken_IBIT_LSHIFT =>
           Some khAstBinaryExpressionType_IBIT_LSHIFT
       | khOperatorToken_IBIT_RSHIFT =>
           Some khAstBinaryExpressionType_IBIT_RSHIFT
       | _ => None
       end).

(** *** Statements *)

(** The check most statements end with: a newline, the end of the input
    or a semicolon is passed, a closing curly bracket is left in place,
    anything else is an error. *)
Definition statement_end (token : khToken) : M unit :=
  if ends_statement token then skipToken false
  else if is_delimiter token khDelimiterToken_CURLY_BRACKET_CLOSE then ret tt
  else raiseError "expecting a newline or a semicolon".

(** The dotted path of [sparseImport] and [sparseInclude], after its
    first name. *)
Fixpoint sparsePath_loop (k : nat) (token : khToken) (path : list khstring)
  : M (list khstring * khToken) :=
  if is_delimiter token khDelimiterToken_DOT then
    match k with
    | O => out_of_budget
    | S k' =>
        skipToken false ;;
        token <- currentToken false ;;
        match token with
        | khTokenType_IDENTIFIER identifier =>
            skipToken false ;;
            token <- currentToken false ;;
            sparsePath_loop k' token (path ++ [identifier])
        | _ =>
            raiseError "expecting another identifier" ;;
            sparsePath_loop k' token path
        end
    end
  else ret (path, token).

(** The part [sparseImport] and [sparseInclude] share, after the
    keyword: the relative dot and the path. *)
Definition sparsePath (token : khToken) (message : string)
  : M (list khstring * bool * khToken) :=
  '(relative, token) <-
    (if is_delimiter token khDelimiterToken_DOT then
       skipToken false ;;
       token <- currentToken false ;;
       ret (true, token)
     else ret (false, token)) ;;
  '(path, token) <-
    (match token with
     | khTokenType_IDENTIFIER identifier =>
         skipToken false ;;
         token <- currentToken false ;;
         ret ([identifier], token)
     | _ =>
         raiseError message ;;
         ret ([], token)
     end) ;;
  '(path, token) <- sparsePath_loop n token path ;;
  ret (path, relative, token).

Definition sparseImport : M khAst :=
  token <- currentToken true ;;
  token <-
    (if is_keyword token khKeywordToken_IMPORT then
       skipToken false ;;
       currentToken false
     else
       raiseError "expecting an `import` keyword" ;;
       ret token) ;;
  '(path, relative, token) <-
    sparsePath token "expecting something to import" ;;
  '(optional_alias, token) <-
    (if is_keyword token khKeywordToken_AS then
       skipToken false ;;
       token <- currentToken false ;;
       match token with
       | khTokenType_IDENTIFIER identifier =>
           skipToken false ;;
           token <- currentToken false ;;
           ret (Some identifier, token)
       | _ =>
           raiseError
             "expecting an identifier to alias the imported module as" ;;
           ret (None, token)
       end
     else ret (None, token)) ;;
  statement_end token ;;
  ret (khAstType_IMPORT path relative optional_alias).

Definition sparseInclude : M khAst :=
  token <- currentToken true ;;
  token <-
    (if is_keyword token khKeywordToken_INCLUDE then
       skipToken false ;;
       currentToken false
     else
       raiseError "expecting an `include` keyword" ;;
       ret token) ;;
  '(path, relative, token) <-
    sparsePath token "expecting something to include" ;;
  statement_end token ;;
  ret (khAstType_INCLUDE path relative).

(** [sparseFunction].  The [def] check reads the token fetched before
    the specifiers were passed. *)
Definition sparseFunction : M khAst :=
  token <- currentToken true ;;
  '(is_incase, is_static) <- sparseSpecifiers true true true true true ;;
  (if is_keyword token khKeywordToken_DEF then skipToken false
   else raiseError "expecting a `def` keyword") ;;
  name_point <- pe false true ;;
  '(arguments, optional_variadic_argument, is_return_type_ref,
    optional_return_type, content) <- sparseFunctionOrLambda ;;
  ret (khAstType_FUNCTION is_incase is_static name_point arguments
         optional_variadic_argument is_return_type_ref optional_return_type
         content).

(** The [do ... while] over the parenthesised template argument names
    of [sparseClassOrStruct]. *)
Fixpoint sparseTemplateNames_loop (k : nat)
    (template_arguments : list khstring) : M (list khstring * khToken) :=
  match k with
  | O => out_of_budget
  | S k' =>
      skipToken true ;;
      token <- currentToken true ;;
      template_arguments <-
        (match token with
         | khTokenType_IDENTIFIER identifier =>
             ret (template_arguments ++ [identifier])
         | _ =>
             raiseError "expecting the name for a template argument" ;;
             ret template_arguments
         end) ;;
      skipToken true ;;
      token <- currentToken true ;;
      if is_delimiter token khDelimiterToken_COMMA then
        sparseTemplateNames_loop k' template_arguments
      else ret (template_arguments, token)
  end.

Definition sparseClassOrStruct
  : M (khstring * list khstring * option khAstExpression * list khAst) :=
  token <- currentToken false ;;
  '(name, token) <-
    (match token with
     | khTokenType_IDENTIFIER identifier =>
         skipToken false ;;
         token <- currentToken false ;;
         ret (identifier, token)
     | _ =>
         raiseError "expecting a name for the type" ;;
         ret ([], token)
     end) ;;
  '(template_arguments, token) <-
    (if is_delimiter token khDelimiterToken_EXCLAMATION then
       skipToken false ;;
       token <- currentToken false ;;
       match token with
       | khTokenType_IDENTIFIER identifier =>
           skipToken false ;;
           token <- currentToken false ;;
           ret ([identifier], token)
       | khTokenType_DELIMITER khDelimiterToken_PARENTHESIS_OPEN =>
           '(template_arguments, token) <- sparseTemplateNames_loop n [] ;;
           if is_delimiter token khDelimiterToken_PARENTHESIS_CLOSE then
             skipToken false ;;
             token <- currentToken false ;;
             ret (template_arguments, token)
           else
             raiseError "expecting a closing parenthesis" ;;
             ret (template_arguments, token)
       | _ =>
           raiseError "expecting template argument(s)" ;;
           ret ([], token)
       end
     else ret ([], token)) ;;
  optional_base_type <-
    (if is_delimiter token khDelimiterToken_PARENTHESIS_OPEN then
       skipToken true ;;
       base_type <- pe true true ;;
       token <- currentToken true ;;
       (if is_delimiter token khDelimiterToken_PARENTHESIS_CLOSE then
          skipToken true
        else raiseError "expecting a closing parenthesis") ;;
       ret (Some base_type)
     else ret None) ;;
  content <- sparseBlock ;;
  ret (name, template_arguments, optional_base_type, content).

Definition sparseClass : M khAst :=
  token <- currentToken true ;;
  '(is_incase, _) <- sparseSpecifiers true true false false true ;;
  (if is_keyword token khKeywordToken_CLASS then skipToken false
   else raiseError "expecting a `class` keyword") ;;
  '(name, template_arguments, optional_base_type, content) <-
    sparseClassOrStruct ;;
  ret (khAstType_CLASS is_incase name template_arguments optional_base_type
         content).

Definition sparseStruct : M khAst :=
  token <- currentToken true ;;
  '(is_incase, _) <- sparseSpecifiers true true false false true ;;
  (if is_keyword token khKeywordToken_STRUCT then skipToken false
   else raiseError "expecting a `struct` keyword") ;;
  '(name, template_arguments, optional_base_type, content) <-
    sparseClassOrStruct ;;
  ret (khAstType_STRUCT is_incase name template_arguments optional_base_type
         content).

(** The [do ... while] over the members of [sparseEnum]. *)
Fixpoint sparseEnum_loop (k : nat) (token : khToken)
    (members : list khstring) : M (list khstring * khToken) :=
  match k with
  | O => out_of_budget
  | S k' =>
      members <-
        (match token with
         | khTokenType_IDENTIFIER identifier => ret (members ++ [identifier])
         | _ =>
             raiseError "expecting a member name" ;;
             ret members
         end) ;;
      skipToken true ;;
      token <- currentToken true ;;
      if is_delimiter token khDelimiterToken_COMMA then
        sparseEnum_loop k' token members
      else ret (members, token)
  end.

Definition sparseEnum : M khAst :=
  token <- currentToken true ;;
  _ <- sparseSpecifiers false false false false true ;;
  token <-
    (if is_keyword token khKeywordToken_ENUM then
       skipToken false ;;
       currentToken false
     else
       raiseError "expecting an `enum` keyword" ;;
       ret token) ;;
  '(name, token) <-
    (match token with
     | khTokenType_IDENTIFIER identifier =>
         skipToken false ;;
         token <- currentToken false ;;
         ret (identifier, token)
     | _ =>
         raiseError "expecting a name for the enum type" ;;
         ret ([], token)
     end) ;;
  members <-
    (if is_delimiter token khDelimiterToken_CURLY_BRACKET_OPEN then
       skipToken true ;;
       token <- currentToken true ;;
       '(members, token) <- sparseEnum_loop n token [] ;;
       (if is_delimiter token khDelimiterToken_CURLY_BRACKET_CLOSE then
          skipToken true
        else
          raiseError
            "expecting a comma with another member or a closing curly bracket") ;;
       ret members
     else
       raiseError "expecting a `class` keyword" ;;
       ret []) ;;
  ret (khAstType_ENUM name members).

Definition sparseAlias : M khAst :=
  token <- currentToken true ;;
  '(is_incase, _) <- sparseSpecifiers true true false false true ;;
  token <-
    (if is_keyword token khKeywordToken_ALIAS then
       skipToken false ;;
       currentToken false
     else
       raiseError "expecting an `alias` keyword" ;;
       ret token) ;;
  name <-
    (match token with
     | khTokenType_IDENTIFIER identifier =>
         skipToken true ;;
         _ <- currentToken true ;;
         ret identifier
     | _ =>
         raiseError "expecting a name for the alias" ;;
         ret []
     end) ;;
  expression <- pe false false ;;
  token <- currentToken true ;;
  statement_end token ;;
  ret (khAstType_ALIAS is_incase name expression).

(** The [do ... while] of [sparseIfBranch], entered past its
    [skipToken] the first time. *)
Fixpoint sparseIfBranch_loop (k : nat)
    (branch_conditions : list khAstExpression)
    (branch_contents : list (list khAst))
  : M (list khAstExpression * list (list khAst) * khToken) :=
  match k with
  | O => out_of_budget
  | S k' =>
      condition <- pe false false ;;
      content <- sparseBlock ;;
      let branch_conditions := branch_conditions ++ [condition] in
      let branch_contents := branch_contents ++ [content] in
      token <- currentToken true ;;
      if is_keyword token khKeywordToken_ELIF then
        skipToken true ;;
        sparseIfBranch_loop k' branch_conditions branch_contents
      else ret (branch_conditions, branch_contents, token)
  end.

Definition sparseIfBranch : M khAst :=
  token <- currentToken true ;;
  (if is_keyword token khKeywordToken_IF then
     skipToken true ;;
     _ <- currentToken false ;;
     ret tt
   else raiseError "expecting an `if` keyword") ;;
  '(branch_conditions, branch_contents, token) <-
    sparseIfBranch_loop n [] [] ;;
  else_content <-
    (if is_keyword token khKeywordToken_ELSE then
       skipToken true ;;
       sparseBlock
     else ret []) ;;
  ret (khAstType_IF_BRANCH branch_conditions branch_contents else_content).

Definition sparseWhileLoop : M khAst :=
  token <- currentToken true ;;
  (if is_keyword token khKeywordToken_WHILE then skipToken true
   else raiseError "expecting a `while` keyword") ;;
  condition <- pe false false ;;
  content <- sparseBlock ;;
  ret (khAstType_WHILE_LOOP condition content).

Definition sparseDoWhileLoop : M khAst :=
  token <- currentToken true ;;
  (if is_keyword token khKeywordToken_DO then skipToken true
   else raiseError "expecting a `do` keyword") ;;
  content <- sparseBlock ;;
  token <- currentToken true ;;
  (if is_keyword token khKeywordToken_WHILE then skipToken true
   else raiseError "expecting a `while` keyword") ;;
  condition <- pe false false ;;
  token <- currentToken true ;;
  statement_end token ;;
  ret (khAstType_DO_WHILE_LOOP condition content).

(** The comma-separated expressions of [sparseForLoop] and
    [sparseReturn]: a [while] loop entered past its [skipToken] the
    first time. *)
Fixpoint sparseExpressions_loop (k : nat)
    (expressions : list khAstExpression)
  : M (list khAstExpression * khToken) :=
  match k with
  | O => out_of_budget
  | S k' =>
      expression <- pe false false ;;
      let expressions := expressions ++ [expression] in
      token <- currentToken true ;;
      if is_delimiter token khDelimiterToken_COMMA then
        skipToken true ;;
        sparseExpressions_loop k' expressions
      else ret (expressions, token)
  end.

Definition sparseForLoop : M khAst :=
  token <- currentToken true ;;
  (if is_keyword token khKeywordToken_FOR then skipToken true
   else raiseError "expecting a `for` keyword") ;;
  '(expressions, token) <- sparseExpressions_loop n [] ;;
  if is_keyword token khKeywordToken_IN then
    skipToken true ;;
    iteratee <- pe false false ;;
    content <- sparseBlock ;;
    ret (khAstType_FOR_EACH_LOOP expressions iteratee content)
  else
    match expressions with
    | [initial_expression; loop_condition; update_expression] =>
        content <- sparseBlock ;;
        ret (khAstType_FOR_LOOP initial_expression loop_condition
               update_expression content)
    | _ =>
        raiseError "too many arguments for a non-for-each for loop" ;;
        ret khAstType_INVALID
    end.

Definition sparseBreak : M khAst :=
  token <- currentToken true ;;
  token <-
    (if is_keyword token khKeywordToken_BREAK then
       skipToken true ;;
       currentToken true
     else
       raiseError "expecting a `break` keyword" ;;
       ret token) ;;
  statement_end token ;;
  ret khAstType_BREAK.

Definition sparseContinue : M khAst :=
  token <- currentToken true ;;
  token <-
    (if is_keyword token khKeywordToken_CONTINUE then
       skipToken true ;;
       currentToken true
     else
       raiseError "expecting a `continue` keyword" ;;
       ret token) ;;
  statement_end token ;;
  ret khAstType_CONTINUE.

Definition sparseReturn : M khAst :=
  token <- currentToken true ;;
  token <-
    (if is_keyword token khKeywordToken_RETURN then
       skipToken true ;;
       currentToken true
     else
       raiseError "expecting a `return` keyword" ;;
       ret token) ;;
  if ends_statement token then
    skipToken false ;;
    ret (khAstType_RETURN [])
  else
    '(values, token) <- sparseExpressions_loop n [] ;;
    statement_end token ;;
    ret (khAstType_RETURN values).

(** The tail of [sparseStatement], from its label [out]: an expression
    statement. *)
Definition sparseStatement_expression : M khAst :=
  expression <- pe false false ;;
  token <- currentToken false ;;
  (if ends_statement token then skipToken false
   else if is_delimiter token khDelimiterToken_CURLY_BRACKET_CLOSE then
     ret tt
   else
     skipToken false ;;
     raiseError "expecting a newline or a semicolon") ;;
  ret (khAstType_EXPRESSION expression).

Definition sparseStatement : M khAst :=
  token <- currentToken true ;;
  match token with
  | khTokenType_KEYWORD khKeywordToken_IMPORT => sparseImport
  | khTokenType_KEYWORD khKeywordToken_INCLUDE => sparseInclude
  | khTokenType_KEYWORD khKeywordToken_AS =>
      raiseError "unexpected keyword" ;;
      ret khAstType_INVALID
  | khTokenType_KEYWORD khKeywordToken_DEF => sparseFunction
  | khTokenType_KEYWORD khKeywordToken_CLASS => sparseClass
  | khTokenType_KEYWORD khKeywordToken_STRUCT => sparseStruct
  | khTokenType_KEYWORD khKeywordToken_ENUM => sparseEnum
  | khTokenType_KEYWORD khKeywordToken_ALIAS => sparseAlias
  | khTokenType_KEYWORD khKeywordToken_INCASE
  | khTokenType_KEYWORD khKeywordToken_STATIC =>
      previous <- get_cursor ;;
      _ <- sparseSpecifiers true false true false true ;;
      token <- currentToken true ;;
      set_cursor previous ;;
      match token with
      | khTokenType_KEYWORD khKeywordToken_DEF => sparseFunction
      | khTokenType_KEYWORD khKeywordToken_CLASS => sparseClass
      | khTokenType_KEYWORD khKeywordToken_STRUCT => sparseStruct
      | khTokenType_KEYWORD khKeywordToken_ALIAS => sparseAlias
      | _ => sparseStatement_expression
      end
  | khTokenType_KEYWORD khKeywordToken_IF => sparseIfBranch
  | khTokenType_KEYWORD khKeywordToken_ELIF =>
      raiseError "no following if statement to have an elif statement" ;;
      ret khAstType_INVALID
  | khTokenType_KEYWORD khKeywordToken_ELSE =>
      raiseError "no following if statement to have an else statement" ;;
      ret khAstType_INVALID
  | khTokenType_KEYWORD khKeywordToken_FOR => sparseForLoop
  | khTokenType_KEYWORD khKeywordToken_WHILE => sparseWhileLoop
  | khTokenType_KEYWORD khKeywordToken_DO => sparseDoWhileLoop
  | khTokenType_KEYWORD khKeywordToken_BREAK => sparseBreak
  | khTokenType_KEYWORD khKeywordToken_CONTINUE => sparseContinue
  | khTokenType_KEYWORD khKeywordToken_RETURN => sparseReturn
  | khTokenType_EOF =>
      raiseError "expecting a statement, met with a dead end" ;;
      ret khAstType_INVALID
  | _ => sparseStatement_expression
  end.

End Parsing.

(** [kh_parseExpression] and [kh_parseAst] (which is [sparseStatement]):
    the knot.  A call with fuel [S fuel] runs its body with [fuel] as
    the budget of its loops and with the two functions at [fuel] for
    its calls; out of fuel, a call gives [None]. *)
Fixpoint kh_parseExpression (fuel : nat) (ignore_newline filter_type : bool)
  : M khAstExpression :=
  match fuel with
  | O => out_of_budget
  | S fuel' =>
      exparseInplaceOperators (kh_parseExpression fuel') (kh_parseAst fuel')
        fuel' ignore_newline filter_type
  end
with kh_parseAst (fuel : nat) : M khAst :=
  match fuel with
  | O => out_of_budget
  | S fuel' =>
      sparseStatement (kh_parseExpression fuel') (kh_parseAst fuel') fuel'
  end.

(** [kh_parse]: statements until [isEnd]. *)
Fixpoint kh_parse_loop (fuel k : nat) (asts : list khAst) : M (list khAst) :=
  c <- get_cursor ;;
  if isEnd c then ret asts
  else
    match k with
    | O => out_of_budget
    | S k' =>
        ast <- kh_parseAst fuel ;;
        kh_parse_loop fuel k' (asts ++ [ast])
    end.

Definition kh_parse (fuel : nat) (tokens : list khToken)
  : option (list khAst * list string) :=
  match kh_parse_loop fuel fuel [] {| cursor := tokens; errors := [] |} with
  | Some (asts, s) => Some (asts, errors s)
  | None => None
  end.

(** *** Notions the properties are stated with *)

(** A parser state on the tokens [tokens], with no diagnostics yet. *)
Definition start (tokens : list khToken) : pstate :=
  {| cursor := tokens; errors := [] |}.

(** [f] holds of the value of an option, if there is one. *)
Definition optionb {A : Type} (f : A -> bool) (o : option A) : bool :=
  match o with
  | Some a => f a
  | None => true
  end.

(** Every [COMPARISON] node of the expression, at any depth, has one
    operand more than it has operations, and at least one operation
    (so at least two operands); [statement_ok] is the same for the
    expressions of a statement. *)
Fixpoint comparison_ok (e : khAstExpression) : bool :=
  match e with
  | khAstExpressionType_VARIABLE_DECLARATION _ _ _ _ optional_type
      optional_initializer =>
      optionb comparison_ok optional_type
      && optionb comparison_ok optional_initializer
  | khAstExpressionType_LAMBDA arguments optional_variadic_argument _
      optional_return_type content =>
      forallb comparison_ok arguments
      && optionb comparison_ok optional_variadic_argument
      && optionb comparison_ok optional_return_type
      && forallb statement_ok content
  | khAstExpressionType_FUNCTION_TYPE _ argument_types _
      optional_return_type =>
      forallb comparison_ok argument_types
      && optionb comparison_ok optional_return_type
  | khAstExpressionType_TUPLE values => forallb comparison_ok values
  | khAstExpressionType_ARRAY values => forallb comparison_ok values
  | khAstExpressionType_DICT keys values =>
      forallb comparison_ok keys && forallb comparison_ok values
  | khAstExpressionType_UNARY _ operand => comparison_ok operand
  | khAstExpressionType_BINARY _ lhs rhs =>
      comparison_ok lhs && comparison_ok rhs
  | khAstExpressionType_TERNARY value condition otherwise =>
      comparison_ok value && comparison_ok condition
      && comparison_ok otherwise
  | khAstExpressionType_COMPARISON operations operands =>
      Nat.eqb (List.length operands) (S (List.length operations))
      && Nat.leb 1 (List.length operations)
      && forallb comparison_ok operands
  | khAstExpressionType_CALL callee arguments =>
      comparison_ok callee && forallb comparison_ok arguments
  | khAstExpressionType_INDEX indexee arguments =>
      comparison_ok indexee && forallb comparison_ok arguments
  | khAstExpressionType_SCOPE value _ => comparison_ok value
  | khAstExpressionType_TEMPLATIZE value template_arguments =>
      comparison_ok value && forallb comparison_ok template_arguments
  | _ => true
  end
with statement_ok (ast : khAst) : bool :=
  match ast with
  | khAstType_FUNCTION _ _ name_point arguments optional_variadic_argument _
      optional_return_type content =>
      comparison_ok name_point
      && forallb comparison_ok arguments
      && optionb comparison_ok optional_variadic_argument
      && optionb comparison_ok optional_return_type
      && forallb statement_ok content
  | khAstType_CLASS _ _ _ optional_base_type content =>
      optionb comparison_ok optional_base_type && forallb statement_ok content
  | khAstType_STRUCT _ _ _ optional_base_type content =>
      optionb comparison_ok optional_base_type && forallb statement_ok content
  | khAstType_ALIAS _ _ expression => comparison_ok expression
  | khAstType_IF_BRANCH branch_conditions branch_contents else_content =>
      forallb comparison_ok branch_conditions
      && forallb (forallb statement_ok) branch_contents
      && forallb statement_ok else_content
  | khAstType_WHILE_LOOP condition content =>
      comparison_ok condition && forallb statement_ok content
  | khAstType_DO_WHILE_LOOP condition content =>
      comparison_ok condition && forallb statement_ok content
  | khAstType_FOR_LOOP initial_expression loop_condition update_expression
      content =>
      comparison_ok initial_expression && comparison_ok loop_condition
      && comparison_ok update_expression && forallb statement_ok content
  | khAstType_FOR_EACH_LOOP iterators iteratee content =>
      forallb comparison_ok iterators && comparison_ok iteratee
      && forallb statement_ok content
  | khAstType_RETURN values => forallb comparison_ok values
  | khAstType_EXPRESSION expression => comparison_ok expression
  | _ => true
  end.

(** A run the invariant proofs keep for later. *)
Definition kept (P : Prop) : Prop := P.

(** A token [currentToken] passes over: a comment, and a newline when
    newlines are ignored. *)
Definition passed_over (ignore_newline : bool) (token : khToken) : bool :=
  is_COMMENT token || (is_NEWLINE token && ignore_newline).

(** The keywords [sparseStatement] reports without passing them. *)
Definition stuck_keywords : list (khKeywordToken * string) :=
  [ (khKeywordToken_AS, "unexpected keyword");
    (khKeywordToken_ELIF,
     "no following if statement to have an elif statement");
    (khKeywordToken_ELSE,
     "no following if statement to have an else statement") ].

(** A chain of operators and operands behind a first operand: each
    link is an operator token, the tokens of the operand that follows
    it, and the expression these tokens stand for. *)
Definition chain := list (khOperatorToken * list khToken * khAstExpression).

Fixpoint chain_tokens (links : chain) : list khToken :=
  match links with
  | [] => []
  | (operator_v, tokens, _) :: links' =>
      khTokenType_OPERATOR operator_v :: tokens ++ chain_tokens links'
  end.

(** The operand parser [LOWER] reads the operand of each link from its
    tokens, up to the next link (or up to [rest]), taking the
    diagnostics from [e] to [e']. *)
Fixpoint chain_read (LOWER : M khAstExpression) (links : chain)
    (rest : list khToken) (e e' : list string) : Prop :=
  match links with
  | [] => e = e'
  | (_, tokens, operand) :: links' =>
      exists e1,
        LOWER {| cursor := tokens ++ chain_tokens links' ++ rest;
                 errors := e |}
        = Some (operand,
                {| cursor := chain_tokens links' ++ rest; errors := e1 |})
        /\ chain_read LOWER links' rest e1 e'
  end.

(** The node types [cases] gives the operators of the chain. *)
Definition chain_types {T : Type} (cases : khOperatorToken -> option T)
    (links : chain) (types : list T) : Prop :=
  map (fun link => cases (fst (fst link))) links = map Some types.

(** The token does not go on with the chain. *)
Definition chain_end {T : Type} (cases : khOperatorToken -> option T)
    (token : khToken) : Prop :=
  match token with
  | khTokenType_OPERATOR operator_v => cases operator_v = None
  | _ => True
  end.

(** The binary operators by level, from the loosest, and the node type
    of each: the level of an operator is the place, in the chain of
    calls from [kh_parseExpression] down, of the function that has a
    case for it. *)
Definition binary_precedence (operator_v : khOperatorToken)
  : option (nat * khAstBinaryExpressionType) :=
  match operator_v with
  | khOperatorToken_IADD => Some (0, khAstBinaryExpressionType_IADD)
  | khOperatorToken_ISUB => Some (0, khAstBinaryExpressionType_ISUB)
  | khOperatorToken_IMUL => Some (0, khAstBinaryExpressionType_IMUL)
  | khOperatorToken_IDIV => Some (0, khAstBinaryExpressionType_IDIV)
  | khOperatorToken_IMOD => Some (0, khAstBinaryExpressionType_IMOD)
  | khOperatorToken_IPOW => Some (0, khAstBinaryExpressionType_IPOW)
  | khOperatorToken_IDOT => Some (0, khAstBinaryExpressionType_IDOT)
  | khOperatorToken_ASSIGN => Some (0, khAstBinaryExpressionType_ASSIGN)
  | khOperatorToken_IBIT_AND => Some (0, khAstBinaryExpressionType_IBIT_AND)
  | khOperatorToken_IBIT_OR => Some (0, khAstBinaryExpressionType_IBIT_OR)
  | khOperatorToken_IBIT_XOR => Some (0, khAstBinaryExpressionType_IBIT_XOR)
  | khOperatorToken_IBIT_LSHIFT =>
      Some (0, khAstBinaryExpressionType_IBIT_LSHIFT)
  | khOperatorToken_IBIT_RSHIFT =>
      Some (0, khAstBinaryExpressionType_IBIT_RSHIFT)
  | khOperatorToken_OR => Some (1, khAstBinaryExpressionType_OR)
  | khOperatorToken_XOR => Some (2, khAstBinaryExpressionType_XOR)
  | khOperatorToken_AND => Some (3, khAstBinaryExpressionType_AND)
  | khOperatorToken_BIT_OR => Some (4, khAstBinaryExpressionType_BIT_OR)
  | khOperatorToken_BIT_XOR => Some (5, khAstBinaryExpressionType_BIT_XOR)
  | khOperatorToken_BIT_AND => Some (6, khAstBinaryExpressionType_BIT_AND)
  | khOperatorToken_BIT_LSHIFT =>
      Some (7, khAstBinaryExpressionType_BIT_LSHIFT)
  | khOperatorToken_BIT_RSHIFT =>
      Some (7, khAstBinaryExpressionType_BIT_RSHIFT)
  | khOperatorToken_ADD => Some (8, khAstBinaryExpressionType_ADD)
  | khOperatorToken_SUB => Some (8, khAstBinaryExpressionType_SUB)
  | khOperatorToken_MUL => Some (9, khAstBinaryExpressionType_MUL)
  | khOperatorToken_DIV => Some (9, khAstBinaryExpressionType_DIV)
  | khOperatorToken_MOD => Some (9, khAstBinaryExpressionType_MOD)
  | khOperatorToken_POW => Some (10, khAstBinaryExpressionType_POW)
  | _ => None
  end.

(** The first token that counts from the cursor of [s]: what
    [currentToken] would return. *)
Definition next_token (ignore_newline : bool) (s : pstate) : khToken :=
  fst (currentToken_from (cursor s) ignore_newline).

(** The cursor [c'] is the cursor [c] moved on: the tokens from [c']
    are those from [c] but for the tokens passed. *)
Definition moved_on (c c' : list khToken) : Prop :=
  exists passed, c = passed ++ c'.

(** [e'] is [e] with diagnostics pushed behind it. *)
Definition extends (e e' : list string) : Prop := exists new, e' = e ++ new.

(** [m] never moves the cursor back and never drops a diagnostic: when
    it returns, the cursor is the one it was given moved on, and the
    diagnostics are those it was given with its own behind them. *)
Definition steady {A : Type} (m : M A) : Prop :=
  forall s a s',
    m s = Some (a, s') ->
    moved_on (cursor s) (cursor s')
    /\ extends (errors s) (errors s').

(** [m] moves the cursor on when the next token satisfies [starts]. *)
Definition advances {A : Type} (starts : khToken -> bool)
    (ignore_newline : bool) (m : M A) : Prop :=
  forall s a s',
    m s = Some (a, s') ->
    starts (next_token ignore_newline s) = true ->
    List.length (cursor s') < List.length (cursor s).

(** The tokens a statement is parsed from: any but the end of the
    input and the keywords of [stuck_keywords]. *)
Definition starts_statement (token : khToken) : bool :=
  negb (is_EOF token
        || existsb (fun stuck => is_keyword token (fst stuck)) stuck_keywords).

(** The tokens a variable declaration can start with. *)
Definition starts_declaration (token : khToken) : bool :=
  match token with
  | khTokenType_IDENTIFIER _ => true
  | _ =>
      is_keyword token khKeywordToken_STATIC
      || is_keyword token khKeywordToken_WILD
      || is_keyword token khKeywordToken_REF
  end.

(** The diagnostic of the keyword check of the declaration the node
    stands for. *)
Definition specified_diagnostic (ast : khAst) : option string :=
  match ast with
  | khAstType_FUNCTION _ _ _ _ _ _ _ _ => Some "expecting a `def` keyword"
  | khAstType_CLASS _ _ _ _ _ => Some "expecting a `class` keyword"
  | khAstType_STRUCT _ _ _ _ _ => Some "expecting a `struct` keyword"
  | khAstType_ALIAS _ _ _ => Some "expecting an `alias` keyword"
  | _ => None
  end.

(** The token is a specifier. *)
Definition is_specifier (token : khToken) : bool :=
  is_keyword token khKeywordToken_INCASE
  || is_keyword token khKeywordToken_STATIC.

(** The tokens of the names of a path behind its first name: a dot
    before each. *)
Definition path_tokens (names : list khstring) : list khToken :=
  flat_map
    (fun name =>
       [khTokenType_DELIMITER khDelimiterToken_DOT;
        khTokenType_IDENTIFIER name])
    names.

(** The tokens of a path: the dot of a relative path, the first name,
    the names behind it. *)
Definition module_tokens (relative : bool) (first : khstring)
    (others : list khstring) : list khToken :=
  (if relative then [khTokenType_DELIMITER khDelimiterToken_DOT] else [])
  ++ khTokenType_IDENTIFIER first :: path_tokens others.

(** The tokens of the alias of an import, where there is one. *)
Definition alias_tokens (optional_alias : option khstring) : list khToken :=
  match optional_alias with
  | Some alias =>
      [khTokenType_KEYWORD khKeywordToken_AS; khTokenType_IDENTIFIER alias]
  | None => []
  end.

(** The tokens that end a statement and are passed with it. *)
Definition terminators : list khToken :=
  [khTokenType_NEWLINE; khTokenType_DELIMITER khDelimiterToken_SEMICOLON].

(** A chain of conditionals behind a first value: each link is the
    tokens of a condition, the condition they stand for, the tokens of
    the alternative and the alternative they stand for. *)
Definition conditionals :=
  list (list khToken * khAstExpression * list khToken * khAstExpression).

(** The tokens of the chain: [if], the condition, [else], the
    alternative, link after link. *)
Fixpoint conditional_tokens (links : conditionals) : list khToken :=
  match links with
  | [] => []
  | (condition_tokens, _, otherwise_tokens, _) :: links' =>
      khTokenType_KEYWORD khKeywordToken_IF
      :: condition_tokens
         ++ khTokenType_KEYWORD khKeywordToken_ELSE
            :: otherwise_tokens ++ conditional_tokens links'
  end.

(** The operand parser [LOWER] reads the condition and the alternative
    of each link from their tokens, taking the diagnostics from [e] to
    [e']. *)
Fixpoint conditionals_read (LOWER : M khAstExpression)
    (links : conditionals) (rest : list khToken) (e e' : list string)
  : Prop :=
  match links with
  | [] => e = e'
  | (condition_tokens, condition, otherwise_tokens, otherwise) :: links' =>
      let tail := conditional_tokens links' ++ rest in
      exists e1 e2,
        LOWER {| cursor :=
                   condition_tokens
                   ++ khTokenType_KEYWORD khKeywordToken_ELSE
                      :: otherwise_tokens ++ tail;
                 errors := e |}
        = Some (condition,
                {| cursor :=
                     khTokenType_KEYWORD khKeywordToken_ELSE
                     :: otherwise_tokens ++ tail;
                   errors := e1 |})
        /\ LOWER {| cursor := otherwise_tokens ++ tail; errors := e1 |}
           = Some (otherwise, {| cursor := tail; errors := e2 |})
        /\ conditionals_read LOWER links' rest e2 e'
  end.

(** The token is an identifier. *)
Definition is_IDENTIFIER (token : khToken) : bool :=
  match token with
  | khTokenType_IDENTIFIER _ => true
  | _ => false
  end.

(** [m] raises the diagnostic [message] when the next token satisfies
    [starts]: when it returns, the diagnostic is among the
    diagnostics. *)
Definition raises {A : Type} (starts : khToken -> bool)
    (ignore_newline : bool) (message : string) (m : M A) : Prop :=
  forall s a s',
    m s = Some (a, s') ->
    starts (next_token ignore_newline s) = true ->
    In message (errors s').

End Parser.

(** ** Properties of the lexer *)
Module LexerSpec.
Import Wctype Lexer.
Local Open Scope Z_scope.
Unset Implicit Arguments.

(** *** Reading the buffer *)

Lemma peek_skipn (buf : list Z) (cursor : nat) :
  peek buf cursor <> 0 ->
  skipn cursor buf = peek buf cursor :: skipn (S cursor) buf.
Proof.
  unfold peek. revert buf.
  induction cursor as [|cursor IH]; intros [|c buf] H; simpl in *;
    try congruence.
  now apply IH.
Qed.

Lemma peek_hd_skipn (buf : list Z) (cursor : nat) :
  peek buf cursor = hd 0 (skipn cursor buf).
Proof.
  unfold peek. revert buf.
  induction cursor as [|cursor IH]; intros [|c buf]; simpl; auto.
Qed.

Lemma iswspace_nonzero (c : Z) : iswspace c = true -> c <> 0.
Proof. intros H ->. discriminate H. Qed.

Lemma iswalnum_nonzero (c : Z) : iswalnum c = true -> c <> 0.
Proof. intros H ->. discriminate H. Qed.

Lemma iswalpha_iswalnum (c : Z) : iswalpha c = true -> iswalnum c = true.
Proof. unfold iswalnum. now intros ->. Qed.

(** Passing the white space from a white-space code point is passing
    it from the next one. *)
Lemma span_iswspace_step (buf : list Z) (cursor : nat) :
  iswspace (peek buf cursor) = true ->
  (cursor + span iswspace (skipn cursor buf)
   = S cursor + span iswspace (skipn (S cursor) buf))%nat.
Proof.
  intro H.
  rewrite (peek_skipn buf cursor (iswspace_nonzero _ H)).
  simpl. rewrite H. lia.
Qed.

(** *** The tokens the lexer builds *)

Ltac break_if :=
  match goal with
  | |- context [if ?b then _ else _] => destruct b
  | H : context [if ?b then _ else _] |- _ => destruct b
  end.

Ltac break_let :=
  match goal with
  | H : context [let '(_, _) := ?e in _] |- _ => destruct e eqn:?
  | |- context [let '(_, _) := ?e in _] => destruct e eqn:?
  end.

Lemma kh_lexSymbol_built buf cursor errors :
  built (fst (fst (kh_lexSymbol buf cursor errors))).
Proof.
  unfold kh_lexSymbol.
  repeat break_if; simpl; split; discriminate.
Qed.

Lemma kh_lexWord_built buf cursor errors :
  built (fst (fst (kh_lexWord buf cursor errors))).
Proof.
  unfold kh_lexWord.
  destruct (first_case _ word_operators);
    [|destruct (first_case _ word_keywords)]; simpl; split; discriminate.
Qed.

Lemma float_suffix_built buf cursor floating :
  built (fst (float_suffix buf cursor floating)).
Proof.
  unfold float_suffix. repeat break_if; simpl; split; discriminate.
Qed.

Lemma integer_suffix_built buf cursor integer :
  built (fst (integer_suffix buf cursor integer)).
Proof.
  unfold integer_suffix. repeat break_if; simpl; split; discriminate.
Qed.

Lemma kh_lexNumber_built buf cursor errors :
  built (fst (fst (kh_lexNumber buf cursor errors))).
Proof.
  unfold kh_lexNumber.
  destruct (digitOf (peek buf cursor) >? 9); [split; discriminate|].
  destruct (number_base buf cursor) as [base cursor1].
  destruct (kh_lexInt buf cursor1 base SIZE_MAX true)
    as [[integer had_overflowed] cursor2].
  destruct (Nat.eqb cursor2 cursor1); [split; discriminate|].
  match goal with |- context [if ?b then _ else _] => destruct b end.
  - destruct (kh_lexFloat buf cursor1 base) as [floating cursor3].
    pose proof (float_suffix_built buf cursor3 floating) as H.
    destruct (float_suffix buf cursor3 floating); exact H.
  - pose proof (integer_suffix_built buf cursor2 integer) as H.
    destruct (integer_suffix buf cursor2 integer); exact H.
Qed.

Lemma kh_lex_built fuel buf cursor errors token cursor' errors' :
  kh_lex fuel buf cursor errors = Some (token, cursor', errors') ->
  built token.
Proof.
  unfold kh_lex.
  set (cursor0 := (cursor + span iswspace (skipn cursor buf))%nat).
  intro H.
  repeat break_if;
    repeat match goal with
      | H : context [kh_lexChar ?a ?b ?c ?d ?e] |- _ =>
          destruct (kh_lexChar a b c d e) as [[? ?] ?]
      | H : context [kh_lexString ?a ?b ?c ?d ?e] |- _ =>
          destruct (kh_lexString a b c d e) as [[[? ?] ?]|]
      end;
    try discriminate;
    injection H; intros; subst.
  all: try (split; discriminate).
  all: match goal with
       | E : kh_lexWord ?b ?c ?e = _ |- _ =>
           pose proof (kh_lexWord_built b c e) as B
       | E : kh_lexNumber ?b ?c ?e = _ |- _ =>
           pose proof (kh_lexNumber_built b c e) as B
       | E : kh_lexSymbol ?b ?c ?e = _ |- _ =>
           pose proof (kh_lexSymbol_built b c e) as B
       end;
    match goal with
    | E : ?f = _, B : built (fst (fst ?f)) |- _ => rewrite E in B; exact B
    end.
Qed.

(** C1, as the code has it.  [kh_lex] passes a line break as it passes
    any white space: a line feed is white space for it; a call whose
    cursor stands on white space returns what the call from the next
    code point returns; and no call returns a [NEWLINE] token. *)
Theorem kh_lex_skips_line_break :
  forall (fuel : nat) (buf : list Z) (cursor : nat)
         (errors : list khLexError),
    iswspace U_newline = true
    /\ (iswspace (peek buf cursor) = true ->
        kh_lex fuel buf cursor errors = kh_lex fuel buf (S cursor) errors)
    /\ (forall token cursor' errors',
          kh_lex fuel buf cursor errors = Some (token, cursor', errors') ->
          token <> khToken_fromNewline).
Proof.
  intros fuel buf cursor errors. split; [reflexivity | split].
  - intro H. unfold kh_lex.
    now rewrite (span_iswspace_step buf cursor H).
  - intros token cursor' errors' H.
    exact (proj1 (kh_lex_built _ _ _ _ _ _ _ H)).
Qed.

(** At a line feed followed by [x], the call returns the identifier
    [x], with the cursor past both. *)
Lemma kh_lex_skips_line_break_witness :
  iswspace (peek [U_newline; U "x"] 0) = true
  /\ kh_lex 1 [U_newline; U "x"] 0 []
     = Some (khToken_fromIdentifier [U "x"], 2%nat, [])
  /\ khToken_fromIdentifier [U "x"] <> khToken_fromNewline.
Proof.
  pose proof (kh_lex_skips_line_break 1 [U_newline; U "x"] 0 []) as [_ [H1 H2]].
  split; [reflexivity | split].
  - rewrite (H1 eq_refl). reflexivity.
  - apply (H2 _ 2%nat []). reflexivity.
Defined.

(** C1 as the claim states it fails: at a line feed [kh_lex] does not
    return a [NEWLINE] token, it returns the token that follows. *)
Lemma kh_lex_line_break_not_newline :
  peek [U_newline; U "x"] 0 = U_newline
  /\ kh_lex 1 [U_newline; U "x"] 0 []
     <> Some (khToken_fromNewline, 1%nat, [])
  /\ kh_lex 1 [U_newline; U "x"] 0 []
     = Some (khToken_fromIdentifier [U "x"], 2%nat, []).
Proof.
  split; [reflexivity | split; [discriminate | reflexivity]].
Qed.

(** *** Words *)

Lemma span_app_all (p : Z -> bool) (w rest : list Z) :
  Forall (fun c => p c = true) w -> p (hd 0 rest) = false ->
  span p (w ++ rest) = List.length w.
Proof.
  intros Hw Hrest. induction Hw as [|c w Hc _ IH]; simpl.
  - destruct rest as [|c rest]; simpl in *; [reflexivity|].
    now rewrite Hrest.
  - now rewrite Hc, IH.
Qed.

Lemma firstn_length_app (w rest : list Z) :
  firstn (List.length w) (w ++ rest) = w.
Proof. induction w as [|c w IH]; simpl; [now destruct rest | now rewrite IH]. Qed.

Lemma kh_compareCstring_true (identifier cstring : list Z) :
  kh_compareCstring identifier cstring = true <-> identifier = cstring.
Proof.
  revert cstring.
  induction identifier as [|a identifier IH]; intros [|b cstring]; simpl;
    try (split; [discriminate | congruence]); [tauto|].
  rewrite andb_true_iff, Z.eqb_eq, IH.
  split; [intros [-> ->]; reflexivity | intros [= -> ->]; auto].
Qed.

Lemma first_case_other {A : Type} (identifier : list Z)
    (cases : list (string * A)) :
  ~ In identifier (map (fun entry => codes (fst entry)) cases) ->
  first_case identifier cases = None.
Proof.
  induction cases as [|[cstring code] cases IH]; simpl; [reflexivity|].
  intro H.
  destruct (kh_compareCstring identifier (codes cstring)) eqn:E.
  - apply kh_compareCstring_true in E. symmetry in E. tauto.
  - apply IH. tauto.
Qed.

Lemma kh_lexWord_word (w rest : list Z) (errors : list khLexError) :
  Forall (fun c => iswalnum c = true) w -> iswalnum (hd 0 rest) = false ->
  kh_lexWord (w ++ rest) 0 errors = (word_token w, List.length w, errors).
Proof.
  intros Hw Hrest. unfold kh_lexWord, word_token.
  change (skipn 0 (w ++ rest)) with (w ++ rest).
  rewrite (span_app_all iswalnum w rest Hw Hrest).
  change (0 + List.length w)%nat with (List.length w).
  rewrite Nat.sub_0_r, firstn_length_app.
  destruct (first_case w word_operators); [reflexivity|].
  destruct (first_case w word_keywords); reflexivity.
Qed.

Lemma iswalpha_not_space (c : Z) : iswalpha c = true -> iswspace c = false.
Proof.
  unfold iswalpha, iswspace. intro H.
  apply orb_true_iff in H.
  rewrite !andb_true_iff, !Z.leb_le in H.
  apply orb_false_iff. rewrite andb_false_iff, Z.eqb_neq, !Z.leb_gt. lia.
Qed.

Lemma iswalnum_not_quote (c : Z) :
  iswalnum c = true -> (c =? U "'") = false /\ (c =? U_dquote) = false.
Proof.
  unfold iswalnum, iswalpha. intro H.
  rewrite !orb_true_iff, !andb_true_iff, !Z.leb_le in H.
  change (U "'") with 39. change U_dquote with 34.
  rewrite !Z.eqb_neq. lia.
Qed.

(** [kh_lex] on a word hands it to [kh_lexWord]. *)
Lemma kh_lex_word (fuel : nat) (w rest : list Z) (errors : list khLexError) :
  is_word w rest ->
  kh_lex fuel (w ++ rest) 0 errors
  = Some (word_token w, List.length w, errors).
Proof.
  intros (Halpha & Hw & Hrest & Hbyte).
  destruct w as [|c w]; [discriminate Halpha|]. simpl in Halpha.
  unfold kh_lex. simpl skipn. simpl span.
  rewrite (iswalpha_not_space c Halpha). simpl Nat.add.
  change (peek ((c :: w) ++ rest) 0) with c. rewrite Halpha.
  assert (Hquote : (peek ((c :: w) ++ rest) 1 =? U "'") = false
                   /\ (peek ((c :: w) ++ rest) 1 =? U_dquote) = false
                   \/ is_case c "b" "B" = false).
  { destruct (is_case c "b" "B") eqn:Eb; [left | now right].
    destruct w as [|c' w]; simpl.
    - specialize (Hbyte Eb eq_refl). unfold peek. simpl.
      destruct rest as [|r rest]; simpl in *.
      + split; reflexivity.
      + rewrite !Z.eqb_neq. exact Hbyte.
    - apply iswalnum_not_quote. inversion Hw as [|? ? _ Hw']. subst.
      inversion Hw'. assumption. }
  destruct (is_case c "b" "B").
  - destruct Hquote as [[-> ->]|]; [|discriminate].
    simpl Nat.sub. now rewrite (kh_lexWord_word (c :: w) rest errors Hw Hrest).
  - now rewrite (kh_lexWord_word (c :: w) rest errors Hw Hrest).
Qed.

Lemma codes_length (s : string) : List.length (codes s) = String.length s.
Proof. induction s; simpl; congruence. Qed.

(** C5, as the code has it.  Followed by anything but an alphanumeric
    code point, each of the twenty-two words of [lexed_keywords] lexes
    to its keyword token and each of [not], [and], [or], [xor] to its
    operator token; every other word lexes to an identifier token
    that holds the word; and that is what [wild], [incase] and [in]
    lex to. *)
Theorem kh_lex_words :
  forall (fuel : nat) (rest : list Z) (errors : list khLexError),
    iswalnum (hd 0 rest) = false ->
    (forall s keyword, In (s, keyword) lexed_keywords ->
       kh_lex fuel (codes s ++ rest) 0 errors
       = Some (khToken_fromKeyword keyword, String.length s, errors))
    /\ (forall s operator_v, In (s, operator_v) lexed_word_operators ->
          kh_lex fuel (codes s ++ rest) 0 errors
          = Some (khToken_fromOperator operator_v, String.length s, errors))
    /\ (forall w, is_word w rest -> ~ In w reserved_words ->
          kh_lex fuel (w ++ rest) 0 errors
          = Some (khToken_fromIdentifier w, List.length w, errors))
    /\ (forall s, In s ["wild"; "incase"; "in"]%string ->
          kh_lex fuel (codes s ++ rest) 0 errors
          = Some (khToken_fromIdentifier (codes s), String.length s, errors)).
Proof.
  intros fuel rest errors Hrest.
  assert (Hword : forall s : string,
             iswalpha (hd 0 (codes s)) = true ->
             forallb iswalnum (codes s) = true ->
             (2 <=? String.length s)%nat = true ->
             kh_lex fuel (codes s ++ rest) 0 errors
             = Some (word_token (codes s), String.length s, errors)).
  { intros s H1 H2 H3. rewrite <- codes_length. apply kh_lex_word.
    split; [exact H1 | split; [|split; [exact Hrest|]]].
    - apply Forall_forall. now apply forallb_forall.
    - intros _ Hlength. rewrite codes_length in Hlength.
      apply Nat.leb_le in H3. lia. }
  split; [|split; [|split]].
  - intros s keyword H. simpl in H.
    repeat (destruct H as [[= <- <-]|H]; [now apply Hword|]).
    contradiction.
  - intros s operator_v H. simpl in H.
    repeat (destruct H as [[= <- <-]|H]; [now apply Hword|]).
    contradiction.
  - intros w Hw Hnot. rewrite (kh_lex_word fuel w rest errors Hw).
    unfold word_token. unfold reserved_words in Hnot.
    rewrite in_app_iff in Hnot.
    rewrite (first_case_other w word_operators) by tauto.
    rewrite (first_case_other w word_keywords) by tauto.
    reflexivity.
  - intros s H. simpl in H.
    repeat (destruct H as [<-|H]; [now apply Hword|]).
    contradiction.
Qed.

(** The keyword [return] before a space, the operator [xor] at the end
    of the input, the word [wild] before a parenthesis. *)
Lemma kh_lex_words_witness :
  kh_lex 0 (codes "return x") 0 []
  = Some (khToken_fromKeyword khKeywordToken_RETURN, 6%nat, [])
  /\ kh_lex 0 (codes "xor") 0 []
     = Some (khToken_fromOperator khOperatorToken_XOR, 3%nat, [])
  /\ kh_lex 0 (codes "wild(") 0 []
     = Some (khToken_fromIdentifier (codes "wild"), 4%nat, []).
Proof.
  split; [|split].
  - apply (proj1 (kh_lex_words 0 (codes " x") [] eq_refl) "return"%string).
    simpl. tauto.
  - apply (proj1 (proj2 (kh_lex_words 0 [] [] eq_refl)) "xor"%string).
    simpl. tauto.
  - apply (proj1 (proj2 (proj2 (kh_lex_words 0 (codes "(") [] eq_refl)))
             (codes "wild")).
    + repeat split; try reflexivity.
      * repeat constructor.
      * discriminate.
      * discriminate.
    + simpl. intuition discriminate.
Defined.

(** C5 as the claim states it fails: [wild], [incase] and [in] are in
    the spec's keyword set and lex to identifiers. *)
Lemma kh_lex_wild_not_keyword :
  kh_lex 0 (codes "wild") 0 []
  <> Some (khToken_fromKeyword khKeywordToken_WILD, 4%nat, [])
  /\ kh_lex 0 (codes "wild") 0 []
     = Some (khToken_fromIdentifier (codes "wild"), 4%nat, [])
  /\ kh_lex 0 (codes "incase") 0 []
     = Some (khToken_fromIdentifier (codes "incase"), 6%nat, [])
  /\ kh_lex 0 (codes "in") 0 []
     = Some (khToken_fromIdentifier (codes "in"), 2%nat, []).
Proof.
  repeat split; try reflexivity. discriminate.
Qed.

(** *** The cursor never moves back *)

Lemma peek_in_buffer (buf : list Z) (cursor : nat) :
  peek buf cursor <> 0 -> (cursor < List.length buf)%nat.
Proof.
  unfold peek. intro H.
  destruct (Nat.lt_ge_cases cursor (List.length buf)) as [|Hge]; [assumption|].
  now rewrite (nth_overflow buf 0 Hge) in H.
Qed.

Lemma kh_lexInt_loop_cursor rest :
  forall base max_length result track had_overflowed cursor,
    (cursor
     <= snd (kh_lexInt_loop rest base max_length result track had_overflowed
               cursor))%nat.
Proof.
  induction rest as [|c rest IH]; intros; simpl; [lia|].
  destruct ((digitOf c <? base) && (0 <? max_length)); simpl; [|lia].
  match goal with |- (_ <= snd (kh_lexInt_loop _ _ ?m ?r _ ?h _))%nat =>
    specialize (IH base m r track h (S cursor)) end.
  lia.
Qed.

Lemma kh_lexInt_cursor buf cursor base max_length track :
  (cursor <= snd (kh_lexInt buf cursor base max_length track))%nat.
Proof. apply kh_lexInt_loop_cursor. Qed.

Lemma hex_escape_cursor buf cursor length msg errors :
  (cursor <= snd (fst (hex_escape buf cursor length msg errors)))%nat.
Proof.
  unfold hex_escape.
  pose proof (kh_lexInt_cursor buf cursor 16 (Z.of_nat length) false) as H.
  destruct (kh_lexInt buf cursor 16 (Z.of_nat length) false) as [[v o] c].
  simpl in H. break_if; simpl; assumption.
Qed.

Lemma kh_lexChar_body_cursor buf cursor with_quotes is_byte errors :
  (cursor
   <= body_cursor (kh_lexChar_body buf cursor with_quotes is_byte errors))%nat.
Proof.
  unfold kh_lexChar_body, body_cursor.
  repeat break_if; simpl; try lia;
    match goal with
    | |- (_ <= snd (fst (hex_escape ?b ?c ?n ?m ?e)))%nat =>
        pose proof (hex_escape_cursor b c n m e); lia
    end.
Qed.

(** Off a stalling code point and off the terminator, the body of
    [kh_lexChar] moves the cursor on when there are no quotes to
    check. *)
Lemma kh_lexChar_body_moves buf cursor is_byte errors multiline :
  peek buf cursor <> 0 ->
  stalls is_byte multiline (peek buf cursor) = false ->
  (peek buf cursor =? U_newline) = false ->
  (cursor < body_cursor (kh_lexChar_body buf cursor false is_byte errors))%nat.
Proof.
  intros Hnul Hstall Hnewline.
  unfold stalls in Hstall. rewrite Hnewline in Hstall. simpl in Hstall.
  apply orb_false_iff in Hstall. destruct Hstall as [Hquote Hbyte].
  unfold kh_lexChar_body, body_cursor.
  destruct (peek buf cursor =? U "\").
  - repeat break_if; simpl; try lia;
      match goal with
      | |- (_ < snd (fst (hex_escape ?b ?c ?n ?m ?e)))%nat =>
          pose proof (hex_escape_cursor b c n m e); lia
      end.
  - rewrite Hquote, Hnewline.
    destruct (peek buf cursor =? U_nul) eqn:E;
      [apply Z.eqb_eq in E; contradiction|].
    rewrite Hbyte. simpl. lia.
Qed.

Lemma kh_lexChar_cursor buf cursor with_quotes is_byte errors :
  (cursor
   <= snd (fst (kh_lexChar buf cursor with_quotes is_byte errors)))%nat
  /\ (with_quotes = true -> peek buf cursor = U "'" ->
      (cursor
       < snd (fst (kh_lexChar buf cursor with_quotes is_byte errors)))%nat).
Proof.
  unfold kh_lexChar.
  destruct with_quotes.
  - destruct (peek buf cursor =? U "'") eqn:E.
    + pose proof (kh_lexChar_body_cursor buf (S cursor) true is_byte errors)
        as H. unfold body_cursor in H.
      destruct (kh_lexChar_body buf (S cursor) true is_byte errors)
        as [[[chr c] e] returned]. simpl in H.
      repeat break_if; simpl; split; intros; lia.
    + match goal with |- context [kh_lexChar_body ?a ?b ?c ?d ?e] =>
        pose proof (kh_lexChar_body_cursor a b c d e) as H;
        unfold body_cursor in H;
        destruct (kh_lexChar_body a b c d e) as [[[chr c'] e'] returned]
      end. simpl in H.
      repeat break_if; simpl; split; intros; try lia.
      all: match goal with H : peek _ _ = U "'" |- _ =>
             rewrite H in E; discriminate E end.
  - pose proof (kh_lexChar_body_cursor buf cursor false is_byte errors) as H.
    unfold body_cursor in H.
    destruct (kh_lexChar_body buf cursor false is_byte errors)
      as [[[chr c] e] returned]. simpl in H.
    repeat break_if; simpl; split; intros; try lia; discriminate.
Qed.

Lemma kh_lexString_loop_cursor fuel buf is_buffer multiline :
  forall string cursor errors string' cursor' errors',
    kh_lexString_loop fuel buf is_buffer multiline string cursor errors
    = Some (string', cursor', errors') ->
    (cursor <= cursor')%nat.
Proof.
  induction fuel as [|fuel IH]; intros string cursor errors string' cursor'
    errors' H; simpl in H; [discriminate|].
  pose proof (proj1 (kh_lexChar_cursor buf cursor false is_buffer errors))
    as Hchar.
  destruct (kh_lexChar buf cursor false is_buffer errors) as [[chr c] e].
  simpl in Hchar.
  repeat break_if;
    try (injection H as <- <- <-; lia);
    apply IH in H; lia.
Qed.

Lemma kh_lexString_cursor fuel buf cursor is_buffer errors string' cursor'
    errors' :
  kh_lexString fuel buf cursor is_buffer errors
  = Some (string', cursor', errors') ->
  (cursor <= cursor')%nat
  /\ (peek buf cursor = U_dquote -> (cursor < cursor')%nat).
Proof.
  unfold kh_lexString.
  destruct (peek buf cursor =? U_dquote) eqn:E.
  - break_if; intro H; apply kh_lexString_loop_cursor in H; split; intros; lia.
  - intro H; apply kh_lexString_loop_cursor in H. split; [lia|].
    intro H'. rewrite H' in E. discriminate E.
Qed.

Lemma span_firstn_length (p : Z -> bool) (rest : list Z) :
  List.length (firstn (span p rest) rest) = span p rest.
Proof.
  induction rest as [|c rest IH]; simpl; [reflexivity|].
  destruct (p c); simpl; congruence.
Qed.

Lemma digits_from_length buf cursor base :
  List.length (digits_from buf cursor base)
  = span (fun c => digitOf c <? base) (skipn cursor buf).
Proof.
  unfold digits_from. now rewrite length_map, span_firstn_length.
Qed.

Lemma digitOf_nul : digitOf 0 = 255.
Proof. reflexivity. Qed.

(** A first code point that is a digit of the base is passed. *)
Lemma digits_from_first buf cursor base :
  base <= 255 -> (digitOf (peek buf cursor) <? base) = true ->
  (1 <= List.length (digits_from buf cursor base))%nat.
Proof.
  intros Hbase Hdigit. rewrite digits_from_length.
  assert (Hnul : peek buf cursor <> 0).
  { intro E. rewrite E, digitOf_nul in Hdigit.
    apply Z.ltb_lt in Hdigit. lia. }
  rewrite (peek_skipn buf cursor Hnul). simpl. rewrite Hdigit. lia.
Qed.

Lemma kh_lexFloat_exponent_cursor buf cursor binary :
  (cursor <= snd (kh_lexFloat_exponent buf cursor binary))%nat.
Proof.
  unfold kh_lexFloat_exponent.
  repeat break_if;
    match goal with |- context [kh_lexInt ?a ?b ?c ?d ?e] =>
      pose proof (kh_lexInt_cursor a b c d e);
      destruct (kh_lexInt a b c d e) as [[? ?] ?]
    end; simpl in *; lia.
Qed.

Lemma kh_lexFloat_cursor buf cursor base :
  (cursor + List.length (digits_from buf cursor base)
   <= snd (kh_lexFloat buf cursor base))%nat.
Proof.
  unfold kh_lexFloat.
  set (cursor1 := (cursor + List.length (digits_from buf cursor base))%nat).
  destruct (peek buf cursor1 =? U ".").
  - set (cursor2 :=
           (S cursor1 + List.length (digits_from buf (S cursor1) base))%nat).
    assert (cursor1 <= cursor2)%nat by (unfold cursor2; lia).
    repeat break_if; simpl; try lia;
      match goal with |- context [kh_lexFloat_exponent ?a ?b ?c] =>
        pose proof (kh_lexFloat_exponent_cursor a b c);
        destruct (kh_lexFloat_exponent a b c)
      end; simpl in *; lia.
  - repeat break_if; simpl; try lia;
      match goal with |- context [kh_lexFloat_exponent ?a ?b ?c] =>
        pose proof (kh_lexFloat_exponent_cursor a b c);
        destruct (kh_lexFloat_exponent a b c)
      end; simpl in *; lia.
Qed.

Lemma float_suffix_cursor buf cursor floating :
  (cursor <= snd (float_suffix buf cursor floating))%nat.
Proof. unfold float_suffix. repeat break_if; simpl; lia. Qed.

Lemma integer_suffix_cursor buf cursor integer :
  (cursor <= snd (integer_suffix buf cursor integer))%nat.
Proof. unfold integer_suffix. repeat break_if; simpl; lia. Qed.

Lemma number_base_cases buf cursor :
  number_base buf cursor = (10, cursor)
  \/ (snd (number_base buf cursor) = S (S cursor)
      /\ fst (number_base buf cursor) <= 255).
Proof.
  unfold number_base. repeat break_if; simpl; auto; try (right; split; lia).
  left. f_equal. lia.
Qed.

Lemma kh_lexNumber_cursor buf cursor errors :
  let '(token, cursor', _) := kh_lexNumber buf cursor errors in
  (cursor <= cursor')%nat
  /\ (token <> khToken_fromNone -> (cursor < cursor')%nat).
Proof.
  unfold kh_lexNumber.
  destruct (digitOf (peek buf cursor) >? 9) eqn:Edigit;
    [split; [lia | congruence]|].
  pose proof (number_base_cases buf cursor) as Hbase.
  destruct (number_base buf cursor) as [base cursor1].
  pose proof (kh_lexInt_cursor buf cursor1 base SIZE_MAX true) as Hint.
  destruct (kh_lexInt buf cursor1 base SIZE_MAX true)
    as [[integer had_overflowed] cursor2]. simpl in Hint.
  destruct (Nat.eqb cursor2 cursor1) eqn:Eorigin.
  - apply Nat.eqb_eq in Eorigin. subst cursor2.
    split; [|congruence].
    destruct Hbase as [[= _ ->]|[Hb _]]; simpl in *; lia.
  - apply Nat.eqb_neq in Eorigin.
    match goal with |- context [if ?b then _ else _] => destruct b end.
    + pose proof (kh_lexFloat_cursor buf cursor1 base) as Hfloat.
      destruct (kh_lexFloat buf cursor1 base) as [floating cursor3].
      pose proof (float_suffix_cursor buf cursor3 floating) as Hsuffix.
      destruct (float_suffix buf cursor3 floating) as [token cursor4].
      simpl in *.
      destruct Hbase as [[= -> ->]|[Hb _]]; simpl in *; [|lia].
      assert (1 <= List.length (digits_from buf cursor 10))%nat.
      { apply digits_from_first; [lia|].
        apply Z.ltb_lt. rewrite Z.gtb_ltb in Edigit.
        apply Z.ltb_ge in Edigit. lia. }
      lia.
    + pose proof (integer_suffix_cursor buf cursor2 integer) as Hsuffix.
      destruct (integer_suffix buf cursor2 integer) as [token cursor3].
      simpl in *.
      destruct Hbase as [[= _ ->]|[Hb _]]; simpl in *; lia.
Qed.

Lemma kh_lexSymbol_cursor buf cursor errors :
  let '(token, cursor', _) := kh_lexSymbol buf cursor errors in
  (cursor <= cursor')%nat
  /\ (token <> khToken_fromNone -> (cursor < cursor')%nat).
Proof.
  unfold kh_lexSymbol.
  repeat break_if; simpl; split; intros; try lia; congruence.
Qed.

Lemma kh_lexWord_cursor buf cursor errors :
  let '(_, cursor', _) := kh_lexWord buf cursor errors in
  (cursor <= cursor')%nat
  /\ (iswalpha (peek buf cursor) = true -> (cursor < cursor')%nat).
Proof.
  unfold kh_lexWord.
  assert (H : iswalpha (peek buf cursor) = true ->
              (1 <= span iswalnum (skipn cursor buf))%nat).
  { intro Halpha. apply iswalpha_iswalnum in Halpha.
    rewrite (peek_skipn buf cursor (iswalnum_nonzero _ Halpha)).
    simpl. rewrite Halpha. lia. }
  destruct (first_case _ word_operators);
    [|destruct (first_case _ word_keywords)];
    (split; [lia | intro Halpha; specialize (H Halpha); lia]).
Qed.

(** Whenever [kh_lex] returns, the cursor did not move back, and it
    moved on unless the token is [NONE]. *)
Lemma kh_lex_advances fuel buf cursor errors token cursor' errors' :
  kh_lex fuel buf cursor errors = Some (token, cursor', errors') ->
  (cursor <= cursor')%nat
  /\ (token <> khToken_fromNone -> (cursor < cursor')%nat).
Proof.
  unfold kh_lex.
  set (cursor0 := (cursor + span iswspace (skipn cursor buf))%nat).
  assert (H0 : (cursor <= cursor0)%nat) by (unfold cursor0; lia).
  clearbody cursor0.
  pose proof (kh_lexSymbol_cursor buf cursor0 errors) as Hsymbol.
  pose proof (kh_lexNumber_cursor buf cursor0 errors) as Hnumber.
  pose proof (kh_lexWord_cursor buf cursor0 errors) as Hword.
  destruct (iswalpha (peek buf cursor0)) eqn:Ealpha.
  - destruct (is_case (peek buf cursor0) "b" "B").
    + destruct (peek buf (S cursor0) =? U "'").
      * pose proof (proj1 (kh_lexChar_cursor buf (S cursor0) true true errors))
          as Hchar.
        destruct (kh_lexChar buf (S cursor0) true true errors) as [[chr c] e].
        simpl in Hchar. intros [= <- <- <-]. split; intros; lia.
      * destruct (peek buf (S cursor0) =? U_dquote).
        -- destruct (kh_lexString fuel buf (S cursor0) true errors)
             as [[[string c] e]|] eqn:Estring; [|discriminate].
           apply kh_lexString_cursor in Estring.
           intros [= <- <- <-]. split; intros; lia.
        -- replace (S cursor0 - 1)%nat with cursor0 by lia.
           destruct (kh_lexWord buf cursor0 errors) as [[t c] e].
           intros [= <- <- <-].
           destruct Hword as [? Hw]. specialize (Hw eq_refl).
           split; intros; lia.
    + destruct (kh_lexWord buf cursor0 errors) as [[t c] e].
      intros [= <- <- <-].
      destruct Hword as [? Hw]. specialize (Hw eq_refl).
      split; intros; lia.
  - destruct (digitOf (peek buf cursor0) <? 10).
    { destruct (kh_lexNumber buf cursor0 errors) as [[t c] e].
      intros [= <- <- <-].
      destruct Hnumber as [? Hn]. split; [lia|].
      intro Hnone. specialize (Hn Hnone). lia. }
    destruct (peek buf cursor0 =? U "'") eqn:Equote.
    { apply Z.eqb_eq in Equote.
      pose proof (kh_lexChar_cursor buf cursor0 true false errors)
        as [_ Hchar]. specialize (Hchar eq_refl Equote).
      destruct (kh_lexChar buf cursor0 true false errors) as [[chr c] e].
      simpl in Hchar. intros [= <- <- <-]. split; intros; lia. }
    destruct (peek buf cursor0 =? U_dquote) eqn:Edquote.
    { apply Z.eqb_eq in Edquote.
      destruct (kh_lexString fuel buf cursor0 false errors)
        as [[[string c] e]|] eqn:Estring; [|discriminate].
      apply kh_lexString_cursor in Estring. destruct Estring as [_ Hs].
      specialize (Hs Edquote).
      intros [= <- <- <-]. split; intros; lia. }
    destruct (peek buf cursor0 =? U "#").
    { intros [= <- <- <-]. split; intros; break_if; lia. }
    destruct (kh_lexSymbol buf cursor0 errors) as [[t c] e].
    intros [= <- <- <-].
    destruct Hsymbol as [? Hs]. split; [lia|].
    intro Hnone. specialize (Hs Hnone). lia.
Qed.

(** *** When the loop of [kh_lexString] ends *)

Lemma kh_lexString_loop_mono fuel buf is_buffer multiline :
  forall fuel' string cursor errors r,
    (fuel <= fuel')%nat ->
    kh_lexString_loop fuel buf is_buffer multiline string cursor errors
    = Some r ->
    kh_lexString_loop fuel' buf is_buffer multiline string cursor errors
    = Some r.
Proof.
  induction fuel as [|fuel IH]; intros fuel' string cursor errors r Hle H;
    [discriminate|].
  destruct fuel' as [|fuel']; [lia|]. simpl in *.
  destruct (kh_lexChar buf cursor false is_buffer errors) as [[chr c] e].
  repeat break_if; try assumption; apply IH; try assumption; lia.
Qed.

Lemma kh_lex_mono fuel fuel' buf cursor errors r :
  (fuel <= fuel')%nat ->
  kh_lex fuel buf cursor errors = Some r ->
  kh_lex fuel' buf cursor errors = Some r.
Proof.
  intro Hle. unfold kh_lex, kh_lexString.
  repeat break_if; try (intro H; exact H);
    match goal with
    | |- match kh_lexString_loop fuel ?a ?b ?c ?d ?e ?f with _ => _ end = _
         -> _ =>
        destruct (kh_lexString_loop fuel a b c d e f) as [r'|] eqn:E;
        [rewrite (kh_lexString_loop_mono fuel a b c fuel' d e f r' Hle E);
         intro H; exact H
        | discriminate]
    end.
Qed.

Lemma kh_lexChar_no_quotes buf cursor is_byte errors :
  snd (fst (kh_lexChar buf cursor false is_byte errors))
  = body_cursor (kh_lexChar_body buf cursor false is_byte errors).
Proof.
  unfold kh_lexChar, body_cursor.
  destruct (kh_lexChar_body buf cursor false is_byte errors)
    as [[[chr c] e] returned].
  now destruct returned.
Qed.

(** With no stalling code point from the cursor on, the loop returns
    once its fuel exceeds what is left of the buffer. *)
Lemma kh_lexString_loop_returns fuel buf is_buffer multiline :
  forall string cursor errors,
    (forall i, (cursor <= i)%nat ->
               stalls is_buffer multiline (peek buf i) = false) ->
    (List.length buf - cursor < fuel)%nat ->
    exists r,
      kh_lexString_loop fuel buf is_buffer multiline string cursor errors
      = Some r.
Proof.
  induction fuel as [|fuel IH]; intros string cursor errors Hstall Hfuel;
    [lia|].
  simpl.
  assert (Hnext : forall string' errors',
             peek buf cursor <> 0 ->
             forall cursor', (cursor < cursor')%nat ->
             exists r,
               kh_lexString_loop fuel buf is_buffer multiline string' cursor'
                 errors' = Some r).
  { intros string' errors' Hnul cursor' Hlt. apply IH.
    - intros i Hi. apply Hstall. lia.
    - apply peek_in_buffer in Hnul. lia. }
  destruct (peek buf cursor =? U_dquote) eqn:Edquote.
  { apply Z.eqb_eq in Edquote.
    assert (peek buf cursor <> 0) by (rewrite Edquote; discriminate).
    repeat break_if; eauto. }
  destruct (peek buf cursor =? U_newline) eqn:Enewline.
  { apply Z.eqb_eq in Enewline.
    assert (peek buf cursor <> 0) by (rewrite Enewline; discriminate).
    destruct multiline; [eauto|].
    specialize (Hstall cursor (Nat.le_refl _)).
    rewrite Enewline in Hstall. discriminate Hstall. }
  destruct (peek buf cursor =? U_nul) eqn:Enul; [eauto|].
  apply Z.eqb_neq in Enul.
  pose proof (kh_lexChar_body_moves buf cursor is_buffer errors multiline Enul
                (Hstall cursor (Nat.le_refl _)) Enewline) as Hmoves.
  rewrite <- kh_lexChar_no_quotes in Hmoves.
  destruct (kh_lexChar buf cursor false is_buffer errors) as [[chr c] e].
  simpl in Hmoves. now apply Hnext.
Qed.

Lemma kh_lexString_returns fuel buf cursor is_buffer errors :
  peek buf cursor = U_dquote ->
  (forall i, (cursor < i)%nat ->
             stalls is_buffer (opens_multiline buf cursor) (peek buf i)
             = false) ->
  (List.length buf < fuel)%nat ->
  exists r, kh_lexString fuel buf cursor is_buffer errors = Some r.
Proof.
  intros Hquote Hstall Hfuel. unfold kh_lexString.
  rewrite Hquote. change (U_dquote =? U_dquote) with true.
  cbv iota. fold (opens_multiline buf cursor).
  destruct (opens_multiline buf cursor);
    apply kh_lexString_loop_returns; try lia;
    intros i Hi; apply Hstall; lia.
Qed.

(** [kh_lex] returns on every buffer whose string literal at the
    cursor, if there is one, has no stalling code point. *)
Lemma kh_lex_returns fuel buf cursor errors :
  (forall is_buffer quote,
     string_start buf cursor = Some (is_buffer, quote) ->
     forall i, (quote < i)%nat ->
       stalls is_buffer (opens_multiline buf quote) (peek buf i) = false) ->
  (List.length buf < fuel)%nat ->
  exists r, kh_lex fuel buf cursor errors = Some r.
Proof.
  unfold string_start, kh_lex.
  set (cursor0 := (cursor + span iswspace (skipn cursor buf))%nat).
  clearbody cursor0. intros Hstall Hfuel.
  destruct (peek buf cursor0 =? U_dquote) eqn:Edquote.
  - apply Z.eqb_eq in Edquote.
    rewrite Edquote. change (iswalpha U_dquote) with false.
    change (digitOf U_dquote <? 10) with false.
    change (U_dquote =? U "'") with false.
    change (U_dquote =? U_dquote) with true. cbv iota.
    destruct (kh_lexString_returns fuel buf cursor0 false errors Edquote
                (Hstall false cursor0 eq_refl) Hfuel) as [[[string c] e] ->].
    eauto.
  - destruct (iswalpha (peek buf cursor0)).
    + destruct (is_case (peek buf cursor0) "b" "B"); [|eauto].
      destruct (peek buf (S cursor0) =? U "'").
      { destruct (kh_lexChar buf (S cursor0) true true errors) as [[chr c] e].
        eauto. }
      destruct (peek buf (S cursor0) =? U_dquote) eqn:Ebuffer; [|eauto].
      apply Z.eqb_eq in Ebuffer.
      destruct (kh_lexString_returns fuel buf (S cursor0) true errors Ebuffer
                  (Hstall true (S cursor0) eq_refl) Hfuel)
        as [[[string c] e] ->].
      eauto.
    + destruct (digitOf (peek buf cursor0) <? 10); [eauto|].
      destruct (peek buf cursor0 =? U "'").
      { destruct (kh_lexChar buf cursor0 true false errors) as [[chr c] e].
        eauto. }
      destruct (peek buf cursor0 =? U "#"); eauto.
Qed.

(** On a character it does not know the call returns [NONE], which is
    not [EOF], and leaves the cursor where it was; the same at the
    terminator, where there is no [EOF] token. *)
Lemma kh_lex_unknown_character_stays :
  kh_lex 1 (codes "$") 0 []
  = Some (khToken_fromNone, 0%nat,
          [{| ptr := 0; error := "unknown character" |}])
  /\ kh_lex 1 [] 0 []
     = Some (khToken_fromNone, 0%nat,
             [{| ptr := 0;
                 error := "expecting a token, met with a dead end" |}]).
Proof. split; reflexivity. Qed.

(** On the stalling code points the loop of [kh_lexString] runs for
    ever. *)
Lemma kh_lexString_loop_newline_stalls fuel :
  forall string errors,
    kh_lexString_loop fuel [34; 97; 10; 98; 34] false false string 2 errors
    = None.
Proof.
  induction fuel as [|fuel IH]; intros; simpl; [reflexivity | apply IH].
Qed.

Lemma kh_lexString_loop_byte_stalls fuel :
  forall string errors,
    kh_lexString_loop fuel [98; 34; 256; 34] true false string 2 errors
    = None.
Proof.
  induction fuel as [|fuel IH]; intros; simpl; [reflexivity | apply IH].
Qed.

Lemma kh_lexString_loop_quote_stalls fuel :
  forall string errors,
    kh_lexString_loop fuel [34; 105; 116; 39; 115; 34] false false string 3
      errors
    = None.
Proof.
  induction fuel as [|fuel IH]; intros; simpl; [reflexivity | apply IH].
Qed.

(** C2.  The call does not return on the malformed inputs the claim
    names, nor on a single quote in a string.  On the string literal
    with a raw line feed in it (a double quote, [a], a line feed, [b],
    a double quote), on the byte buffer that holds the code point 256
    ([b], a double quote, 256, a double quote) and on the string
    [it's] between double quotes, no fuel makes [kh_lex] return: the
    loop of [kh_lexString] reports the line feed and goes round
    without passing it, and [kh_lexChar], which it calls without
    quotes for the other two, reports the code point or leaves the
    single quote without moving the cursor. *)
Theorem kh_lex_never_returns :
  forall fuel : nat,
    kh_lex fuel [34; 97; 10; 98; 34] 0 [] = None
    /\ kh_lex fuel [98; 34; 256; 34] 0 [] = None
    /\ kh_lex fuel [34; 105; 116; 39; 115; 34] 0 [] = None.
Proof.
  intro fuel. split; [|split].
  - destruct fuel as [|fuel]; [reflexivity|].
    unfold kh_lex, kh_lexString. simpl.
    now rewrite kh_lexString_loop_newline_stalls.
  - unfold kh_lex, kh_lexString. simpl.
    now rewrite kh_lexString_loop_byte_stalls.
  - destruct fuel as [|[|fuel]]; try reflexivity.
    unfold kh_lex, kh_lexString. simpl.
    now rewrite kh_lexString_loop_quote_stalls.
Qed.

(** Whenever [kh_lex] returns, the cursor has not moved back, and it
    has moved on by at least one code point unless the token is
    [NONE], which [kh_lexSymbol] returns on an unknown character and
    on the terminator after it has stepped back onto the code
    point. *)
Theorem kh_lex_moves_on :
  forall fuel buf cursor errors token cursor' errors',
    kh_lex fuel buf cursor errors = Some (token, cursor', errors') ->
    (cursor <= cursor')%nat
    /\ (token <> khToken_fromNone -> (cursor < cursor')%nat).
Proof.
  intros fuel buf cursor errors token cursor' errors' H.
  destruct (kh_lex_advances _ _ _ _ _ _ _ H) as [Hback Hon].
  split; [exact Hback | exact Hon].
Qed.

(** The word [x] behind a space. *)
Lemma kh_lex_moves_on_witness :
  (0 <= 2)%nat
  /\ (khToken_fromIdentifier (codes "x") <> khToken_fromNone -> (0 < 2)%nat).
Proof.
  apply (kh_lex_moves_on 0 (codes " x;") 0 [] (khToken_fromIdentifier (codes "x"))
           2%nat []).
  reflexivity.
Defined.

(** C7.  The closing square bracket gets the delimiter code of the
    closing curly bracket: [kh_lex] returns the very same token for
    [U"]"] and for [U"}"], whatever the fuel, where the opening
    brackets get two codes. *)
Theorem kh_lex_square_bracket_close :
  forall fuel : nat,
    kh_lex fuel (codes "]") 0 []
    = Some (khToken_fromDelimiter khDelimiterToken_CURLY_BRACKET_CLOSE, 1%nat, [])
    /\ kh_lex fuel (codes "}") 0 []
       = Some (khToken_fromDelimiter khDelimiterToken_CURLY_BRACKET_CLOSE, 1%nat, [])
    /\ kh_lex fuel (codes "[") 0 []
       = Some (khToken_fromDelimiter khDelimiterToken_SQUARE_BRACKET_OPEN, 1%nat, [])
    /\ kh_lex fuel (codes "{") 0 []
       = Some (khToken_fromDelimiter khDelimiterToken_CURLY_BRACKET_OPEN, 1%nat, []).
Proof.
  intro fuel. repeat split; reflexivity.
Qed.

(** *** The integer accumulator *)

Lemma digitOf_nonneg (chr : Z) : 0 <= digitOf chr.
Proof.
  unfold digitOf.
  destruct ((U "0" <=? chr) && (chr <=? U "9")) eqn:E0.
  { apply andb_prop in E0. destruct E0 as [E0 _]. apply Z.leb_le in E0. lia. }
  destruct ((U "A" <=? chr) && (chr <=? U "Z")) eqn:E1.
  { apply andb_prop in E1. destruct E1 as [E1 _]. apply Z.leb_le in E1. lia. }
  destruct ((U "a" <=? chr) && (chr <=? U "z")) eqn:E2.
  { apply andb_prop in E2. destruct E2 as [E2 _]. apply Z.leb_le in E2. lia. }
  lia.
Qed.

Lemma accumulate_grows (base : Z) (digits : list Z) :
  1 <= base ->
  forall value, 0 <= value ->
    value <= fold_left (fun v c => v * base + digitOf c) digits value.
Proof.
  intro Hbase. induction digits as [|c digits IH]; intros value Hvalue; simpl.
  - lia.
  - pose proof (digitOf_nonneg c).
    assert (value <= value * base + digitOf c) by nia.
    specialize (IH (value * base + digitOf c)). lia.
Qed.

Lemma kh_lexInt_loop_exact (base : Z) (track : bool) (rest : list Z) :
  1 <= base ->
  (digitOf (hd 0 rest) <? base) = false ->
  forall digits max_length result had_overflowed cursor,
    Forall (fun c => digitOf c < base) digits ->
    Z.of_nat (List.length digits) <= max_length ->
    0 <= result ->
    fold_left (fun v c => v * base + digitOf c) digits result < 2 ^ 64 ->
    kh_lexInt_loop (digits ++ rest) base max_length result track
      had_overflowed cursor
    = (fold_left (fun v c => v * base + digitOf c) digits result,
       had_overflowed, (cursor + List.length digits)%nat).
Proof.
  intros Hbase Hrest.
  induction digits as [|c digits IH];
    intros max_length result had_overflowed cursor Hdigits Hlength Hresult
           Hfits.
  - simpl. rewrite Nat.add_0_r.
    destruct rest as [|c rest]; [reflexivity|].
    simpl in Hrest |- *. now rewrite Hrest.
  - inversion Hdigits as [|? ? Hc Hdigits']; subst.
    cbn [app kh_lexInt_loop List.length fold_left] in *.
    pose proof (digitOf_nonneg c) as Hd.
    assert (Hstep : 0 <= result * base + digitOf c) by nia.
    pose proof (accumulate_grows base digits Hbase _ Hstep) as Hgrows.
    apply Z.ltb_lt in Hc. rewrite Hc.
    replace (0 <? max_length) with true by (symmetry; apply Z.ltb_lt; lia).
    cbn [andb].
    assert (Hshift : wrap64 (result * base) = result * base).
    { unfold wrap64. apply Z.mod_small. nia. }
    rewrite Hshift.
    assert (Hadd : wrap64 (result * base + digitOf c)
                   = result * base + digitOf c).
    { unfold wrap64. apply Z.mod_small. lia. }
    rewrite Hadd.
    replace (result * base + digitOf c <? result) with false
      by (symmetry; apply Z.ltb_ge; nia).
    cbn [andb].
    rewrite IH; [|assumption|lia|lia|assumption].
    now rewrite Nat.add_succ_r.
Qed.

(** Without overflow [kh_lexInt] is exact: on a digit sequence of the
    base that is within [max_length] and whose value fits the 64-bit
    accumulator, it returns that value, the overflow flag down, and the
    cursor past the digits. *)
Lemma kh_lexInt_exact (before digits rest : list Z) (base max_length : Z)
    (track : bool) :
  1 <= base ->
  Forall (fun c => digitOf c < base) digits ->
  (digitOf (hd 0 rest) <? base) = false ->
  Z.of_nat (List.length digits) <= max_length ->
  value_of base (map digitOf digits) < 2 ^ 64 ->
  kh_lexInt (before ++ digits ++ rest) (List.length before) base max_length
    track
  = (value_of base (map digitOf digits), false,
     (List.length before + List.length digits)%nat).
Proof.
  intros Hbase Hdigits Hrest Hlength Hfits. unfold kh_lexInt, value_of in *.
  rewrite skipn_app, skipn_all, Nat.sub_diag. cbn [skipn app].
  assert (Hfold : forall l v,
             fold_left (fun value digit => value * base + digit)
               (map digitOf l) v
             = fold_left (fun v c => v * base + digitOf c) l v).
  { induction l as [|c l IH]; intro v; simpl; [reflexivity | apply IH]. }
  rewrite Hfold in *.
  apply kh_lexInt_loop_exact; try assumption; lia.
Qed.

Lemma kh_lexInt_exact_example :
  kh_lexInt (codes "x = 18446744073709551615;") 4 10 SIZE_MAX true
  = (2 ^ 64 - 1, false, 24%nat).
Proof.
  apply (kh_lexInt_exact (codes "x = ") (codes "18446744073709551615")
           (codes ";") 10 SIZE_MAX true).
  - lia.
  - repeat constructor.
  - reflexivity.
  - vm_compute. discriminate.
  - vm_compute. reflexivity.
Defined.

(** C6.  The literal 30000000000000000000 is 3 * 10^19, above 2^64.
    The accumulator wraps on its last digit to a value that is not
    below the previous one, so the overflow check of [kh_lexInt] stays
    silent and [kh_lexNumber] returns an integer token, not a float:
    the [INT] token that holds the wrapped value, 11553255926290448384,
    narrowed to its 32 bits. *)
Theorem kh_lex_unnoticed_overflow :
  forall fuel : nat,
    kh_lex fuel (codes "30000000000000000000") 0 []
    = Some (khToken_fromInt (-1648885760), 20%nat, [])
    /\ kh_lexInt (codes "30000000000000000000") 0 10 SIZE_MAX true
       = (wrap64 (3 * 10 ^ 19), false, 20%nat)
    /\ 2 ^ 64 <= 3 * 10 ^ 19
    /\ wrap64 (3 * 10 ^ 19) = 11553255926290448384
    /\ narrow_signed 32 11553255926290448384 = -1648885760.
Proof.
  intro fuel.
  split; [reflexivity | split; [reflexivity | split; [|split]]].
  - vm_compute. discriminate.
  - reflexivity.
  - reflexivity.
Qed.

(** *** The cursor never passes the terminator *)

Lemma peek_eqb_in_buffer buf cursor v :
  (peek buf cursor =? v) = true -> v <> 0 -> (cursor < List.length buf)%nat.
Proof.
  intros E Hv. apply Z.eqb_eq in E. apply peek_in_buffer. congruence.
Qed.

Lemma is_case_in_buffer buf cursor lower upper :
  is_case (peek buf cursor) lower upper = true ->
  U lower <> 0 -> U upper <> 0 -> (cursor < List.length buf)%nat.
Proof.
  unfold is_case. intros E Hl Hu. apply orb_prop in E.
  destruct E as [E|E]; eapply peek_eqb_in_buffer; eauto.
Qed.

Lemma span_skipn_bound (p : Z -> bool) buf cursor :
  (cursor <= List.length buf)%nat ->
  (cursor + span p (skipn cursor buf) <= List.length buf)%nat.
Proof.
  intro H.
  assert (Hspan : forall rest, (span p rest <= List.length rest)%nat).
  { induction rest as [|c rest IH]; simpl; [lia|]. destruct (p c); simpl; lia. }
  specialize (Hspan (skipn cursor buf)). rewrite length_skipn in Hspan. lia.
Qed.

(* Case analysis on the code point tests, keeping what each passed
   test says of the cursor. *)
Ltac break_peek :=
  match goal with
  | |- context [if ?b then _ else _] =>
      let E := fresh "E" in
      destruct b eqn:E;
      [ first
          [ apply peek_eqb_in_buffer in E; [|discriminate]
          | apply is_case_in_buffer in E; [|discriminate|discriminate]
          | let E' := fresh "E" in
            apply andb_prop in E; destruct E as [E E'];
            apply peek_eqb_in_buffer in E; [|discriminate];
            apply peek_eqb_in_buffer in E'; [|discriminate]
          | idtac ]
      | clear E ]
  end.

Lemma kh_lexInt_loop_bound rest base :
  forall max_length result track had_overflowed cursor,
    (snd (kh_lexInt_loop rest base max_length result track had_overflowed
            cursor)
     <= cursor + List.length rest)%nat.
Proof.
  induction rest as [|c rest IH]; intros; simpl; [lia|].
  destruct ((digitOf c <? base) && (0 <? max_length)); simpl; [|lia].
  match goal with |- context [kh_lexInt_loop rest base ?m ?r ?t ?h ?c] =>
    specialize (IH m r t h c) end. lia.
Qed.

Lemma kh_lexInt_bound buf cursor base max_length track :
  (cursor <= List.length buf)%nat ->
  (snd (kh_lexInt buf cursor base max_length track) <= List.length buf)%nat.
Proof.
  intro H. unfold kh_lexInt.
  pose proof (kh_lexInt_loop_bound (skipn cursor buf) base max_length 0 track
                false cursor) as Hloop.
  rewrite length_skipn in Hloop. lia.
Qed.

Lemma digits_from_bound buf cursor base :
  (cursor <= List.length buf)%nat ->
  (cursor + List.length (digits_from buf cursor base) <= List.length buf)%nat.
Proof.
  intro H. rewrite digits_from_length. now apply span_skipn_bound.
Qed.

Lemma hex_escape_bound buf cursor length message errors :
  (cursor <= List.length buf)%nat ->
  (snd (fst (hex_escape buf cursor length message errors))
   <= List.length buf)%nat.
Proof.
  intro H. unfold hex_escape.
  pose proof (kh_lexInt_bound buf cursor 16 (Z.of_nat length) false H) as Hint.
  destruct (kh_lexInt buf cursor 16 (Z.of_nat length) false) as [[v o] c].
  simpl in Hint. break_if; simpl; assumption.
Qed.

Lemma kh_lexChar_body_bound buf cursor with_quotes is_byte errors :
  (cursor <= List.length buf)%nat ->
  (body_cursor (kh_lexChar_body buf cursor with_quotes is_byte errors)
   <= List.length buf)%nat.
Proof.
  intro H. unfold kh_lexChar_body, body_cursor.
  destruct (peek buf cursor =? U "\") eqn:Eslash.
  - apply peek_eqb_in_buffer in Eslash; [|discriminate].
    repeat break_peek; simpl; try lia;
      apply hex_escape_bound; lia.
  - destruct (peek buf cursor =? U "'"); [simpl; lia|].
    destruct (peek buf cursor =? U_newline); [simpl; lia|].
    destruct (peek buf cursor =? U_nul) eqn:Enul; [simpl; lia|].
    apply Z.eqb_neq in Enul. apply peek_in_buffer in Enul.
    break_if; simpl; lia.
Qed.

Lemma kh_lexChar_bound buf cursor with_quotes is_byte errors :
  (cursor <= List.length buf)%nat ->
  (snd (fst (kh_lexChar buf cursor with_quotes is_byte errors))
   <= List.length buf)%nat.
Proof.
  intro H. unfold kh_lexChar.
  assert (Hbody : forall c q e,
             (c <= List.length buf)%nat ->
             (body_cursor (kh_lexChar_body buf c q is_byte e)
              <= List.length buf)%nat)
    by (intros; now apply kh_lexChar_body_bound).
  unfold body_cursor in Hbody.
  destruct with_quotes.
  - destruct (peek buf cursor =? U "'") eqn:E.
    + apply peek_eqb_in_buffer in E; [|discriminate].
      specialize (Hbody (S cursor) true errors E).
      destruct (kh_lexChar_body buf (S cursor) true is_byte errors)
        as [[[chr c] e] returned]. simpl in Hbody.
      repeat break_peek; simpl; lia.
    + match goal with |- context [kh_lexChar_body ?a ?b ?c ?d ?e] =>
        specialize (Hbody b c e H);
        destruct (kh_lexChar_body a b c d e) as [[[chr c'] e'] returned]
      end. simpl in Hbody.
      repeat break_peek; simpl; lia.
  - specialize (Hbody cursor false errors H).
    destruct (kh_lexChar_body buf cursor false is_byte errors)
      as [[[chr c] e] returned]. simpl in Hbody.
    repeat break_peek; simpl; lia.
Qed.

Lemma kh_lexString_loop_bound fuel buf is_buffer multiline :
  forall string cursor errors string' cursor' errors',
    (cursor <= List.length buf)%nat ->
    kh_lexString_loop fuel buf is_buffer multiline string cursor errors
    = Some (string', cursor', errors') ->
    (cursor' <= List.length buf)%nat.
Proof.
  induction fuel as [|fuel IH]; intros string cursor errors string' cursor'
    errors' Hcursor H; simpl in H; [discriminate|].
  pose proof (kh_lexChar_bound buf cursor false is_buffer errors Hcursor)
    as Hchar.
  destruct (kh_lexChar buf cursor false is_buffer errors) as [[chr c] e].
  simpl in Hchar.
  destruct (peek buf cursor =? U_dquote) eqn:Equote.
  - apply peek_eqb_in_buffer in Equote; [|discriminate].
    destruct multiline.
    + destruct ((peek buf (cursor + 1) =? U_dquote)
                && (peek buf (cursor + 2) =? U_dquote)) eqn:Eclose.
      * apply andb_prop in Eclose. destruct Eclose as [_ Eclose].
        apply peek_eqb_in_buffer in Eclose; [|discriminate].
        injection H as <- <- <-. lia.
      * apply IH in H; [assumption | lia].
    + injection H as <- <- <-. lia.
  - destruct (peek buf cursor =? U_newline) eqn:Enewline.
    + apply peek_eqb_in_buffer in Enewline; [|discriminate].
      destruct multiline; apply IH in H; (assumption || lia).
    + destruct (peek buf cursor =? U_nul).
      * injection H as <- <- <-. lia.
      * apply IH in H; assumption.
Qed.

Lemma kh_lexString_bound fuel buf cursor is_buffer errors string' cursor'
    errors' :
  (cursor <= List.length buf)%nat ->
  kh_lexString fuel buf cursor is_buffer errors
  = Some (string', cursor', errors') ->
  (cursor' <= List.length buf)%nat.
Proof.
  intro Hcursor. unfold kh_lexString.
  destruct (peek buf cursor =? U_dquote) eqn:E.
  - apply peek_eqb_in_buffer in E; [|discriminate].
    destruct ((peek buf (S cursor) =? U_dquote)
              && (peek buf (S cursor + 1) =? U_dquote)) eqn:Eopen.
    + apply andb_prop in Eopen. destruct Eopen as [_ Eopen].
      apply peek_eqb_in_buffer in Eopen; [|discriminate].
      apply kh_lexString_loop_bound. lia.
    + apply kh_lexString_loop_bound. lia.
  - now apply kh_lexString_loop_bound.
Qed.

Lemma kh_lexFloat_exponent_bound buf cursor binary :
  (cursor <= List.length buf)%nat ->
  (snd (kh_lexFloat_exponent buf cursor binary) <= List.length buf)%nat.
Proof.
  intro H. unfold kh_lexFloat_exponent.
  repeat break_peek;
    match goal with |- context [kh_lexInt ?a ?b ?c ?d ?e] =>
      pose proof (kh_lexInt_bound a b c d e);
      destruct (kh_lexInt a b c d e) as [[? ?] ?]
    end; simpl in *; lia.
Qed.

Lemma eqb_or_in_buffer buf cursor v w :
  (peek buf cursor =? v) || (peek buf cursor =? w) = true ->
  v <> 0 -> w <> 0 -> (cursor < List.length buf)%nat.
Proof.
  intros E Hv Hw. apply orb_prop in E.
  destruct E as [E|E]; eapply peek_eqb_in_buffer; eauto.
Qed.

Lemma kh_lexFloat_bound buf cursor base :
  (cursor <= List.length buf)%nat ->
  (snd (kh_lexFloat buf cursor base) <= List.length buf)%nat.
Proof.
  intro H. unfold kh_lexFloat.
  pose proof (digits_from_bound buf cursor base H) as Hwhole.
  set (cursor1 := (cursor + List.length (digits_from buf cursor base))%nat)
    in *.
  assert (Hexponent : forall c b,
             (c <= List.length buf)%nat ->
             (snd (kh_lexFloat_exponent buf c b) <= List.length buf)%nat)
    by (intros; now apply kh_lexFloat_exponent_bound).
  assert (Htail : forall c,
             (c <= List.length buf)%nat ->
             forall whole fraction,
               Nat.le
                 (snd (let c0 := peek buf c in
                     if (c0 =? U "e") || (c0 =? U "E") then
                       let '(exponent, cursor) :=
                         kh_lexFloat_exponent buf (S c) false in
                       (khDouble_literal base whole fraction (Some exponent),
                        cursor)
                     else if (c0 =? U "p") || (c0 =? U "P") then
                       let '(exponent, cursor) :=
                         kh_lexFloat_exponent buf (S c) true in
                       (khDouble_literal base whole fraction (Some exponent),
                        cursor)
                     else (khDouble_literal base whole fraction None, c)))
                 (List.length buf)).
  { intros c Hc whole fraction. cbv zeta.
    destruct ((peek buf c =? U "e") || (peek buf c =? U "E")) eqn:Ee.
    { apply eqb_or_in_buffer in Ee; try discriminate.
      specialize (Hexponent (S c) false Ee).
      now destruct (kh_lexFloat_exponent buf (S c) false). }
    destruct ((peek buf c =? U "p") || (peek buf c =? U "P")) eqn:Ep.
    { apply eqb_or_in_buffer in Ep; try discriminate.
      specialize (Hexponent (S c) true Ep).
      now destruct (kh_lexFloat_exponent buf (S c) true). }
    exact Hc. }
  destruct (peek buf cursor1 =? U ".") eqn:Edot.
  - apply peek_eqb_in_buffer in Edot; [|discriminate].
    pose proof (digits_from_bound buf (S cursor1) base Edot) as Hfraction.
    apply Htail. exact Hfraction.
  - now apply Htail.
Qed.

Lemma float_suffix_bound buf cursor floating :
  (cursor <= List.length buf)%nat ->
  (snd (float_suffix buf cursor floating) <= List.length buf)%nat.
Proof. intro H. unfold float_suffix. repeat break_peek; simpl; lia. Qed.

Lemma integer_suffix_bound buf cursor integer :
  (cursor <= List.length buf)%nat ->
  (snd (integer_suffix buf cursor integer) <= List.length buf)%nat.
Proof. intro H. unfold integer_suffix. repeat break_peek; simpl; lia. Qed.

Lemma number_base_bound buf cursor :
  (cursor <= List.length buf)%nat ->
  (snd (number_base buf cursor) <= List.length buf)%nat.
Proof. intro H. unfold number_base. repeat break_peek; simpl; lia. Qed.

Lemma kh_lexNumber_bound buf cursor errors :
  (cursor <= List.length buf)%nat ->
  (snd (fst (kh_lexNumber buf cursor errors)) <= List.length buf)%nat.
Proof.
  intro H. unfold kh_lexNumber.
  destruct (digitOf (peek buf cursor) >? 9); [simpl; lia|].
  pose proof (number_base_bound buf cursor H) as Hbase.
  destruct (number_base buf cursor) as [base cursor1]. simpl in Hbase.
  pose proof (kh_lexInt_bound buf cursor1 base SIZE_MAX true Hbase) as Hint.
  destruct (kh_lexInt buf cursor1 base SIZE_MAX true)
    as [[integer had_overflowed] cursor2]. simpl in Hint.
  destruct (Nat.eqb cursor2 cursor1); [simpl; lia|].
  match goal with |- context [if ?b then _ else _] => destruct b end.
  - pose proof (kh_lexFloat_bound buf cursor1 base Hbase) as Hfloat.
    destruct (kh_lexFloat buf cursor1 base) as [floating cursor3].
    pose proof (float_suffix_bound buf cursor3 floating Hfloat) as Hsuffix.
    now destruct (float_suffix buf cursor3 floating).
  - pose proof (integer_suffix_bound buf cursor2 integer Hint) as Hsuffix.
    now destruct (integer_suffix buf cursor2 integer).
Qed.

Lemma kh_lexSymbol_bound buf cursor errors :
  (cursor <= List.length buf)%nat ->
  (snd (fst (kh_lexSymbol buf cursor errors)) <= List.length buf)%nat.
Proof.
  intro H. unfold kh_lexSymbol.
  repeat break_peek; simpl; try lia.
Qed.

Lemma kh_lexWord_bound buf cursor errors :
  (cursor <= List.length buf)%nat ->
  (snd (fst (kh_lexWord buf cursor errors)) <= List.length buf)%nat.
Proof.
  intro H. unfold kh_lexWord.
  pose proof (span_skipn_bound iswalnum buf cursor H).
  destruct (first_case _ word_operators);
    [|destruct (first_case _ word_keywords)]; simpl; lia.
Qed.

(** A call of [kh_lex] from a cursor inside the buffer (the terminator
    included) leaves the cursor inside the buffer: no path of the lexer
    moves the cursor past the terminator. *)
Theorem kh_lex_in_buffer :
  forall fuel buf cursor errors token cursor' errors',
    (cursor <= List.length buf)%nat ->
    kh_lex fuel buf cursor errors = Some (token, cursor', errors') ->
    (cursor <= cursor' <= List.length buf)%nat.
Proof.
  intros fuel buf cursor errors token cursor' errors' Hcursor H.
  split; [exact (proj1 (kh_lex_advances _ _ _ _ _ _ _ H))|].
  revert H. unfold kh_lex.
  pose proof (span_skipn_bound iswspace buf cursor Hcursor) as H0.
  set (cursor0 := (cursor + span iswspace (skipn cursor buf))%nat) in *.
  clearbody cursor0.
  pose proof (kh_lexSymbol_bound buf cursor0 errors H0) as Hsymbol.
  pose proof (kh_lexNumber_bound buf cursor0 errors H0) as Hnumber.
  pose proof (kh_lexWord_bound buf cursor0 errors H0) as Hword.
  destruct (iswalpha (peek buf cursor0)) eqn:Ealpha.
  - assert (Hin : (cursor0 < List.length buf)%nat).
    { apply peek_in_buffer. apply iswalnum_nonzero.
      now apply iswalpha_iswalnum. }
    destruct (is_case (peek buf cursor0) "b" "B").
    + destruct (peek buf (S cursor0) =? U "'").
      * pose proof (kh_lexChar_bound buf (S cursor0) true true errors Hin)
          as Hchar.
        destruct (kh_lexChar buf (S cursor0) true true errors) as [[chr c] e].
        simpl in Hchar. now intros [= <- <- <-].
      * destruct (peek buf (S cursor0) =? U_dquote).
        -- destruct (kh_lexString fuel buf (S cursor0) true errors)
             as [[[string c] e]|] eqn:Estring; [|discriminate].
           apply kh_lexString_bound in Estring; [|exact Hin].
           now intros [= <- <- <-].
        -- replace (S cursor0 - 1)%nat with cursor0 by lia.
           destruct (kh_lexWord buf cursor0 errors) as [[t c] e].
           now intros [= <- <- <-].
    + destruct (kh_lexWord buf cursor0 errors) as [[t c] e].
      now intros [= <- <- <-].
  - destruct (digitOf (peek buf cursor0) <? 10).
    { destruct (kh_lexNumber buf cursor0 errors) as [[t c] e].
      now intros [= <- <- <-]. }
    destruct (peek buf cursor0 =? U "'").
    { pose proof (kh_lexChar_bound buf cursor0 true false errors H0) as Hchar.
      destruct (kh_lexChar buf cursor0 true false errors) as [[chr c] e].
      simpl in Hchar. now intros [= <- <- <-]. }
    destruct (peek buf cursor0 =? U_dquote).
    { destruct (kh_lexString fuel buf cursor0 false errors)
        as [[[string c] e]|] eqn:Estring; [|discriminate].
      apply kh_lexString_bound in Estring; [|exact H0].
      now intros [= <- <- <-]. }
    destruct (peek buf cursor0 =? U "#") eqn:Ehash.
    { apply peek_eqb_in_buffer in Ehash; [|discriminate].
      match goal with |- context [span ?p (skipn ?c buf)] =>
        pose proof (span_skipn_bound p buf c Ehash) as Hspan;
        set (cursor1 := (c + span p (skipn c buf))%nat) in *
      end.
      clearbody cursor1. intros [= <- <- <-].
      destruct (peek buf cursor1 =? U_newline) eqn:Enewline; [|exact Hspan].
      apply peek_eqb_in_buffer in Enewline; [exact Enewline | discriminate]. }
    destruct (kh_lexSymbol buf cursor0 errors) as [[t c] e].
    now intros [= <- <- <-].
Qed.

(** The cursor on the terminator of a buffer that ends in the middle of
    a hexadecimal escape of a byte character. *)
Lemma kh_lex_in_buffer_witness :
  (0 <= 5 <= List.length (codes "b'\x4"))%nat.
Proof.
  apply (kh_lex_in_buffer 0 (codes "b'\x4") 0 []
           (khToken_fromByte 4) 5%nat
           [ {| ptr := 5;
                error := "expecting 2 hexadecimal digits for 1 byte character, from 0 to 9 or A to F" |};
             {| ptr := 5;
                error := "expecting a single quote closing of the character" |} ]).
  - simpl. lia.
  - reflexivity.
Defined.

(** *** Diagnostics *)

Lemma reported_refl errors lo hi : reported errors errors lo hi.
Proof. exists []. split; [now rewrite app_nil_r | constructor]. Qed.

Lemma reported_one errors cursor msg lo hi :
  (lo <= cursor <= hi)%nat ->
  reported errors (ERROR_STR errors cursor msg) lo hi.
Proof.
  intro H. exists [{| ptr := cursor; error := msg |}].
  split; [reflexivity | repeat constructor; simpl; lia].
Qed.

Lemma reported_trans errors errors1 errors2 lo1 hi1 lo2 hi2 lo hi :
  reported errors errors1 lo1 hi1 -> reported errors1 errors2 lo2 hi2 ->
  (lo <= lo1)%nat -> (lo <= lo2)%nat -> (hi1 <= hi)%nat -> (hi2 <= hi)%nat ->
  reported errors errors2 lo hi.
Proof.
  intros [new1 [-> H1]] [new2 [-> H2]] Hlo1 Hlo2 Hhi1 Hhi2.
  exists (new1 ++ new2). split; [now rewrite app_assoc|].
  apply Forall_app. split; eapply Forall_impl; try eassumption;
    simpl; intros; lia.
Qed.

Lemma reported_weaken errors errors' lo' hi' lo hi :
  reported errors errors' lo' hi' -> (lo <= lo')%nat -> (hi' <= hi)%nat ->
  reported errors errors' lo hi.
Proof.
  intros [new [-> H]] Hlo Hhi. exists new. split; [reflexivity|].
  eapply Forall_impl; try eassumption. simpl. intros. lia.
Qed.

Lemma ERROR_STR_new errors cursor msg : ERROR_STR errors cursor msg <> errors.
Proof.
  unfold ERROR_STR. intro H. apply (f_equal (@List.length _)) in H.
  rewrite length_app in H. simpl in H. lia.
Qed.

Lemma hex_escape_reported buf cursor length message errors :
  let '(_, cursor', errors') := hex_escape buf cursor length message errors in
  reported errors errors' cursor' cursor'.
Proof.
  unfold hex_escape.
  destruct (kh_lexInt buf cursor 16 (Z.of_nat length) false) as [[v o] c].
  break_if; [apply reported_one; lia | apply reported_refl].
Qed.

Lemma kh_lexChar_body_reported buf cursor with_quotes is_byte errors :
  let '(_, cursor', errors', _) :=
    kh_lexChar_body buf cursor with_quotes is_byte errors in
  reported errors errors' cursor cursor'.
Proof.
  pose proof (kh_lexChar_body_cursor buf cursor with_quotes is_byte errors)
    as Hcursor. revert Hcursor.
  unfold kh_lexChar_body, body_cursor.
  repeat break_if; simpl; intro Hcursor;
    try apply reported_refl; try (apply reported_one; lia);
    match goal with
    | |- context [hex_escape ?b ?c ?n ?m ?e] =>
        pose proof (hex_escape_reported b c n m e) as H;
        pose proof (hex_escape_cursor b c n m e) as Hc;
        destruct (hex_escape b c n m e) as [[chr c'] e']
    end; simpl in *;
    (eapply reported_weaken; [exact H | lia | lia]).
Qed.

Lemma kh_lexChar_reported buf cursor with_quotes is_byte errors :
  let '(_, cursor', errors') :=
    kh_lexChar buf cursor with_quotes is_byte errors in
  reported errors errors' cursor cursor'.
Proof.
  unfold kh_lexChar.
  assert (Hbody : forall c q e,
             let '(_, cursor', errors', _) :=
               kh_lexChar_body buf c q is_byte e in
             reported e errors' c cursor' /\ (c <= cursor')%nat).
  { intros c q e.
    pose proof (kh_lexChar_body_reported buf c q is_byte e) as H1.
    pose proof (kh_lexChar_body_cursor buf c q is_byte e) as H2.
    unfold body_cursor in H2.
    destruct (kh_lexChar_body buf c q is_byte e) as [[[chr c'] e'] r].
    now split. }
  destruct with_quotes.
  - destruct (peek buf cursor =? U "'").
    + specialize (Hbody (S cursor) true errors).
      destruct (kh_lexChar_body buf (S cursor) true is_byte errors)
        as [[[chr c] e] returned]. destruct Hbody as [Hbody Hc].
      repeat break_if;
        try (eapply reported_weaken; [exact Hbody | lia | lia]).
      eapply reported_trans;
        [exact Hbody | apply reported_one; split; apply Nat.le_refl
        | lia | lia | lia | lia].
    + match goal with |- context [kh_lexChar_body ?a ?b ?c ?d ?e] =>
        specialize (Hbody b c e);
        destruct (kh_lexChar_body a b c d e) as [[[chr c'] e'] returned]
      end. destruct Hbody as [Hbody Hc].
      assert (Hfirst : reported errors
                (ERROR_STR errors cursor
                   "expecting a single quote opening for a character")
                cursor cursor) by (apply reported_one; lia).
      repeat break_if.
      * eapply reported_trans; [exact Hfirst | exact Hbody | lia..].
      * eapply reported_trans; [exact Hfirst | exact Hbody | lia..].
      * eapply reported_trans; [exact Hfirst | | | | | ].
        -- eapply reported_trans;
             [exact Hbody | apply reported_one; split; apply Nat.le_refl
             | apply Nat.le_refl | exact Hc | apply Nat.le_refl
             | apply Nat.le_refl ].
        -- lia.
        -- lia.
        -- lia.
        -- lia.
  - specialize (Hbody cursor false errors).
    destruct (kh_lexChar_body buf cursor false is_byte errors)
      as [[[chr c] e] returned]. destruct Hbody as [Hbody Hc].
    repeat break_if; exact Hbody.
Qed.

Lemma kh_lexString_loop_reported fuel buf is_buffer multiline :
  forall string cursor errors string' cursor' errors',
    kh_lexString_loop fuel buf is_buffer multiline string cursor errors
    = Some (string', cursor', errors') ->
    reported errors errors' cursor cursor'.
Proof.
  induction fuel as [|fuel IH]; intros string cursor errors string' cursor'
    errors' H; [discriminate|].
  pose proof (kh_lexString_loop_cursor _ _ _ _ _ _ _ _ _ _ H) as Hcursor.
  simpl in H.
  pose proof (kh_lexChar_reported buf cursor false is_buffer errors) as Hchar.
  pose proof (proj1 (kh_lexChar_cursor buf cursor false is_buffer errors))
    as Hmoves.
  destruct (kh_lexChar buf cursor false is_buffer errors) as [[chr c] e].
  simpl in Hmoves.
  repeat break_if;
    try (injection H as <- <- <-);
    try apply reported_refl;
    try (apply reported_one; lia);
    try (pose proof (kh_lexString_loop_cursor _ _ _ _ _ _ _ _ _ _ H);
         apply IH in H).
  - eapply reported_weaken; [exact H | lia | lia].
  - eapply reported_weaken; [exact H | lia | lia].
  - eapply reported_trans; [apply reported_one | exact H | ..];
      [split; apply Nat.le_refl | lia..].
  - eapply reported_trans; [exact Hchar | exact H | lia..].
Qed.

Lemma kh_lexString_reported fuel buf cursor is_buffer errors string' cursor'
    errors' :
  kh_lexString fuel buf cursor is_buffer errors
  = Some (string', cursor', errors') ->
  reported errors errors' cursor cursor'.
Proof.
  unfold kh_lexString. intro H.
  repeat break_if;
    pose proof (kh_lexString_loop_cursor _ _ _ _ _ _ _ _ _ _ H);
    apply kh_lexString_loop_reported in H.
  - eapply reported_weaken; [exact H | lia | lia].
  - eapply reported_weaken; [exact H | lia | lia].
  - eapply reported_trans; [apply reported_one | exact H | ..];
      [split; apply Nat.le_refl | lia..].
Qed.

Lemma base_error_number_base buf cursor :
  base_error (fst (number_base buf cursor)) <> None.
Proof. unfold number_base. repeat break_if; discriminate. Qed.

Lemma float_suffix_token buf cursor floating :
  fst (float_suffix buf cursor floating) <> khToken_fromNone.
Proof. unfold float_suffix. repeat break_if; discriminate. Qed.

Lemma integer_suffix_token buf cursor integer :
  fst (integer_suffix buf cursor integer) <> khToken_fromNone.
Proof. unfold integer_suffix. repeat break_if; discriminate. Qed.

Lemma kh_lexNumber_reported buf cursor errors :
  let '(token, cursor', errors') := kh_lexNumber buf cursor errors in
  reported errors errors' cursor cursor'
  /\ (token = khToken_fromNone -> errors' <> errors).
Proof.
  pose proof (kh_lexNumber_cursor buf cursor errors) as Hcursor.
  revert Hcursor. unfold kh_lexNumber.
  destruct (digitOf (peek buf cursor) >? 9).
  { intros _. split; [apply reported_one; lia | intros _; apply ERROR_STR_new]. }
  pose proof (base_error_number_base buf cursor) as Hbase.
  destruct (number_base buf cursor) as [base cursor1]. simpl in Hbase.
  destruct (kh_lexInt buf cursor1 base SIZE_MAX true)
    as [[integer had_overflowed] cursor2].
  destruct (Nat.eqb cursor2 cursor1).
  - intros [Hcursor _].
    destruct (base_error base) as [msg|]; [|contradiction].
    split; [apply reported_one; lia | intros _; apply ERROR_STR_new].
  - match goal with |- context [if ?b then _ else _] => destruct b end.
    + destruct (kh_lexFloat buf cursor1 base) as [floating cursor3].
      pose proof (float_suffix_token buf cursor3 floating) as Htoken.
      destruct (float_suffix buf cursor3 floating) as [token cursor4].
      intros _. split; [apply reported_refl | intro; contradiction].
    + pose proof (integer_suffix_token buf cursor2 integer) as Htoken.
      destruct (integer_suffix buf cursor2 integer) as [token cursor3].
      intros _. split; [apply reported_refl | intro; contradiction].
Qed.

Lemma kh_lexSymbol_reported buf cursor errors :
  let '(token, cursor', errors') := kh_lexSymbol buf cursor errors in
  reported errors errors' cursor cursor'
  /\ (token = khToken_fromNone -> errors' <> errors).
Proof.
  unfold kh_lexSymbol.
  repeat break_if;
    (split;
     [ try apply reported_refl; apply reported_one; simpl; lia
     | try discriminate; intros _; apply ERROR_STR_new ]).
Qed.

Lemma kh_lexWord_reported buf cursor errors :
  let '(token, _, errors') := kh_lexWord buf cursor errors in
  errors' = errors /\ token <> khToken_fromNone.
Proof.
  unfold kh_lexWord.
  destruct (first_case _ word_operators);
    [|destruct (first_case _ word_keywords)]; split;
    reflexivity || discriminate.
Qed.

(** The diagnostics [kh_lex] was given are all kept, in their order;
    those it adds are pushed behind them, each at a position between
    the cursor it was called with and the cursor it leaves; and a
    [NONE] token never comes without a new diagnostic. *)
Theorem kh_lex_diagnostics :
  forall fuel buf cursor errors token cursor' errors',
    kh_lex fuel buf cursor errors = Some (token, cursor', errors') ->
    (exists new,
        errors' = errors ++ new
        /\ Forall (fun e => (cursor <= ptr e <= cursor')%nat) new)
    /\ (token = khToken_fromNone -> errors' <> errors).
Proof.
  intros fuel buf cursor errors token cursor' errors'.
  change (kh_lex fuel buf cursor errors = Some (token, cursor', errors') ->
          reported errors errors' cursor cursor'
          /\ (token = khToken_fromNone -> errors' <> errors)).
  unfold kh_lex.
  set (cursor0 := (cursor + span iswspace (skipn cursor buf))%nat).
  assert (H0 : (cursor <= cursor0)%nat) by (unfold cursor0; lia).
  clearbody cursor0.
  pose proof (kh_lexSymbol_reported buf cursor0 errors) as Hsymbol.
  pose proof (kh_lexNumber_reported buf cursor0 errors) as Hnumber.
  pose proof (kh_lexWord_reported buf cursor0 errors) as Hword.
  pose proof (kh_lexWord_cursor buf cursor0 errors) as Hwordc.
  destruct (iswalpha (peek buf cursor0)).
  - destruct (is_case (peek buf cursor0) "b" "B").
    + destruct (peek buf (S cursor0) =? U "'").
      * pose proof (kh_lexChar_reported buf (S cursor0) true true errors)
          as Hchar.
        destruct (kh_lexChar buf (S cursor0) true true errors) as [[chr c] e].
        intros [= <- <- <-].
        split; [|discriminate].
        eapply reported_weaken; [exact Hchar | lia | lia].
      * destruct (peek buf (S cursor0) =? U_dquote).
        -- destruct (kh_lexString fuel buf (S cursor0) true errors)
             as [[[string c] e]|] eqn:Estring; [|discriminate].
           apply kh_lexString_reported in Estring.
           intros [= <- <- <-]. split; [|discriminate].
           eapply reported_weaken; [exact Estring | lia | lia].
        -- replace (S cursor0 - 1)%nat with cursor0 by lia.
           destruct (kh_lexWord buf cursor0 errors) as [[t c] e].
           intros [= <- <- <-]. destruct Hword as [-> Hword].
           split; [apply reported_refl | intro; contradiction].
    + destruct (kh_lexWord buf cursor0 errors) as [[t c] e].
      intros [= <- <- <-]. destruct Hword as [-> Hword].
      split; [apply reported_refl | intro; contradiction].
  - destruct (digitOf (peek buf cursor0) <? 10).
    { destruct (kh_lexNumber buf cursor0 errors) as [[t c] e].
      intros [= <- <- <-]. destruct Hnumber as [Hr Hnone].
      split; [|exact Hnone].
      eapply reported_weaken; [exact Hr | lia | lia]. }
    destruct (peek buf cursor0 =? U "'").
    { pose proof (kh_lexChar_reported buf cursor0 true false errors) as Hchar.
      destruct (kh_lexChar buf cursor0 true false errors) as [[chr c] e].
      intros [= <- <- <-]. split; [|discriminate].
      eapply reported_weaken; [exact Hchar | lia | lia]. }
    destruct (peek buf cursor0 =? U_dquote).
    { destruct (kh_lexString fuel buf cursor0 false errors)
        as [[[string c] e]|] eqn:Estring; [|discriminate].
      apply kh_lexString_reported in Estring.
      intros [= <- <- <-]. split; [|discriminate].
      eapply reported_weaken; [exact Estring | lia | lia]. }
    destruct (peek buf cursor0 =? U "#").
    { intros [= <- <- <-]. split; [apply reported_refl | discriminate]. }
    destruct (kh_lexSymbol buf cursor0 errors) as [[t c] e].
    intros [= <- <- <-]. destruct Hsymbol as [Hr Hnone].
    split; [|exact Hnone].
    eapply reported_weaken; [exact Hr | lia | lia].
Qed.

(** An unknown escape in a character literal that is not closed: two
    diagnostics behind the one that was there. *)
Lemma kh_lex_diagnostics_witness :
  (exists new,
      [ {| ptr := 7; error := "earlier" |};
        {| ptr := 2; error := "unknown backslash escape character" |};
        {| ptr := 2;
           error := "expecting a single quote closing of the character" |} ]
      = [ {| ptr := 7; error := "earlier" |} ] ++ new
      /\ Forall (fun e => (0 <= ptr e <= 2)%nat) new)
  /\ (khToken_fromChar 0 = khToken_fromNone ->
      [ {| ptr := 7; error := "earlier" |};
        {| ptr := 2; error := "unknown backslash escape character" |};
        {| ptr := 2;
           error := "expecting a single quote closing of the character" |} ]
      <> [ {| ptr := 7; error := "earlier" |} ]).
Proof.
  apply (kh_lex_diagnostics 0 (codes "'\q'") 0
           [ {| ptr := 7; error := "earlier" |} ]
           (khToken_fromChar 0) 2%nat).
  reflexivity.
Defined.

(** *** String literals *)

Lemma peek_app buf rest :
  peek (buf ++ rest) (List.length buf) = hd 0 rest.
Proof.
  unfold peek. rewrite app_nth2, Nat.sub_diag by lia. now destruct rest.
Qed.

Lemma peek_app_plus buf rest k :
  peek (buf ++ rest) (List.length buf + k) = nth k rest 0.
Proof.
  unfold peek. rewrite app_nth2 by lia. f_equal. lia.
Qed.

(** One iteration of the loop on a plain code point. *)
Lemma kh_lexString_loop_step fuel buf is_buffer multiline string cursor errors :
  plain is_buffer multiline (peek buf cursor) = true ->
  kh_lexString_loop (S fuel) buf is_buffer multiline string cursor errors
  = kh_lexString_loop fuel buf is_buffer multiline
      (string ++ [peek buf cursor]) (S cursor) errors.
Proof.
  unfold plain, stalls. intro H.
  repeat (apply andb_prop in H; destruct H as [H ?]).
  repeat match goal with
         | H : negb _ = true |- _ => apply negb_true_iff in H
         | H : _ || _ = false |- _ =>
             apply orb_false_iff in H; destruct H
         end.
  cbn [kh_lexString_loop].
  repeat match goal with H : (_ =? _) = false |- _ => rewrite H end.
  destruct (peek buf cursor =? U_newline) eqn:Enewline.
  - destruct multiline; [|discriminate].
    apply Z.eqb_eq in Enewline. now rewrite Enewline.
  - unfold kh_lexChar, kh_lexChar_body.
    repeat match goal with H : (_ =? _) = false |- _ => rewrite H end.
    match goal with H : is_buffer && _ = false |- _ => rewrite H end.
    reflexivity.
Qed.

(** The loop over a run of plain code points: each is appended to the
    string, at the cost of one iteration. *)
Lemma kh_lexString_loop_plain is_buffer multiline errors tail :
  forall body before fuel string,
    Forall (fun c => plain is_buffer multiline c = true) body ->
    kh_lexString_loop (List.length body + fuel) (before ++ body ++ tail)
      is_buffer multiline string (List.length before) errors
    = kh_lexString_loop fuel (before ++ body ++ tail) is_buffer multiline
        (string ++ body) (List.length before + List.length body) errors.
Proof.
  induction body as [|c body IH]; intros before fuel string Hbody.
  - simpl. now rewrite app_nil_r, Nat.add_0_r.
  - inversion Hbody as [|? ? Hc Hbody']; subst.
    cbn [List.length Nat.add].
    rewrite kh_lexString_loop_step
      by (rewrite peek_app; exact Hc).
    rewrite peek_app. cbn [hd app].
    specialize (IH (before ++ [c]) fuel (string ++ [c]) Hbody').
    rewrite <- !app_assoc in IH. cbn [app] in IH.
    rewrite length_app in IH. cbn [List.length] in IH.
    replace (S (List.length before)) with (List.length before + 1)%nat by lia.
    rewrite IH. f_equal. lia.
Qed.

Lemma plain_not_quote is_buffer multiline c :
  plain is_buffer multiline c = true -> c <> U_dquote.
Proof.
  unfold plain. intros H ->. discriminate H.
Qed.

Lemma map_mod_bytes (body : list Z) :
  Forall (fun c => 0 <= c) body ->
  Forall (fun c => plain true false c = true) body ->
  map (fun chr => chr mod 256) body = body.
Proof.
  induction body as [|c body IH]; intros Hpos Hplain; [reflexivity|].
  inversion Hpos; inversion Hplain; subst. simpl.
  rewrite IH by assumption. f_equal.
  apply Z.mod_small.
  match goal with H : plain _ _ c = true |- _ =>
    unfold plain, stalls in H;
    apply andb_prop in H; destruct H as [_ H];
    apply negb_true_iff in H; apply orb_false_iff in H; destruct H as [_ H];
    simpl in H; rewrite Z.gtb_ltb in H; apply Z.ltb_ge in H
  end.
  lia.
Qed.

Lemma span_none (p : Z -> bool) buf cursor :
  p (peek buf cursor) = false -> span p (skipn cursor buf) = 0%nat.
Proof.
  rewrite peek_hd_skipn. destruct (skipn cursor buf) as [|c rest]; simpl;
    [reflexivity | now intros ->].
Qed.

(** [kh_lex] at a double quote is [kh_lexString], and at a [b] before
    a double quote it is [kh_lexString] for a byte buffer. *)
Lemma kh_lex_at_quote fuel buf cursor errors :
  peek buf cursor = U_dquote ->
  kh_lex fuel buf cursor errors
  = match kh_lexString fuel buf cursor false errors with
    | Some (string, cursor, errors) =>
        Some (khToken_fromString string, cursor, errors)
    | None => None
    end.
Proof.
  intro H. unfold kh_lex.
  rewrite (span_none iswspace buf cursor) by now rewrite H.
  rewrite Nat.add_0_r, H. reflexivity.
Qed.

Lemma kh_lex_at_buffer fuel buf cursor errors :
  peek buf cursor = U "b" -> peek buf (S cursor) = U_dquote ->
  kh_lex fuel buf cursor errors
  = match kh_lexString fuel buf (S cursor) true errors with
    | Some (string, cursor, errors) =>
        Some (khToken_fromBuffer (map (fun chr => chr mod 256) string),
              cursor, errors)
    | None => None
    end.
Proof.
  intros H H'. unfold kh_lex.
  rewrite (span_none iswspace buf cursor) by now rewrite H.
  rewrite Nat.add_0_r, H. cbv zeta. rewrite H'. reflexivity.
Qed.

(** Lexing a quoted run of plain code points gives the run back.  A
    string literal [body] between double quotes lexes to the [STRING]
    token of [body]; between triple double quotes, where [body] may
    hold line feeds, to the same token; and after a [b], where the code
    points are bytes, to the [BUFFER] token of [body].  The cursor is
    left behind the closing quotes and no diagnostic is added. *)
Theorem kh_lex_string_round_trip :
  forall fuel body rest errors,
    (List.length body < fuel)%nat ->
    (Forall (fun c => plain false false c = true) body ->
     (body = [] -> hd 0 rest <> U_dquote) ->
     kh_lex fuel (U_dquote :: body ++ U_dquote :: rest) 0 errors
     = Some (khToken_fromString body, (List.length body + 2)%nat, errors))
    /\ (Forall (fun c => plain false true c = true) body ->
        kh_lex fuel
          ([U_dquote; U_dquote; U_dquote] ++ body
           ++ [U_dquote; U_dquote; U_dquote] ++ rest) 0 errors
        = Some (khToken_fromString body, (List.length body + 6)%nat, errors))
    /\ (Forall (fun c => plain true false c = true) body ->
        Forall (fun c => 0 <= c) body ->
        (body = [] -> hd 0 rest <> U_dquote) ->
        kh_lex fuel (U "b" :: U_dquote :: body ++ U_dquote :: rest) 0 errors
        = Some (khToken_fromBuffer body, (List.length body + 3)%nat, errors)).
Proof.
  intros fuel body rest errors Hfuel.
  replace fuel with (List.length body + S (fuel - List.length body - 1))%nat
    by lia.
  set (fuel' := (fuel - List.length body - 1)%nat). clearbody fuel'.
  split; [|split].
  - intros Hbody Hempty.
    rewrite kh_lex_at_quote by reflexivity.
    unfold kh_lexString.
    change (peek (U_dquote :: body ++ U_dquote :: rest) 0) with U_dquote.
    change (U_dquote =? U_dquote) with true. cbv iota zeta.
    assert (Hopen : (peek (U_dquote :: body ++ U_dquote :: rest) 1
                     =? U_dquote)
                    && (peek (U_dquote :: body ++ U_dquote :: rest) (1 + 1)
                        =? U_dquote) = false).
    { destruct body as [|c body].
      - specialize (Hempty eq_refl). unfold peek. simpl.
        apply Z.eqb_neq. destruct rest; exact Hempty.
      - inversion Hbody as [|? ? Hc _]; subst.
        apply andb_false_iff. left. apply Z.eqb_neq.
        exact (plain_not_quote _ _ _ Hc). }
    rewrite Hopen.
    pose proof (kh_lexString_loop_plain false false errors
                  (U_dquote :: rest) body [U_dquote] (S fuel') [] Hbody)
      as Hloop.
    cbn [app List.length] in Hloop. rewrite Hloop.
    cbn [kh_lexString_loop].
    change (U_dquote :: body ++ U_dquote :: rest)
      with ([U_dquote] ++ body ++ U_dquote :: rest).
    rewrite app_assoc.
    replace (1 + List.length body)%nat
      with (List.length ([U_dquote] ++ body))
      by (rewrite length_app; reflexivity).
    rewrite peek_app. cbn [hd].
    change (U_dquote =? U_dquote) with true. cbv iota.
    rewrite length_app. cbn [List.length]. do 3 f_equal. lia.
  - intros Hbody. cbn [app].
    rewrite kh_lex_at_quote by reflexivity.
    unfold kh_lexString.
    change (peek (U_dquote :: ?l) 0) with U_dquote.
    change (peek (U_dquote :: U_dquote :: ?l) 1) with U_dquote.
    change (peek (U_dquote :: U_dquote :: U_dquote :: ?l) (1 + 1))
      with U_dquote.
    change (U_dquote =? U_dquote) with true. cbv iota zeta.
    cbn [andb].
    pose proof (kh_lexString_loop_plain false true errors
                  (U_dquote :: U_dquote :: U_dquote :: rest) body
                  [U_dquote; U_dquote; U_dquote] (S fuel') [] Hbody)
      as Hloop.
    cbn [app List.length] in Hloop.
    change (1 + 2)%nat with 3%nat. rewrite Hloop.
    cbn [kh_lexString_loop].
    change (U_dquote :: U_dquote :: U_dquote
            :: body ++ U_dquote :: U_dquote :: U_dquote :: rest)
      with ([U_dquote; U_dquote; U_dquote]
            ++ body ++ U_dquote :: U_dquote :: U_dquote :: rest).
    rewrite app_assoc.
    replace (3 + List.length body)%nat
      with (List.length ([U_dquote; U_dquote; U_dquote] ++ body))
      by (rewrite length_app; reflexivity).
    rewrite peek_app, !peek_app_plus. cbn [hd nth].
    change (U_dquote =? U_dquote) with true. cbv iota. cbn [andb].
    rewrite length_app. cbn [List.length]. do 3 f_equal. lia.
  - intros Hbody Hpos Hempty.
    rewrite kh_lex_at_buffer by reflexivity.
    unfold kh_lexString.
    change (peek (U "b" :: U_dquote :: ?l) 1) with U_dquote.
    change (U_dquote =? U_dquote) with true. cbv iota zeta.
    assert (Hopen : (peek (U "b" :: U_dquote :: body ++ U_dquote :: rest) 2
                     =? U_dquote)
                    && (peek (U "b" :: U_dquote :: body ++ U_dquote :: rest)
                          (2 + 1)
                        =? U_dquote) = false).
    { destruct body as [|c body].
      - specialize (Hempty eq_refl). unfold peek. simpl.
        apply Z.eqb_neq. destruct rest; exact Hempty.
      - inversion Hbody as [|? ? Hc _]; subst.
        apply andb_false_iff. left. apply Z.eqb_neq.
        exact (plain_not_quote _ _ _ Hc). }
    rewrite Hopen.
    pose proof (kh_lexString_loop_plain true false errors
                  (U_dquote :: rest) body [U "b"; U_dquote] (S fuel') []
                  Hbody) as Hloop.
    cbn [app List.length] in Hloop. rewrite Hloop.
    cbn [kh_lexString_loop].
    change (U "b" :: U_dquote :: body ++ U_dquote :: rest)
      with ([U "b"; U_dquote] ++ body ++ U_dquote :: rest).
    rewrite app_assoc.
    replace (2 + List.length body)%nat
      with (List.length ([U "b"; U_dquote] ++ body))
      by (rewrite length_app; reflexivity).
    rewrite peek_app. cbn [hd].
    change (U_dquote =? U_dquote) with true. cbv iota.
    rewrite length_app. cbn [List.length app].
    rewrite (map_mod_bytes body Hpos Hbody). do 3 f_equal. lia.
Qed.

(** A string with a space and a hash sign in it, the same between
    triple quotes with a line feed, and a byte buffer. *)
Lemma kh_lex_string_round_trip_witness :
  kh_lex 6 (U_dquote :: codes "a #c" ++ U_dquote :: codes " x") 0 []
  = Some (khToken_fromString (codes "a #c"), 6%nat, [])
  /\ kh_lex 6
       ([U_dquote; U_dquote; U_dquote] ++ [U "a"; U_newline; U "#"; U "c"]
        ++ [U_dquote; U_dquote; U_dquote] ++ codes " x") 0 []
     = Some (khToken_fromString [U "a"; U_newline; U "#"; U "c"], 10%nat, [])
  /\ kh_lex 6 (U "b" :: U_dquote :: codes "a #c" ++ U_dquote :: codes " x")
       0 []
     = Some (khToken_fromBuffer (codes "a #c"), 7%nat, []).
Proof.
  split; [|split].
  - apply (proj1 (kh_lex_string_round_trip 6 (codes "a #c") (codes " x") []
                    ltac:(simpl; lia))).
    + repeat constructor.
    + discriminate.
  - apply (proj1 (proj2 (kh_lex_string_round_trip 6
                           [U "a"; U_newline; U "#"; U "c"] (codes " x") []
                           ltac:(simpl; lia)))).
    repeat constructor.
  - apply (proj2 (proj2 (kh_lex_string_round_trip 6 (codes "a #c")
                           (codes " x") [] ltac:(simpl; lia)))).
    + repeat constructor.
    + repeat constructor; discriminate.
    + discriminate.
Defined.

(** A string literal of plain code points that the input ends in.
    When the buffer ends before the closing quote and the body holds
    plain code points only (no double quote, backslash, line feed,
    single quote or terminator), [kh_lex] returns the [STRING] token of
    the body, leaves the cursor on the terminator and pushes exactly
    one diagnostic, at the terminator. *)
Theorem kh_lex_unterminated_string :
  forall fuel body errors,
    (List.length body < fuel)%nat ->
    Forall (fun c => plain false false c = true) body ->
    kh_lex fuel (U_dquote :: body) 0 errors
    = Some (khToken_fromString body, S (List.length body),
            errors ++ [ {| ptr := S (List.length body);
                           error := "expecting a character, met with a dead end" |} ]).
Proof.
  intros fuel body errors Hfuel Hbody.
  replace fuel with (List.length body + S (fuel - List.length body - 1))%nat
    by lia.
  set (fuel' := (fuel - List.length body - 1)%nat). clearbody fuel'.
  rewrite kh_lex_at_quote by reflexivity.
  unfold kh_lexString.
  change (peek (U_dquote :: body) 0) with U_dquote.
  change (U_dquote =? U_dquote) with true. cbv iota zeta.
  assert (Hopen : (peek (U_dquote :: body) 1 =? U_dquote)
                  && (peek (U_dquote :: body) (1 + 1) =? U_dquote) = false).
  { destruct body as [|c body]; [reflexivity|].
    inversion Hbody as [|? ? Hc _]; subst.
    apply andb_false_iff. left. apply Z.eqb_neq.
    exact (plain_not_quote _ _ _ Hc). }
  rewrite Hopen.
  pose proof (kh_lexString_loop_plain false false errors [] body [U_dquote]
                (S fuel') [] Hbody) as Hloop.
  rewrite app_nil_r in Hloop.
  cbn [app List.length] in Hloop. rewrite Hloop.
  cbn [kh_lexString_loop].
  replace (peek (U_dquote :: body) (1 + List.length body)) with 0.
  - reflexivity.
  - unfold peek. symmetry. apply nth_overflow. simpl. lia.
Qed.

Lemma kh_lex_unterminated_string_witness :
  kh_lex 4 (U_dquote :: codes "abc") 0 []
  = Some (khToken_fromString (codes "abc"), 4%nat,
          [ {| ptr := 4;
               error := "expecting a character, met with a dead end" |} ]).
Proof.
  apply (kh_lex_unterminated_string 4 (codes "abc") []).
  - simpl. lia.
  - repeat constructor.
Defined.

(** *** Character literals *)

Lemma kh_lex_at_char fuel buf cursor errors :
  peek buf cursor = U "'" ->
  kh_lex fuel buf cursor errors
  = (let '(chr, cursor, errors) := kh_lexChar buf cursor true false errors in
     Some (khToken_fromChar chr, cursor, errors)).
Proof.
  intro H. unfold kh_lex.
  rewrite (span_none iswspace buf cursor) by now rewrite H.
  rewrite Nat.add_0_r, H. reflexivity.
Qed.

Lemma kh_lex_at_byte fuel buf cursor errors :
  peek buf cursor = U "b" -> peek buf (S cursor) = U "'" ->
  kh_lex fuel buf cursor errors
  = (let '(chr, cursor, errors) :=
       kh_lexChar buf (S cursor) true true errors in
     Some (khToken_fromByte chr, cursor, errors)).
Proof.
  intros H H'. unfold kh_lex.
  rewrite (span_none iswspace buf cursor) by now rewrite H.
  rewrite Nat.add_0_r, H. cbv zeta. rewrite H'. reflexivity.
Qed.

(** A code point between single quotes lexes to the [CHAR] token of
    that code point, and after a [b], when it is a byte, to the [BYTE]
    token; the cursor is left behind the closing quote and no
    diagnostic is added.  The code point is any but the single quote,
    the backslash, the line feed and the terminator. *)
Theorem kh_lex_char_round_trip :
  forall fuel c rest errors,
    c <> U "'" -> c <> U "\" -> c <> U_newline -> c <> U_nul ->
    kh_lex fuel (U "'" :: c :: U "'" :: rest) 0 errors
    = Some (khToken_fromChar c, 3%nat, errors)
    /\ (c <= 255 ->
        kh_lex fuel (U "b" :: U "'" :: c :: U "'" :: rest) 0 errors
        = Some (khToken_fromByte c, 4%nat, errors)).
Proof.
  intros fuel c rest errors Hquote Hslash Hnewline Hnul.
  apply Z.eqb_neq in Hquote, Hslash, Hnewline, Hnul.
  split.
  - rewrite kh_lex_at_char by reflexivity.
    unfold kh_lexChar, kh_lexChar_body, peek. cbn [nth].
    rewrite Z.eqb_refl, Hslash, Hquote, Hnewline, Hnul.
    cbn [andb nth]. now rewrite Z.eqb_refl.
  - intro Hbyte.
    rewrite kh_lex_at_byte by reflexivity.
    unfold kh_lexChar, kh_lexChar_body, peek. cbn [nth].
    rewrite Z.eqb_refl, Hslash, Hquote, Hnewline, Hnul.
    replace (c >? 255) with false
      by (symmetry; rewrite Z.gtb_ltb; apply Z.ltb_ge; lia).
    cbn [andb nth]. now rewrite Z.eqb_refl.
Qed.

Lemma kh_lex_char_round_trip_witness :
  kh_lex 0 (U "'" :: 955 :: U "'" :: codes ";") 0 []
  = Some (khToken_fromChar 955, 3%nat, [])
  /\ kh_lex 0 (U "b" :: U "'" :: 65 :: U "'" :: codes ";") 0 []
     = Some (khToken_fromByte 65, 4%nat, []).
Proof.
  split.
  - apply (proj1 (kh_lex_char_round_trip 0 955 (codes ";") []
                    ltac:(discriminate) ltac:(discriminate)
                    ltac:(discriminate) ltac:(discriminate))).
  - apply (proj2 (kh_lex_char_round_trip 0 65 (codes ";") []
                    ltac:(discriminate) ltac:(discriminate)
                    ltac:(discriminate) ltac:(discriminate))).
    lia.
Defined.

(** *** Hexadecimal escapes *)

Lemma accumulate_below (base : Z) (digits : list Z) :
  1 <= base -> Forall (fun c => digitOf c < base) digits ->
  forall value, 0 <= value ->
    fold_left (fun v c => v * base + digitOf c) digits value
    < (value + 1) * base ^ Z.of_nat (List.length digits).
Proof.
  intros Hbase Hdigits.
  induction Hdigits as [|c digits Hc _ IH]; intros value Hvalue.
  - simpl. lia.
  - pose proof (digitOf_nonneg c) as Hd.
    cbn [fold_left List.length]. rewrite Nat2Z.inj_succ, Z.pow_succ_r by lia.
    specialize (IH (value * base + digitOf c) ltac:(nia)).
    assert (0 < base ^ Z.of_nat (List.length digits))
      by (apply Z.pow_pos_nonneg; lia).
    nia.
Qed.

(** [kh_lexInt] with the limit [max_length] on a run of exactly that
    many digits: it stops behind them, whatever follows. *)
Lemma kh_lexInt_loop_limit (base : Z) (rest : list Z) :
  1 <= base ->
  forall digits max_length result had_overflowed cursor,
    Forall (fun c => digitOf c < base) digits ->
    Z.of_nat (List.length digits) = max_length ->
    0 <= result ->
    fold_left (fun v c => v * base + digitOf c) digits result < 2 ^ 64 ->
    kh_lexInt_loop (digits ++ rest) base max_length result false
      had_overflowed cursor
    = (fold_left (fun v c => v * base + digitOf c) digits result,
       had_overflowed, (cursor + List.length digits)%nat).
Proof.
  intros Hbase.
  induction digits as [|c digits IH];
    intros max_length result had_overflowed cursor Hdigits Hlength Hresult
           Hfits.
  - simpl in *. subst max_length. rewrite Nat.add_0_r.
    destruct rest as [|c rest]; [reflexivity|].
    simpl. now rewrite andb_false_r.
  - inversion Hdigits as [|? ? Hc Hdigits']; subst.
    cbn [app kh_lexInt_loop List.length fold_left] in *.
    pose proof (digitOf_nonneg c) as Hd.
    assert (Hstep : 0 <= result * base + digitOf c) by nia.
    pose proof (accumulate_grows base digits Hbase _ Hstep) as Hgrows.
    apply Z.ltb_lt in Hc. rewrite Hc.
    replace (0 <? Z.of_nat (S (List.length digits))) with true
      by (symmetry; apply Z.ltb_lt; lia).
    cbn [andb].
    assert (Hshift : wrap64 (result * base) = result * base).
    { unfold wrap64. apply Z.mod_small. nia. }
    rewrite Hshift.
    assert (Hadd : wrap64 (result * base + digitOf c)
                   = result * base + digitOf c).
    { unfold wrap64. apply Z.mod_small. lia. }
    rewrite Hadd. rewrite andb_false_r.
    rewrite IH; [|assumption|lia|lia|assumption].
    now rewrite Nat.add_succ_r.
Qed.

Lemma hex_escape_exact before digits rest width message errors :
  List.length digits = width -> (width <= 8)%nat ->
  Forall (fun c => digitOf c < 16) digits ->
  hex_escape (before ++ digits ++ rest) (List.length before) width message
    errors
  = (value_of 16 (map digitOf digits), (List.length before + width)%nat,
     errors).
Proof.
  intros Hwidth Hsmall Hdigits. unfold hex_escape, kh_lexInt, value_of.
  rewrite skipn_app, skipn_all, Nat.sub_diag. cbn [skipn app].
  assert (Hfold : forall l v,
             fold_left (fun value digit => value * 16 + digit)
               (map digitOf l) v
             = fold_left (fun v c => v * 16 + digitOf c) l v).
  { induction l as [|c l IH]; intro v; simpl; [reflexivity | apply IH]. }
  rewrite Hfold.
  pose proof (accumulate_below 16 digits ltac:(lia) Hdigits 0 ltac:(lia))
    as Hbelow.
  pose proof (accumulate_grows 16 digits ltac:(lia) 0 ltac:(lia)) as Hgrows.
  assert (Hpow : 16 ^ Z.of_nat (List.length digits) <= 2 ^ 32).
  { change (2 ^ 32) with (16 ^ 8).
    apply Z.pow_le_mono_r; lia. }
  rewrite kh_lexInt_loop_limit; try assumption; try lia.
  rewrite Hwidth, Nat.eqb_refl. cbn [negb].
  rewrite Z.mod_small by lia. reflexivity.
Qed.

(** The hexadecimal escapes decode to the value of their digits: a
    character literal that holds a backslash, [x], [u] or [U], and
    exactly two, four or eight hexadecimal digits lexes to the [CHAR]
    token whose code point is the value of the digits in base sixteen,
    without a diagnostic. *)
Theorem kh_lex_hex_escape :
  forall fuel letter width digits rest errors,
    In (letter, width) [(U "x", 2%nat); (U "u", 4%nat); (U "U", 8%nat)] ->
    List.length digits = width ->
    Forall (fun c => digitOf c < 16) digits ->
    kh_lex fuel (U "'" :: U "\" :: letter :: digits ++ U "'" :: rest) 0 errors
    = Some (khToken_fromChar (value_of 16 (map digitOf digits)),
            (width + 4)%nat, errors).
Proof.
  intros fuel letter width digits rest errors Hletter Hwidth Hdigits.
  rewrite kh_lex_at_char by reflexivity.
  assert (Hescape : forall message,
             hex_escape (U "'" :: U "\" :: letter :: digits ++ U "'" :: rest)
               3 width message errors
             = (value_of 16 (map digitOf digits), (3 + width)%nat, errors)).
  { intro message.
    apply (hex_escape_exact [U "'"; U "\"; letter] digits (U "'" :: rest));
      try assumption.
    simpl in Hletter.
    destruct Hletter as [[= _ <-]|[[= _ <-]|[[= _ <-]|[]]]]; lia. }
  assert (Hclose : peek (U "'" :: U "\" :: letter :: digits ++ U "'" :: rest)
                     (3 + width) = U "'").
  { change (U "'" :: U "\" :: letter :: digits ++ U "'" :: rest)
      with ([U "'"; U "\"; letter] ++ digits ++ U "'" :: rest).
    rewrite app_assoc.
    replace (3 + width)%nat
      with (List.length ([U "'"; U "\"; letter] ++ digits))
      by (rewrite length_app; simpl; lia).
    now rewrite peek_app. }
  assert (H0 : peek (U "'" :: U "\" :: letter :: digits ++ U "'" :: rest) 0
               = U "'") by reflexivity.
  assert (H1 : peek (U "'" :: U "\" :: letter :: digits ++ U "'" :: rest) 1
               = U "\") by reflexivity.
  assert (H2 : peek (U "'" :: U "\" :: letter :: digits ++ U "'" :: rest) 2
               = letter) by reflexivity.
  set (buf := U "'" :: U "\" :: letter :: digits ++ U "'" :: rest) in *.
  clearbody buf.
  unfold kh_lexChar, kh_lexChar_body.
  rewrite H0, Z.eqb_refl, H1, Z.eqb_refl, H2. cbv zeta.
  simpl in Hletter.
  destruct Hletter as [[= <- <-]|[[= <- <-]|[[= <- <-]|[]]]];
    cbn -[hex_escape peek value_of digitOf Nat.add ERROR_STR];
    rewrite Hescape; cbv beta iota zeta;
    rewrite Hclose; reflexivity.
Qed.

(** The escapes of [A] and of the Greek small letter lambda. *)
Lemma kh_lex_hex_escape_witness :
  kh_lex 0 (U "'" :: U "\" :: U "x" :: codes "41" ++ U "'" :: []) 0 []
  = Some (khToken_fromChar 65, 6%nat, [])
  /\ kh_lex 0 (U "'" :: U "\" :: U "u" :: codes "03bB" ++ U "'" :: []) 0 []
     = Some (khToken_fromChar 955, 8%nat, []).
Proof.
  split.
  - apply (kh_lex_hex_escape 0 (U "x") 2 (codes "41") [] []).
    + simpl. tauto.
    + reflexivity.
    + repeat constructor.
  - apply (kh_lex_hex_escape 0 (U "u") 4 (codes "03bB") [] []).
    + simpl. tauto.
    + reflexivity.
    + repeat constructor.
Defined.

(** *** Comments *)

Lemma kh_lex_at_hash fuel buf cursor errors :
  peek buf cursor = U "#" ->
  kh_lex fuel buf cursor errors
  = Some (khToken_fromComment,
          (let in_comment c := negb ((c =? U_newline) || (c =? U_nul)) in
           let cursor1 :=
             (S cursor + span in_comment (skipn (S cursor) buf))%nat in
           if peek buf cursor1 =? U_newline then S cursor1 else cursor1),
          errors).
Proof.
  intro H. unfold kh_lex.
  rewrite (span_none iswspace buf cursor) by now rewrite H.
  rewrite Nat.add_0_r, H. reflexivity.
Qed.

(** A comment runs to the end of its line and takes the line feed with
    it: from a hash sign, [kh_lex] returns [COMMENT] and leaves the
    cursor behind the first line feed, or on the terminator when there
    is none, without a diagnostic. *)
Theorem kh_lex_comment :
  forall fuel text rest errors,
    Forall (fun c => c <> U_newline /\ c <> U_nul) text ->
    kh_lex fuel (U "#" :: text ++ U_newline :: rest) 0 errors
    = Some (khToken_fromComment, (List.length text + 2)%nat, errors)
    /\ kh_lex fuel (U "#" :: text) 0 errors
       = Some (khToken_fromComment, (List.length text + 1)%nat, errors).
Proof.
  intros fuel text rest errors Htext.
  assert (Hspan : forall tail,
             (hd 0 tail =? U_newline) || (hd 0 tail =? U_nul) = true ->
             span (fun c => negb ((c =? U_newline) || (c =? U_nul)))
               (text ++ tail)
             = List.length text).
  { intros tail Htail. apply span_app_all.
    - eapply Forall_impl; [|exact Htext]. simpl. intros c [H1 H2].
      apply Z.eqb_neq in H1, H2. now rewrite H1, H2.
    - now rewrite Htail. }
  split; rewrite kh_lex_at_hash by reflexivity; cbn [skipn]; cbv zeta.
  - rewrite (Hspan (U_newline :: rest)) by reflexivity.
    change (U "#" :: text ++ U_newline :: rest)
      with ([U "#"] ++ text ++ U_newline :: rest).
    rewrite app_assoc.
    replace (1 + List.length text)%nat with (List.length ([U "#"] ++ text))
      by (rewrite length_app; reflexivity).
    rewrite peek_app. cbn [hd]. rewrite Z.eqb_refl.
    rewrite length_app. cbn [List.length]. do 3 f_equal. lia.
  - pose proof (Hspan [] eq_refl) as Hend. rewrite app_nil_r in Hend.
    rewrite Hend.
    replace (peek (U "#" :: text) (1 + List.length text)) with 0.
    + cbn [Z.eqb U_newline]. do 3 f_equal. lia.
    + unfold peek. symmetry. apply nth_overflow. simpl. lia.
Qed.

Lemma kh_lex_comment_witness :
  kh_lex 0 (U "#" :: codes " x = 1" ++ U_newline :: codes "y") 0 []
  = Some (khToken_fromComment, 8%nat, [])
  /\ kh_lex 0 (U "#" :: codes " x = 1") 0 []
     = Some (khToken_fromComment, 7%nat, []).
Proof.
  apply (kh_lex_comment 0 (codes " x = 1") (codes "y") []).
  repeat constructor; discriminate.
Defined.

(** *** Integer literals *)

Lemma not_alnum_digitOf c : iswalnum c = false -> digitOf c = 255.
Proof.
  unfold iswalnum, iswalpha, digitOf, U. simpl.
  intro H. apply orb_false_iff in H. destruct H as [H H0].
  apply orb_false_iff in H. destruct H as [H1 H2].
  now rewrite H0, H1, H2.
Qed.

Lemma not_alnum_is_case c lower upper :
  iswalnum c = false ->
  iswalnum (U lower) = true -> iswalnum (U upper) = true ->
  is_case c lower upper = false.
Proof.
  intros Hc Hl Hu. unfold is_case.
  apply orb_false_iff. split; apply Z.eqb_neq; intros ->; congruence.
Qed.

Lemma digit_is_case c base lower upper :
  digitOf c < base -> base <= digitOf (U lower) ->
  base <= digitOf (U upper) ->
  is_case c lower upper = false.
Proof.
  intros Hc Hl Hu. unfold is_case.
  apply orb_false_iff. split; apply Z.eqb_neq; intros ->; lia.
Qed.

Lemma digitOf_decimal c : digitOf c < 10 -> 48 <= c <= 57.
Proof.
  unfold digitOf, U. simpl.
  destruct ((48 <=? c) && (c <=? 57)) eqn:E0.
  { apply andb_prop in E0. destruct E0 as [H1 H2].
    apply Z.leb_le in H1, H2. lia. }
  destruct ((65 <=? c) && (c <=? 90)) eqn:E1.
  { apply andb_prop in E1. destruct E1 as [H1 H2].
    apply Z.leb_le in H1, H2. lia. }
  destruct ((97 <=? c) && (c <=? 122)) eqn:E2.
  { apply andb_prop in E2. destruct E2 as [H1 H2].
    apply Z.leb_le in H1, H2. lia. }
  lia.
Qed.

Lemma kh_lex_at_digit fuel buf cursor errors :
  (digitOf (peek buf cursor) <? 10) = true ->
  kh_lex fuel buf cursor errors = Some (kh_lexNumber buf cursor errors).
Proof.
  intro H. unfold kh_lex.
  pose proof (digitOf_decimal _ (proj1 (Z.ltb_lt _ _) H)) as Hc.
  assert (Hspace : iswspace (peek buf cursor) = false).
  { unfold iswspace. apply orb_false_iff. split.
    - apply Z.eqb_neq. lia.
    - apply andb_false_iff. right. apply Z.leb_gt. lia. }
  assert (Halpha : iswalpha (peek buf cursor) = false).
  { unfold iswalpha. apply orb_false_iff.
    split; apply andb_false_iff; left; apply Z.leb_gt; lia. }
  rewrite (span_none iswspace buf cursor Hspace).
  rewrite Nat.add_0_r. cbv zeta. now rewrite Halpha, H.
Qed.

Lemma value_of_nonneg base digits :
  0 <= base -> Forall (fun digit => 0 <= digit) digits ->
  0 <= value_of base digits.
Proof.
  intros Hbase Hdigits. unfold value_of.
  assert (H : forall value, 0 <= value ->
            0 <= fold_left (fun value digit => value * base + digit) digits
                   value).
  { induction Hdigits as [|digit digits Hdigit _ IH]; intros value Hvalue;
      [exact Hvalue|]. cbn [fold_left]. apply IH. nia. }
  apply H. lia.
Qed.

Lemma narrow_signed_small bits value :
  0 < bits -> 0 <= value < 2 ^ (bits - 1) -> narrow_signed bits value = value.
Proof.
  intros Hbits Hvalue. unfold narrow_signed.
  assert (Hpow : 2 ^ bits = 2 * 2 ^ (bits - 1)).
  { replace bits with (Z.succ (bits - 1)) at 1 by lia.
    apply Z.pow_succ_r. lia. }
  rewrite Z.mod_small by lia.
  replace (value <? 2 ^ (bits - 1)) with true
    by (symmetry; apply Z.ltb_lt; lia).
  reflexivity.
Qed.

(** [kh_lexNumber] once the base is known: the digits of an integer
    that fits the accumulator, before a code point that neither goes
    on with the literal nor is a suffix. *)
Lemma kh_lexNumber_integer before digits rest base errors cursor :
  (digitOf (peek (before ++ digits ++ rest) cursor) >? 9) = false ->
  number_base (before ++ digits ++ rest) cursor
  = (base, List.length before) ->
  1 <= base <= 36 -> digits <> [] ->
  Forall (fun c => digitOf c < base) digits ->
  Z.of_nat (List.length digits) < 2 ^ 64 ->
  value_of base (map digitOf digits) < 2 ^ 64 ->
  iswalnum (hd 0 rest) = false -> hd 0 rest <> U "." ->
  kh_lexNumber (before ++ digits ++ rest) cursor errors
  = (khToken_fromInt (narrow_signed 32 (value_of base (map digitOf digits))),
     (List.length before + List.length digits)%nat, errors).
Proof.
  intros Hfirst Hbase Hrange Hsome Hdigits Hlength Hfits Halnum Hdot.
  unfold kh_lexNumber. rewrite Hfirst, Hbase.
  pose proof (not_alnum_digitOf _ Halnum) as Hend.
  rewrite (kh_lexInt_exact before digits rest base SIZE_MAX true
             ltac:(lia) Hdigits ltac:(apply Z.ltb_ge; lia)
             ltac:(unfold SIZE_MAX; lia) Hfits).
  replace (Nat.eqb (List.length before + List.length digits)
             (List.length before)) with false
    by (symmetry; apply Nat.eqb_neq; destruct digits; simpl;
        [contradiction | lia]).
  rewrite app_assoc.
  replace (List.length before + List.length digits)%nat
    with (List.length (before ++ digits)) by apply length_app.
  rewrite peek_app.
  rewrite !(not_alnum_is_case _ _ _ Halnum) by reflexivity.
  replace (hd 0 rest =? U ".") with false
    by (symmetry; now apply Z.eqb_neq).
  cbn [orb]. unfold integer_suffix. rewrite peek_app.
  rewrite !(not_alnum_is_case _ _ _ Halnum) by reflexivity.
  do 2 f_equal. lia.
Qed.

(** An integer literal below 2^31 lexes to its value.  The digits of
    the base, behind the base prefix if any and before a code point
    that is neither alphanumeric nor a dot, when their value in the
    base fits the [int32] of the [INT] token, lex to the [INT] token
    that holds this value, with the cursor behind the digits and no
    diagnostic. *)
Theorem kh_lex_integer :
  forall fuel prefix base digits rest errors,
    In (prefix, base) number_prefixes ->
    digits <> [] ->
    Forall (fun c => digitOf c < base) digits ->
    Z.of_nat (List.length digits) < 2 ^ 64 ->
    value_of base (map digitOf digits) < 2 ^ 31 ->
    iswalnum (hd 0 rest) = false -> hd 0 rest <> U "." ->
    kh_lex fuel (codes prefix ++ digits ++ rest) 0 errors
    = Some (khToken_fromInt (value_of base (map digitOf digits)),
            (String.length prefix + List.length digits)%nat, errors).
Proof.
  intros fuel prefix base digits rest errors Hprefix Hsome Hdigits Hlength
    Hint Halnum Hdot.
  assert (Hbase : 1 <= base).
  { simpl in Hprefix.
    repeat (destruct Hprefix as [[= _ <-]|Hprefix]; [lia|]).
    contradiction. }
  assert (Hnarrow : narrow_signed 32 (value_of base (map digitOf digits))
                    = value_of base (map digitOf digits)).
  { apply narrow_signed_small; [lia|]. split; [|exact Hint].
    apply value_of_nonneg; [lia|].
    apply Forall_forall. intros digit Hdigit.
    apply in_map_iff in Hdigit. destruct Hdigit as [c [<- _]].
    apply digitOf_nonneg. }
  assert (Hfits : value_of base (map digitOf digits) < 2 ^ 64) by lia.
  rewrite <- Hnarrow. clear Hnarrow.
  rewrite kh_lex_at_digit.
  2:{ simpl in Hprefix.
      repeat (destruct Hprefix as [[= <- <-]|Hprefix]; [try reflexivity|]);
        [|contradiction].
      destruct digits as [|c digits]; [contradiction|].
      inversion Hdigits; subst. cbn [codes app]. unfold peek. cbn [nth].
      now apply Z.ltb_lt. }
  rewrite <- codes_length. f_equal.
  simpl in Hprefix.
  destruct Hprefix as [[= <- <-]|Hprefix].
  - (* base ten *)
    apply kh_lexNumber_integer; try assumption; try lia.
    + destruct digits as [|c digits]; [contradiction|].
      inversion Hdigits; subst. cbn [codes app]. unfold peek. cbn [nth].
      rewrite Z.gtb_ltb. apply Z.ltb_ge. lia.
    + unfold number_base. cbn [codes app List.length].
      destruct (peek (digits ++ rest) 0 =? U "0"); [|reflexivity].
      assert (Hsecond : forall lower upper,
                 10 <= digitOf (U lower) -> 10 <= digitOf (U upper) ->
                 iswalnum (U lower) = true -> iswalnum (U upper) = true ->
                 is_case (peek (digits ++ rest) 1) lower upper = false).
      { intros lower upper Hl Hu Hl' Hu'.
        destruct digits as [|c [|c' digits]]; [contradiction| |].
        - cbn [app]. unfold peek. cbn [nth].
          replace (nth 0 rest 0) with (hd 0 rest) by now destruct rest.
          now apply not_alnum_is_case.
        - inversion Hdigits as [|? ? _ Hdigits']; subst.
          inversion Hdigits'; subst.
          cbn [app]. unfold peek. cbn [nth].
          now apply (digit_is_case c' 10). }
      rewrite !Hsecond by (try reflexivity; vm_compute; discriminate).
      reflexivity.
  - repeat (destruct Hprefix as [[= <- <-]|Hprefix];
            [ match goal with
              | |- kh_lexNumber (codes ?p ++ _) _ _ = _ =>
                  apply (kh_lexNumber_integer (codes p)); try assumption;
                  try lia; reflexivity
              end |]).
    contradiction.
Qed.

(** Decimal, binary and hexadecimal spellings of 255, and the largest
    value of an [int32]. *)
Lemma kh_lex_integer_witness :
  kh_lex 0 (codes "" ++ codes "255" ++ codes ";") 0 []
  = Some (khToken_fromInt 255, 3%nat, [])
  /\ kh_lex 0 (codes "0b" ++ codes "11111111" ++ codes " ") 0 []
     = Some (khToken_fromInt 255, 10%nat, [])
  /\ kh_lex 0 (codes "0X" ++ codes "fF" ++ []) 0 []
     = Some (khToken_fromInt 255, 4%nat, [])
  /\ kh_lex 0 (codes "" ++ codes "2147483647" ++ codes ")") 0 []
     = Some (khToken_fromInt (2 ^ 31 - 1), 10%nat, []).
Proof.
  split; [|split; [|split]].
  - apply (kh_lex_integer 0 "" 10 (codes "255") (codes ";") []).
    + simpl; tauto.
    + discriminate.
    + repeat constructor.
    + reflexivity.
    + reflexivity.
    + reflexivity.
    + discriminate.
  - apply (kh_lex_integer 0 "0b" 2 (codes "11111111") (codes " ") []).
    + simpl; tauto.
    + discriminate.
    + repeat constructor.
    + reflexivity.
    + reflexivity.
    + reflexivity.
    + discriminate.
  - apply (kh_lex_integer 0 "0X" 16 (codes "fF") [] []).
    + simpl; tauto.
    + discriminate.
    + repeat constructor.
    + reflexivity.
    + reflexivity.
    + reflexivity.
    + discriminate.
  - apply (kh_lex_integer 0 "" 10 (codes "2147483647")
             (codes ")") []).
    + simpl; tauto.
    + discriminate.
    + repeat constructor.
    + reflexivity.
    + reflexivity.
    + reflexivity.
    + discriminate.
Defined.

(** *** The spellings of the symbols *)

Lemma ends_symbol_cases c :
  ends_symbol c = true ->
  (c =? U "+") = false /\ (c =? U "-") = false /\ (c =? U "=") = false
  /\ (c =? U "<") = false /\ (c =? U ">") = false /\ (c =? U ".") = false.
Proof.
  unfold ends_symbol, symbol_continuations. cbn [codes existsb].
  intro H. apply negb_true_iff in H.
  repeat (apply orb_false_iff in H; destruct H as [? H]).
  repeat split; assumption.
Qed.

(** The symbols are spelled as in [lexed_symbols] and lexed by the
    longest match: each spelling of the table, followed by a code
    point that is none of [+ - = < > .], lexes to its token with the
    cursor behind the spelling and no diagnostic.  So the right shift
    is spelled [><] (and [>>] is two [MORE] tokens), [^] is the power
    operator, and [~] lexes to [BIT_OR] as [|] does. *)
Theorem kh_lex_symbols :
  forall (fuel : nat) (rest : list Z) (errors : list khLexError),
    ends_symbol (hd 0 rest) = true ->
    forall s token,
      In (s, token) lexed_symbols ->
      kh_lex fuel (codes s ++ rest) 0 errors
      = Some (token, String.length s, errors).
Proof.
  intros fuel rest errors Hrest s token H.
  apply ends_symbol_cases in Hrest.
  destruct Hrest as (H1 & H2 & H3 & H4 & H5 & H6).
  destruct rest as [|c rest]; cbn [hd] in *;
    simpl in H1, H2, H3, H4, H5, H6.
  - simpl in H.
    repeat (destruct H as [[= <- <-]|H]; [reflexivity|]). destruct H.
  - simpl in H.
    repeat (destruct H as [[= <- <-]|H];
            [unfold kh_lex, kh_lexSymbol, peek; simpl;
             rewrite ?H1, ?H2, ?H3, ?H4, ?H5, ?H6; reflexivity|]).
    destruct H.
Qed.

(** [><] before a space, and [~] at the end of the buffer. *)
Lemma kh_lex_symbols_witness :
  kh_lex 0 (codes "><" ++ codes " x") 0 []
  = Some (khToken_fromOperator khOperatorToken_BIT_RSHIFT, 2%nat, [])
  /\ kh_lex 0 (codes "~" ++ []) 0 []
     = Some (khToken_fromOperator khOperatorToken_BIT_OR, 1%nat, []).
Proof.
  split.
  - apply (kh_lex_symbols 0 (codes " x") [] eq_refl "><").
    simpl. do 37 right. left. reflexivity.
  - apply (kh_lex_symbols 0 [] [] eq_refl "~").
    simpl. do 39 right. left. reflexivity.
Defined.

End LexerSpec.

(** ** Properties of the parser *)
Module ParserSpec.
Import Parser.
Local Open Scope Z_scope.
Unset Implicit Arguments.

Local Notation "'tok_pow'" := (khTokenType_OPERATOR khOperatorToken_POW).
Local Notation "'tok_less'" := (khTokenType_OPERATOR khOperatorToken_LESS).
Local Notation "'tok_open'" :=
  (khTokenType_DELIMITER khDelimiterToken_PARENTHESIS_OPEN).
Local Notation "'tok_close'" :=
  (khTokenType_DELIMITER khDelimiterToken_PARENTHESIS_CLOSE).
Local Notation "'tok_comma'" := (khTokenType_DELIMITER khDelimiterToken_COMMA).

(** *** Running the primitives *)

Ltac run :=
  unfold bind, ret, raiseError_if, raiseError, get_cursor, set_cursor,
    currentToken, skipToken, out_of_budget;
  cbn [cursor errors currentToken_from is_COMMENT is_NEWLINE is_EOF
       is_keyword is_delimiter is_operator khDelimiterToken_beq
       khKeywordToken_beq khOperatorToken_beq orb andb negb tl fst snd].

Lemma currentToken_from_idempotent rest ignore_newline :
  currentToken_from (snd (currentToken_from rest ignore_newline)) ignore_newline
  = currentToken_from rest ignore_newline.
Proof.
  induction rest as [|token rest IH]; simpl; [reflexivity|].
  destruct (is_COMMENT token || is_NEWLINE token && ignore_newline) eqn:E;
    [exact IH|]. simpl. now rewrite E.
Qed.

Lemma exparseUnary_trim pe ps n ignore_newline rest errors :
  exparseUnary pe ps n ignore_newline false
    {| cursor := snd (currentToken_from rest ignore_newline);
       errors := errors |}
  = exparseUnary pe ps n ignore_newline false
      {| cursor := rest; errors := errors |}.
Proof.
  unfold exparseUnary.
  destruct n; simpl; unfold bind, currentToken; simpl;
    rewrite currentToken_from_idempotent; reflexivity.
Qed.


(** *** The power operator *)

(** C3, as the code has it.  The power operator is left-associative.
    Let the operand parser [exparseUnary] read [a] from the tokens
    [ta] up to a [**], [b] from [tb] up to a second [**], and [c] from
    [tc] up to [rest], which does not go on with a [**].  Then on [ta
    ** tb ** tc] followed by [rest], [exparsePow] returns BINARY( **,
    BINARY( **, a, b), c) and leaves the cursor on the first token of
    [rest] that counts. *)
Theorem exparsePow_left_associative :
  forall pe ps n ignore_newline ta tb tc rest a b c e0 e1 e2 e3,
    (2 <= n)%nat ->
    exparseUnary pe ps n ignore_newline false
      {| cursor := ta ++ tok_pow :: tb ++ tok_pow :: tc ++ rest; errors := e0 |}
    = Some (a, {| cursor := tok_pow :: tb ++ tok_pow :: tc ++ rest; errors := e1 |}) ->
    exparseUnary pe ps n ignore_newline false
      {| cursor := tb ++ tok_pow :: tc ++ rest; errors := e1 |}
    = Some (b, {| cursor := tok_pow :: tc ++ rest; errors := e2 |}) ->
    exparseUnary pe ps n ignore_newline false
      {| cursor := tc ++ rest; errors := e2 |}
    = Some (c, {| cursor := rest; errors := e3 |}) ->
    is_operator (fst (currentToken_from rest ignore_newline))
      khOperatorToken_POW = false ->
    exparsePow pe ps n ignore_newline false
      {| cursor := ta ++ tok_pow :: tb ++ tok_pow :: tc ++ rest; errors := e0 |}
    = Some (khAstExpressionType_BINARY khAstBinaryExpressionType_POW
              (khAstExpressionType_BINARY khAstBinaryExpressionType_POW a b)
              c,
            {| cursor := snd (currentToken_from rest ignore_newline);
               errors := e3 |}).
Proof.
  intros pe ps n ig ta tb tc rest a b c e0 e1 e2 e3 Hn Ha Hb Hc Hrest.
  destruct n as [|[|k]]; try lia.
  unfold exparsePow, RCD_BINARY, binary_level.
  unfold bind at 1. unfold currentToken at 1. cbn [cursor errors].
  destruct (currentToken_from (ta ++ tok_pow :: tb ++ tok_pow :: tc ++ rest) ig) as [t0 c0] eqn:E0.
  replace c0 with (snd (currentToken_from (ta ++ tok_pow :: tb ++ tok_pow :: tc ++ rest) ig)) by now rewrite E0.
  unfold bind at 1. rewrite exparseUnary_trim, Ha.
  cbv iota. unfold bind at 1. unfold currentToken at 1. cbn [cursor errors currentToken_from is_COMMENT is_NEWLINE orb andb].
  cbn [RCD_BINARY_loop khOperatorToken_beq].
  unfold bind at 1. unfold skipToken at 1. cbn [cursor errors currentToken_from is_COMMENT is_NEWLINE orb andb tl].
  unfold bind at 1. rewrite Hb.
  unfold bind at 1. unfold currentToken at 1. cbn [cursor errors currentToken_from is_COMMENT is_NEWLINE orb andb].
  cbn [RCD_BINARY_loop khOperatorToken_beq].
  unfold bind at 1. unfold skipToken at 1. cbn [cursor errors currentToken_from is_COMMENT is_NEWLINE orb andb tl].
  unfold bind at 1. rewrite Hc.
  unfold bind at 1. unfold currentToken at 1. cbn [cursor errors].
  destruct (currentToken_from rest ig) as [t r] eqn:Er. simpl in Hrest.
  destruct k; destruct t; try reflexivity;
    cbn [fst is_operator] in Hrest;
    cbn [RCD_BINARY_loop]; rewrite Hrest; reflexivity.
Qed.

(** The names [a], [b], [c] as operands. *)
Lemma exparsePow_left_associative_witness :
  exparsePow (kh_parseExpression 2) (kh_parseAst 2) 4 false false
    (start [khTokenType_IDENTIFIER (codes "a"); tok_pow;
            khTokenType_IDENTIFIER (codes "b"); tok_pow;
            khTokenType_IDENTIFIER (codes "c")])
  = Some (khAstExpressionType_BINARY khAstBinaryExpressionType_POW
            (khAstExpressionType_BINARY khAstBinaryExpressionType_POW
               (khAstExpressionType_IDENTIFIER (codes "a"))
               (khAstExpressionType_IDENTIFIER (codes "b")))
            (khAstExpressionType_IDENTIFIER (codes "c")),
          start []).
Proof.
  apply (exparsePow_left_associative (kh_parseExpression 2) (kh_parseAst 2) 4
           false [khTokenType_IDENTIFIER (codes "a")]
           [khTokenType_IDENTIFIER (codes "b")]
           [khTokenType_IDENTIFIER (codes "c")] [] _ _ _ [] [] [] []).
  - lia.
  - reflexivity.
  - reflexivity.
  - reflexivity.
  - reflexivity.
Defined.

(** C3 as the claim states it fails: [a ** b ** c] does not parse to
    the right-nested node, it parses to the left-nested one. *)
Lemma exparsePow_not_right_associative :
  let a := khAstExpressionType_IDENTIFIER (codes "a") in
  let b := khAstExpressionType_IDENTIFIER (codes "b") in
  let c := khAstExpressionType_IDENTIFIER (codes "c") in
  let tokens :=
    [khTokenType_IDENTIFIER (codes "a"); tok_pow;
     khTokenType_IDENTIFIER (codes "b"); tok_pow;
     khTokenType_IDENTIFIER (codes "c")] in
  kh_parseExpression 8 false false (start tokens)
  <> Some (khAstExpressionType_BINARY khAstBinaryExpressionType_POW a
             (khAstExpressionType_BINARY khAstBinaryExpressionType_POW b c),
           start [])
  /\ kh_parseExpression 8 false false (start tokens)
     = Some (khAstExpressionType_BINARY khAstBinaryExpressionType_POW
               (khAstExpressionType_BINARY khAstBinaryExpressionType_POW a b)
               c,
             start []).
Proof.
  split; [discriminate | reflexivity].
Qed.

(** *** Parentheses *)

(** C9 as the claim states it fails: [(x,)] does not parse to a tuple
    of [x] without diagnostics.  After the comma the list loop parses
    another element, which reads the closing parenthesis as an invalid
    expression; two diagnostics are raised. *)
Lemma exparseOther_trailing_comma :
  let tokens :=
    [tok_open; khTokenType_IDENTIFIER (codes "x"); tok_comma; tok_close] in
  kh_parseExpression 8 false false (start tokens)
  <> Some (khAstExpressionType_TUPLE
             [khAstExpressionType_IDENTIFIER (codes "x")], start [])
  /\ kh_parseExpression 8 false false (start tokens)
     = Some (khAstExpressionType_TUPLE
               [khAstExpressionType_IDENTIFIER (codes "x");
                khAstExpressionType_INVALID],
             {| cursor := [];
                errors :=
                  ["unexpected token in an expression"%string;
                   "expecting a comma with another element or a closing delimiter"%string]
             |}).
Proof.
  split; [discriminate | reflexivity].
Qed.

(** *** Comparison nodes *)

Ltac unfold_monad_in H :=
  unfold bind, ret, raiseError_if, raiseError, get_cursor, set_cursor,
    out_of_budget in H.

(* One step of taking a successful run apart. *)
Ltac without_syntax T :=
  lazymatch T with
  | context [khAstExpression] => fail
  | context [khAst] => fail
  | _ => idtac
  end.

Ltac run_inversion_step :=
  match goal with
  | H : None = Some _ |- _ => discriminate H
  | H : Some _ = Some _ |- _ => injection H as H; subst
  | H : _ = Some (?a, _) |- _ =>
      let T := type of a in without_syntax T; clear H
  | H : (_, _) = (_, _) |- _ => injection H; clear H; intros; subst
  | H : (let '(_, _) := ?p in _) = Some _ |- _ => destruct p eqn:?
  | H : match ?x with _ => _ end = Some _ |- _ => destruct x eqn:?
  | H : match ?x with _ => _ end ?s = Some _ |- _ => destruct x eqn:?
  end.

Ltac run_inversion H := unfold_monad_in H; repeat run_inversion_step.

Lemma forallb_snoc {A} (f : A -> bool) l a :
  forallb f l = true -> f a = true -> forallb f (l ++ [a]) = true.
Proof. intros Hl Ha. rewrite forallb_app, Hl. simpl. now rewrite Ha. Qed.

Lemma forallb_nil {A} (f : A -> bool) : forallb f [] = true.
Proof. reflexivity. Qed.

Create HintDb kh_ok.
#[local] Hint Resolve forallb_snoc forallb_nil : kh_ok.
#[local] Hint Extern 2 (comparison_ok _ = true) =>
  progress cbn [comparison_ok statement_ok optionb forallb];
  repeat (apply andb_true_intro; split) : kh_ok.
#[local] Hint Extern 2 (statement_ok _ = true) =>
  progress cbn [comparison_ok statement_ok optionb forallb];
  repeat (apply andb_true_intro; split) : kh_ok.

(* The fact a sub-run gives about its result. *)
Ltac gather_step :=
  match reverse goal with
  | E : ?m = Some (?a, ?s) |- _ =>
      first
        [ assert (comparison_ok a = true) by (eauto 4 with kh_ok); clear E
        | assert (statement_ok a = true) by (eauto 4 with kh_ok); clear E
        | assert (forallb comparison_ok a = true) by (eauto 4 with kh_ok);
          clear E
        | assert (forallb statement_ok a = true) by (eauto 4 with kh_ok);
          clear E
        | change (kept (m = Some (a, s))) in E ]
  end.

Ltac split_facts :=
  cbn [forallb optionb] in *;
  repeat match goal with
    | H : _ && _ = true |- _ => apply andb_prop in H; destruct H
    end.

Ltac ok_close :=
  repeat gather_step; unfold kept in *; split_facts;
  cbn [comparison_ok statement_ok optionb forallb];
  repeat (apply andb_true_intro; split);
  eauto 4 with kh_ok.

Section Bodies.
Variable pe : bool -> bool -> M khAstExpression.
Variable ps : M khAst.
Variable n : nat.
Hypothesis Hpe :
  forall ig ft s e s', pe ig ft s = Some (e, s') -> comparison_ok e = true.
Hypothesis Hps : forall s a s', ps s = Some (a, s') -> statement_ok a = true.

#[local] Hint Resolve Hpe Hps : kh_ok.

Lemma exparseList_loop_ok k closing ft :
  forall expressions s l s',
    exparseList_loop pe k closing ft expressions s = Some (l, s') ->
    forallb comparison_ok expressions = true ->
    forallb comparison_ok l = true.
Proof.
  induction k as [|k IH]; intros expressions s l s' H Hacc; simpl in H;
    run_inversion H; ok_close.
Qed.
#[local] Hint Resolve exparseList_loop_ok : kh_ok.

Lemma exparseList_ok opening closing ig ft s l s' :
  exparseList pe n opening closing ig ft s = Some (l, s') ->
  forallb comparison_ok l = true.
Proof.
  intro H. unfold exparseList in H. run_inversion H; ok_close.
Qed.
#[local] Hint Resolve exparseList_ok : kh_ok.

Lemma exparseDict_loop_ok k :
  forall keys values s e s',
    exparseDict_loop pe k keys values s = Some (e, s') ->
    forallb comparison_ok keys = true ->
    forallb comparison_ok values = true ->
    comparison_ok e = true.
Proof.
  induction k as [|k IH]; intros keys values s e s' H Hk Hv; simpl in H;
    run_inversion H; ok_close.
Qed.
#[local] Hint Resolve exparseDict_loop_ok : kh_ok.

Lemma exparseDict_ok ig s e s' :
  exparseDict pe n ig s = Some (e, s') -> comparison_ok e = true.
Proof.
  intro H. unfold exparseDict in H. run_inversion H; ok_close.
Qed.
#[local] Hint Resolve exparseDict_ok : kh_ok.

Lemma exparseVariableDeclaration_ok ig s e s' :
  exparseVariableDeclaration pe n ig s = Some (e, s') -> comparison_ok e = true.
Proof.
  intro H. unfold exparseVariableDeclaration in H. run_inversion H; ok_close.
Qed.
#[local] Hint Resolve exparseVariableDeclaration_ok : kh_ok.


Lemma exparseFunctionType_loop_ok k :
  forall token refs types s refs' types' s',
    exparseFunctionType_loop pe k token refs types s
    = Some ((refs', types'), s') ->
    forallb comparison_ok types = true ->
    forallb comparison_ok types' = true.
Proof.
  induction k as [|k IH]; intros token refs types s refs' types' s' H Hacc;
    simpl in H; run_inversion H; ok_close.
Qed.
#[local] Hint Resolve exparseFunctionType_loop_ok : kh_ok.

Lemma exparseFunctionType_ok ig s e s' :
  exparseFunctionType pe n ig s = Some (e, s') -> comparison_ok e = true.
Proof.
  intro H. unfold exparseFunctionType in H. run_inversion H; ok_close.
Qed.
#[local] Hint Resolve exparseFunctionType_ok : kh_ok.

Lemma sparseBlock_loop_ok k :
  forall token block s block' s',
    sparseBlock_loop ps k token block s = Some (block', s') ->
    forallb statement_ok block = true ->
    forallb statement_ok block' = true.
Proof.
  induction k as [|k IH]; intros token block s block' s' H Hacc;
    simpl in H; run_inversion H; ok_close.
Qed.
#[local] Hint Resolve sparseBlock_loop_ok : kh_ok.

Lemma sparseBlock_ok s block s' :
  sparseBlock ps n s = Some (block, s') -> forallb statement_ok block = true.
Proof.
  intro H. unfold sparseBlock in H. run_inversion H; ok_close.
Qed.
#[local] Hint Resolve sparseBlock_ok : kh_ok.

Lemma sparseFunctionOrLambda_arguments_ok k :
  forall token arguments s arguments' variadic s',
    sparseFunctionOrLambda_arguments pe n k token arguments s
    = Some ((arguments', variadic), s') ->
    forallb comparison_ok arguments = true ->
    forallb comparison_ok arguments' = true
    /\ optionb comparison_ok variadic = true.
Proof.
  induction k as [|k IH];
    intros token arguments s arguments' variadic s' H Hacc;
    simpl in H; run_inversion H;
    try (eapply IH; [eassumption|]); try split; ok_close.
Qed.

Lemma sparseFunctionOrLambda_ok s arguments variadic is_ref return_type
    content s' :
  sparseFunctionOrLambda pe ps n s
  = Some ((arguments, variadic, is_ref, return_type, content), s') ->
  forallb comparison_ok arguments = true
  /\ optionb comparison_ok variadic = true
  /\ optionb comparison_ok return_type = true
  /\ forallb statement_ok content = true.
Proof.
  intro H. unfold sparseFunctionOrLambda in H. run_inversion H.
  all: match goal with
       | E : sparseFunctionOrLambda_arguments _ _ _ _ _ _ = Some _ |- _ =>
           apply sparseFunctionOrLambda_arguments_ok in E;
           [destruct E | reflexivity]
       end.
  all: repeat split; ok_close.
Qed.

Ltac use_function_or_lambda :=
  match goal with
  | E : sparseFunctionOrLambda _ _ _ _ = Some _ |- _ =>
      apply sparseFunctionOrLambda_ok in E; destruct E as (? & ? & ? & ?)
  end.

Lemma exparseLambda_ok ig s e s' :
  exparseLambda pe ps n ig s = Some (e, s') -> comparison_ok e = true.
Proof.
  intro H. unfold exparseLambda in H. run_inversion H;
    use_function_or_lambda; ok_close.
Qed.
#[local] Hint Resolve exparseLambda_ok : kh_ok.

Lemma exparseOther_ok ig ft s e s' :
  exparseOther pe ps n ig ft s = Some (e, s') -> comparison_ok e = true.
Proof.
  intro H. unfold exparseOther, exparseOther_constant in H.
  run_inversion H; ok_close.
Qed.
#[local] Hint Resolve exparseOther_ok : kh_ok.


Lemma exparseScopeTemplatization_loop_ok k ig :
  forall token expression s e s',
    exparseScopeTemplatization_loop pe n k ig token expression s
    = Some (e, s') ->
    comparison_ok expression = true ->
    comparison_ok e = true.
Proof.
  induction k as [|k IH]; intros token expression s e s' H Hacc;
    simpl in H; run_inversion H; ok_close.
Qed.
#[local] Hint Resolve exparseScopeTemplatization_loop_ok : kh_ok.

Lemma exparseScopeTemplatization_ok ig ft s e s' :
  exparseScopeTemplatization pe ps n ig ft s = Some (e, s') ->
  comparison_ok e = true.
Proof.
  intro H. unfold exparseScopeTemplatization in H. run_inversion H; ok_close.
Qed.
#[local] Hint Resolve exparseScopeTemplatization_ok : kh_ok.

Lemma exparseReverseUnary_loop_ok k ig ft :
  forall token expression s e s',
    exparseReverseUnary_loop pe n k ig ft token expression s = Some (e, s') ->
    comparison_ok expression = true ->
    comparison_ok e = true.
Proof.
  induction k as [|k IH]; intros token expression s e s' H Hacc;
    simpl in H; run_inversion H; ok_close.
Qed.
#[local] Hint Resolve exparseReverseUnary_loop_ok : kh_ok.

Lemma exparseReverseUnary_ok ig ft s e s' :
  exparseReverseUnary pe ps n ig ft s = Some (e, s') ->
  comparison_ok e = true.
Proof.
  intro H. unfold exparseReverseUnary in H. run_inversion H; ok_close.
Qed.
#[local] Hint Resolve exparseReverseUnary_ok : kh_ok.

Lemma exparseUnary_rec_ok k :
  forall ig ft s e s',
    exparseUnary_rec pe ps n k ig ft s = Some (e, s') ->
    comparison_ok e = true.
Proof.
  induction k as [|k IH]; intros ig ft s e s' H;
    simpl in H; unfold RCD_UNARY_CASE in H; run_inversion H; ok_close.
Qed.

Lemma exparseUnary_ok ig ft s e s' :
  exparseUnary pe ps n ig ft s = Some (e, s') -> comparison_ok e = true.
Proof. apply exparseUnary_rec_ok. Qed.
#[local] Hint Resolve exparseUnary_ok : kh_ok.

Section Binary.
Variable LOWER : bool -> bool -> M khAstExpression.
Variable cases : khOperatorToken -> option khAstBinaryExpressionType.
Hypothesis HLOWER :
  forall ig ft s e s', LOWER ig ft s = Some (e, s') -> comparison_ok e = true.
#[local] Hint Resolve HLOWER : kh_ok.

Lemma RCD_BINARY_loop_ok k ig ft :
  forall token expression s e s',
    RCD_BINARY_loop LOWER cases k ig ft token expression s = Some (e, s') ->
    comparison_ok expression = true ->
    comparison_ok e = true.
Proof.
  induction k as [|k IH]; intros token expression s e s' H Hacc;
    simpl in H; run_inversion H; ok_close.
Qed.
#[local] Hint Resolve RCD_BINARY_loop_ok : kh_ok.

Lemma binary_level_ok ig ft s e s' :
  binary_level n LOWER cases ig ft s = Some (e, s') -> comparison_ok e = true.
Proof.
  intro H. unfold binary_level in H. run_inversion H; ok_close.
Qed.
End Binary.

Lemma exparsePow_ok ig ft s e s' :
  exparsePow pe ps n ig ft s = Some (e, s') -> comparison_ok e = true.
Proof. apply binary_level_ok, exparseUnary_ok. Qed.

Lemma exparseMulDivMod_ok ig ft s e s' :
  exparseMulDivMod pe ps n ig ft s = Some (e, s') -> comparison_ok e = true.
Proof. apply binary_level_ok, exparsePow_ok. Qed.

Lemma exparseAddSub_ok ig ft s e s' :
  exparseAddSub pe ps n ig ft s = Some (e, s') -> comparison_ok e = true.
Proof. apply binary_level_ok, exparseMulDivMod_ok. Qed.

Lemma exparseBitwiseShifts_ok ig ft s e s' :
  exparseBitwiseShifts pe ps n ig ft s = Some (e, s') ->
  comparison_ok e = true.
Proof. apply binary_level_ok, exparseAddSub_ok. Qed.

Lemma exparseBitwiseAnd_ok ig ft s e s' :
  exparseBitwiseAnd pe ps n ig ft s = Some (e, s') -> comparison_ok e = true.
Proof. apply binary_level_ok, exparseBitwiseShifts_ok. Qed.

Lemma exparseBitwiseXor_ok ig ft s e s' :
  exparseBitwiseXor pe ps n ig ft s = Some (e, s') -> comparison_ok e = true.
Proof. apply binary_level_ok, exparseBitwiseAnd_ok. Qed.

Lemma exparseBitwiseOr_ok ig ft s e s' :
  exparseBitwiseOr pe ps n ig ft s = Some (e, s') -> comparison_ok e = true.
Proof. apply binary_level_ok, exparseBitwiseXor_ok. Qed.
#[local] Hint Resolve exparseBitwiseOr_ok : kh_ok.

Lemma comparison_of_is_comparison operator_v :
  comparison_of operator_v = None ->
  is_comparison (khTokenType_OPERATOR operator_v) = false.
Proof. destruct operator_v; intro H; first [discriminate H | reflexivity]. Qed.

(** The loop of [exparseComparisonOperators] keeps one operand more
    than operations, and leaves with an operation at least if it was
    entered on a comparison operator. *)
Lemma exparseComparisonOperators_loop_ok k ig ft :
  forall token operations operands s e s',
    exparseComparisonOperators_loop pe ps n k ig ft token operations operands s
    = Some (e, s') ->
    forallb comparison_ok operands = true ->
    List.length operands = S (List.length operations) ->
    (1 <= List.length operations)%nat \/ is_comparison token = true ->
    comparison_ok e = true.
Proof.
  assert (Hexit : forall operations operands,
             forallb comparison_ok operands = true ->
             List.length operands = S (List.length operations) ->
             (1 <= List.length operations)%nat ->
             comparison_ok
               (khAstExpressionType_COMPARISON operations operands) = true).
  { intros operations operands Hall Hlen Hone. cbn [comparison_ok].
    rewrite Hall, Hlen, Nat.eqb_refl.
    now apply Nat.leb_le in Hone as ->. }
  assert (Hother : forall token
                      (operations : list khAstComparisonExpressionType),
             match token with
             | khTokenType_OPERATOR operator_v =>
                 comparison_of operator_v = None
             | _ => True
             end ->
             (1 <= List.length operations)%nat \/ is_comparison token = true ->
             (1 <= List.length operations)%nat).
  { intros token operations Htoken [Hone|Hcmp]; [assumption|].
    destruct token; try discriminate Hcmp.
    rewrite (comparison_of_is_comparison _ Htoken) in Hcmp. discriminate. }
  induction k as [|k IH];
    intros token operations operands s e s' H Hall Hlen Hentry; simpl in H;
    (destruct token as [| | | | | | |operator_v| | | | | | | | | |];
     try (injection H as <- <-;
          apply Hexit;
          [assumption | assumption
          | destruct Hentry as [?|Hc]; [assumption | discriminate Hc]]));
    destruct (comparison_of operator_v) eqn:E;
    try discriminate H;
    try (injection H as <- <-; apply Hexit; eauto;
         apply (Hother (khTokenType_OPERATOR operator_v)); assumption).
  run_inversion H.
  eapply IH; [eassumption | | | ].
  - apply forallb_snoc; eauto with kh_ok.
  - rewrite !length_app. simpl. lia.
  - left. rewrite length_app. simpl. lia.
Qed.

Lemma exparseComparisonOperators_ok ig ft s e s' :
  exparseComparisonOperators pe ps n ig ft s = Some (e, s') ->
  comparison_ok e = true.
Proof.
  intro H. unfold exparseComparisonOperators in H. run_inversion H;
    try solve [ok_close].
  eapply exparseComparisonOperators_loop_ok; [eassumption | | | ].
  - cbn [forallb]. rewrite andb_true_r. eauto with kh_ok.
  - reflexivity.
  - now right.
Qed.
#[local] Hint Resolve exparseComparisonOperators_ok : kh_ok.

Lemma exparseLogicalNot_rec_ok k :
  forall ig ft s e s',
    exparseLogicalNot_rec pe ps n k ig ft s = Some (e, s') ->
    comparison_ok e = true.
Proof.
  induction k as [|k IH]; intros ig ft s e s' H;
    simpl in H; run_inversion H; ok_close.
Qed.

Lemma exparseLogicalNot_ok ig ft s e s' :
  exparseLogicalNot pe ps n ig ft s = Some (e, s') -> comparison_ok e = true.
Proof. apply exparseLogicalNot_rec_ok. Qed.

Lemma exparseLogicalAnd_ok ig ft s e s' :
  exparseLogicalAnd pe ps n ig ft s = Some (e, s') -> comparison_ok e = true.
Proof. apply binary_level_ok, exparseLogicalNot_ok. Qed.

Lemma exparseLogicalXor_ok ig ft s e s' :
  exparseLogicalXor pe ps n ig ft s = Some (e, s') -> comparison_ok e = true.
Proof. apply binary_level_ok, exparseLogicalAnd_ok. Qed.

Lemma exparseLogicalOr_ok ig ft s e s' :
  exparseLogicalOr pe ps n ig ft s = Some (e, s') -> comparison_ok e = true.
Proof. apply binary_level_ok, exparseLogicalXor_ok. Qed.
#[local] Hint Resolve exparseLogicalOr_ok : kh_ok.

Lemma exparseTernary_loop_ok k ig ft :
  forall token expression s e s',
    exparseTernary_loop pe ps n k ig ft token expression s = Some (e, s') ->
    comparison_ok expression = true ->
    comparison_ok e = true.
Proof.
  induction k as [|k IH]; intros token expression s e s' H Hacc;
    simpl in H; run_inversion H; ok_close.
Qed.
#[local] Hint Resolve exparseTernary_loop_ok : kh_ok.

Lemma exparseTernary_ok ig ft s e s' :
  exparseTernary pe ps n ig ft s = Some (e, s') -> comparison_ok e = true.
Proof.
  intro H. unfold exparseTernary in H. run_inversion H; ok_close.
Qed.

Lemma exparseInplaceOperators_ok ig ft s e s' :
  exparseInplaceOperators pe ps n ig ft s = Some (e, s') ->
  comparison_ok e = true.
Proof. apply binary_level_ok, exparseTernary_ok. Qed.


(** *** Statements *)

Lemma sparseImport_ok s a s' :
  sparseImport n s = Some (a, s') -> statement_ok a = true.
Proof.
  intro H. unfold sparseImport, sparsePath, statement_end in H.
  run_inversion H; reflexivity.
Qed.

Lemma sparseInclude_ok s a s' :
  sparseInclude n s = Some (a, s') -> statement_ok a = true.
Proof.
  intro H. unfold sparseInclude, sparsePath, statement_end in H.
  run_inversion H; reflexivity.
Qed.

Lemma sparseFunction_ok s a s' :
  sparseFunction pe ps n s = Some (a, s') -> statement_ok a = true.
Proof.
  intro H. unfold sparseFunction in H. run_inversion H;
    use_function_or_lambda; ok_close.
Qed.

Lemma sparseClassOrStruct_ok s name template_arguments base content s' :
  sparseClassOrStruct pe ps n s
  = Some ((name, template_arguments, base, content), s') ->
  optionb comparison_ok base = true /\ forallb statement_ok content = true.
Proof.
  intro H. unfold sparseClassOrStruct in H. run_inversion H;
    split; ok_close.
Qed.

Ltac use_class_or_struct :=
  match goal with
  | E : sparseClassOrStruct _ _ _ _ = Some _ |- _ =>
      apply sparseClassOrStruct_ok in E; destruct E
  end.

Lemma sparseClass_ok s a s' :
  sparseClass pe ps n s = Some (a, s') -> statement_ok a = true.
Proof.
  intro H. unfold sparseClass in H. run_inversion H;
    use_class_or_struct; ok_close.
Qed.

Lemma sparseStruct_ok s a s' :
  sparseStruct pe ps n s = Some (a, s') -> statement_ok a = true.
Proof.
  intro H. unfold sparseStruct in H. run_inversion H;
    use_class_or_struct; ok_close.
Qed.

Lemma sparseEnum_ok s a s' :
  sparseEnum n s = Some (a, s') -> statement_ok a = true.
Proof.
  intro H. unfold sparseEnum in H. run_inversion H; reflexivity.
Qed.

Lemma sparseAlias_ok s a s' :
  sparseAlias pe n s = Some (a, s') -> statement_ok a = true.
Proof.
  intro H. unfold sparseAlias, statement_end in H. run_inversion H; ok_close.
Qed.

Lemma sparseIfBranch_loop_ok k :
  forall conditions contents s conditions' contents' token s',
    sparseIfBranch_loop pe ps n k conditions contents s
    = Some ((conditions', contents', token), s') ->
    forallb comparison_ok conditions = true ->
    forallb (forallb statement_ok) contents = true ->
    forallb comparison_ok conditions' = true
    /\ forallb (forallb statement_ok) contents' = true.
Proof.
  induction k as [|k IH];
    intros conditions contents s conditions' contents' token s' H Hc Hb;
    simpl in H; run_inversion H.
  - eapply IH; [eassumption | |]; ok_close.
  - split; ok_close.
Qed.

Lemma sparseIfBranch_ok s a s' :
  sparseIfBranch pe ps n s = Some (a, s') -> statement_ok a = true.
Proof.
  intro H. unfold sparseIfBranch in H. run_inversion H.
  all: match goal with
       | E : sparseIfBranch_loop _ _ _ _ _ _ _ = Some _ |- _ =>
           apply sparseIfBranch_loop_ok in E;
           [destruct E | reflexivity | reflexivity]
       end.
  all: ok_close.
Qed.

Lemma sparseWhileLoop_ok s a s' :
  sparseWhileLoop pe ps n s = Some (a, s') -> statement_ok a = true.
Proof.
  intro H. unfold sparseWhileLoop in H. run_inversion H; ok_close.
Qed.

Lemma sparseDoWhileLoop_ok s a s' :
  sparseDoWhileLoop pe ps n s = Some (a, s') -> statement_ok a = true.
Proof.
  intro H. unfold sparseDoWhileLoop, statement_end in H.
  run_inversion H; ok_close.
Qed.

Lemma sparseExpressions_loop_ok k :
  forall expressions s expressions' token s',
    sparseExpressions_loop pe k expressions s
    = Some ((expressions', token), s') ->
    forallb comparison_ok expressions = true ->
    forallb comparison_ok expressions' = true.
Proof.
  induction k as [|k IH]; intros expressions s expressions' token s' H Hacc;
    simpl in H; run_inversion H; ok_close.
Qed.

Ltac use_expressions :=
  match goal with
  | E : sparseExpressions_loop _ _ _ _ = Some _ |- _ =>
      apply sparseExpressions_loop_ok in E; [|reflexivity]
  end.

Lemma sparseForLoop_ok s a s' :
  sparseForLoop pe ps n s = Some (a, s') -> statement_ok a = true.
Proof.
  intro H. unfold sparseForLoop in H. run_inversion H;
    use_expressions; ok_close.
Qed.

Lemma sparseBreak_ok s a s' :
  sparseBreak s = Some (a, s') -> statement_ok a = true.
Proof.
  intro H. unfold sparseBreak, statement_end in H.
  run_inversion H; reflexivity.
Qed.

Lemma sparseContinue_ok s a s' :
  sparseContinue s = Some (a, s') -> statement_ok a = true.
Proof.
  intro H. unfold sparseContinue, statement_end in H.
  run_inversion H; reflexivity.
Qed.

Lemma sparseReturn_ok s a s' :
  sparseReturn pe n s = Some (a, s') -> statement_ok a = true.
Proof.
  intro H. unfold sparseReturn, statement_end in H. run_inversion H;
    try use_expressions; ok_close.
Qed.

Lemma sparseStatement_expression_ok s a s' :
  sparseStatement_expression pe s = Some (a, s') -> statement_ok a = true.
Proof.
  intro H. unfold sparseStatement_expression in H. run_inversion H; ok_close.
Qed.

#[local] Hint Resolve sparseImport_ok sparseInclude_ok sparseFunction_ok
  sparseClass_ok sparseStruct_ok sparseEnum_ok sparseAlias_ok
  sparseIfBranch_ok sparseWhileLoop_ok sparseDoWhileLoop_ok sparseForLoop_ok
  sparseBreak_ok sparseContinue_ok sparseReturn_ok
  sparseStatement_expression_ok : kh_ok.

Lemma sparseStatement_ok s a s' :
  sparseStatement pe ps n s = Some (a, s') -> statement_ok a = true.
Proof.
  intro H. unfold sparseStatement in H. run_inversion H; ok_close.
Qed.

End Bodies.

(** Every expression and every statement the parser returns has
    well-formed comparison nodes. *)
Lemma kh_parse_comparison_ok fuel :
  (forall ig ft s e s',
      kh_parseExpression fuel ig ft s = Some (e, s') ->
      comparison_ok e = true)
  /\ (forall s a s',
         kh_parseAst fuel s = Some (a, s') -> statement_ok a = true).
Proof.
  induction fuel as [|fuel [IHe IHs]]; [split; discriminate|].
  split; simpl.
  - intros ig ft s e s'.
    apply (exparseInplaceOperators_ok _ _ fuel IHe IHs).
  - intros s a s'. apply (sparseStatement_ok _ _ fuel IHe IHs).
Qed.

Lemma kh_parse_loop_ok fuel k :
  forall asts s asts' s',
    kh_parse_loop fuel k asts s = Some (asts', s') ->
    forallb statement_ok asts = true ->
    forallb statement_ok asts' = true.
Proof.
  induction k as [|k IH]; intros asts s asts' s' H Hacc; simpl in H;
    run_inversion H; try assumption.
  eapply IH; [eassumption|].
  apply forallb_snoc; [assumption|].
  eapply (proj2 (kh_parse_comparison_ok fuel)); eassumption.
Qed.

Lemma kh_parse_ok fuel tokens asts diagnostics :
  kh_parse fuel tokens = Some (asts, diagnostics) ->
  forallb statement_ok asts = true.
Proof.
  unfold kh_parse.
  destruct (kh_parse_loop fuel fuel [] {| cursor := tokens; errors := [] |})
    as [[asts' s']|] eqn:E; [|discriminate].
  intros [= <- _]. exact (kh_parse_loop_ok fuel fuel [] _ _ _ E eq_refl).
Qed.

(** C8.  Every [COMPARISON] node the parser produces, at any depth of
    any expression [kh_parseExpression] returns and of any statement
    [kh_parse] returns, has one operation less than it has operands,
    at least one operation and at least two operands; and for all
    names [a], [b], [c], the tokens [a < b < c] parse to the single
    node COMPARISON([<, <], [a, b, c]). *)
Theorem comparison_chain :
  (forall fuel ignore_newline filter_type s e s',
      kh_parseExpression fuel ignore_newline filter_type s = Some (e, s') ->
      comparison_ok e = true)
  /\ (forall fuel tokens asts diagnostics,
         kh_parse fuel tokens = Some (asts, diagnostics) ->
         forallb statement_ok asts = true)
  /\ (forall operations operands,
         comparison_ok (khAstExpressionType_COMPARISON operations operands)
         = true ->
         List.length operations = (List.length operands - 1)%nat
         /\ (1 <= List.length operations)%nat
         /\ (2 <= List.length operands)%nat)
  /\ (forall a b c : khstring,
         kh_parseExpression 8 false false
           (start [khTokenType_IDENTIFIER a; tok_less;
                   khTokenType_IDENTIFIER b; tok_less;
                   khTokenType_IDENTIFIER c])
         = Some (khAstExpressionType_COMPARISON
                   [khAstComparisonExpressionType_LESS;
                    khAstComparisonExpressionType_LESS]
                   [khAstExpressionType_IDENTIFIER a;
                    khAstExpressionType_IDENTIFIER b;
                    khAstExpressionType_IDENTIFIER c],
                 start [])).
Proof.
  split; [|split; [|split]].
  - intros fuel ig ft s e s'. apply (proj1 (kh_parse_comparison_ok fuel)).
  - exact kh_parse_ok.
  - intros operations operands H. cbn [comparison_ok] in H.
    apply andb_prop in H. destruct H as [H _].
    apply andb_prop in H. destruct H as [Hlen Hone].
    apply Nat.eqb_eq in Hlen. apply Nat.leb_le in Hone. lia.
  - intros a b c. reflexivity.
Qed.

(** The chain [a < b <= c] inside parentheses, as the operand of
    [not]: the node is two levels down. *)
Lemma comparison_chain_witness :
  comparison_ok
    (khAstExpressionType_UNARY khAstUnaryExpressionType_NOT
       (khAstExpressionType_COMPARISON
          [khAstComparisonExpressionType_LESS;
           khAstComparisonExpressionType_ELESS]
          [khAstExpressionType_IDENTIFIER (codes "a");
           khAstExpressionType_IDENTIFIER (codes "b");
           khAstExpressionType_IDENTIFIER (codes "c")]))
  = true.
Proof.
  apply (proj1 comparison_chain 8%nat false false
           (start [khTokenType_OPERATOR khOperatorToken_NOT; tok_open;
                   khTokenType_IDENTIFIER (codes "a"); tok_less;
                   khTokenType_IDENTIFIER (codes "b");
                   khTokenType_OPERATOR khOperatorToken_ELESS;
                   khTokenType_IDENTIFIER (codes "c"); tok_close])
           _ (start [])).
  reflexivity.
Defined.

(** *** Unary operators and [return] *)


(** C4.  Every prefix operator gives a node of type
    [khAstUnaryExpressionType_NOT], and both postfix operators give a
    node of type [khAstUnaryExpressionType_POST_INCREMENT]: for every
    name [x], each of [-x], [~x], [++x], [--x], [+x] parses to the
    node of [not x], and [x--] parses to the node of [x++]. *)
Theorem exparseUnary_collapses :
  forall x : khstring,
    let operand := khAstExpressionType_IDENTIFIER x in
    let prefix o :=
      kh_parseExpression 8 false false
        (start [khTokenType_OPERATOR o; khTokenType_IDENTIFIER x]) in
    let postfix o :=
      kh_parseExpression 8 false false
        (start [khTokenType_IDENTIFIER x; khTokenType_OPERATOR o]) in
    let node type :=
      Some (khAstExpressionType_UNARY type operand, start []) in
    prefix khOperatorToken_SUB = node khAstUnaryExpressionType_NOT
    /\ prefix khOperatorToken_BIT_NOT = node khAstUnaryExpressionType_NOT
    /\ prefix khOperatorToken_INCREMENT = node khAstUnaryExpressionType_NOT
    /\ prefix khOperatorToken_DECREMENT = node khAstUnaryExpressionType_NOT
    /\ prefix khOperatorToken_ADD = node khAstUnaryExpressionType_NOT
    /\ prefix khOperatorToken_NOT = node khAstUnaryExpressionType_NOT
    /\ postfix khOperatorToken_INCREMENT
       = node khAstUnaryExpressionType_POST_INCREMENT
    /\ postfix khOperatorToken_DECREMENT
       = node khAstUnaryExpressionType_POST_INCREMENT.
Proof.
  intro x. repeat split; reflexivity.
Qed.

(** C10.  A newline after [return] does not end the statement: the
    token after the keyword is fetched with newlines ignored, so
    [return], newline, [x] returns the value [x], and [return],
    newline, closing curly bracket parses the bracket as a value, with
    a diagnostic.  A semicolon or the end of the input after [return]
    does give the empty [RETURN], without a diagnostic. *)
Theorem sparseReturn_newline :
  forall x : khstring,
    kh_parseAst 8
      (start [khTokenType_KEYWORD khKeywordToken_RETURN; khTokenType_NEWLINE;
              khTokenType_IDENTIFIER x])
    = Some (khAstType_RETURN [khAstExpressionType_IDENTIFIER x], start [])
    /\ kh_parseAst 8
         (start [khTokenType_KEYWORD khKeywordToken_RETURN;
                 khTokenType_NEWLINE;
                 khTokenType_DELIMITER khDelimiterToken_CURLY_BRACKET_CLOSE])
       = Some (khAstType_RETURN [khAstExpressionType_INVALID],
               {| cursor := [];
                  errors := ["unexpected token in an expression"%string] |})
    /\ kh_parseAst 8
         (start [khTokenType_KEYWORD khKeywordToken_RETURN;
                 khTokenType_DELIMITER khDelimiterToken_SEMICOLON;
                 khTokenType_IDENTIFIER x])
       = Some (khAstType_RETURN [], start [khTokenType_IDENTIFIER x])
    /\ kh_parseAst 8 (start [khTokenType_KEYWORD khKeywordToken_RETURN])
       = Some (khAstType_RETURN [], start []).
Proof.
  intro x. repeat split; reflexivity.
Qed.

Local Open Scope string_scope.
Local Open Scope list_scope.

(** *** Peeking and skipping *)

Lemma currentToken_from_shape rest ignore_newline :
  let '(token, c) := currentToken_from rest ignore_newline in
  passed_over ignore_newline token = false
  /\ ((token = khTokenType_EOF /\ c = [])
      \/ exists c', c = token :: c')
  /\ exists passed,
       rest = passed ++ c
       /\ forallb (passed_over ignore_newline) passed = true.
Proof.
  induction rest as [|token rest IH]; simpl.
  - split; [reflexivity|]. split; [now left|]. now exists [].
  - destruct (is_COMMENT token || is_NEWLINE token && ignore_newline)
      eqn:E.
    + destruct (currentToken_from rest ignore_newline) as [token' c].
      destruct IH as [H1 [H2 [passed [-> H3]]]].
      split; [exact H1|]. split; [exact H2|].
      exists (token :: passed). split; [reflexivity|].
      simpl. unfold passed_over at 1. now rewrite E.
    + split; [exact E|]. split; [right; now exists rest|].
      now exists [].
Qed.

(** What the parser sees of the tokens.  [currentToken] returns the
    first token that is not a comment (nor a newline, when newlines
    are ignored), or [EOF] when there is none; it leaves the cursor on
    that token, having passed only comments and newlines, and leaves
    the diagnostics alone; calling it again changes nothing; and
    [skipToken] from where it left the cursor is [skipToken] from
    where it found it. *)
Theorem currentToken_skips :
  forall ignore_newline s,
  exists token s',
    currentToken ignore_newline s = Some (token, s')
    /\ passed_over ignore_newline token = false
    /\ ((token = khTokenType_EOF /\ cursor s' = [])
        \/ exists rest, cursor s' = token :: rest)
    /\ (exists passed,
           cursor s = passed ++ cursor s'
           /\ forallb (passed_over ignore_newline) passed = true)
    /\ errors s' = errors s
    /\ currentToken ignore_newline s' = Some (token, s')
    /\ skipToken ignore_newline s' = skipToken ignore_newline s.
Proof.
  intros ig [c e]. unfold currentToken, skipToken. cbn [cursor errors].
  pose proof (currentToken_from_shape c ig) as Hshape.
  pose proof (currentToken_from_idempotent c ig) as Hagain.
  destruct (currentToken_from c ig) as [token c'] eqn:E.
  cbn [snd] in Hagain. destruct Hshape as [H1 [H2 H3]].
  exists token, {| cursor := c'; errors := e |}. cbn [cursor errors].
  rewrite Hagain. repeat split; assumption.
Qed.

(** *** The loop of [kh_parse] *)

Lemma currentToken_from_passed passed rest ignore_newline :
  forallb (passed_over ignore_newline) passed = true ->
  currentToken_from (passed ++ rest) ignore_newline
  = currentToken_from rest ignore_newline.
Proof.
  induction passed as [|token passed IH]; intro H; [reflexivity|].
  simpl in H. apply andb_prop in H. destruct H as [H1 H2].
  unfold passed_over in H1. cbn [app currentToken_from]. rewrite H1.
  now apply IH.
Qed.

(** A source of comments and newlines only parses to no statement and
    no diagnostic, whatever the fuel. *)
Theorem kh_parse_blank :
  forall fuel tokens,
    forallb (passed_over true) tokens = true ->
    kh_parse fuel tokens = Some ([], []).
Proof.
  intros fuel tokens H. unfold kh_parse.
  assert (Hend : isEnd tokens = true).
  { unfold isEnd. rewrite <- (app_nil_r tokens).
    now rewrite currentToken_from_passed. }
  destruct fuel; cbn [kh_parse_loop]; run; now rewrite Hend.
Qed.

Lemma kh_parse_blank_witness :
  kh_parse 0 [khTokenType_NEWLINE; khTokenType_COMMENT; khTokenType_NEWLINE]
  = Some ([], []).
Proof.
  apply (kh_parse_blank 0
           [khTokenType_NEWLINE; khTokenType_COMMENT; khTokenType_NEWLINE]).
  reflexivity.
Defined.

Lemma kh_parseAst_stuck fuel keyword message passed rest e :
  In (keyword, message) stuck_keywords ->
  forallb (passed_over true) passed = true ->
  kh_parseAst (S fuel)
    {| cursor := passed ++ khTokenType_KEYWORD keyword :: rest; errors := e |}
  = Some (khAstType_INVALID,
          {| cursor := khTokenType_KEYWORD keyword :: rest;
             errors := e ++ [message] |}).
Proof.
  intros Hkeyword Hpassed. cbn [kh_parseAst]. unfold sparseStatement. run.
  rewrite (currentToken_from_passed _ _ _ Hpassed).
  simpl in Hkeyword.
  destruct Hkeyword as [[= <- <-]|[[= <- <-]|[[= <- <-]|[]]]]; reflexivity.
Qed.

Lemma kh_parse_loop_stuck fuel keyword message rest :
  In (keyword, message) stuck_keywords ->
  forall k asts e,
    kh_parse_loop (S fuel) k asts
      {| cursor := khTokenType_KEYWORD keyword :: rest; errors := e |}
    = None.
Proof.
  intros Hkeyword.
  induction k as [|k IH]; intros asts e; cbn [kh_parse_loop]; run;
    unfold isEnd; cbn [currentToken_from is_COMMENT is_NEWLINE is_EOF orb
                       andb fst]; [reflexivity|].
  pose proof (kh_parseAst_stuck fuel keyword message [] rest e Hkeyword
                eq_refl) as Hstuck.
  cbn [app] in Hstuck. rewrite Hstuck. apply IH.
Qed.

(** [kh_parse] never returns on a source that reaches [as], [elif] or
    [else] where a statement starts.  There [kh_parseAst] returns the
    [INVALID] statement with a diagnostic and leaves the cursor on the
    keyword, so the loop of [kh_parse], which runs until the end of
    the input, meets the keyword again on every round: whatever the
    fuel, the run is still going when it is spent. *)
Theorem kh_parse_stuck :
  forall keyword message passed rest,
    In (keyword, message) stuck_keywords ->
    forallb (passed_over true) passed = true ->
    (forall fuel e,
        kh_parseAst (S fuel)
          {| cursor := passed ++ khTokenType_KEYWORD keyword :: rest;
             errors := e |}
        = Some (khAstType_INVALID,
                {| cursor := khTokenType_KEYWORD keyword :: rest;
                   errors := e ++ [message] |}))
    /\ (forall fuel,
           kh_parse fuel (passed ++ khTokenType_KEYWORD keyword :: rest)
           = None).
Proof.
  intros keyword message passed rest Hkeyword Hpassed. split.
  - intros fuel e. now apply kh_parseAst_stuck.
  - intros [|fuel]; unfold kh_parse.
    + cbn [kh_parse_loop]. run. unfold isEnd.
      rewrite (currentToken_from_passed _ _ _ Hpassed).
      assert (E : is_EOF
                    (fst (currentToken_from
                            (khTokenType_KEYWORD keyword :: rest) true))
                  = false) by reflexivity.
      now rewrite E.
    + cbn [kh_parse_loop]. run. unfold isEnd.
      rewrite (currentToken_from_passed _ _ _ Hpassed).
      assert (E : is_EOF
                    (fst (currentToken_from
                            (khTokenType_KEYWORD keyword :: rest) true))
                  = false) by reflexivity.
      rewrite E.
      rewrite (kh_parseAst_stuck fuel keyword message passed rest []
                 Hkeyword Hpassed).
      now rewrite (kh_parse_loop_stuck fuel keyword message rest Hkeyword).
Qed.

(** A stray [else] on the second line of a source. *)
Lemma kh_parse_stuck_witness :
  (forall fuel e,
      kh_parseAst (S fuel)
        {| cursor :=
             [khTokenType_NEWLINE]
             ++ khTokenType_KEYWORD khKeywordToken_ELSE
                :: [khTokenType_IDENTIFIER (codes "x")];
           errors := e |}
      = Some (khAstType_INVALID,
              {| cursor :=
                   khTokenType_KEYWORD khKeywordToken_ELSE
                   :: [khTokenType_IDENTIFIER (codes "x")];
                 errors :=
                   e ++ ["no following if statement to have an else statement"]
              |}))
  /\ (forall fuel,
         kh_parse fuel
           ([khTokenType_NEWLINE]
            ++ khTokenType_KEYWORD khKeywordToken_ELSE
               :: [khTokenType_IDENTIFIER (codes "x")])
         = None).
Proof.
  apply (kh_parse_stuck khKeywordToken_ELSE
           "no following if statement to have an else statement"
           [khTokenType_NEWLINE] [khTokenType_IDENTIFIER (codes "x")]).
  - simpl. tauto.
  - reflexivity.
Defined.

(** *** [break] and [continue] *)

(** How a [break] or [continue] statement ends.  The token after the
    keyword is fetched with newlines ignored, so a newline never ends
    the statement: what decides is the first token behind the newlines
    and comments.  At the end of the input or on a semicolon, that
    token is passed without a diagnostic; a closing curly bracket is
    left in place without a diagnostic; on any other token, such as
    the first token of a statement on the next line, the diagnostic
    [expecting a newline or a semicolon] is raised and the token is
    left in place. *)
Theorem sparseBreak_end :
  forall fuel keyword statement rest token c e,
    In (keyword, statement)
      [ (khKeywordToken_BREAK, khAstType_BREAK);
        (khKeywordToken_CONTINUE, khAstType_CONTINUE) ] ->
    currentToken_from rest true = (token, c) ->
    kh_parseAst (S fuel)
      {| cursor := khTokenType_KEYWORD keyword :: rest; errors := e |}
    = Some (statement,
            if is_EOF token || is_delimiter token khDelimiterToken_SEMICOLON
            then {| cursor := tl c; errors := e |}
            else if is_delimiter token khDelimiterToken_CURLY_BRACKET_CLOSE
            then {| cursor := c; errors := e |}
            else {| cursor := c;
                    errors := e ++ ["expecting a newline or a semicolon"] |}).
Proof.
  intros fuel keyword statement rest token c e Hkeyword Htoken.
  pose proof (currentToken_from_shape rest true) as Hshape.
  pose proof (currentToken_from_idempotent rest true) as Hagain.
  rewrite Htoken in Hshape, Hagain. cbn [snd] in Hagain.
  destruct Hshape as [Hpassed [Hcursor _]].
  assert (Hnewline : is_NEWLINE token = false).
  { unfold passed_over in Hpassed. apply orb_false_iff in Hpassed.
    destruct Hpassed as [_ H]. now rewrite andb_true_r in H. }
  assert (Hcomment : is_COMMENT token = false).
  { unfold passed_over in Hpassed. apply orb_false_iff in Hpassed.
    now destruct Hpassed. }
  assert (Hskip : currentToken_from c false = (token, c)).
  { destruct Hcursor as [[-> ->]|[c' ->]]; [reflexivity|].
    cbn [currentToken_from]. now rewrite Hcomment, Hnewline. }
  simpl in Hkeyword.
  destruct Hkeyword as [[= <- <-]|[[= <- <-]|[]]];
    cbn [kh_parseAst]; unfold sparseStatement; run;
    [unfold sparseBreak | unfold sparseContinue]; run;
    rewrite Htoken; run;
    unfold statement_end, ends_statement; rewrite Hnewline; cbn [orb];
    destruct (is_EOF token || is_delimiter token khDelimiterToken_SEMICOLON);
    run; try (rewrite Hskip; reflexivity);
    destruct (is_delimiter token khDelimiterToken_CURLY_BRACKET_CLOSE);
    run; reflexivity.
Qed.

(** [break], a newline, and a statement on the next line: the newline
    does not end the [break], and the diagnostic is raised. *)
Lemma sparseBreak_end_witness :
  kh_parseAst 1
    (start [khTokenType_KEYWORD khKeywordToken_BREAK; khTokenType_NEWLINE;
            khTokenType_IDENTIFIER (codes "x")])
  = Some (khAstType_BREAK,
          {| cursor := [khTokenType_IDENTIFIER (codes "x")];
             errors := ["expecting a newline or a semicolon"] |}).
Proof.
  apply (sparseBreak_end 0 khKeywordToken_BREAK khAstType_BREAK
           [khTokenType_NEWLINE; khTokenType_IDENTIFIER (codes "x")]
           (khTokenType_IDENTIFIER (codes "x"))
           [khTokenType_IDENTIFIER (codes "x")] []).
  - simpl. tauto.
  - reflexivity.
Defined.

Local Open Scope nat_scope.

(** *** Chains of binary operators *)

Lemma RCD_BINARY_loop_chain LOWER cases ig :
  forall links types k rest left e e',
    List.length links <= k ->
    chain_read (LOWER ig false) links rest e e' ->
    chain_types cases links types ->
    chain_end cases (fst (currentToken_from rest ig)) ->
    RCD_BINARY_loop LOWER cases k ig false
      (fst (currentToken_from (chain_tokens links ++ rest) ig)) left
      {| cursor := snd (currentToken_from (chain_tokens links ++ rest) ig);
         errors := e |}
    = Some (fold_left
              (fun acc step =>
                 khAstExpressionType_BINARY (fst step) acc (snd step))
              (combine types (map snd links)) left,
            {| cursor := snd (currentToken_from rest ig); errors := e' |}).
Proof.
  induction links as [|[[operator_v tokens] operand] links IH];
    intros types k rest left e e' Hk Hread Htypes Hend.
  - cbn [chain_tokens app chain_read] in *. subst e'.
    destruct types; [|discriminate]. cbn [combine map fold_left].
    destruct (currentToken_from rest ig) as [token c]. cbn [fst snd] in *.
    destruct k; destruct token; try reflexivity;
      cbn [RCD_BINARY_loop chain_end] in *; now rewrite Hend.
  - destruct types as [|type types]; [discriminate|].
    injection Htypes as Htype Htypes.
    destruct Hread as [e1 [Hoperand Hread]].
    destruct k as [|k]; [simpl in Hk; lia|].
    cbn [chain_tokens app]. rewrite <- app_assoc.
    cbn [currentToken_from is_COMMENT is_NEWLINE andb orb
         fst snd RCD_BINARY_loop].
    cbn [fst] in Htype. rewrite Htype.
    run. rewrite Hoperand. run.
    specialize (IH types k rest
                  (khAstExpressionType_BINARY type left operand) e1 e'
                  ltac:(simpl in Hk; lia) Hread Htypes Hend).
    destruct (currentToken_from (chain_tokens links ++ rest) ig)
      as [token c]. cbn [fst snd] in IH.
    exact IH.
Qed.

(** Every binary level folds its chain to the left, whatever its
    length.  [binary_level] is the frame of [exparsePow],
    [exparseMulDivMod], [exparseAddSub], [exparseBitwiseShifts],
    [exparseBitwiseAnd], [exparseBitwiseXor], [exparseBitwiseOr],
    [exparseLogicalAnd], [exparseLogicalXor], [exparseLogicalOr] and
    [exparseInplaceOperators], each with its operand parser [LOWER] and
    its operators [cases].  When [LOWER] reads the first operand [x0]
    and then the operand of each link of a chain of operators of the
    level, and what follows does not go on with the chain, the level
    returns the operands folded from the left into [BINARY] nodes:
    BINARY(.. BINARY(BINARY(x0, x1), x2) .., xk). *)
Theorem binary_level_left_fold :
  forall n LOWER cases ignore_newline first x0 links types rest token e0 e1
         e2,
    List.length links <= n ->
    currentToken_from (first ++ chain_tokens links ++ rest) ignore_newline
    = (token, first ++ chain_tokens links ++ rest) ->
    LOWER ignore_newline false
      {| cursor := first ++ chain_tokens links ++ rest; errors := e0 |}
    = Some (x0, {| cursor := chain_tokens links ++ rest; errors := e1 |}) ->
    chain_read (LOWER ignore_newline false) links rest e1 e2 ->
    chain_types cases links types ->
    chain_end cases (fst (currentToken_from rest ignore_newline)) ->
    binary_level n LOWER cases ignore_newline false
      {| cursor := first ++ chain_tokens links ++ rest; errors := e0 |}
    = Some (fold_left
              (fun acc step =>
                 khAstExpressionType_BINARY (fst step) acc (snd step))
              (combine types (map snd links)) x0,
            {| cursor := snd (currentToken_from rest ignore_newline);
               errors := e2 |}).
Proof.
  intros n LOWER cases ig first x0 links types rest token e0 e1 e2 Hn Hfirst
    Hx0 Hread Htypes Hend.
  unfold binary_level. run. rewrite Hfirst. run. rewrite Hx0. run.
  pose proof (RCD_BINARY_loop_chain LOWER cases ig links types n rest x0 e1
                e2 Hn Hread Htypes Hend) as Hloop.
  destruct (currentToken_from (chain_tokens links ++ rest) ig) as [t c].
  exact Hloop.
Qed.

(** [a - b * c + d] at the level of [exparseAddSub], whose operands
    are read by [exparseMulDivMod], and [a = b = c] at the level of
    [exparseInplaceOperators]. *)
Lemma binary_level_left_fold_witness :
  (let a := khAstExpressionType_IDENTIFIER (codes "a") in
   let b := khAstExpressionType_IDENTIFIER (codes "b") in
   let c := khAstExpressionType_IDENTIFIER (codes "c") in
   let d := khAstExpressionType_IDENTIFIER (codes "d") in
   exparseAddSub (kh_parseExpression 2) (kh_parseAst 2) 4 false false
     (start [khTokenType_IDENTIFIER (codes "a");
             khTokenType_OPERATOR khOperatorToken_SUB;
             khTokenType_IDENTIFIER (codes "b");
             khTokenType_OPERATOR khOperatorToken_MUL;
             khTokenType_IDENTIFIER (codes "c");
             khTokenType_OPERATOR khOperatorToken_ADD;
             khTokenType_IDENTIFIER (codes "d")])
   = Some (khAstExpressionType_BINARY khAstBinaryExpressionType_ADD
             (khAstExpressionType_BINARY khAstBinaryExpressionType_SUB a
                (khAstExpressionType_BINARY khAstBinaryExpressionType_MUL
                   b c))
             d,
           start []))
  /\ (let a := khAstExpressionType_IDENTIFIER (codes "a") in
      let b := khAstExpressionType_IDENTIFIER (codes "b") in
      let c := khAstExpressionType_IDENTIFIER (codes "c") in
      kh_parseExpression 5 false false
        (start [khTokenType_IDENTIFIER (codes "a");
                khTokenType_OPERATOR khOperatorToken_ASSIGN;
                khTokenType_IDENTIFIER (codes "b");
                khTokenType_OPERATOR khOperatorToken_ASSIGN;
                khTokenType_IDENTIFIER (codes "c")])
      = Some (khAstExpressionType_BINARY khAstBinaryExpressionType_ASSIGN
                (khAstExpressionType_BINARY khAstBinaryExpressionType_ASSIGN
                   a b)
                c,
              start [])).
Proof.
  split; cbv zeta.
  - apply (binary_level_left_fold 4
             (exparseMulDivMod (kh_parseExpression 2) (kh_parseAst 2) 4)
             _ false [khTokenType_IDENTIFIER (codes "a")]
             (khAstExpressionType_IDENTIFIER (codes "a"))
             [ (khOperatorToken_SUB,
                [khTokenType_IDENTIFIER (codes "b");
                 khTokenType_OPERATOR khOperatorToken_MUL;
                 khTokenType_IDENTIFIER (codes "c")],
                khAstExpressionType_BINARY khAstBinaryExpressionType_MUL
                  (khAstExpressionType_IDENTIFIER (codes "b"))
                  (khAstExpressionType_IDENTIFIER (codes "c")));
               (khOperatorToken_ADD, [khTokenType_IDENTIFIER (codes "d")],
                khAstExpressionType_IDENTIFIER (codes "d")) ]
             [khAstBinaryExpressionType_SUB; khAstBinaryExpressionType_ADD]
             [] (khTokenType_IDENTIFIER (codes "a")) [] [] []).
    + simpl. lia.
    + reflexivity.
    + reflexivity.
    + exists []. split; [reflexivity|].
      exists []. split; reflexivity.
    + reflexivity.
    + exact I.
  - apply (binary_level_left_fold 4
             (exparseTernary (kh_parseExpression 4) (kh_parseAst 4) 4)
             _ false [khTokenType_IDENTIFIER (codes "a")]
             (khAstExpressionType_IDENTIFIER (codes "a"))
             [ (khOperatorToken_ASSIGN, [khTokenType_IDENTIFIER (codes "b")],
                khAstExpressionType_IDENTIFIER (codes "b"));
               (khOperatorToken_ASSIGN, [khTokenType_IDENTIFIER (codes "c")],
                khAstExpressionType_IDENTIFIER (codes "c")) ]
             [khAstBinaryExpressionType_ASSIGN;
              khAstBinaryExpressionType_ASSIGN]
             [] (khTokenType_IDENTIFIER (codes "a")) [] [] []).
    + simpl. lia.
    + reflexivity.
    + reflexivity.
    + exists []. split; [reflexivity|].
      exists []. split; reflexivity.
    + reflexivity.
    + exact I.
Defined.

(** *** Chains of comparisons *)

Lemma exparseComparisonOperators_loop_chain pe ps n ig :
  forall links types k rest operations operands e e',
    List.length links <= k ->
    chain_read (exparseBitwiseOr pe ps n ig false) links rest e e' ->
    chain_types comparison_of links types ->
    chain_end comparison_of (fst (currentToken_from rest ig)) ->
    exparseComparisonOperators_loop pe ps n k ig false
      (fst (currentToken_from (chain_tokens links ++ rest) ig))
      operations operands
      {| cursor := snd (currentToken_from (chain_tokens links ++ rest) ig);
         errors := e |}
    = Some (khAstExpressionType_COMPARISON (operations ++ types)
              (operands ++ map snd links),
            {| cursor := snd (currentToken_from rest ig); errors := e' |}).
Proof.
  induction links as [|[[operator_v tokens] operand] links IH];
    intros types k rest operations operands e e' Hk Hread Htypes Hend.
  - cbn [chain_tokens app chain_read] in *. subst e'.
    destruct types; [|discriminate]. cbn [map]. rewrite !app_nil_r.
    destruct (currentToken_from rest ig) as [token c]. cbn [fst snd] in *.
    destruct k; destruct token; try reflexivity;
      cbn [exparseComparisonOperators_loop chain_end] in *; now rewrite Hend.
  - destruct types as [|type types]; [discriminate|].
    injection Htypes as Htype Htypes.
    destruct Hread as [e1 [Hoperand Hread]].
    destruct k as [|k]; [simpl in Hk; lia|].
    cbn [chain_tokens app]. rewrite <- app_assoc.
    cbn [currentToken_from is_COMMENT is_NEWLINE andb orb
         fst snd exparseComparisonOperators_loop].
    cbn [fst] in Htype. rewrite Htype.
    run. rewrite Hoperand. run.
    specialize (IH types k rest (operations ++ [type])
                  (operands ++ [operand]) e1 e'
                  ltac:(simpl in Hk; lia) Hread Htypes Hend).
    destruct (currentToken_from (chain_tokens links ++ rest) ig)
      as [token c]. cbn [fst snd] in IH.
    rewrite IH. cbn [map snd]. now rewrite <- !app_assoc.
Qed.

Lemma comparison_of_is_comparison_token operator_v type :
  comparison_of operator_v = Some type ->
  is_comparison (khTokenType_OPERATOR operator_v) = true.
Proof. destruct operator_v; intro H; first [discriminate H | reflexivity]. Qed.

(** A chain of comparisons of any length parses to one [COMPARISON]
    node.  When [exparseBitwiseOr] reads the first operand [x0] and
    then the operand of each link of a chain of one or more comparison
    operators, and what follows is not a comparison operator,
    [exparseComparisonOperators] returns the single node that holds
    the operations of the chain in their order and [x0] followed by
    the operands of the links. *)
Theorem exparseComparisonOperators_chain :
  forall pe ps n ignore_newline first x0 links types rest token e0 e1 e2,
    links <> [] ->
    List.length links <= n ->
    currentToken_from (first ++ chain_tokens links ++ rest) ignore_newline
    = (token, first ++ chain_tokens links ++ rest) ->
    exparseBitwiseOr pe ps n ignore_newline false
      {| cursor := first ++ chain_tokens links ++ rest; errors := e0 |}
    = Some (x0, {| cursor := chain_tokens links ++ rest; errors := e1 |}) ->
    chain_read (exparseBitwiseOr pe ps n ignore_newline false) links rest e1
      e2 ->
    chain_types comparison_of links types ->
    chain_end comparison_of (fst (currentToken_from rest ignore_newline)) ->
    exparseComparisonOperators pe ps n ignore_newline false
      {| cursor := first ++ chain_tokens links ++ rest; errors := e0 |}
    = Some (khAstExpressionType_COMPARISON types (x0 :: map snd links),
            {| cursor := snd (currentToken_from rest ignore_newline);
               errors := e2 |}).
Proof.
  intros pe ps n ig first x0 links types rest token e0 e1 e2 Hsome Hn Hfirst
    Hx0 Hread Htypes Hend.
  unfold exparseComparisonOperators. run. rewrite Hfirst. run.
  rewrite Hx0. run.
  pose proof (exparseComparisonOperators_loop_chain pe ps n ig links types n
                rest [] [x0] e1 e2 Hn Hread Htypes Hend) as Hloop.
  destruct links as [|[[operator_v tokens] operand] links]; [contradiction|].
  destruct types as [|type types]; [discriminate|].
  injection Htypes as Htype _. cbn [fst] in Htype.
  cbn [chain_tokens app currentToken_from is_COMMENT is_NEWLINE andb orb
       fst snd] in *.
  rewrite (comparison_of_is_comparison_token _ _ Htype).
  exact Hloop.
Qed.

(** [a == b < c + d >= e], a chain of three comparisons. *)
Lemma exparseComparisonOperators_chain_witness :
  let a := khAstExpressionType_IDENTIFIER (codes "a") in
  let b := khAstExpressionType_IDENTIFIER (codes "b") in
  let c := khAstExpressionType_IDENTIFIER (codes "c") in
  let d := khAstExpressionType_IDENTIFIER (codes "d") in
  let e := khAstExpressionType_IDENTIFIER (codes "e") in
  exparseComparisonOperators (kh_parseExpression 2) (kh_parseAst 2) 4 false
    false
    (start [khTokenType_IDENTIFIER (codes "a");
            khTokenType_OPERATOR khOperatorToken_EQUAL;
            khTokenType_IDENTIFIER (codes "b");
            khTokenType_OPERATOR khOperatorToken_LESS;
            khTokenType_IDENTIFIER (codes "c");
            khTokenType_OPERATOR khOperatorToken_ADD;
            khTokenType_IDENTIFIER (codes "d");
            khTokenType_OPERATOR khOperatorToken_EMORE;
            khTokenType_IDENTIFIER (codes "e")])
  = Some (khAstExpressionType_COMPARISON
            [khAstComparisonExpressionType_EQUAL;
             khAstComparisonExpressionType_LESS;
             khAstComparisonExpressionType_EMORE]
            [a; b;
             khAstExpressionType_BINARY khAstBinaryExpressionType_ADD c d;
             e],
          start []).
Proof.
  cbv zeta.
  apply (exparseComparisonOperators_chain
           (kh_parseExpression 2) (kh_parseAst 2) 4 false
           [khTokenType_IDENTIFIER (codes "a")]
           (khAstExpressionType_IDENTIFIER (codes "a"))
           [ (khOperatorToken_EQUAL, [khTokenType_IDENTIFIER (codes "b")],
              khAstExpressionType_IDENTIFIER (codes "b"));
             (khOperatorToken_LESS,
              [khTokenType_IDENTIFIER (codes "c");
               khTokenType_OPERATOR khOperatorToken_ADD;
               khTokenType_IDENTIFIER (codes "d")],
              khAstExpressionType_BINARY khAstBinaryExpressionType_ADD
                (khAstExpressionType_IDENTIFIER (codes "c"))
                (khAstExpressionType_IDENTIFIER (codes "d")));
             (khOperatorToken_EMORE, [khTokenType_IDENTIFIER (codes "e")],
              khAstExpressionType_IDENTIFIER (codes "e")) ]
           [khAstComparisonExpressionType_EQUAL;
            khAstComparisonExpressionType_LESS;
            khAstComparisonExpressionType_EMORE]
           [] (khTokenType_IDENTIFIER (codes "a")) [] [] []).
  - discriminate.
  - simpl. lia.
  - reflexivity.
  - reflexivity.
  - exists []. split; [reflexivity|].
    exists []. split; [reflexivity|].
    exists []. split; reflexivity.
  - reflexivity.
  - exact I.
Defined.

(** *** Precedence *)

(** The precedence of the binary operators.  For all names [a], [b],
    [c] and all binary operators [o1] of a looser level than [o2]:
    [a o1 b o2 c] parses to BINARY(o1, a, BINARY(o2, b, c)) and
    [a o2 b o1 c] to BINARY(o1, BINARY(o2, a, b), c). *)
Theorem binary_operator_precedence :
  forall (a b c : khstring) o1 o2 level1 type1 level2 type2,
    binary_precedence o1 = Some (level1, type1) ->
    binary_precedence o2 = Some (level2, type2) ->
    level1 < level2 ->
    kh_parseExpression 4 false false
      (start [khTokenType_IDENTIFIER a; khTokenType_OPERATOR o1;
              khTokenType_IDENTIFIER b; khTokenType_OPERATOR o2;
              khTokenType_IDENTIFIER c])
    = Some (khAstExpressionType_BINARY type1
              (khAstExpressionType_IDENTIFIER a)
              (khAstExpressionType_BINARY type2
                 (khAstExpressionType_IDENTIFIER b)
                 (khAstExpressionType_IDENTIFIER c)),
            start [])
    /\ kh_parseExpression 4 false false
         (start [khTokenType_IDENTIFIER a; khTokenType_OPERATOR o2;
                 khTokenType_IDENTIFIER b; khTokenType_OPERATOR o1;
                 khTokenType_IDENTIFIER c])
       = Some (khAstExpressionType_BINARY type1
                 (khAstExpressionType_BINARY type2
                    (khAstExpressionType_IDENTIFIER a)
                    (khAstExpressionType_IDENTIFIER b))
                 (khAstExpressionType_IDENTIFIER c),
               start []).
Proof.
  intros a b c o1 o2 level1 type1 level2 type2 H1 H2 Hlevel.
  destruct o1; try discriminate H1; injection H1 as <- <-;
    destruct o2; try discriminate H2; injection H2 as <- <-;
    try (exfalso; lia); clear Hlevel;
    (split; vm_compute; reflexivity).
Qed.

(** [a + b * c] and [a * b + c]. *)
Lemma binary_operator_precedence_witness :
  kh_parseExpression 4 false false
    (start [khTokenType_IDENTIFIER (codes "a");
            khTokenType_OPERATOR khOperatorToken_ADD;
            khTokenType_IDENTIFIER (codes "b");
            khTokenType_OPERATOR khOperatorToken_MUL;
            khTokenType_IDENTIFIER (codes "c")])
  = Some (khAstExpressionType_BINARY khAstBinaryExpressionType_ADD
            (khAstExpressionType_IDENTIFIER (codes "a"))
            (khAstExpressionType_BINARY khAstBinaryExpressionType_MUL
               (khAstExpressionType_IDENTIFIER (codes "b"))
               (khAstExpressionType_IDENTIFIER (codes "c"))),
          start [])
  /\ kh_parseExpression 4 false false
       (start [khTokenType_IDENTIFIER (codes "a");
               khTokenType_OPERATOR khOperatorToken_MUL;
               khTokenType_IDENTIFIER (codes "b");
               khTokenType_OPERATOR khOperatorToken_ADD;
               khTokenType_IDENTIFIER (codes "c")])
     = Some (khAstExpressionType_BINARY khAstBinaryExpressionType_ADD
               (khAstExpressionType_BINARY khAstBinaryExpressionType_MUL
                  (khAstExpressionType_IDENTIFIER (codes "a"))
                  (khAstExpressionType_IDENTIFIER (codes "b")))
               (khAstExpressionType_IDENTIFIER (codes "c")),
             start []).
Proof.
  apply (binary_operator_precedence (codes "a") (codes "b") (codes "c")
           khOperatorToken_ADD khOperatorToken_MUL
           8 khAstBinaryExpressionType_ADD 9 khAstBinaryExpressionType_MUL).
  - reflexivity.
  - reflexivity.
  - lia.
Defined.

(** *** The cursor never moves back *)

Lemma extends_refl e : extends e e.
Proof. exists []. now rewrite app_nil_r. Qed.

Lemma extends_trans e1 e2 e3 : extends e1 e2 -> extends e2 e3 -> extends e1 e3.
Proof.
  intros [n1 ->] [n2 ->]. exists (n1 ++ n2). now rewrite app_assoc.
Qed.

Lemma extends_snoc e message : extends e (e ++ [message]).
Proof. now exists [message]. Qed.

Lemma extends_snoc_trans e e' message :
  extends e e' -> extends e (e' ++ [message]).
Proof. intro H. eapply extends_trans; [exact H | apply extends_snoc]. Qed.

Lemma moved_on_refl c : moved_on c c.
Proof. now exists []. Qed.

Lemma moved_on_trans c1 c2 c3 :
  moved_on c1 c2 -> moved_on c2 c3 -> moved_on c1 c3.
Proof.
  intros [p1 ->] [p2 ->]. exists (p1 ++ p2). now rewrite app_assoc.
Qed.

Lemma moved_on_tl c : moved_on c (tl c).
Proof. destruct c as [|token c]; [now exists [] | now exists [token]]. Qed.

Lemma moved_on_length c c' :
  moved_on c c' -> List.length c' <= List.length c.
Proof. intros [passed ->]. rewrite length_app. lia. Qed.

Lemma currentToken_from_moved_on rest ignore_newline :
  moved_on rest (snd (currentToken_from rest ignore_newline)).
Proof.
  pose proof (currentToken_from_shape rest ignore_newline) as Hshape.
  destruct (currentToken_from rest ignore_newline) as [token c].
  destruct Hshape as (_ & _ & passed & -> & _). now exists passed.
Qed.

Lemma currentToken_from_length rest ignore_newline :
  List.length (snd (currentToken_from rest ignore_newline))
  <= List.length rest.
Proof.
  induction rest as [|token rest IH]; simpl; [lia|].
  destruct (is_COMMENT token || is_NEWLINE token && ignore_newline);
    simpl; lia.
Qed.

Lemma steady_ret {A} (a : A) : steady (ret a).
Proof.
  intros s a' s' [= _ <-]. split; [apply moved_on_refl | apply extends_refl].
Qed.

Lemma steady_bind {A B} (m : M A) (k : A -> M B) :
  steady m -> (forall a, steady (k a)) -> steady (bind m k).
Proof.
  intros Hm Hk s b s' H. unfold bind in H.
  destruct (m s) as [[a s1]|] eqn:E; [|discriminate].
  apply Hm in E. apply Hk in H. destruct E, H.
  split; [eapply moved_on_trans | eapply extends_trans]; eassumption.
Qed.

Lemma steady_raiseError message : steady (raiseError message).
Proof.
  intros s a s' [= _ <-]. simpl.
  split; [apply moved_on_refl | apply extends_snoc].
Qed.

Lemma steady_raiseError_if cond message :
  steady (raiseError_if cond message).
Proof.
  unfold raiseError_if. destruct cond;
    [apply steady_raiseError | apply steady_ret].
Qed.

Lemma steady_out_of_budget {A} : steady (@out_of_budget A).
Proof. intros s a s' H. discriminate H. Qed.

Lemma steady_get_cursor : steady get_cursor.
Proof.
  intros s a s' [= _ <-]. split; [apply moved_on_refl | apply extends_refl].
Qed.

Lemma steady_currentToken ig : steady (currentToken ig).
Proof.
  intros [c e] token s'. unfold currentToken. cbn [cursor errors].
  pose proof (currentToken_from_moved_on c ig) as H.
  destruct (currentToken_from c ig) as [t c']. intros [= _ <-].
  split; [exact H | apply extends_refl].
Qed.

Lemma skipToken_length ig s u s' :
  skipToken ig s = Some (u, s') ->
  List.length (cursor s') <= List.length (cursor s) - 1
  /\ errors s' = errors s.
Proof.
  unfold skipToken. destruct s as [c e]. cbn [cursor errors].
  pose proof (currentToken_from_length c ig) as Hlength.
  destruct (currentToken_from c ig) as [t c'].
  cbn [snd] in *. intros [= <- <-]. cbn [cursor errors].
  split; [|reflexivity].
  destruct c' as [|t' c']; simpl in *; lia.
Qed.

Lemma steady_skipToken ig : steady (skipToken ig).
Proof.
  intros [c e] u s'. unfold skipToken. cbn [cursor errors].
  pose proof (currentToken_from_moved_on c ig) as H.
  destruct (currentToken_from c ig) as [t c']. intros [= _ <-].
  cbn [cursor errors snd] in *.
  split; [|apply extends_refl].
  eapply moved_on_trans; [exact H | apply moved_on_tl].
Qed.

Create HintDb kh_steady discriminated.
#[local] Hint Resolve steady_ret steady_raiseError steady_raiseError_if
  steady_out_of_budget steady_get_cursor steady_currentToken
  steady_skipToken : kh_steady.

(* [steady] by the structure of the body. *)
Ltac solve_steady :=
  repeat first
    [ solve [eauto 2 with kh_steady]
    | match goal with
      | |- steady (bind _ _) => simple apply steady_bind; [| intro]
      | |- steady (if ?c then _ else _) => destruct c
      | |- steady (match ?x with _ => _ end) => destruct x
      end ].

Ltac run_step :=
  match goal with
  | H : None = Some _ |- _ => discriminate H
  | H : Some _ = Some _ |- _ => injection H as H; subst
  | H : (_, _) = (_, _) |- _ => injection H; clear H; intros; subst
  | H : (let '(_, _) := ?p in _) = Some _ |- _ => destruct p eqn:?
  | H : match ?x with _ => _ end = Some _ |- _ => destruct x eqn:?
  | H : match ?x with _ => _ end ?s = Some _ |- _ => destruct x eqn:?
  end.

(* A body that saves the cursor and restores it: its runs one by one. *)
Ltac steady_fact :=
  match goal with
  | E : ?m ?s = Some (?a, ?s') |- _ =>
      let F := fresh "F" in
      assert (F : steady m) by solve_steady;
      apply F in E
  end.

(* From one cursor to another along the runs of the context. *)
Ltac moved_on_chain k :=
  first
    [ apply moved_on_refl
    | assumption
    | lazymatch k with
      | O => fail
      | S ?k' =>
          match goal with
          | H : moved_on ?c ?c1 |- moved_on ?c _ =>
              apply (moved_on_trans _ _ _ H); moved_on_chain k'
          end
      end ].

Ltac steady_final :=
  repeat steady_fact; cbn [cursor errors] in *;
  repeat match goal with H : _ /\ _ |- _ => destruct H end;
  split;
    [ moved_on_chain 8
    | eauto 8 using extends_refl, extends_trans, extends_snoc_trans ].

Ltac steady_runs :=
  let s := fresh "s" in
  let a := fresh "a" in
  let s' := fresh "s'" in
  let H := fresh "H" in
  intros s a s' H; unfold_monad_in H; repeat run_step; steady_final.

Section Steady.

Variable pe : bool -> bool -> M khAstExpression.
Variable ps : M khAst.
Variable n : nat.

Hypothesis Hpe : forall ig ft, steady (pe ig ft).
Hypothesis Hps : steady ps.

Lemma sparseSpecifiers_loop_steady k :
  forall a1 a2 a3 a4 ig token b1 b2,
    steady (sparseSpecifiers_loop k a1 a2 a3 a4 ig token b1 b2).
Proof.
  induction k as [|k IH]; intros; cbn [sparseSpecifiers_loop]; solve_steady.
Qed.
#[local] Hint Resolve sparseSpecifiers_loop_steady : kh_steady.

Lemma sparseSpecifiers_steady a1 a2 a3 a4 ig :
  steady (sparseSpecifiers n a1 a2 a3 a4 ig).
Proof. unfold sparseSpecifiers. solve_steady. Qed.
#[local] Hint Resolve sparseSpecifiers_steady : kh_steady.

Lemma exparseList_loop_steady k :
  forall closing ft expressions,
    steady (exparseList_loop pe k closing ft expressions).
Proof.
  induction k as [|k IH]; intros; cbn [exparseList_loop]; solve_steady.
Qed.
#[local] Hint Resolve exparseList_loop_steady : kh_steady.

Lemma exparseList_steady opening closing ig ft :
  steady (exparseList pe n opening closing ig ft).
Proof. unfold exparseList. solve_steady. Qed.
#[local] Hint Resolve exparseList_steady : kh_steady.

Lemma exparseDict_loop_steady k :
  forall keys values, steady (exparseDict_loop pe k keys values).
Proof.
  induction k as [|k IH]; intros; cbn [exparseDict_loop]; solve_steady.
Qed.
#[local] Hint Resolve exparseDict_loop_steady : kh_steady.

Lemma exparseDict_steady ig : steady (exparseDict pe n ig).
Proof. unfold exparseDict. solve_steady. Qed.
#[local] Hint Resolve exparseDict_steady : kh_steady.

Lemma exparseVariableDeclaration_steady ig :
  steady (exparseVariableDeclaration pe n ig).
Proof. unfold exparseVariableDeclaration. solve_steady. Qed.
#[local] Hint Resolve exparseVariableDeclaration_steady : kh_steady.

Lemma exparseFunctionType_loop_steady k :
  forall token refs types,
    steady (exparseFunctionType_loop pe k token refs types).
Proof.
  induction k as [|k IH]; intros; cbn [exparseFunctionType_loop];
    solve_steady.
Qed.
#[local] Hint Resolve exparseFunctionType_loop_steady : kh_steady.

Lemma exparseFunctionType_steady ig : steady (exparseFunctionType pe n ig).
Proof. unfold exparseFunctionType. solve_steady. Qed.
#[local] Hint Resolve exparseFunctionType_steady : kh_steady.

Lemma sparseBlock_loop_steady k :
  forall token block, steady (sparseBlock_loop ps k token block).
Proof.
  induction k as [|k IH]; intros; cbn [sparseBlock_loop]; solve_steady.
Qed.
#[local] Hint Resolve sparseBlock_loop_steady : kh_steady.

Lemma sparseBlock_steady : steady (sparseBlock ps n).
Proof. unfold sparseBlock. solve_steady. Qed.
#[local] Hint Resolve sparseBlock_steady : kh_steady.

Lemma sparseFunctionOrLambda_arguments_steady k :
  forall token arguments,
    steady (sparseFunctionOrLambda_arguments pe n k token arguments).
Proof.
  induction k as [|k IH]; intros; cbn [sparseFunctionOrLambda_arguments];
    solve_steady.
Qed.
#[local] Hint Resolve sparseFunctionOrLambda_arguments_steady : kh_steady.

Lemma sparseFunctionOrLambda_steady : steady (sparseFunctionOrLambda pe ps n).
Proof. unfold sparseFunctionOrLambda. solve_steady. Qed.
#[local] Hint Resolve sparseFunctionOrLambda_steady : kh_steady.

Lemma exparseLambda_steady ig : steady (exparseLambda pe ps n ig).
Proof. unfold exparseLambda. solve_steady. Qed.
#[local] Hint Resolve exparseLambda_steady : kh_steady.

Lemma exparseOther_constant_steady ig ft message e :
  steady (exparseOther_constant ig ft message e).
Proof. unfold exparseOther_constant. solve_steady. Qed.
#[local] Hint Resolve exparseOther_constant_steady : kh_steady.

Lemma exparseOther_steady ig ft : steady (exparseOther pe ps n ig ft).
Proof.
  unfold exparseOther. apply steady_bind; [solve_steady|].
  intro token. destruct token; try solve [solve_steady].
  - steady_runs.
  - match goal with |- steady (match ?k with _ => _ end) => destruct k end;
      try solve [solve_steady].
    steady_runs.
Qed.
#[local] Hint Resolve exparseOther_steady : kh_steady.

Lemma exparseScope_names_steady k :
  forall ig token names, steady (exparseScope_names k ig token names).
Proof.
  induction k as [|k IH]; intros; cbn [exparseScope_names]; solve_steady.
Qed.
#[local] Hint Resolve exparseScope_names_steady : kh_steady.

Lemma exparseScopeTemplatization_loop_steady k :
  forall ig token e, steady (exparseScopeTemplatization_loop pe n k ig token e).
Proof.
  induction k as [|k IH]; intros; cbn [exparseScopeTemplatization_loop]; solve_steady.
Qed.
#[local] Hint Resolve exparseScopeTemplatization_loop_steady : kh_steady.

Lemma exparseScopeTemplatization_steady ig ft : steady (exparseScopeTemplatization pe ps n ig ft).
Proof. unfold exparseScopeTemplatization. solve_steady. Qed.
#[local] Hint Resolve exparseScopeTemplatization_steady : kh_steady.

Lemma exparseReverseUnary_loop_steady k :
  forall ig ft token e, steady (exparseReverseUnary_loop pe n k ig ft token e).
Proof.
  induction k as [|k IH]; intros; cbn [exparseReverseUnary_loop]; solve_steady.
Qed.
#[local] Hint Resolve exparseReverseUnary_loop_steady : kh_steady.

Lemma exparseReverseUnary_steady ig ft : steady (exparseReverseUnary pe ps n ig ft).
Proof. unfold exparseReverseUnary. solve_steady. Qed.
#[local] Hint Resolve exparseReverseUnary_steady : kh_steady.

Lemma RCD_UNARY_CASE_steady (exparseUnary FUNCTION :
    bool -> bool -> M khAstExpression) OPERATOR ig ft :
  (forall ig ft, steady (exparseUnary ig ft)) ->
  steady (RCD_UNARY_CASE exparseUnary FUNCTION OPERATOR ig ft).
Proof. intro H. unfold RCD_UNARY_CASE. solve_steady. Qed.
#[local] Hint Resolve RCD_UNARY_CASE_steady : kh_steady.

Lemma exparseUnary_rec_steady k :
  forall ig ft, steady (exparseUnary_rec pe ps n k ig ft).
Proof.
  induction k as [|k IH]; intros; cbn [exparseUnary_rec]; solve_steady.
Qed.
#[local] Hint Resolve exparseUnary_rec_steady : kh_steady.

Lemma exparseUnary_steady ig ft : steady (exparseUnary pe ps n ig ft).
Proof. unfold exparseUnary. solve_steady. Qed.
#[local] Hint Resolve exparseUnary_steady : kh_steady.

Lemma RCD_BINARY_loop_steady LOWER cases k :
  (forall ig ft, steady (LOWER ig ft)) ->
  forall ig ft token e, steady (RCD_BINARY_loop LOWER cases k ig ft token e).
Proof.
  intro HLOWER.
  induction k as [|k IH]; intros; cbn [RCD_BINARY_loop]; solve_steady.
Qed.
#[local] Hint Resolve RCD_BINARY_loop_steady : kh_steady.

Lemma binary_level_steady LOWER cases ig ft :
  (forall ig ft, steady (LOWER ig ft)) ->
  steady (binary_level n LOWER cases ig ft).
Proof. intro HLOWER. unfold binary_level. solve_steady. Qed.
#[local] Hint Resolve binary_level_steady : kh_steady.

Lemma exparsePow_steady ig ft : steady (exparsePow pe ps n ig ft).
Proof. unfold exparsePow, RCD_BINARY. apply binary_level_steady. auto with kh_steady. Qed.
#[local] Hint Resolve exparsePow_steady : kh_steady.

Lemma exparseMulDivMod_steady ig ft : steady (exparseMulDivMod pe ps n ig ft).
Proof. unfold exparseMulDivMod, RCD_BINARY. apply binary_level_steady. auto with kh_steady. Qed.
#[local] Hint Resolve exparseMulDivMod_steady : kh_steady.

Lemma exparseAddSub_steady ig ft : steady (exparseAddSub pe ps n ig ft).
Proof. unfold exparseAddSub, RCD_BINARY. apply binary_level_steady. auto with kh_steady. Qed.
#[local] Hint Resolve exparseAddSub_steady : kh_steady.

Lemma exparseBitwiseShifts_steady ig ft : steady (exparseBitwiseShifts pe ps n ig ft).
Proof. unfold exparseBitwiseShifts, RCD_BINARY. apply binary_level_steady. auto with kh_steady. Qed.
#[local] Hint Resolve exparseBitwiseShifts_steady : kh_steady.

Lemma exparseBitwiseAnd_steady ig ft : steady (exparseBitwiseAnd pe ps n ig ft).
Proof. unfold exparseBitwiseAnd, RCD_BINARY. apply binary_level_steady. auto with kh_steady. Qed.
#[local] Hint Resolve exparseBitwiseAnd_steady : kh_steady.

Lemma exparseBitwiseXor_steady ig ft : steady (exparseBitwiseXor pe ps n ig ft).
Proof. unfold exparseBitwiseXor, RCD_BINARY. apply binary_level_steady. auto with kh_steady. Qed.
#[local] Hint Resolve exparseBitwiseXor_steady : kh_steady.

Lemma exparseBitwiseOr_steady ig ft : steady (exparseBitwiseOr pe ps n ig ft).
Proof. unfold exparseBitwiseOr, RCD_BINARY. apply binary_level_steady. auto with kh_steady. Qed.
#[local] Hint Resolve exparseBitwiseOr_steady : kh_steady.

Lemma exparseComparisonOperators_loop_steady k :
  forall ig ft token operations operands, steady (exparseComparisonOperators_loop pe ps n k ig ft token operations operands).
Proof.
  induction k as [|k IH]; intros; cbn [exparseComparisonOperators_loop]; solve_steady.
Qed.
#[local] Hint Resolve exparseComparisonOperators_loop_steady : kh_steady.

Lemma exparseComparisonOperators_steady ig ft : steady (exparseComparisonOperators pe ps n ig ft).
Proof. unfold exparseComparisonOperators. solve_steady. Qed.
#[local] Hint Resolve exparseComparisonOperators_steady : kh_steady.

Lemma exparseLogicalNot_rec_steady k :
  forall ig ft, steady (exparseLogicalNot_rec pe ps n k ig ft).
Proof.
  induction k as [|k IH]; intros; cbn [exparseLogicalNot_rec]; solve_steady.
Qed.
#[local] Hint Resolve exparseLogicalNot_rec_steady : kh_steady.

Lemma exparseLogicalNot_steady ig ft : steady (exparseLogicalNot pe ps n ig ft).
Proof. unfold exparseLogicalNot. solve_steady. Qed.
#[local] Hint Resolve exparseLogicalNot_steady : kh_steady.

Lemma exparseLogicalAnd_steady ig ft : steady (exparseLogicalAnd pe ps n ig ft).
Proof. unfold exparseLogicalAnd, RCD_BINARY. apply binary_level_steady. auto with kh_steady. Qed.
#[local] Hint Resolve exparseLogicalAnd_steady : kh_steady.

Lemma exparseLogicalXor_steady ig ft : steady (exparseLogicalXor pe ps n ig ft).
Proof. unfold exparseLogicalXor, RCD_BINARY. apply binary_level_steady. auto with kh_steady. Qed.
#[local] Hint Resolve exparseLogicalXor_steady : kh_steady.

Lemma exparseLogicalOr_steady ig ft : steady (exparseLogicalOr pe ps n ig ft).
Proof. unfold exparseLogicalOr, RCD_BINARY. apply binary_level_steady. auto with kh_steady. Qed.
#[local] Hint Resolve exparseLogicalOr_steady : kh_steady.

Lemma exparseTernary_loop_steady k :
  forall ig ft token e, steady (exparseTernary_loop pe ps n k ig ft token e).
Proof.
  induction k as [|k IH]; intros; cbn [exparseTernary_loop]; solve_steady.
Qed.
#[local] Hint Resolve exparseTernary_loop_steady : kh_steady.

Lemma exparseTernary_steady ig ft : steady (exparseTernary pe ps n ig ft).
Proof. unfold exparseTernary. solve_steady. Qed.
#[local] Hint Resolve exparseTernary_steady : kh_steady.

Lemma exparseInplaceOperators_steady ig ft :
  steady (exparseInplaceOperators pe ps n ig ft).
Proof.
  unfold exparseInplaceOperators. apply binary_level_steady.
  auto with kh_steady.
Qed.
#[local] Hint Resolve exparseInplaceOperators_steady : kh_steady.

Lemma statement_end_steady token : steady (statement_end token).
Proof. unfold statement_end. solve_steady. Qed.
#[local] Hint Resolve statement_end_steady : kh_steady.

Lemma sparsePath_loop_steady k :
  forall token path, steady (sparsePath_loop k token path).
Proof.
  induction k as [|k IH]; intros; cbn [sparsePath_loop]; solve_steady.
Qed.
#[local] Hint Resolve sparsePath_loop_steady : kh_steady.

Lemma sparsePath_steady token message : steady (sparsePath n token message).
Proof. unfold sparsePath. solve_steady. Qed.
#[local] Hint Resolve sparsePath_steady : kh_steady.

Lemma sparseImport_steady : steady (sparseImport n).
Proof. unfold sparseImport. solve_steady. Qed.
#[local] Hint Resolve sparseImport_steady : kh_steady.

Lemma sparseInclude_steady : steady (sparseInclude n).
Proof. unfold sparseInclude. solve_steady. Qed.
#[local] Hint Resolve sparseInclude_steady : kh_steady.

Lemma sparseFunction_steady : steady (sparseFunction pe ps n).
Proof. unfold sparseFunction. solve_steady. Qed.
#[local] Hint Resolve sparseFunction_steady : kh_steady.

Lemma sparseTemplateNames_loop_steady k :
  forall names, steady (sparseTemplateNames_loop k names).
Proof.
  induction k as [|k IH]; intros; cbn [sparseTemplateNames_loop]; solve_steady.
Qed.
#[local] Hint Resolve sparseTemplateNames_loop_steady : kh_steady.

Lemma sparseClassOrStruct_steady : steady (sparseClassOrStruct pe ps n).
Proof. unfold sparseClassOrStruct. solve_steady. Qed.
#[local] Hint Resolve sparseClassOrStruct_steady : kh_steady.

Lemma sparseClass_steady : steady (sparseClass pe ps n).
Proof. unfold sparseClass. solve_steady. Qed.
#[local] Hint Resolve sparseClass_steady : kh_steady.

Lemma sparseStruct_steady : steady (sparseStruct pe ps n).
Proof. unfold sparseStruct. solve_steady. Qed.
#[local] Hint Resolve sparseStruct_steady : kh_steady.

Lemma sparseEnum_loop_steady k :
  forall token members, steady (sparseEnum_loop k token members).
Proof.
  induction k as [|k IH]; intros; cbn [sparseEnum_loop]; solve_steady.
Qed.
#[local] Hint Resolve sparseEnum_loop_steady : kh_steady.

Lemma sparseEnum_steady : steady (sparseEnum n).
Proof. unfold sparseEnum. solve_steady. Qed.
#[local] Hint Resolve sparseEnum_steady : kh_steady.

Lemma sparseAlias_steady : steady (sparseAlias pe n).
Proof. unfold sparseAlias. solve_steady. Qed.
#[local] Hint Resolve sparseAlias_steady : kh_steady.

Lemma sparseIfBranch_loop_steady k :
  forall conditions contents, steady (sparseIfBranch_loop pe ps n k conditions contents).
Proof.
  induction k as [|k IH]; intros; cbn [sparseIfBranch_loop]; solve_steady.
Qed.
#[local] Hint Resolve sparseIfBranch_loop_steady : kh_steady.

Lemma sparseIfBranch_steady : steady (sparseIfBranch pe ps n).
Proof. unfold sparseIfBranch. solve_steady. Qed.
#[local] Hint Resolve sparseIfBranch_steady : kh_steady.

Lemma sparseWhileLoop_steady : steady (sparseWhileLoop pe ps n).
Proof. unfold sparseWhileLoop. solve_steady. Qed.
#[local] Hint Resolve sparseWhileLoop_steady : kh_steady.

Lemma sparseDoWhileLoop_steady : steady (sparseDoWhileLoop pe ps n).
Proof. unfold sparseDoWhileLoop. solve_steady. Qed.
#[local] Hint Resolve sparseDoWhileLoop_steady : kh_steady.

Lemma sparseExpressions_loop_steady k :
  forall expressions, steady (sparseExpressions_loop pe k expressions).
Proof.
  induction k as [|k IH]; intros; cbn [sparseExpressions_loop]; solve_steady.
Qed.
#[local] Hint Resolve sparseExpressions_loop_steady : kh_steady.

Lemma sparseForLoop_steady : steady (sparseForLoop pe ps n).
Proof. unfold sparseForLoop. solve_steady. Qed.
#[local] Hint Resolve sparseForLoop_steady : kh_steady.

Lemma sparseBreak_steady : steady (sparseBreak ).
Proof. unfold sparseBreak. solve_steady. Qed.
#[local] Hint Resolve sparseBreak_steady : kh_steady.

Lemma sparseContinue_steady : steady (sparseContinue ).
Proof. unfold sparseContinue. solve_steady. Qed.
#[local] Hint Resolve sparseContinue_steady : kh_steady.

Lemma sparseReturn_steady : steady (sparseReturn pe n).
Proof. unfold sparseReturn. solve_steady. Qed.
#[local] Hint Resolve sparseReturn_steady : kh_steady.

Lemma sparseStatement_expression_steady : steady (sparseStatement_expression pe).
Proof. unfold sparseStatement_expression. solve_steady. Qed.
#[local] Hint Resolve sparseStatement_expression_steady : kh_steady.

Lemma sparseStatement_steady : steady (sparseStatement pe ps n).
Proof.
  unfold sparseStatement. apply steady_bind; [solve_steady|].
  intro token. destruct token; try solve [solve_steady].
  match goal with |- steady (match ?k with _ => _ end) => destruct k end;
    try solve [solve_steady].
  all: steady_runs.
Qed.

End Steady.

(** Whatever the fuel, [kh_parseExpression] and [kh_parseAst] never
    move the cursor back and never drop a diagnostic. *)
Lemma kh_parse_steady fuel :
  (forall ig ft, steady (kh_parseExpression fuel ig ft))
  /\ steady (kh_parseAst fuel).
Proof.
  induction fuel as [|fuel [IHe IHs]].
  - split; intros; apply steady_out_of_budget.
  - split; intros; cbn [kh_parseExpression kh_parseAst].
    + now apply exparseInplaceOperators_steady.
    + now apply sparseStatement_steady.
Qed.

(** *** The cursor moves on *)

Lemma bind_inv {A B} (m : M A) (k : A -> M B) s b s' :
  bind m k s = Some (b, s') ->
  exists a s1, m s = Some (a, s1) /\ k a s1 = Some (b, s').
Proof.
  unfold bind. destruct (m s) as [[a s1]|]; [|discriminate].
  intro H. now exists a, s1.
Qed.

(** What a run of [currentToken] says: the token is the next token,
    before and after; and unless it is [EOF] the cursor stands on it,
    so that it is the next token whether newlines are ignored or not,
    unless it is a newline itself. *)
Lemma currentToken_facts ig s token s' :
  currentToken ig s = Some (token, s') ->
  next_token ig s = token
  /\ next_token ig s' = token
  /\ List.length (cursor s') <= List.length (cursor s)
  /\ errors s' = errors s
  /\ (is_EOF token = false -> 1 <= List.length (cursor s'))
  /\ (forall ig', is_EOF token = false -> (is_NEWLINE token && ig') = false ->
                  next_token ig' s' = token).
Proof.
  unfold currentToken, next_token. destruct s as [c e]. cbn [cursor errors].
  pose proof (currentToken_from_shape c ig) as Hshape.
  pose proof (currentToken_from_idempotent c ig) as Hagain.
  pose proof (currentToken_from_length c ig) as Hlength.
  destruct (currentToken_from c ig) as [t c'] eqn:E.
  cbn [fst snd] in *. intros [= <- <-]. cbn [cursor errors].
  rewrite Hagain. cbn [fst].
  destruct Hshape as [Hpassed [Hcursor _]].
  repeat split; try assumption.
  - intro H. destruct Hcursor as [[-> _]|[c'' ->]];
      [discriminate | simpl; lia].
  - intros ig' Heof Hnewline.
    destruct Hcursor as [[-> _]|[c'' ->]]; [discriminate|].
    cbn [currentToken_from]. unfold passed_over in Hpassed.
    apply orb_false_iff in Hpassed. destruct Hpassed as [-> _].
    now rewrite Hnewline.
Qed.

Lemma next_token_restored ig s c e :
  c = cursor s -> next_token ig {| cursor := c; errors := e |} = next_token ig s.
Proof. now intros ->. Qed.

(* Take the first [bind] of a run apart. *)
Ltac peel H :=
  let a := fresh "a" in
  let s := fresh "s" in
  let E := fresh "E" in
  lazymatch type of H with
  | bind _ _ _ = Some _ =>
      apply bind_inv in H; destruct H as (a & s & E & H)
  end.

(* What the runs in the context say of the lengths. *)
Ltac length_fact :=
  match goal with
  | E : currentToken ?ig ?s = Some (?t, ?s') |- _ =>
      let F1 := fresh "Ftok" in
      let F2 := fresh "Ftok" in
      let F3 := fresh "Fle" in
      let F4 := fresh "Ferr" in
      let F5 := fresh "Fon" in
      let F6 := fresh "Fany" in
      apply currentToken_facts in E;
      destruct E as (F1 & F2 & F3 & F4 & F5 & F6)
  | E : skipToken ?ig ?s = Some (?u, ?s') |- _ =>
      apply skipToken_length in E; destruct E as [E _]
  | E : ?m ?s = Some (?a, ?s') |- _ =>
      let F := fresh "F" in
      assert (F : steady m) by solve_steady;
      apply F in E; destruct E as [E _]; apply moved_on_length in E
  end.

Lemma is_keyword_not_EOF t k : is_keyword t k = true -> is_EOF t = false.
Proof. destruct t; try discriminate; reflexivity. Qed.

Lemma is_delimiter_not_EOF t d : is_delimiter t d = true -> is_EOF t = false.
Proof. destruct t; try discriminate; reflexivity. Qed.

Lemma is_operator_not_EOF t o : is_operator t o = true -> is_EOF t = false.
Proof. destruct t; try discriminate; reflexivity. Qed.

Lemma negb_is_EOF t : negb (is_EOF t) = true -> is_EOF t = false.
Proof. now destruct (is_EOF t). Qed.

Ltac not_EOF :=
  match goal with
  | H : is_keyword ?t _ = true |- _ =>
      lazymatch goal with
      | _ : is_EOF t = false |- _ => fail
      | _ => pose proof (is_keyword_not_EOF _ _ H)
      end
  | H : is_delimiter ?t _ = true |- _ =>
      lazymatch goal with
      | _ : is_EOF t = false |- _ => fail
      | _ => pose proof (is_delimiter_not_EOF _ _ H)
      end
  | H : is_operator ?t _ = true |- _ =>
      lazymatch goal with
      | _ : is_EOF t = false |- _ => fail
      | _ => pose proof (is_operator_not_EOF _ _ H)
      end
  | H : negb (is_EOF ?t) = true |- _ =>
      lazymatch goal with
      | _ : is_EOF t = false |- _ => fail
      | _ => pose proof (negb_is_EOF _ H)
      end
  end.

Ltac tokens :=
  cbn [is_EOF is_NEWLINE is_COMMENT is_keyword is_delimiter is_operator
       khKeywordToken_beq khDelimiterToken_beq khOperatorToken_beq
       orb andb negb cursor errors] in *.

(* A strict inequality from the runs of the context: every run gives
   its bound, and the premise that the cursor stands on a token is
   discharged where the token is known. *)
Ltac advance :=
  repeat match goal with
         | H : cursor _ = cursor _ |- _ =>
             apply (f_equal (@List.length khToken)) in H
         end;
  repeat length_fact; repeat not_EOF; tokens;
  repeat match goal with
         | H : ?b = false -> _ |- _ =>
             first [ specialize (H eq_refl)
                   | specialize (H ltac:(assumption))
                   | specialize (H ltac:(congruence)) ]
         end;
  lia.


Lemma raiseError_cursor message s u s' :
  raiseError message s = Some (u, s') -> cursor s' = cursor s.
Proof. unfold raiseError. now intros [= _ <-]. Qed.

Lemma raiseError_if_cursor cond message s u s' :
  raiseError_if cond message s = Some (u, s') -> cursor s' = cursor s.
Proof.
  unfold raiseError_if. destruct cond; [apply raiseError_cursor|].
  unfold ret. now intros [= _ <-].
Qed.

Lemma next_token_cursor ig s s' :
  cursor s' = cursor s -> next_token ig s' = next_token ig s.
Proof. unfold next_token. now intros ->. Qed.

(* The runs that leave the cursor alone, or put it back. *)
Ltac cursor_step :=
  match goal with
  | E : get_cursor _ = Some _ |- _ =>
      unfold get_cursor in E; injection E as <- <-
  | E : set_cursor _ _ = Some _ |- _ =>
      unfold set_cursor in E; injection E as _ <-
  | E : ret _ _ = Some _ |- _ =>
      unfold ret in E; injection E as <- <-
  | E : ret _ _ = Some _ |- _ =>
      unfold ret in E; injection E as _ <-
  | E : raiseError _ _ = Some _ |- _ => apply raiseError_cursor in E
  | E : raiseError_if _ _ _ = Some _ |- _ => apply raiseError_if_cursor in E
  end.

(* The two branches of a run that starts with a test. *)
Ltac split_if H :=
  match type of H with
  | (if ?c then _ else _) _ = _ => destruct c eqn:?
  end.

(* After [apply ... in H] with a lemma on [advances]: the bound it
   gives closes the goal, and its premise is the token of the context. *)
Ltac by_length :=
  repeat match goal with
         | Ec : cursor _ = _ |- _ =>
             apply (f_equal (@List.length khToken)) in Ec
         end;
  cbn [cursor] in *; intros; lia.

Ltac by_token :=
  cbv beta; unfold next_token in *;
  repeat match goal with
         | Ec : cursor _ = _ |- _ => rewrite Ec; clear Ec
         end;
  cbn [cursor];
  match goal with
  | F : fst _ = _ |- _ => now rewrite F
  end.

Ltac advanced H := lapply H; [by_length | by_token].

(* The first token of the body is the token of the premise. *)
Ltac first_token H Hstart :=
  peel H;
  match goal with
  | E : currentToken _ _ = Some _ |- _ =>
      let F := fresh "Ffirst" in
      pose proof (currentToken_facts _ _ _ _ E) as [F _];
      rewrite F in Hstart
  end.

(* Take every [bind] of the runs of the context apart. *)
Ltac peel_all :=
  repeat match goal with
         | H : bind _ _ _ = Some _ |- _ => peel H
         | H : (let '(_, _) := ?p in _) _ = Some _ |- _ => destruct p
         end.

Section Advance.

Variable pe : bool -> bool -> M khAstExpression.
Variable ps : M khAst.
Variable n : nat.

Hypothesis Hpe : forall ig ft, steady (pe ig ft).
Hypothesis Hps : steady ps.
Hypothesis Hpe_advances :
  forall ig ft, advances (fun token => negb (is_EOF token)) ig (pe ig ft).

#[local] Hint Resolve
  sparseSpecifiers_loop_steady
  sparseSpecifiers_steady
  exparseList_loop_steady
  exparseList_steady
  exparseDict_loop_steady
  exparseDict_steady
  exparseVariableDeclaration_steady
  exparseFunctionType_loop_steady
  exparseFunctionType_steady
  sparseBlock_loop_steady
  sparseBlock_steady
  sparseFunctionOrLambda_arguments_steady
  sparseFunctionOrLambda_steady
  exparseLambda_steady
  exparseOther_constant_steady
  exparseOther_steady
  exparseScope_names_steady
  exparseScopeTemplatization_loop_steady
  exparseScopeTemplatization_steady
  exparseReverseUnary_loop_steady
  exparseReverseUnary_steady
  RCD_UNARY_CASE_steady
  exparseUnary_rec_steady
  exparseUnary_steady
  RCD_BINARY_loop_steady
  binary_level_steady
  exparsePow_steady
  exparseMulDivMod_steady
  exparseAddSub_steady
  exparseBitwiseShifts_steady
  exparseBitwiseAnd_steady
  exparseBitwiseXor_steady
  exparseBitwiseOr_steady
  exparseComparisonOperators_loop_steady
  exparseComparisonOperators_steady
  exparseLogicalNot_rec_steady
  exparseLogicalNot_steady
  exparseLogicalAnd_steady
  exparseLogicalXor_steady
  exparseLogicalOr_steady
  exparseTernary_loop_steady
  exparseTernary_steady
  exparseInplaceOperators_steady
  statement_end_steady
  sparsePath_loop_steady
  sparsePath_steady
  sparseImport_steady
  sparseInclude_steady
  sparseFunction_steady
  sparseTemplateNames_loop_steady
  sparseClassOrStruct_steady
  sparseClass_steady
  sparseStruct_steady
  sparseEnum_loop_steady
  sparseEnum_steady
  sparseAlias_steady
  sparseIfBranch_loop_steady
  sparseIfBranch_steady
  sparseWhileLoop_steady
  sparseDoWhileLoop_steady
  sparseExpressions_loop_steady
  sparseForLoop_steady
  sparseBreak_steady
  sparseContinue_steady
  sparseReturn_steady
  sparseStatement_expression_steady
  sparseStatement_steady
  : kh_steady.

(** Where there is no specifier, [sparseSpecifiers] is
    [currentToken]. *)
Lemma sparseSpecifiers_none a1 a2 a3 a4 ig s r s' :
  sparseSpecifiers n a1 a2 a3 a4 ig s = Some (r, s') ->
  is_keyword (next_token ig s) khKeywordToken_INCASE = false ->
  is_keyword (next_token ig s) khKeywordToken_STATIC = false ->
  currentToken ig s = Some (next_token ig s, s').
Proof.
  unfold sparseSpecifiers, bind. intros H H1 H2.
  destruct (currentToken ig s) as [[token s1]|] eqn:E; [|discriminate].
  pose proof (currentToken_facts _ _ _ _ E) as [Ftok _].
  rewrite Ftok in *.
  destruct n as [|k]; cbn [sparseSpecifiers_loop] in H;
    destruct token as [| | | | |keyword| | | | | | | | | | | | ];
    try destruct keyword; try discriminate;
    unfold ret in H; now injection H as <- <-.
Qed.

Lemma sparseSpecifiers_advances a1 a2 a3 a4 ig :
  advances
    (fun token =>
       is_keyword token khKeywordToken_INCASE
       || is_keyword token khKeywordToken_STATIC) ig
    (sparseSpecifiers n a1 a2 a3 a4 ig).
Proof.
  intros s a s' H Hstart. unfold sparseSpecifiers in H. peel H.
  pose proof (currentToken_facts _ _ _ _ E) as [F _]. rewrite F in Hstart.
  destruct n as [|k]; cbn [sparseSpecifiers_loop] in H;
    destruct a0 as [| | | | |keyword| | | | | | | | | | | | ];
    try discriminate Hstart;
    destruct keyword; try discriminate Hstart; try discriminate H.
  - peel H. peel H. peel H. advance.
  - peel H. peel H. peel H. advance.
Qed.

Lemma exparseList_advances opening closing ig ft :
  advances (fun token => is_delimiter token opening) ig
    (exparseList pe n opening closing ig ft).
Proof.
  intros s a s' H Hstart. unfold exparseList in H.
  first_token H Hstart. peel H. rewrite Hstart in *. peel E0. advance.
Qed.

Lemma exparseDict_advances ig :
  advances
    (fun token => is_delimiter token khDelimiterToken_CURLY_BRACKET_OPEN) ig
    (exparseDict pe n ig).
Proof.
  intros s a s' H Hstart. unfold exparseDict in H.
  first_token H Hstart. peel H. rewrite Hstart in *. peel E0. advance.
Qed.

Lemma exparseFunctionType_advances ig :
  advances (fun token => is_keyword token khKeywordToken_DEF) ig
    (exparseFunctionType pe n ig).
Proof.
  intros s a s' H Hstart. unfold exparseFunctionType in H.
  first_token H Hstart. peel H. rewrite Hstart in *. peel E0. advance.
Qed.

Lemma exparseLambda_advances ig :
  advances (fun token => is_keyword token khKeywordToken_DEF) ig
    (exparseLambda pe ps n ig).
Proof.
  intros s a s' H Hstart. unfold exparseLambda in H.
  first_token H Hstart. peel H. rewrite Hstart in *. peel E0. advance.
Qed.

Lemma exparseOther_constant_skips ig ft message e s a s' :
  exparseOther_constant ig ft message e s = Some (a, s') ->
  List.length (cursor s') <= List.length (cursor s) - 1.
Proof.
  unfold exparseOther_constant. intro H. peel H. peel H.
  unfold ret in H. injection H as _ <-.
  apply skipToken_length in E0. destruct E0 as [E0 _].
  apply raiseError_if_cursor in E. rewrite E in E0. lia.
Qed.

Lemma exparseVariableDeclaration_advances ig :
  advances starts_declaration ig (exparseVariableDeclaration pe n ig).
Proof.
  intros s a s' H Hstart. unfold exparseVariableDeclaration in H.
  first_token H Hstart. rename a0 into first.
  pose proof (currentToken_facts _ _ _ _ E) as (_ & Fnext & Fle & _ & Fon & _).
  peel H. destruct a0 as [a0 is_static].
  destruct (is_keyword first khKeywordToken_INCASE
            || is_keyword first khKeywordToken_STATIC) eqn:Especifier.
  { pose proof (sparseSpecifiers_advances _ _ _ _ _ _ _ _ E0) as Hlt.
    cbv beta in Hlt. rewrite Fnext in Hlt. specialize (Hlt Especifier).
    clear E0. advance. }
  apply orb_false_iff in Especifier. destruct Especifier as [Hincase Hstatic].
  apply sparseSpecifiers_none in E0; rewrite Fnext in *; try assumption.
  pose proof (currentToken_facts _ _ _ _ E0)
    as (_ & Fnext1 & Fle1 & _ & Fon1 & _).
  peel H. pose proof (currentToken_facts _ _ _ _ E1) as (Ftoken & _).
  rewrite Fnext1 in Ftoken. subst a1.
  assert (Heof : is_EOF first = false)
    by (destruct first; try discriminate; reflexivity).
  peel H.
  destruct (is_keyword first khKeywordToken_WILD) eqn:Ewild.
  { peel E2. advance. }
  unfold ret in E2. injection E2 as <- <-.
  peel H.
  destruct (is_keyword first khKeywordToken_REF) eqn:Eref.
  { peel E2. advance. }
  unfold ret in E2. injection E2 as <- <-.
  peel H.
  destruct first; try discriminate Hstart.
  - peel E2. advance.
  - cbn [starts_declaration] in Hstart.
    rewrite Hstatic, Ewild, Eref in Hstart. discriminate Hstart.
Qed.

Lemma exparseOther_advances ig ft :
  advances (fun token => negb (is_EOF token)) ig (exparseOther pe ps n ig ft).
Proof.
  intros s a s' H Hstart. unfold exparseOther in H.
  first_token H Hstart. rename a0 into first.
  pose proof (currentToken_facts _ _ _ _ E) as (_ & Fnext & Fle & _ & Fon & _).
  specialize (Fon (negb_is_EOF _ Hstart)).
  destruct first as [| | | | |keyword|delimiter| | | | | | | | | | | ];
    try discriminate Hstart;
    try (apply exparseOther_constant_skips in H; lia);
    try (peel H; peel H; repeat cursor_step; advance);
    try (peel H; repeat cursor_step; advance).
  - (* an identifier *)
    peel H. peel H. peel H. repeat cursor_step.
    split_if H.
    + peel H. cursor_step.
      apply exparseVariableDeclaration_advances in H. advanced H.
    + cursor_step. advance.
  - destruct keyword.
    all: try (peel H; peel H; repeat cursor_step; advance).
    all: try (peel H; cursor_step;
              apply exparseVariableDeclaration_advances in H; advanced H).
    (* def *)
    peel H. peel H. peel H. peel H. repeat cursor_step.
    split_if H.
    + apply exparseFunctionType_advances in H. advanced H.
    + peel H. cursor_step. apply exparseLambda_advances in H. advanced H.
  - destruct delimiter.
    all: try (peel H; peel H; repeat cursor_step; advance).
    all: try (peel H; cursor_step; apply exparseDict_advances in H;
              advanced H).
    + peel H. apply exparseList_advances in E0.
      lapply E0; [|by_token].
      destruct a0 as [|? [|? ?]]; cursor_step; lia.
    + peel H. peel H. repeat cursor_step.
      apply exparseList_advances in E1. advanced E1.
Qed.

(** The frame the expression levels share: the token is fetched, the
    operand of the level below is parsed, and what follows never moves
    back. *)
Lemma frame_advances {A B : Type} (LOWER : M A) (rest : A -> M B) ig :
  advances (fun token => negb (is_EOF token)) ig LOWER ->
  (forall a, steady (rest a)) ->
  advances (fun token => negb (is_EOF token)) ig
    (_ <- currentToken ig ;; a <- LOWER ;; rest a)%parser.
Proof.
  intros HLOWER Hrest s b s' H Hstart.
  first_token H Hstart. peel H.
  apply HLOWER in E0. apply Hrest in H. destruct H as [H _].
  apply moved_on_length in H.
  pose proof (currentToken_facts _ _ _ _ E) as (_ & Fnext & Fle & _).
  lapply E0; [lia|]. now rewrite Fnext.
Qed.

Lemma exparseScopeTemplatization_advances ig ft :
  advances (fun token => negb (is_EOF token)) ig
    (exparseScopeTemplatization pe ps n ig ft).
Proof.
  unfold exparseScopeTemplatization.
  apply frame_advances; [apply exparseOther_advances | intro; solve_steady].
Qed.

Lemma exparseReverseUnary_advances ig ft :
  advances (fun token => negb (is_EOF token)) ig
    (exparseReverseUnary pe ps n ig ft).
Proof.
  unfold exparseReverseUnary.
  apply frame_advances;
    [apply exparseScopeTemplatization_advances | intro; solve_steady].
Qed.

Lemma exparseUnary_rec_advances k ig ft :
  advances (fun token => negb (is_EOF token)) ig
    (exparseUnary_rec pe ps n k ig ft).
Proof.
  induction k as [|k IH]; intros s a s' H Hstart;
    cbn [exparseUnary_rec] in H;
    (destruct ft; [exact (exparseReverseUnary_advances _ _ _ _ _ H Hstart)|]);
    first_token H Hstart;
    pose proof (currentToken_facts _ _ _ _ E) as (_ & Fnext & Fle & _ & Fon & _);
    specialize (Fon (negb_is_EOF _ Hstart));
    destruct a0 as [| | | | | | |operator| | | | | | | | | | ];
    try discriminate Hstart;
    try (apply exparseReverseUnary_advances in H; advanced H);
    destruct operator;
    try (apply exparseReverseUnary_advances in H; advanced H);
    try discriminate H;
    unfold RCD_UNARY_CASE in H; peel H; advance.
Qed.

Lemma exparseUnary_advances ig ft :
  advances (fun token => negb (is_EOF token)) ig (exparseUnary pe ps n ig ft).
Proof. apply exparseUnary_rec_advances. Qed.

Lemma binary_level_advances LOWER cases ig ft :
  (forall ig ft, steady (LOWER ig ft)) ->
  (forall ig ft, advances (fun token => negb (is_EOF token)) ig (LOWER ig ft)) ->
  advances (fun token => negb (is_EOF token)) ig
    (binary_level n LOWER cases ig ft).
Proof.
  intros Hsteady HLOWER. unfold binary_level.
  apply frame_advances; [apply HLOWER | intro; solve_steady].
Qed.

Lemma exparsePow_advances ig ft :
  advances (fun token => negb (is_EOF token)) ig (exparsePow pe ps n ig ft).
Proof.
  unfold exparsePow, RCD_BINARY.
  apply binary_level_advances;
    [auto with kh_steady | apply exparseUnary_advances].
Qed.

Lemma exparseMulDivMod_advances ig ft :
  advances (fun token => negb (is_EOF token)) ig (exparseMulDivMod pe ps n ig ft).
Proof.
  unfold exparseMulDivMod, RCD_BINARY.
  apply binary_level_advances;
    [auto with kh_steady | apply exparsePow_advances].
Qed.

Lemma exparseAddSub_advances ig ft :
  advances (fun token => negb (is_EOF token)) ig (exparseAddSub pe ps n ig ft).
Proof.
  unfold exparseAddSub, RCD_BINARY.
  apply binary_level_advances;
    [auto with kh_steady | apply exparseMulDivMod_advances].
Qed.

Lemma exparseBitwiseShifts_advances ig ft :
  advances (fun token => negb (is_EOF token)) ig (exparseBitwiseShifts pe ps n ig ft).
Proof.
  unfold exparseBitwiseShifts, RCD_BINARY.
  apply binary_level_advances;
    [auto with kh_steady | apply exparseAddSub_advances].
Qed.

Lemma exparseBitwiseAnd_advances ig ft :
  advances (fun token => negb (is_EOF token)) ig (exparseBitwiseAnd pe ps n ig ft).
Proof.
  unfold exparseBitwiseAnd, RCD_BINARY.
  apply binary_level_advances;
    [auto with kh_steady | apply exparseBitwiseShifts_advances].
Qed.

Lemma exparseBitwiseXor_advances ig ft :
  advances (fun token => negb (is_EOF token)) ig (exparseBitwiseXor pe ps n ig ft).
Proof.
  unfold exparseBitwiseXor, RCD_BINARY.
  apply binary_level_advances;
    [auto with kh_steady | apply exparseBitwiseAnd_advances].
Qed.

Lemma exparseBitwiseOr_advances ig ft :
  advances (fun token => negb (is_EOF token)) ig (exparseBitwiseOr pe ps n ig ft).
Proof.
  unfold exparseBitwiseOr, RCD_BINARY.
  apply binary_level_advances;
    [auto with kh_steady | apply exparseBitwiseXor_advances].
Qed.

Lemma exparseComparisonOperators_advances ig ft :
  advances (fun token => negb (is_EOF token)) ig
    (exparseComparisonOperators pe ps n ig ft).
Proof.
  unfold exparseComparisonOperators.
  apply frame_advances; [apply exparseBitwiseOr_advances | intro; solve_steady].
Qed.

Lemma exparseLogicalNot_rec_advances k ig ft :
  advances (fun token => negb (is_EOF token)) ig
    (exparseLogicalNot_rec pe ps n k ig ft).
Proof.
  induction k as [|k IH]; intros s a s' H Hstart;
    cbn [exparseLogicalNot_rec] in H;
    (destruct ft;
     [exact (exparseComparisonOperators_advances _ _ _ _ _ H Hstart)|]);
    first_token H Hstart;
    pose proof (currentToken_facts _ _ _ _ E)
      as (_ & Fnext & Fle & _ & Fon & _);
    specialize (Fon (negb_is_EOF _ Hstart));
    (split_if H;
     [|apply exparseComparisonOperators_advances in H; advanced H]);
    try discriminate H.
  peel H. peel H. cursor_step.
  apply skipToken_length in E0. destruct E0 as [E0 _].
  apply (exparseLogicalNot_rec_steady pe ps n Hpe Hps) in E1.
  destruct E1 as [E1 _]. apply moved_on_length in E1. lia.
Qed.

Lemma exparseLogicalNot_advances ig ft :
  advances (fun token => negb (is_EOF token)) ig
    (exparseLogicalNot pe ps n ig ft).
Proof. apply exparseLogicalNot_rec_advances. Qed.

Lemma exparseLogicalAnd_advances ig ft :
  advances (fun token => negb (is_EOF token)) ig (exparseLogicalAnd pe ps n ig ft).
Proof.
  unfold exparseLogicalAnd, RCD_BINARY.
  apply binary_level_advances;
    [auto with kh_steady | apply exparseLogicalNot_advances].
Qed.

Lemma exparseLogicalXor_advances ig ft :
  advances (fun token => negb (is_EOF token)) ig (exparseLogicalXor pe ps n ig ft).
Proof.
  unfold exparseLogicalXor, RCD_BINARY.
  apply binary_level_advances;
    [auto with kh_steady | apply exparseLogicalAnd_advances].
Qed.

Lemma exparseLogicalOr_advances ig ft :
  advances (fun token => negb (is_EOF token)) ig (exparseLogicalOr pe ps n ig ft).
Proof.
  unfold exparseLogicalOr, RCD_BINARY.
  apply binary_level_advances;
    [auto with kh_steady | apply exparseLogicalXor_advances].
Qed.

Lemma exparseTernary_advances ig ft :
  advances (fun token => negb (is_EOF token)) ig (exparseTernary pe ps n ig ft).
Proof.
  unfold exparseTernary.
  apply frame_advances; [apply exparseLogicalOr_advances | intro; solve_steady].
Qed.

Lemma exparseInplaceOperators_advances ig ft :
  advances (fun token => negb (is_EOF token)) ig (exparseInplaceOperators pe ps n ig ft).
Proof.
  unfold exparseInplaceOperators, RCD_BINARY.
  apply binary_level_advances;
    [auto with kh_steady | apply exparseTernary_advances].
Qed.

Lemma sparseImport_advances :
  advances (fun token => is_keyword token khKeywordToken_IMPORT) true
    (sparseImport n).
Proof.
  intros s a s' H Hstart. unfold sparseImport in H.
  first_token H Hstart. rewrite Hstart in H. peel_all. advance.
Qed.

Lemma sparseInclude_advances :
  advances (fun token => is_keyword token khKeywordToken_INCLUDE) true
    (sparseInclude n).
Proof.
  intros s a s' H Hstart. unfold sparseInclude in H.
  first_token H Hstart. rewrite Hstart in H. peel_all. advance.
Qed.

Lemma sparseFunction_advances :
  advances
    (fun token =>
       is_keyword token khKeywordToken_DEF
       || is_keyword token khKeywordToken_INCASE
       || is_keyword token khKeywordToken_STATIC) true
    (sparseFunction pe ps n).
Proof.
  intros s a s' H Hstart. unfold sparseFunction in H.
  first_token H Hstart. rename a0 into first.
  pose proof (currentToken_facts _ _ _ _ E) as (_ & Fnext & _).
  peel H.
  destruct (is_keyword first khKeywordToken_DEF) eqn:Ekeyword.
  - peel_all. advance.
  - cbn [orb] in Hstart. apply sparseSpecifiers_advances in E0.
    lapply E0; [|by_token]. clear E0. intro. peel_all. advance.
Qed.

Lemma sparseClass_advances :
  advances
    (fun token =>
       is_keyword token khKeywordToken_CLASS
       || is_keyword token khKeywordToken_INCASE
       || is_keyword token khKeywordToken_STATIC) true
    (sparseClass pe ps n).
Proof.
  intros s a s' H Hstart. unfold sparseClass in H.
  first_token H Hstart. rename a0 into first.
  pose proof (currentToken_facts _ _ _ _ E) as (_ & Fnext & _).
  peel H.
  destruct (is_keyword first khKeywordToken_CLASS) eqn:Ekeyword.
  - peel_all. advance.
  - cbn [orb] in Hstart. apply sparseSpecifiers_advances in E0.
    lapply E0; [|by_token]. clear E0. intro. peel_all. advance.
Qed.

Lemma sparseStruct_advances :
  advances
    (fun token =>
       is_keyword token khKeywordToken_STRUCT
       || is_keyword token khKeywordToken_INCASE
       || is_keyword token khKeywordToken_STATIC) true
    (sparseStruct pe ps n).
Proof.
  intros s a s' H Hstart. unfold sparseStruct in H.
  first_token H Hstart. rename a0 into first.
  pose proof (currentToken_facts _ _ _ _ E) as (_ & Fnext & _).
  peel H.
  destruct (is_keyword first khKeywordToken_STRUCT) eqn:Ekeyword.
  - peel_all. advance.
  - cbn [orb] in Hstart. apply sparseSpecifiers_advances in E0.
    lapply E0; [|by_token]. clear E0. intro. peel_all. advance.
Qed.

Lemma sparseEnum_advances :
  advances (fun token => is_keyword token khKeywordToken_ENUM) true
    (sparseEnum n).
Proof.
  intros s a s' H Hstart. unfold sparseEnum in H.
  first_token H Hstart. rewrite Hstart in H. peel_all. advance.
Qed.

Lemma sparseAlias_advances :
  advances
    (fun token =>
       is_keyword token khKeywordToken_ALIAS
       || is_keyword token khKeywordToken_INCASE
       || is_keyword token khKeywordToken_STATIC) true
    (sparseAlias pe n).
Proof.
  intros s a s' H Hstart. unfold sparseAlias in H.
  first_token H Hstart. rename a0 into first.
  pose proof (currentToken_facts _ _ _ _ E) as (_ & Fnext & _).
  peel H.
  destruct (is_keyword first khKeywordToken_ALIAS) eqn:Ekeyword.
  - peel_all. advance.
  - cbn [orb] in Hstart. apply sparseSpecifiers_advances in E0.
    lapply E0; [|by_token]. clear E0. intro. peel_all. advance.
Qed.

Lemma sparseIfBranch_advances :
  advances (fun token => is_keyword token khKeywordToken_IF) true
    (sparseIfBranch pe ps n).
Proof.
  intros s a s' H Hstart. unfold sparseIfBranch in H.
  first_token H Hstart. rewrite Hstart in H. peel_all. advance.
Qed.

Lemma sparseForLoop_advances :
  advances (fun token => is_keyword token khKeywordToken_FOR) true
    (sparseForLoop pe ps n).
Proof.
  intros s a s' H Hstart. unfold sparseForLoop in H.
  first_token H Hstart. rewrite Hstart in H. peel_all. advance.
Qed.

Lemma sparseWhileLoop_advances :
  advances (fun token => is_keyword token khKeywordToken_WHILE) true
    (sparseWhileLoop pe ps n).
Proof.
  intros s a s' H Hstart. unfold sparseWhileLoop in H.
  first_token H Hstart. rewrite Hstart in H. peel_all. advance.
Qed.

Lemma sparseDoWhileLoop_advances :
  advances (fun token => is_keyword token khKeywordToken_DO) true
    (sparseDoWhileLoop pe ps n).
Proof.
  intros s a s' H Hstart. unfold sparseDoWhileLoop in H.
  first_token H Hstart. rewrite Hstart in H. peel_all. advance.
Qed.

Lemma sparseBreak_advances :
  advances (fun token => is_keyword token khKeywordToken_BREAK) true
    (sparseBreak ).
Proof.
  intros s a s' H Hstart. unfold sparseBreak in H.
  first_token H Hstart. rewrite Hstart in H. peel_all. advance.
Qed.

Lemma sparseContinue_advances :
  advances (fun token => is_keyword token khKeywordToken_CONTINUE) true
    (sparseContinue ).
Proof.
  intros s a s' H Hstart. unfold sparseContinue in H.
  first_token H Hstart. rewrite Hstart in H. peel_all. advance.
Qed.

Lemma sparseReturn_advances :
  advances (fun token => is_keyword token khKeywordToken_RETURN) true
    (sparseReturn pe n).
Proof.
  intros s a s' H Hstart. unfold sparseReturn in H.
  first_token H Hstart. rewrite Hstart in H. peel_all. advance.
Qed.

Lemma sparseStatement_expression_advances :
  advances (fun token => negb (is_EOF token)) false
    (sparseStatement_expression pe).
Proof.
  intros s a s' H Hstart. unfold sparseStatement_expression in H.
  peel H. apply Hpe_advances in E. lapply E; [|assumption].
  clear E. intro. advance.
Qed.

(** After [currentToken true] the token is no newline. *)
Lemma next_token_true_not_NEWLINE s :
  is_NEWLINE (next_token true s) = false.
Proof.
  unfold next_token.
  pose proof (currentToken_from_shape (cursor s) true) as Hshape.
  destruct (currentToken_from (cursor s) true) as [token c].
  destruct Hshape as [Hpassed _]. cbn [fst].
  unfold passed_over in Hpassed. apply orb_false_iff in Hpassed.
  destruct Hpassed as [_ Hpassed]. now rewrite andb_true_r in Hpassed.
Qed.

Lemma sparseStatement_advances :
  advances starts_statement true (sparseStatement pe ps n).
Proof.
  intros s a s' H Hstart. unfold sparseStatement in H.
  first_token H Hstart. rename a0 into first.
  pose proof (currentToken_facts _ _ _ _ E)
    as (Ffirst' & Fnext & Fle & _ & Fon & Fany).
  assert (Heof : is_EOF first = false)
    by (destruct first; try discriminate; reflexivity).
  assert (Hnewline : is_NEWLINE first = false)
    by (rewrite <- Ffirst'; apply next_token_true_not_NEWLINE).
  specialize (Fon Heof).
  specialize (Fany false Heof ltac:(now rewrite andb_false_r)).
  destruct first as [| | | | |keyword| | | | | | | | | | | | ];
    try discriminate Hstart;
    try (apply sparseStatement_expression_advances in H; advanced H).
  destruct keyword; try discriminate Hstart;
    try (apply sparseStatement_expression_advances in H; advanced H);
    try (apply sparseImport_advances in H; advanced H);
    try (apply sparseInclude_advances in H; advanced H);
    try (apply sparseFunction_advances in H; advanced H);
    try (apply sparseClass_advances in H; advanced H);
    try (apply sparseStruct_advances in H; advanced H);
    try (apply sparseEnum_advances in H; advanced H);
    try (apply sparseAlias_advances in H; advanced H);
    try (apply sparseIfBranch_advances in H; advanced H);
    try (apply sparseForLoop_advances in H; advanced H);
    try (apply sparseWhileLoop_advances in H; advanced H);
    try (apply sparseDoWhileLoop_advances in H; advanced H);
    try (apply sparseBreak_advances in H; advanced H);
    try (apply sparseContinue_advances in H; advanced H);
    try (apply sparseReturn_advances in H; advanced H).
  all: peel H; peel H; peel H; peel H; repeat cursor_step.
  all: destruct a2 as [| | | | |keyword| | | | | | | | | | | | ];
    try (apply sparseStatement_expression_advances in H; advanced H).
  all: destruct keyword;
    try (apply sparseStatement_expression_advances in H; advanced H);
    try (apply sparseFunction_advances in H; advanced H);
    try (apply sparseClass_advances in H; advanced H);
    try (apply sparseStruct_advances in H; advanced H);
    try (apply sparseAlias_advances in H; advanced H).
Qed.

End Advance.

Lemma kh_parse_advances fuel :
  (forall ig ft,
      advances (fun token => negb (is_EOF token)) ig
        (kh_parseExpression fuel ig ft))
  /\ advances starts_statement true (kh_parseAst fuel).
Proof.
  induction fuel as [|fuel [IHe IHs]].
  - split; intros; intros s a s' H; discriminate H.
  - pose proof (kh_parse_steady fuel) as [He Hs].
    split; intros; cbn [kh_parseExpression kh_parseAst].
    + now apply exparseInplaceOperators_advances.
    + now apply sparseStatement_advances.
Qed.

(** A token that starts no statement and is not the end of the input is
    one of the keywords of [stuck_keywords]. *)
Lemma starts_statement_false token :
  starts_statement token = false ->
  is_EOF token = false ->
  exists keyword message,
    token = khTokenType_KEYWORD keyword
    /\ In (keyword, message) stuck_keywords.
Proof.
  intros Hstarts Heof.
  destruct token as [| | | | |keyword| | | | | | | | | | | | ];
    try discriminate.
  destruct keyword; try discriminate; eexists; eexists;
    (split; [reflexivity|]); simpl; eauto.
Qed.

Lemma kh_parse_loop_count fuel k :
  forall asts s asts' s',
    kh_parse_loop fuel k asts s = Some (asts', s') ->
    List.length asts' <= List.length asts + List.length (cursor s).
Proof.
  induction k as [|k IH]; intros asts s asts' s' H;
    cbn [kh_parse_loop] in H; peel H; cursor_step;
    destruct (isEnd (cursor s)) eqn:Eend;
    try (cursor_step; lia); try discriminate H.
  peel H.
  destruct (starts_statement (next_token true s)) eqn:Estarts.
  - pose proof (kh_parse_advances fuel) as [_ Hadvances].
    apply Hadvances in E. specialize (E Estarts).
    apply IH in H. rewrite length_app in H. simpl in H. lia.
  - exfalso. unfold isEnd in Eend.
    destruct (starts_statement_false _ Estarts Eend)
      as (keyword & message & Htoken & Hstuck).
    unfold next_token in Htoken.
    pose proof (currentToken_from_shape (cursor s) true) as Hshape.
    destruct (currentToken_from (cursor s) true) as [token c].
    cbn [fst] in Htoken. subst token.
    destruct Hshape as (_ & [[[=] _]|[c' ->]] & passed & Hcursor & Hpassed).
    destruct s as [cs es]. cbn [cursor] in Hcursor. subst cs.
    destruct fuel as [|fuel]; [discriminate E|].
    rewrite (kh_parseAst_stuck fuel keyword message passed c' es Hstuck
               Hpassed) in E.
    injection E as <- <-.
    now rewrite (kh_parse_loop_stuck fuel keyword message c' Hstuck) in H.
Qed.

(** [kh_parseExpression] never moves the cursor back and never drops a
    diagnostic: when it returns, the cursor is the one it was given
    moved on over the tokens it passed, and the diagnostics are those
    it was given with its own behind them. *)
Theorem kh_parseExpression_steady :
  forall fuel ignore_newline filter_type s expression s',
    kh_parseExpression fuel ignore_newline filter_type s
    = Some (expression, s') ->
    moved_on (cursor s) (cursor s') /\ extends (errors s) (errors s').
Proof.
  intros fuel ig ft s expression s' H.
  pose proof (kh_parse_steady fuel) as [He _]. exact (He ig ft _ _ _ H).
Qed.

(** The expression [x + ] and what is left of it: a closing bracket. *)
Lemma kh_parseExpression_steady_witness :
  moved_on
    [khTokenType_IDENTIFIER (codes "x");
     khTokenType_OPERATOR khOperatorToken_ADD;
     khTokenType_DELIMITER khDelimiterToken_SQUARE_BRACKET_CLOSE]
    []
  /\ extends [] ["unexpected token in an expression"].
Proof.
  refine (kh_parseExpression_steady 3 false false
            (start [khTokenType_IDENTIFIER (codes "x");
                    khTokenType_OPERATOR khOperatorToken_ADD;
                    khTokenType_DELIMITER
                      khDelimiterToken_SQUARE_BRACKET_CLOSE])
            _ {| cursor := [];
                 errors := ["unexpected token in an expression"] |} _).
  vm_compute. reflexivity.
Defined.

(** [kh_parseAst] never moves the cursor back and never drops a
    diagnostic. *)
Theorem kh_parseAst_steady :
  forall fuel s ast s',
    kh_parseAst fuel s = Some (ast, s') ->
    moved_on (cursor s) (cursor s') /\ extends (errors s) (errors s').
Proof.
  intros fuel s ast s' H.
  pose proof (kh_parse_steady fuel) as [_ Hs]. exact (Hs _ _ _ H).
Qed.

(** The statement [static x: t] and the line behind it: the cursor
    was put back on [static] on the way, and the statement ends past
    its line. *)
Lemma kh_parseAst_steady_witness :
  moved_on
    [khTokenType_KEYWORD khKeywordToken_STATIC;
     khTokenType_IDENTIFIER (codes "x");
     khTokenType_DELIMITER khDelimiterToken_COLON;
     khTokenType_IDENTIFIER (codes "t");
     khTokenType_NEWLINE;
     khTokenType_IDENTIFIER (codes "y")]
    [khTokenType_IDENTIFIER (codes "y")]
  /\ extends ["earlier"] ["earlier"].
Proof.
  refine (kh_parseAst_steady 5
            {| cursor :=
                 [khTokenType_KEYWORD khKeywordToken_STATIC;
                  khTokenType_IDENTIFIER (codes "x");
                  khTokenType_DELIMITER khDelimiterToken_COLON;
                  khTokenType_IDENTIFIER (codes "t");
                  khTokenType_NEWLINE;
                  khTokenType_IDENTIFIER (codes "y")];
               errors := ["earlier"] |}
            _ {| cursor := [khTokenType_IDENTIFIER (codes "y")];
                 errors := ["earlier"] |} _).
  vm_compute. reflexivity.
Defined.

(** [kh_parseExpression] passes at least one token, unless the input
    ends where it starts: it returns with fewer tokens left than it
    was given. *)
Theorem kh_parseExpression_consumes :
  forall fuel ignore_newline filter_type s expression s',
    kh_parseExpression fuel ignore_newline filter_type s
    = Some (expression, s') ->
    is_EOF (next_token ignore_newline s) = false ->
    List.length (cursor s') < List.length (cursor s).
Proof.
  intros fuel ig ft s expression s' H Hstart.
  pose proof (kh_parse_advances fuel) as [He _].
  apply (He ig ft _ _ _ H). cbv beta. now rewrite Hstart.
Qed.

(** A closing bracket where an expression is expected is passed. *)
Lemma kh_parseExpression_consumes_witness :
  List.length
    [khTokenType_DELIMITER khDelimiterToken_SQUARE_BRACKET_CLOSE]
  < List.length
      [khTokenType_NEWLINE;
       khTokenType_DELIMITER khDelimiterToken_PARENTHESIS_CLOSE;
       khTokenType_DELIMITER khDelimiterToken_SQUARE_BRACKET_CLOSE].
Proof.
  refine (kh_parseExpression_consumes 3 true false
            (start [khTokenType_NEWLINE;
                    khTokenType_DELIMITER khDelimiterToken_PARENTHESIS_CLOSE;
                    khTokenType_DELIMITER
                      khDelimiterToken_SQUARE_BRACKET_CLOSE])
            _ {| cursor :=
                   [khTokenType_DELIMITER
                      khDelimiterToken_SQUARE_BRACKET_CLOSE];
                 errors := ["unexpected token in an expression"] |} _ _).
  - vm_compute. reflexivity.
  - reflexivity.
Defined.

(** [kh_parseAst] passes at least one token, unless the next token,
    newlines and comments apart, is the end of the input or one of the
    keywords of [stuck_keywords] ([as], [elif], [else]). *)
Theorem kh_parseAst_consumes :
  forall fuel s ast s',
    kh_parseAst fuel s = Some (ast, s') ->
    starts_statement (next_token true s) = true ->
    List.length (cursor s') < List.length (cursor s).
Proof.
  intros fuel s ast s' H Hstart.
  pose proof (kh_parse_advances fuel) as [_ Hs].
  exact (Hs _ _ _ H Hstart).
Qed.

(** A statement that is a lone closing parenthesis. *)
Lemma kh_parseAst_consumes_witness :
  List.length [khTokenType_IDENTIFIER (codes "y")]
  < List.length
      [khTokenType_DELIMITER khDelimiterToken_PARENTHESIS_CLOSE;
       khTokenType_NEWLINE;
       khTokenType_IDENTIFIER (codes "y")].
Proof.
  refine (kh_parseAst_consumes 4
            (start [khTokenType_DELIMITER khDelimiterToken_PARENTHESIS_CLOSE;
                    khTokenType_NEWLINE;
                    khTokenType_IDENTIFIER (codes "y")])
            _ {| cursor := [khTokenType_IDENTIFIER (codes "y")];
                 errors := ["unexpected token in an expression"] |} _ _).
  - vm_compute. reflexivity.
  - reflexivity.
Defined.

(** When [kh_parse] returns, it returns no more statements than the
    source has tokens: every round of its loop passed a token. *)
Theorem kh_parse_statement_count :
  forall fuel tokens asts diagnostics,
    kh_parse fuel tokens = Some (asts, diagnostics) ->
    List.length asts <= List.length tokens.
Proof.
  intros fuel tokens asts diagnostics H. unfold kh_parse in H.
  destruct (kh_parse_loop fuel fuel [] {| cursor := tokens; errors := [] |})
    as [[asts' s']|] eqn:E; [|discriminate].
  injection H as <- _. apply kh_parse_loop_count in E. exact E.
Qed.

(** Two statements from five tokens. *)
Lemma kh_parse_statement_count_witness :
  List.length
    [khAstType_EXPRESSION (khAstExpressionType_IDENTIFIER (codes "x"));
     khAstType_BREAK]
  <= List.length
       [khTokenType_IDENTIFIER (codes "x");
        khTokenType_NEWLINE;
        khTokenType_NEWLINE;
        khTokenType_KEYWORD khKeywordToken_BREAK;
        khTokenType_DELIMITER khDelimiterToken_SEMICOLON].
Proof.
  refine (kh_parse_statement_count 5
            [khTokenType_IDENTIFIER (codes "x");
             khTokenType_NEWLINE;
             khTokenType_NEWLINE;
             khTokenType_KEYWORD khKeywordToken_BREAK;
             khTokenType_DELIMITER khDelimiterToken_SEMICOLON]
            _ [] _).
  vm_compute. reflexivity.
Defined.

(** *** Declarations behind a specifier *)

Lemma extends_In e e' message :
  extends (e ++ [message]) e' -> In message e'.
Proof.
  intros [new ->]. apply in_or_app. left. apply in_or_app. right. now left.
Qed.

Section Specified.

Variable pe : bool -> bool -> M khAstExpression.
Variable ps : M khAst.
Variable n : nat.

Hypothesis Hpe : forall ig ft, steady (pe ig ft).
Hypothesis Hps : steady ps.

#[local] Hint Resolve
  sparseSpecifiers_steady sparseFunctionOrLambda_steady
  sparseClassOrStruct_steady statement_end_steady
  : kh_steady.

(* The diagnostic of a run of [raiseError] stays to the end. *)
Ltac raised_stays :=
  match goal with
  | E : raiseError ?message ?s = Some (_, ?s1), H : ?m ?s1 = Some (_, ?s')
    |- In ?message (errors ?s') =>
      let F := fresh "F" in
      assert (F : steady m) by solve_steady;
      apply F in H; destruct H as [_ H];
      unfold raiseError in E; injection E as _ <-;
      cbn [errors] in H; exact (extends_In _ _ _ H)
  end.

Lemma sparseFunction_reports s ast s' :
  sparseFunction pe ps n s = Some (ast, s') ->
  is_keyword (next_token true s) khKeywordToken_DEF = false ->
  specified_diagnostic ast = Some "expecting a `def` keyword"
  /\ In "expecting a `def` keyword" (errors s').
Proof.
  intros H Hkeyword. unfold sparseFunction in H. peel H.
  pose proof (currentToken_facts _ _ _ _ E) as [F _]. rewrite F in Hkeyword.
  peel H. destruct a0 as [is_incase is_static]. rewrite Hkeyword in H.
  peel H. split.
  - peel_all. repeat cursor_step. reflexivity.
  - raised_stays.
Qed.

Lemma sparseClass_reports s ast s' :
  sparseClass pe ps n s = Some (ast, s') ->
  is_keyword (next_token true s) khKeywordToken_CLASS = false ->
  specified_diagnostic ast = Some "expecting a `class` keyword"
  /\ In "expecting a `class` keyword" (errors s').
Proof.
  intros H Hkeyword. unfold sparseClass in H. peel H.
  pose proof (currentToken_facts _ _ _ _ E) as [F _]. rewrite F in Hkeyword.
  peel H. destruct a0 as [is_incase is_static]. rewrite Hkeyword in H.
  peel H. split.
  - peel_all. repeat cursor_step. reflexivity.
  - raised_stays.
Qed.

Lemma sparseStruct_reports s ast s' :
  sparseStruct pe ps n s = Some (ast, s') ->
  is_keyword (next_token true s) khKeywordToken_STRUCT = false ->
  specified_diagnostic ast = Some "expecting a `struct` keyword"
  /\ In "expecting a `struct` keyword" (errors s').
Proof.
  intros H Hkeyword. unfold sparseStruct in H. peel H.
  pose proof (currentToken_facts _ _ _ _ E) as [F _]. rewrite F in Hkeyword.
  peel H. destruct a0 as [is_incase is_static]. rewrite Hkeyword in H.
  peel H. split.
  - peel_all. repeat cursor_step. reflexivity.
  - raised_stays.
Qed.

Lemma sparseAlias_reports s ast s' :
  sparseAlias pe n s = Some (ast, s') ->
  is_keyword (next_token true s) khKeywordToken_ALIAS = false ->
  specified_diagnostic ast = Some "expecting an `alias` keyword"
  /\ In "expecting an `alias` keyword" (errors s').
Proof.
  intros H Hkeyword. unfold sparseAlias in H. peel H.
  pose proof (currentToken_facts _ _ _ _ E) as [F _]. rewrite F in Hkeyword.
  peel H. destruct a0 as [is_incase is_static]. rewrite Hkeyword in H.
  peel H. peel E1. cursor_step. split.
  - peel_all. repeat cursor_step. reflexivity.
  - raised_stays.
Qed.

Lemma sparseStatement_expression_node s ast s' :
  sparseStatement_expression pe s = Some (ast, s') ->
  specified_diagnostic ast = None.
Proof.
  intro H. unfold sparseStatement_expression in H.
  peel_all. repeat cursor_step. reflexivity.
Qed.

Lemma sparseStatement_specified s ast s' message :
  sparseStatement pe ps n s = Some (ast, s') ->
  is_specifier (next_token true s) = true ->
  specified_diagnostic ast = Some message ->
  In message (errors s').
Proof.
  intros H Hstart Hnode. unfold sparseStatement in H. first_token H Hstart.
  pose proof (currentToken_facts _ _ _ _ E) as (_ & Fnext & _).
  destruct a as [| | | | |keyword| | | | | | | | | | | | ];
    try discriminate Hstart.
  destruct keyword; try discriminate Hstart.
  all: peel H; peel H; peel H; peel H; repeat cursor_step.
  all: match goal with
       | H : match ?token with _ => _ end _ = Some _ |- _ =>
           destruct token as [| | | | |keyword| | | | | | | | | | | | ];
           try (apply sparseStatement_expression_node in H; congruence);
           destruct keyword;
           try (apply sparseStatement_expression_node in H; congruence)
       end.
  all: first
         [ apply sparseFunction_reports in H
         | apply sparseClass_reports in H
         | apply sparseStruct_reports in H
         | apply sparseAlias_reports in H ];
    [ destruct H as [Hnode' H]; congruence
    | unfold next_token in *; cbn [cursor]; now rewrite Fnext ].
Qed.

End Specified.

(** A function, a class, a struct or an alias declared behind a
    specifier is always reported: where the statement [kh_parseAst]
    parses starts with [incase] or [static] and the node it returns is
    a [FUNCTION], a [CLASS], a [STRUCT] or an [ALIAS], the diagnostic
    of the keyword check of that declaration is among the diagnostics,
    for the check reads the token fetched before the specifiers were
    passed. *)
Theorem kh_parseAst_specified :
  forall fuel s ast s' message,
    kh_parseAst fuel s = Some (ast, s') ->
    is_specifier (next_token true s) = true ->
    specified_diagnostic ast = Some message ->
    In message (errors s').
Proof.
  intros [|fuel] s ast s' message H Hstart Hnode; [discriminate H|].
  cbn [kh_parseAst] in H.
  pose proof (kh_parse_steady fuel) as [He Hs].
  exact (sparseStatement_specified _ _ _ He Hs _ _ _ _ H Hstart Hnode).
Qed.

(** [incase alias f g]. *)
Lemma kh_parseAst_specified_witness :
  In "expecting an `alias` keyword"
     ["expecting an `alias` keyword";
      "expecting a name for the alias";
      "unexpected delimiter in an expression";
      "expecting a newline or a semicolon"].
Proof.
  refine (kh_parseAst_specified 8
            (start [khTokenType_KEYWORD khKeywordToken_INCASE;
                    khTokenType_KEYWORD khKeywordToken_ALIAS;
                    khTokenType_IDENTIFIER (codes "f");
                    khTokenType_IDENTIFIER (codes "g");
                    khTokenType_NEWLINE])
            (khAstType_ALIAS true [] khAstExpressionType_INVALID)
            {| cursor :=
                 [khTokenType_IDENTIFIER (codes "f");
                  khTokenType_IDENTIFIER (codes "g");
                  khTokenType_NEWLINE];
               errors :=
                 ["expecting an `alias` keyword";
                  "expecting a name for the alias";
                  "unexpected delimiter in an expression";
                  "expecting a newline or a semicolon"] |}
            _ _ _ _).
  - vm_compute. reflexivity.
  - reflexivity.
  - reflexivity.
Defined.

(** *** A template argument that is one identifier *)

Lemma currentToken_again ig s token s0 :
  currentToken ig s = Some (token, s0) ->
  currentToken ig s0 = Some (token, s0).
Proof.
  unfold currentToken. destruct s as [c e]. cbn [cursor errors].
  pose proof (currentToken_from_idempotent c ig) as Hagain.
  destruct (currentToken_from c ig) as [t c'] eqn:E. cbn [snd] in Hagain.
  intros [= <- <-]. cbn [cursor errors]. now rewrite Hagain.
Qed.

(** A function that starts by fetching the token runs the same from
    the state [currentToken] leaves. *)
Lemma exparseOther_after_currentToken pe ps n ig ft s token s0 :
  currentToken ig s = Some (token, s0) ->
  exparseOther pe ps n ig ft s0 = exparseOther pe ps n ig ft s.
Proof.
  intro H. unfold exparseOther, bind.
  now rewrite H, (currentToken_again _ _ _ _ H).
Qed.

(** In [value!identifier] the identifier is the template argument and
    is left where it is: [exparseScopeTemplatization] returns the
    [TEMPLATIZE] node with the cursor on the identifier, which it has
    not passed, so that the token is met again by whatever parses
    next. *)
Theorem exparseScopeTemplatization_identifier :
  forall pe ps n ignore_newline filter_type s value s1 identifier rest,
    exparseOther pe ps (S n) ignore_newline filter_type s
    = Some (value, s1) ->
    cursor s1
    = khTokenType_DELIMITER khDelimiterToken_EXCLAMATION
      :: khTokenType_IDENTIFIER identifier :: rest ->
    exparseScopeTemplatization pe ps (S n) ignore_newline filter_type s
    = Some (khAstExpressionType_TEMPLATIZE value
              [khAstExpressionType_IDENTIFIER identifier],
            {| cursor := khTokenType_IDENTIFIER identifier :: rest;
               errors := errors s1 |}).
Proof.
  intros pe ps n ig ft s value s1 identifier rest Hother Hcursor.
  unfold exparseScopeTemplatization.
  destruct (currentToken ig s) as [[token s0]|] eqn:E;
    [|unfold currentToken in E;
      destruct (currentToken_from (cursor s) ig); discriminate E].
  unfold bind at 1. rewrite E.
  unfold bind at 1.
  rewrite (exparseOther_after_currentToken _ _ _ _ _ _ _ _ E), Hother.
  destruct s1 as [c1 e1]. cbn [cursor errors] in *. subst c1.
  cbn [exparseScopeTemplatization_loop]. run. destruct n; reflexivity.
Qed.

(** [t!u] and the line break behind it. *)
Lemma exparseScopeTemplatization_identifier_witness :
  exparseScopeTemplatization
    (kh_parseExpression 2) (kh_parseAst 2) 2 false false
    (start [khTokenType_IDENTIFIER (codes "t");
            khTokenType_DELIMITER khDelimiterToken_EXCLAMATION;
            khTokenType_IDENTIFIER (codes "u");
            khTokenType_NEWLINE])
  = Some (khAstExpressionType_TEMPLATIZE
            (khAstExpressionType_IDENTIFIER (codes "t"))
            [khAstExpressionType_IDENTIFIER (codes "u")],
          {| cursor := [khTokenType_IDENTIFIER (codes "u");
                        khTokenType_NEWLINE];
             errors := [] |}).
Proof.
  refine (exparseScopeTemplatization_identifier
            (kh_parseExpression 2) (kh_parseAst 2) 1 false false
            (start [khTokenType_IDENTIFIER (codes "t");
                    khTokenType_DELIMITER khDelimiterToken_EXCLAMATION;
                    khTokenType_IDENTIFIER (codes "u");
                    khTokenType_NEWLINE])
            (khAstExpressionType_IDENTIFIER (codes "t"))
            {| cursor := [khTokenType_DELIMITER khDelimiterToken_EXCLAMATION;
                          khTokenType_IDENTIFIER (codes "u");
                          khTokenType_NEWLINE];
               errors := [] |}
            (codes "u") [khTokenType_NEWLINE] _ _).
  - vm_compute. reflexivity.
  - reflexivity.
Defined.

(** *** Import and include statements *)

Lemma sparsePath_loop_names k :
  forall others path token tail e,
    List.length others <= k ->
    is_delimiter token khDelimiterToken_DOT = false ->
    is_COMMENT token = false ->
    sparsePath_loop k
      (hd token (path_tokens others ++ token :: tail)) path
      {| cursor := path_tokens others ++ token :: tail; errors := e |}
    = Some (path ++ others, token,
            {| cursor := token :: tail; errors := e |}).
Proof.
  induction k as [|k IH]; intros others path token tail e Hk Hdot Hcomment.
  - destruct others; [|simpl in Hk; lia].
    cbn [path_tokens flat_map app hd sparsePath_loop].
    rewrite Hdot, app_nil_r. reflexivity.
  - destruct others as [|name others].
    + cbn [path_tokens flat_map app hd sparsePath_loop].
      rewrite Hdot, app_nil_r. reflexivity.
    + cbn [path_tokens flat_map app hd sparsePath_loop]. run.
      fold (path_tokens others).
      specialize (IH others (path ++ [name]) token tail e
                    ltac:(simpl in Hk; lia) Hdot Hcomment).
      rewrite <- app_assoc in IH. cbn [app] in IH.
      destruct others as [|name' others'].
      * cbn [path_tokens flat_map app hd] in *. run.
        rewrite Hcomment. cbn [orb]. rewrite andb_false_r. exact IH.
      * cbn [path_tokens flat_map app hd] in *. run. exact IH.
Qed.

Lemma currentToken_on ig token c e :
  passed_over ig token = false ->
  currentToken ig {| cursor := token :: c; errors := e |}
  = Some (token, {| cursor := token :: c; errors := e |}).
Proof.
  unfold passed_over, currentToken. intro H.
  cbn [cursor errors currentToken_from]. now rewrite H.
Qed.

Lemma skipToken_on ig token c e :
  passed_over ig token = false ->
  skipToken ig {| cursor := token :: c; errors := e |}
  = Some (tt, {| cursor := c; errors := e |}).
Proof.
  unfold passed_over, skipToken. intro H.
  cbn [cursor errors currentToken_from]. now rewrite H.
Qed.

Lemma currentToken_path others token tail e :
  is_COMMENT token = false ->
  currentToken false
    {| cursor := path_tokens others ++ token :: tail; errors := e |}
  = Some (hd token (path_tokens others ++ token :: tail),
          {| cursor := path_tokens others ++ token :: tail; errors := e |}).
Proof.
  intro Hcomment. destruct others as [|name others];
    cbn [path_tokens flat_map app hd]; apply currentToken_on;
    unfold passed_over; [|reflexivity].
  rewrite Hcomment. cbn [orb]. apply andb_false_r.
Qed.

Lemma bind_run {A B} (m : M A) (k : A -> M B) s a s1 :
  m s = Some (a, s1) -> bind m k s = k a s1.
Proof. unfold bind. now intros ->. Qed.

Lemma bind_assoc {A B C} (m : M A) (f : A -> M B) (g : B -> M C) s :
  bind (bind m f) g s = bind m (fun a => bind (f a) g) s.
Proof. unfold bind. now destruct (m s) as [[a s1]|]. Qed.

Lemma bind_ret {A B} (a : A) (k : A -> M B) s : bind (ret a) k s = k a s.
Proof. reflexivity. Qed.

(* One step of a run on tokens that are known. *)
Ltac step :=
  cbv beta iota;
  cbn [is_delimiter is_keyword is_operator khDelimiterToken_beq
       khKeywordToken_beq khOperatorToken_beq];
  lazymatch goal with
  | |- bind (bind _ _) _ _ = _ => rewrite bind_assoc
  | |- bind (ret _) _ _ = _ => rewrite bind_ret
  | |- bind (skipToken _) _ _ = _ =>
      erewrite bind_run by (apply skipToken_on; reflexivity)
  | |- bind (currentToken _) _ _ = _ =>
      first
        [ erewrite bind_run by (apply currentToken_on; reflexivity)
        | erewrite bind_run by (apply currentToken_path; assumption)
        | erewrite bind_run by (apply currentToken_on; assumption) ]
  end.

(** The part of [sparseImport] and [sparseInclude] that reads the
    path, from its first token. *)
Lemma sparsePath_names n relative first others token tail e message :
  List.length others <= n ->
  is_delimiter token khDelimiterToken_DOT = false ->
  is_COMMENT token = false ->
  sparsePath n (hd khTokenType_EOF (module_tokens relative first others))
    message
    {| cursor := module_tokens relative first others ++ token :: tail;
       errors := e |}
  = Some (first :: others, relative, token,
          {| cursor := token :: tail; errors := e |}).
Proof.
  intros Hn Hdot Hcomment. unfold sparsePath, module_tokens.
  destruct relative; cbn [app hd]; repeat step;
    rewrite (bind_run _ _ _ _ _
               (sparsePath_loop_names n others [first] token tail e Hn Hdot
                  Hcomment));
    reflexivity.
Qed.

Lemma statement_end_terminator terminator rest e :
  In terminator terminators ->
  statement_end terminator {| cursor := terminator :: rest; errors := e |}
  = Some (tt, {| cursor := rest; errors := e |}).
Proof.
  intros [<-|[<-|[]]]; reflexivity.
Qed.

Lemma terminator_not_DOT terminator :
  In terminator terminators ->
  is_delimiter terminator khDelimiterToken_DOT = false
  /\ is_COMMENT terminator = false
  /\ is_keyword terminator khKeywordToken_AS = false.
Proof. intros [<-|[<-|[]]]; repeat split. Qed.

(** An import statement is read as it is written: from the tokens of
    [import], a path of names separated by dots, with a dot before it
    where the path is relative, an alias behind [as] where there is
    one, and a line break or a semicolon, [kh_parseAst] returns the
    [IMPORT] node of the names in order, the relative flag and the
    alias; it passes the tokens of the statement with its terminator
    and raises no diagnostic. *)
Theorem kh_parseAst_import :
  forall fuel relative first others optional_alias terminator rest e,
    List.length others <= fuel ->
    In terminator terminators ->
    kh_parseAst (S fuel)
      {| cursor :=
           khTokenType_KEYWORD khKeywordToken_IMPORT
           :: module_tokens relative first others
              ++ alias_tokens optional_alias ++ terminator :: rest;
         errors := e |}
    = Some (khAstType_IMPORT (first :: others) relative optional_alias,
            {| cursor := rest; errors := e |}).
Proof.
  intros fuel relative first others optional_alias terminator rest e
    Hfuel Hterminator.
  destruct (terminator_not_DOT _ Hterminator) as (Hdot & Hcomment & Has).
  cbn [kh_parseAst]. unfold sparseStatement. step.
  unfold sparseImport. repeat step.
  assert (Hfirst : forall tail,
             currentToken false
               {| cursor := module_tokens relative first others ++ tail;
                  errors := e |}
             = Some (hd khTokenType_EOF (module_tokens relative first others),
                     {| cursor := module_tokens relative first others ++ tail;
                        errors := e |}))
    by (intro tail; destruct relative; reflexivity).
  rewrite (bind_run _ _ _ _ _ (Hfirst _)).
  destruct optional_alias as [alias|]; cbn [alias_tokens app].
  - erewrite bind_run
      by (apply (sparsePath_names fuel relative first others
                   (khTokenType_KEYWORD khKeywordToken_AS));
          [exact Hfuel | reflexivity | reflexivity]).
    repeat step.
    erewrite bind_run
      by (apply currentToken_on; unfold passed_over;
          rewrite Hcomment; apply andb_false_r).
    repeat step.
    rewrite (bind_run _ _ _ _ _
               (statement_end_terminator _ _ _ Hterminator)).
    reflexivity.
  - erewrite bind_run
      by (apply (sparsePath_names fuel relative first others terminator);
          assumption).
    cbv beta iota. rewrite Has. repeat step.
    rewrite (bind_run _ _ _ _ _
               (statement_end_terminator _ _ _ Hterminator)).
    reflexivity.
Qed.

(** [import .a.b as c] and a line break. *)
Lemma kh_parseAst_import_witness :
  kh_parseAst 2
    {| cursor :=
         khTokenType_KEYWORD khKeywordToken_IMPORT
         :: module_tokens true (codes "a") [codes "b"]
            ++ alias_tokens (Some (codes "c"))
            ++ khTokenType_NEWLINE :: [khTokenType_IDENTIFIER (codes "x")];
       errors := ["earlier"] |}
  = Some (khAstType_IMPORT [codes "a"; codes "b"] true (Some (codes "c")),
          {| cursor := [khTokenType_IDENTIFIER (codes "x")];
             errors := ["earlier"] |}).
Proof.
  apply (kh_parseAst_import 1 true (codes "a") [codes "b"]
           (Some (codes "c")) khTokenType_NEWLINE
           [khTokenType_IDENTIFIER (codes "x")] ["earlier"]).
  - simpl. lia.
  - simpl. now left.
Defined.

(** An include statement is read as it is written: from the tokens of
    [include], a path and a line break or a semicolon, [kh_parseAst]
    returns the [INCLUDE] node of the names in order and the relative
    flag, passes the statement with its terminator and raises no
    diagnostic. *)
Theorem kh_parseAst_include :
  forall fuel relative first others terminator rest e,
    List.length others <= fuel ->
    In terminator terminators ->
    kh_parseAst (S fuel)
      {| cursor :=
           khTokenType_KEYWORD khKeywordToken_INCLUDE
           :: module_tokens relative first others ++ terminator :: rest;
         errors := e |}
    = Some (khAstType_INCLUDE (first :: others) relative,
            {| cursor := rest; errors := e |}).
Proof.
  intros fuel relative first others terminator rest e Hfuel Hterminator.
  destruct (terminator_not_DOT _ Hterminator) as (Hdot & Hcomment & Has).
  cbn [kh_parseAst]. unfold sparseStatement. step.
  unfold sparseInclude. repeat step.
  assert (Hfirst : forall tail,
             currentToken false
               {| cursor := module_tokens relative first others ++ tail;
                  errors := e |}
             = Some (hd khTokenType_EOF (module_tokens relative first others),
                     {| cursor := module_tokens relative first others ++ tail;
                        errors := e |}))
    by (intro tail; destruct relative; reflexivity).
  rewrite (bind_run _ _ _ _ _ (Hfirst _)).
  erewrite bind_run
    by (apply (sparsePath_names fuel relative first others terminator);
        assumption).
  cbv beta iota.
  rewrite (bind_run _ _ _ _ _
             (statement_end_terminator _ _ _ Hterminator)).
  reflexivity.
Qed.

(** [include a.b.c;] *)
Lemma kh_parseAst_include_witness :
  kh_parseAst 3
    {| cursor :=
         khTokenType_KEYWORD khKeywordToken_INCLUDE
         :: module_tokens false (codes "a") [codes "b"; codes "c"]
            ++ khTokenType_DELIMITER khDelimiterToken_SEMICOLON :: [];
       errors := [] |}
  = Some (khAstType_INCLUDE [codes "a"; codes "b"; codes "c"] false,
          {| cursor := []; errors := [] |}).
Proof.
  apply (kh_parseAst_include 2 false (codes "a") [codes "b"; codes "c"]
           (khTokenType_DELIMITER khDelimiterToken_SEMICOLON) [] []).
  - simpl. lia.
  - simpl. right. now left.
Defined.

(** *** Chains of conditionals *)

Lemma exparseTernary_loop_chain pe ps n ig :
  forall links k rest value e e',
    List.length links <= k ->
    conditionals_read (exparseLogicalOr pe ps n ig false) links rest e e' ->
    is_keyword (fst (currentToken_from rest ig)) khKeywordToken_IF = false ->
    exparseTernary_loop pe ps n k ig false
      (fst (currentToken_from (conditional_tokens links ++ rest) ig)) value
      {| cursor := snd (currentToken_from (conditional_tokens links ++ rest) ig);
         errors := e |}
    = Some (fold_left
              (fun value link =>
                 khAstExpressionType_TERNARY value (snd (fst (fst link)))
                   (snd link))
              links value,
            {| cursor := snd (currentToken_from rest ig); errors := e' |}).
Proof.
  induction links as [|[[[condition_tokens condition] otherwise_tokens]
                          otherwise] links IH];
    intros k rest value e e' Hk Hread Hend.
  - cbn [conditional_tokens app conditionals_read fold_left] in *. subst e'.
    destruct (currentToken_from rest ig) as [token c]. cbn [fst snd] in *.
    destruct k; cbn [exparseTernary_loop]; now rewrite Hend.
  - destruct Hread as (e1 & e2 & Hcondition & Hotherwise & Hread).
    destruct k as [|k]; [simpl in Hk; lia|].
    cbn [conditional_tokens app].
    cbn [currentToken_from is_COMMENT is_NEWLINE andb orb fst snd
         exparseTernary_loop is_keyword khKeywordToken_beq].
    run. rewrite <- !app_assoc. cbn [app]. rewrite <- !app_assoc.
    rewrite Hcondition. run. rewrite Hotherwise. run.
    specialize (IH k rest
                  (khAstExpressionType_TERNARY value condition otherwise)
                  e2 e' ltac:(simpl in Hk; lia) Hread Hend).
    destruct (currentToken_from (conditional_tokens links ++ rest) ig)
      as [token c]. cbn [fst snd] in IH.
    exact IH.
Qed.

(** Conditionals nest to the left, whatever the length of the chain.
    When [exparseLogicalOr] reads the first value [x] and then the
    condition and the alternative of each link of a chain
    [if c1 else a1 if c2 else a2 ...], and what follows is no [if],
    [exparseTernary] returns
    TERNARY(.. TERNARY(TERNARY(x, c1, a1), c2, a2) .., ck, ak): the
    conditional before is the value of the one behind it. *)
Theorem exparseTernary_left_nested :
  forall pe ps n ignore_newline first x links rest token e0 e1 e2,
    List.length links <= n ->
    currentToken_from (first ++ conditional_tokens links ++ rest)
      ignore_newline
    = (token, first ++ conditional_tokens links ++ rest) ->
    exparseLogicalOr pe ps n ignore_newline false
      {| cursor := first ++ conditional_tokens links ++ rest; errors := e0 |}
    = Some (x, {| cursor := conditional_tokens links ++ rest;
                  errors := e1 |}) ->
    conditionals_read (exparseLogicalOr pe ps n ignore_newline false) links
      rest e1 e2 ->
    is_keyword (fst (currentToken_from rest ignore_newline))
      khKeywordToken_IF = false ->
    exparseTernary pe ps n ignore_newline false
      {| cursor := first ++ conditional_tokens links ++ rest; errors := e0 |}
    = Some (fold_left
              (fun value link =>
                 khAstExpressionType_TERNARY value (snd (fst (fst link)))
                   (snd link))
              links x,
            {| cursor := snd (currentToken_from rest ignore_newline);
               errors := e2 |}).
Proof.
  intros pe ps n ig first x links rest token e0 e1 e2 Hn Hfirst Hx Hread
    Hend.
  unfold exparseTernary. run. rewrite Hfirst. run. rewrite Hx. run.
  pose proof (exparseTernary_loop_chain pe ps n ig links n rest x e1 e2 Hn
                Hread Hend) as Hloop.
  destruct (currentToken_from (conditional_tokens links ++ rest) ig)
    as [t c].
  exact Hloop.
Qed.

(** [a if b else c if d else f]. *)
Lemma exparseTernary_left_nested_witness :
  let a := khAstExpressionType_IDENTIFIER (codes "a") in
  let b := khAstExpressionType_IDENTIFIER (codes "b") in
  let c := khAstExpressionType_IDENTIFIER (codes "c") in
  let d := khAstExpressionType_IDENTIFIER (codes "d") in
  let f := khAstExpressionType_IDENTIFIER (codes "f") in
  exparseTernary (kh_parseExpression 2) (kh_parseAst 2) 2 false false
    (start [khTokenType_IDENTIFIER (codes "a");
            khTokenType_KEYWORD khKeywordToken_IF;
            khTokenType_IDENTIFIER (codes "b");
            khTokenType_KEYWORD khKeywordToken_ELSE;
            khTokenType_IDENTIFIER (codes "c");
            khTokenType_KEYWORD khKeywordToken_IF;
            khTokenType_IDENTIFIER (codes "d");
            khTokenType_KEYWORD khKeywordToken_ELSE;
            khTokenType_IDENTIFIER (codes "f")])
  = Some (khAstExpressionType_TERNARY
            (khAstExpressionType_TERNARY a b c) d f,
          start []).
Proof.
  cbv zeta.
  apply (exparseTernary_left_nested
           (kh_parseExpression 2) (kh_parseAst 2) 2 false
           [khTokenType_IDENTIFIER (codes "a")]
           (khAstExpressionType_IDENTIFIER (codes "a"))
           [ ([khTokenType_IDENTIFIER (codes "b")],
              khAstExpressionType_IDENTIFIER (codes "b"),
              [khTokenType_IDENTIFIER (codes "c")],
              khAstExpressionType_IDENTIFIER (codes "c"));
             ([khTokenType_IDENTIFIER (codes "d")],
              khAstExpressionType_IDENTIFIER (codes "d"),
              [khTokenType_IDENTIFIER (codes "f")],
              khAstExpressionType_IDENTIFIER (codes "f")) ]
           [] (khTokenType_IDENTIFIER (codes "a")) [] [] []).
  - simpl. lia.
  - reflexivity.
  - reflexivity.
  - exists [], []. split; [reflexivity|]. split; [reflexivity|].
    exists [], []. split; [reflexivity|]. split; reflexivity.
  - reflexivity.
Defined.

(** *** The members of an enum *)

Lemma sparseEnum_loop_members k :
  forall token members members' token' s s',
    sparseEnum_loop k token members s = Some (members', token', s') ->
    List.length members'
    <= List.length members + (if is_IDENTIFIER token then 1 else 0).
Proof.
  induction k as [|k IH]; intros token members members' token' s s' H;
    cbn [sparseEnum_loop] in H; [discriminate H|].
  peel H. peel H. peel H.
  assert (Hfirst : List.length a
                   <= List.length members
                      + (if is_IDENTIFIER token then 1 else 0)).
  { destruct token; cbn [is_IDENTIFIER]; peel_all; repeat cursor_step;
      rewrite ?length_app; simpl; lia. }
  split_if H.
  - apply IH in H.
    destruct a1; try discriminate. cbn [is_IDENTIFIER] in H. lia.
  - cursor_step. exact Hfirst.
Qed.

(** An enum never has more than one member.  The loop over the members
    is entered again on the comma, with the comma as the token it
    takes for a member: so the comma is reported and passed, the name
    behind it ends the loop, and no member but the first is ever
    stored in the node. *)
Theorem sparseEnum_one_member :
  forall fuel s ast s',
    kh_parseAst fuel s = Some (ast, s') ->
    is_keyword (next_token true s) khKeywordToken_ENUM = true ->
    exists name members,
      ast = khAstType_ENUM name members /\ List.length members <= 1.
Proof.
  intros [|fuel] s ast s' H Hstart; [discriminate H|].
  cbn [kh_parseAst] in H. unfold sparseStatement in H.
  first_token H Hstart.
  destruct a as [| | | | |keyword| | | | | | | | | | | | ];
    try discriminate Hstart.
  destruct keyword; try discriminate Hstart.
  unfold sparseEnum in H. peel H. peel H. peel H. peel H.
  match type of H with
  | (let '(_, _) := ?p in _) _ = _ => destruct p as [name token]
  end.
  peel H. cursor_step.
  match goal with
  | |- exists name members, khAstType_ENUM ?n ?m = _ /\ _ =>
      exists n, m; split; [reflexivity|]
  end.
  match goal with
  | E : (if _ then _ else _) _ = Some (_, _) |- _ =>
      split_if E; peel_all; repeat cursor_step; [|simpl; lia]
  end.
  match goal with
  | E : sparseEnum_loop _ _ _ _ = Some _ |- _ =>
      apply sparseEnum_loop_members in E; simpl in E;
      match type of E with
      | context [if ?b then _ else _] => destruct b
      end; lia
  end.
Qed.

(** [enum E { a, b }]: the node has the member [a]. *)
Lemma sparseEnum_one_member_witness :
  exists name members,
    khAstType_ENUM (codes "E") [codes "a"] = khAstType_ENUM name members
    /\ List.length members <= 1.
Proof.
  refine (sparseEnum_one_member 3
            (start [khTokenType_KEYWORD khKeywordToken_ENUM;
                    khTokenType_IDENTIFIER (codes "E");
                    khTokenType_DELIMITER khDelimiterToken_CURLY_BRACKET_OPEN;
                    khTokenType_IDENTIFIER (codes "a");
                    khTokenType_DELIMITER khDelimiterToken_COMMA;
                    khTokenType_IDENTIFIER (codes "b");
                    khTokenType_DELIMITER khDelimiterToken_CURLY_BRACKET_CLOSE;
                    khTokenType_NEWLINE])
            _ {| cursor :=
                   [khTokenType_IDENTIFIER (codes "b");
                    khTokenType_DELIMITER khDelimiterToken_CURLY_BRACKET_CLOSE;
                    khTokenType_NEWLINE];
                 errors :=
                   ["expecting a member name";
                    "expecting a comma with another member or a closing curly bracket"]
              |} _ _).
  - vm_compute. reflexivity.
  - reflexivity.
Defined.

Lemma sparseEnum_loop_comma k :
  forall token members members' token' s s',
    is_IDENTIFIER token = false ->
    sparseEnum_loop k token members s = Some (members', token', s') ->
    members' = members /\ In "expecting a member name" (errors s').
Proof.
  induction k as [|k IH]; intros token members members' token' s s' Htoken H;
    cbn [sparseEnum_loop] in H; [discriminate H|].
  peel H. peel H. peel H.
  assert (Hfirst : a = members /\ In "expecting a member name" (errors s0)).
  { destruct token; try discriminate Htoken;
      unfold bind, raiseError, ret in E; injection E as <- <-;
      (split; [reflexivity|]); cbn [errors]; apply in_or_app; right;
      now left. }
  destruct Hfirst as [-> Hin].
  apply skipToken_length in E0. destruct E0 as [_ E0].
  apply currentToken_facts in E1. destruct E1 as (_ & _ & _ & E1 & _).
  split_if H.
  - apply IH in H; [exact H|]. now destruct a1.
  - unfold ret in H. injection H as <- <- <-.
    split; [reflexivity|]. now rewrite E1, E0.
Qed.

(** A comma behind the first member of an enum is always reported, and
    the members behind it are lost: whatever follows
    [enum name { first ,], when [kh_parseAst] returns, the node it
    returns has the one member [first] and the diagnostic
    [expecting a member name] is among the diagnostics, for the loop
    over the members is entered again with the comma as the token it
    takes for a member. *)
Theorem sparseEnum_comma_reported :
  forall fuel name first rest e ast s',
    kh_parseAst fuel
      {| cursor :=
           [khTokenType_KEYWORD khKeywordToken_ENUM;
            khTokenType_IDENTIFIER name;
            khTokenType_DELIMITER khDelimiterToken_CURLY_BRACKET_OPEN;
            khTokenType_IDENTIFIER first;
            khTokenType_DELIMITER khDelimiterToken_COMMA]
           ++ rest;
         errors := e |}
    = Some (ast, s') ->
    ast = khAstType_ENUM name [first]
    /\ In "expecting a member name" (errors s').
Proof.
  intros [|[|k]] name first rest e ast s' H; try discriminate H.
  change
    ((members <-
        ('(members, token) <-
           sparseEnum_loop k (khTokenType_DELIMITER khDelimiterToken_COMMA)
             [first] ;;
         (if is_delimiter token khDelimiterToken_CURLY_BRACKET_CLOSE then
            skipToken true
          else
            raiseError
              "expecting a comma with another member or a closing curly bracket") ;;
         ret members) ;;
      ret (khAstType_ENUM name members))%parser
       {| cursor := khTokenType_DELIMITER khDelimiterToken_COMMA :: rest;
          errors := e |}
     = Some (ast, s')) in H.
  peel H. peel E. destruct a0 as [members token]. peel E.
  unfold ret in E, H. injection E as <- <-. injection H as <- <-.
  apply sparseEnum_loop_comma in E0; [|reflexivity].
  destruct E0 as [-> Hin]. split; [reflexivity|].
  destruct (is_delimiter token khDelimiterToken_CURLY_BRACKET_CLOSE).
  - apply skipToken_length in E1. destruct E1 as [_ ->]. exact Hin.
  - unfold raiseError in E1. injection E1 as _ <-. cbn [errors].
    apply in_or_app. now left.
Qed.

(** [enum E { a, b }]. *)
Lemma sparseEnum_comma_reported_witness :
  khAstType_ENUM (codes "E") [codes "a"]
  = khAstType_ENUM (codes "E") [codes "a"]
  /\ In "expecting a member name"
        ["expecting a member name";
         "expecting a comma with another member or a closing curly bracket"].
Proof.
  refine (sparseEnum_comma_reported 3 (codes "E") (codes "a")
            [khTokenType_IDENTIFIER (codes "b");
             khTokenType_DELIMITER khDelimiterToken_CURLY_BRACKET_CLOSE;
             khTokenType_NEWLINE]
            [] (khAstType_ENUM (codes "E") [codes "a"])
            {| cursor :=
                 [khTokenType_IDENTIFIER (codes "b");
                  khTokenType_DELIMITER khDelimiterToken_CURLY_BRACKET_CLOSE;
                  khTokenType_NEWLINE];
               errors :=
                 ["expecting a member name";
                  "expecting a comma with another member or a closing curly bracket"]
            |} _).
  vm_compute. reflexivity.
Defined.

(** *** A closing parenthesis where an expression starts *)

Lemma extends_keeps e e' message :
  extends e e' -> In message e -> In message e'.
Proof. intros [new ->] H. apply in_or_app. now left. Qed.

Section Raises.

Variable pe : bool -> bool -> M khAstExpression.
Variable ps : M khAst.
Variable n : nat.

Hypothesis Hpe : forall ig ft, steady (pe ig ft).
Hypothesis Hps : steady ps.

#[local] Hint Resolve
  steady_ret
  steady_raiseError
  steady_raiseError_if
  steady_out_of_budget
  steady_get_cursor
  steady_currentToken
  steady_skipToken
  sparseSpecifiers_loop_steady
  sparseSpecifiers_steady
  exparseList_loop_steady
  exparseList_steady
  exparseDict_loop_steady
  exparseDict_steady
  exparseVariableDeclaration_steady
  exparseFunctionType_loop_steady
  exparseFunctionType_steady
  sparseBlock_loop_steady
  sparseBlock_steady
  sparseFunctionOrLambda_arguments_steady
  sparseFunctionOrLambda_steady
  exparseLambda_steady
  exparseOther_constant_steady
  exparseOther_steady
  exparseScope_names_steady
  exparseScopeTemplatization_loop_steady
  exparseScopeTemplatization_steady
  exparseReverseUnary_loop_steady
  exparseReverseUnary_steady
  RCD_UNARY_CASE_steady
  exparseUnary_rec_steady
  exparseUnary_steady
  RCD_BINARY_loop_steady
  binary_level_steady
  exparsePow_steady
  exparseMulDivMod_steady
  exparseAddSub_steady
  exparseBitwiseShifts_steady
  exparseBitwiseAnd_steady
  exparseBitwiseXor_steady
  exparseBitwiseOr_steady
  exparseComparisonOperators_loop_steady
  exparseComparisonOperators_steady
  exparseLogicalNot_rec_steady
  exparseLogicalNot_steady
  exparseLogicalAnd_steady
  exparseLogicalXor_steady
  exparseLogicalOr_steady
  exparseTernary_loop_steady
  exparseTernary_steady
  exparseInplaceOperators_steady
  statement_end_steady
  sparsePath_loop_steady
  sparsePath_steady
  sparseImport_steady
  sparseInclude_steady
  sparseFunction_steady
  sparseTemplateNames_loop_steady
  sparseClassOrStruct_steady
  sparseClass_steady
  sparseStruct_steady
  sparseEnum_loop_steady
  sparseEnum_steady
  sparseAlias_steady
  sparseIfBranch_loop_steady
  sparseIfBranch_steady
  sparseWhileLoop_steady
  sparseDoWhileLoop_steady
  sparseExpressions_loop_steady
  sparseForLoop_steady
  sparseBreak_steady
  sparseContinue_steady
  sparseReturn_steady
  sparseStatement_expression_steady
  sparseStatement_steady
  : kh_steady.

Local Notation "'closes'" :=
  (fun token => is_delimiter token khDelimiterToken_PARENTHESIS_CLOSE).
Local Notation "'unexpected'" := "unexpected token in an expression".

Lemma exparseOther_raises ig ft :
  raises closes ig unexpected (exparseOther pe ps n ig ft).
Proof.
  intros s a s' H Hstart. unfold exparseOther in H.
  first_token H Hstart.
  destruct a0 as [| | | | | |delimiter| | | | | | | | | | | ];
    try discriminate Hstart.
  destruct delimiter; try discriminate Hstart.
  peel H. peel H. unfold raiseError in E0. injection E0 as _ <-.
  apply skipToken_length in E1. destruct E1 as [_ E1].
  unfold ret in H. injection H as _ <-. rewrite E1. cbn [errors].
  apply in_or_app. right. now left.
Qed.

(** The frame the expression levels share: what the level below has
    raised stays. *)
Lemma frame_raises {A B : Type} (LOWER : M A) (rest : A -> M B) ig :
  raises closes ig unexpected LOWER ->
  (forall a, steady (rest a)) ->
  raises closes ig unexpected
    (_ <- currentToken ig ;; a <- LOWER ;; rest a)%parser.
Proof.
  intros HLOWER Hrest s b s' H Hstart.
  first_token H Hstart. peel H.
  pose proof (currentToken_facts _ _ _ _ E) as (_ & Fnext & _).
  pose proof (HLOWER _ _ _ E0) as Hin. cbv beta in Hin.
  rewrite Fnext in Hin. specialize (Hin Hstart).
  apply Hrest in H. destruct H as [_ H].
  exact (extends_keeps _ _ _ H Hin).
Qed.

Lemma exparseScopeTemplatization_raises ig ft :
  raises closes ig unexpected (exparseScopeTemplatization pe ps n ig ft).
Proof.
  unfold exparseScopeTemplatization.
  apply frame_raises; [apply exparseOther_raises | intro; solve_steady].
Qed.

Lemma exparseReverseUnary_raises ig ft :
  raises closes ig unexpected (exparseReverseUnary pe ps n ig ft).
Proof.
  unfold exparseReverseUnary.
  apply frame_raises;
    [apply exparseScopeTemplatization_raises | intro; solve_steady].
Qed.

Lemma exparseUnary_rec_raises k ig ft :
  raises closes ig unexpected (exparseUnary_rec pe ps n k ig ft).
Proof.
  intros s a s' H Hstart.
  destruct k as [|k]; cbn [exparseUnary_rec] in H;
    (destruct ft; [exact (exparseReverseUnary_raises _ _ _ _ _ H Hstart)|]);
    peel H;
    pose proof (currentToken_facts _ _ _ _ E) as (Ffirst & Fnext & _);
    rewrite Ffirst in Hstart;
    destruct a0 as [| | | | | |delimiter| | | | | | | | | | | ];
    try discriminate Hstart;
    apply (exparseReverseUnary_raises _ _ _ _ _ H);
    cbv beta; now rewrite Fnext.
Qed.

Lemma exparseUnary_raises ig ft :
  raises closes ig unexpected (exparseUnary pe ps n ig ft).
Proof. apply exparseUnary_rec_raises. Qed.

Lemma binary_level_raises LOWER cases ig ft :
  (forall ig ft, steady (LOWER ig ft)) ->
  (forall ig ft, raises closes ig unexpected (LOWER ig ft)) ->
  raises closes ig unexpected (binary_level n LOWER cases ig ft).
Proof.
  intros Hsteady HLOWER. unfold binary_level.
  apply frame_raises; [apply HLOWER | intro; solve_steady].
Qed.

Lemma exparsePow_raises ig ft :
  raises closes ig unexpected (exparsePow pe ps n ig ft).
Proof.
  unfold exparsePow, RCD_BINARY.
  apply binary_level_raises;
    [ intros; now apply exparseUnary_steady
    | apply exparseUnary_raises ].
Qed.

Lemma exparseMulDivMod_raises ig ft :
  raises closes ig unexpected (exparseMulDivMod pe ps n ig ft).
Proof.
  unfold exparseMulDivMod, RCD_BINARY.
  apply binary_level_raises;
    [ intros; now apply exparsePow_steady
    | apply exparsePow_raises ].
Qed.

Lemma exparseAddSub_raises ig ft :
  raises closes ig unexpected (exparseAddSub pe ps n ig ft).
Proof.
  unfold exparseAddSub, RCD_BINARY.
  apply binary_level_raises;
    [ intros; now apply exparseMulDivMod_steady
    | apply exparseMulDivMod_raises ].
Qed.

Lemma exparseBitwiseShifts_raises ig ft :
  raises closes ig unexpected (exparseBitwiseShifts pe ps n ig ft).
Proof.
  unfold exparseBitwiseShifts, RCD_BINARY.
  apply binary_level_raises;
    [ intros; now apply exparseAddSub_steady
    | apply exparseAddSub_raises ].
Qed.

Lemma exparseBitwiseAnd_raises ig ft :
  raises closes ig unexpected (exparseBitwiseAnd pe ps n ig ft).
Proof.
  unfold exparseBitwiseAnd, RCD_BINARY.
  apply binary_level_raises;
    [ intros; now apply exparseBitwiseShifts_steady
    | apply exparseBitwiseShifts_raises ].
Qed.

Lemma exparseBitwiseXor_raises ig ft :
  raises closes ig unexpected (exparseBitwiseXor pe ps n ig ft).
Proof.
  unfold exparseBitwiseXor, RCD_BINARY.
  apply binary_level_raises;
    [ intros; now apply exparseBitwiseAnd_steady
    | apply exparseBitwiseAnd_raises ].
Qed.

Lemma exparseBitwiseOr_raises ig ft :
  raises closes ig unexpected (exparseBitwiseOr pe ps n ig ft).
Proof.
  unfold exparseBitwiseOr, RCD_BINARY.
  apply binary_level_raises;
    [ intros; now apply exparseBitwiseXor_steady
    | apply exparseBitwiseXor_raises ].
Qed.

Lemma exparseComparisonOperators_raises ig ft :
  raises closes ig unexpected (exparseComparisonOperators pe ps n ig ft).
Proof.
  unfold exparseComparisonOperators.
  apply frame_raises;
    [apply exparseBitwiseOr_raises | intro; solve_steady].
Qed.

Lemma exparseLogicalNot_rec_raises k ig ft :
  raises closes ig unexpected (exparseLogicalNot_rec pe ps n k ig ft).
Proof.
  intros s a s' H Hstart.
  destruct k as [|k]; cbn [exparseLogicalNot_rec] in H;
    (destruct ft;
     [exact (exparseComparisonOperators_raises _ _ _ _ _ H Hstart)|]);
    peel H;
    pose proof (currentToken_facts _ _ _ _ E) as (Ffirst & Fnext & _);
    rewrite Ffirst in Hstart;
    destruct a0 as [| | | | | |delimiter| | | | | | | | | | | ];
    try discriminate Hstart;
    apply (exparseComparisonOperators_raises _ _ _ _ _ H);
    cbv beta; now rewrite Fnext.
Qed.

Lemma exparseLogicalNot_raises ig ft :
  raises closes ig unexpected (exparseLogicalNot pe ps n ig ft).
Proof. apply exparseLogicalNot_rec_raises. Qed.

Lemma exparseLogicalAnd_raises ig ft :
  raises closes ig unexpected (exparseLogicalAnd pe ps n ig ft).
Proof.
  unfold exparseLogicalAnd, RCD_BINARY.
  apply binary_level_raises;
    [ intros; now apply exparseLogicalNot_steady
    | apply exparseLogicalNot_raises ].
Qed.

Lemma exparseLogicalXor_raises ig ft :
  raises closes ig unexpected (exparseLogicalXor pe ps n ig ft).
Proof.
  unfold exparseLogicalXor, RCD_BINARY.
  apply binary_level_raises;
    [ intros; now apply exparseLogicalAnd_steady
    | apply exparseLogicalAnd_raises ].
Qed.

Lemma exparseLogicalOr_raises ig ft :
  raises closes ig unexpected (exparseLogicalOr pe ps n ig ft).
Proof.
  unfold exparseLogicalOr, RCD_BINARY.
  apply binary_level_raises;
    [ intros; now apply exparseLogicalXor_steady
    | apply exparseLogicalXor_raises ].
Qed.

Lemma exparseTernary_raises ig ft :
  raises closes ig unexpected (exparseTernary pe ps n ig ft).
Proof.
  unfold exparseTernary.
  apply frame_raises; [apply exparseLogicalOr_raises | intro; solve_steady].
Qed.

Lemma exparseInplaceOperators_raises ig ft :
  raises closes ig unexpected (exparseInplaceOperators pe ps n ig ft).
Proof.
  unfold exparseInplaceOperators, RCD_BINARY.
  apply binary_level_raises;
    [ intros; now apply exparseTernary_steady
    | apply exparseTernary_raises ].
Qed.

End Raises.

Lemma kh_parseExpression_raises fuel ig ft :
  raises (fun token => is_delimiter token khDelimiterToken_PARENTHESIS_CLOSE)
    ig "unexpected token in an expression" (kh_parseExpression fuel ig ft).
Proof.
  destruct fuel as [|fuel]; [intros s a s' H; discriminate H|].
  pose proof (kh_parse_steady fuel) as [He Hs].
  cbn [kh_parseExpression]. now apply exparseInplaceOperators_raises.
Qed.

(** *** The element behind a trailing comma *)

Lemma currentToken_stands ig c token e :
  currentToken_from c ig = (token, c) ->
  currentToken ig {| cursor := c; errors := e |}
  = Some (token, {| cursor := c; errors := e |}).
Proof. unfold currentToken. cbn [cursor errors]. now intros ->. Qed.

(* One step, in a hypothesis, of a run on tokens that are known. *)
Ltac step_in H :=
  cbv beta iota in H;
  cbn [is_delimiter is_keyword is_operator khDelimiterToken_beq
       khKeywordToken_beq khOperatorToken_beq] in H;
  lazymatch type of H with
  | bind (bind _ _) _ _ = _ => rewrite bind_assoc in H
  | bind (ret _) _ _ = _ => rewrite bind_ret in H
  | bind (skipToken _) _ _ = _ =>
      erewrite bind_run in H by (apply skipToken_on; reflexivity)
  | bind (currentToken _) _ _ = _ =>
      first
        [ erewrite bind_run in H by (apply currentToken_on; reflexivity)
        | erewrite bind_run in H by (apply currentToken_stands; eassumption) ]
  end.

Lemma exparseList_loop_keeps pe closing ft k :
  forall expressions s values s',
    exparseList_loop pe k closing ft expressions s = Some (values, s') ->
    exists more, values = expressions ++ more.
Proof.
  induction k as [|k IH]; intros expressions s values s' H;
    cbn [exparseList_loop] in H; [discriminate H|].
  peel H. peel H. split_if H; [|split_if H].
  - peel H. peel H. apply IH in H. destruct H as [more ->].
    exists (a :: more). now rewrite <- app_assoc.
  - peel H. unfold ret in H. injection H as <- _. now exists [a].
  - peel H. unfold ret in H. injection H as <- _. now exists [a].
Qed.

(** On [( tx , )] the element parser is run on the closing parenthesis
    for a second element, and what it returns there is the second
    element of the tuple. *)
Lemma exparseOther_trailing_comma_run pe ps n ig ft tx rest x tokx e0 e1 r s' :
  currentToken_from (tx ++ tok_comma :: tok_close :: rest) true
  = (tokx, tx ++ tok_comma :: tok_close :: rest) ->
  is_delimiter tokx khDelimiterToken_PARENTHESIS_CLOSE = false ->
  pe true ft
    {| cursor := tx ++ tok_comma :: tok_close :: rest; errors := e0 |}
  = Some (x, {| cursor := tok_comma :: tok_close :: rest; errors := e1 |}) ->
  exparseOther pe ps n ig ft
    {| cursor := tok_open :: tx ++ tok_comma :: tok_close :: rest;
       errors := e0 |}
  = Some (r, s') ->
  exists y s2 more,
    pe true ft {| cursor := tok_close :: rest; errors := e1 |} = Some (y, s2)
    /\ r = khAstExpressionType_TUPLE (x :: y :: more)
    /\ ((forall ig ft, steady (pe ig ft)) ->
        extends (errors s2) (errors s')).
Proof.
  intros Hx Hnot Hpx H.
  unfold exparseOther in H. step_in H. cbv beta iota in H.
  unfold exparseList in H. repeat step_in H.
  cbv beta iota in H. rewrite Hnot in H.
  destruct n as [|[|k]]; cbn [exparseList_loop] in H.
  - discriminate H.
  - rewrite bind_assoc in H. rewrite (bind_run _ _ _ _ _ Hpx) in H.
    repeat step_in H. discriminate H.
  - rewrite bind_assoc in H. rewrite (bind_run _ _ _ _ _ Hpx) in H.
    repeat step_in H.
    peel H. exists a, s.
    assert (Hrest : (forall ig ft, steady (pe ig ft)) ->
                    extends (errors s) (errors s')).
    { intro Hpe.
      pose proof (exparseList_loop_steady pe Hpe) as Hloop.
      match type of H with
      | ?m s = Some _ =>
          assert (Hsteady : steady m) by solve_steady;
          exact (proj2 (Hsteady _ _ _ H))
      end. }
    peel H. peel E0.
    assert (Hvalues : exists more, a0 = x :: a :: more).
    { split_if E0; [|split_if E0].
      - peel E0. peel E0. apply exparseList_loop_keeps in E0.
        destruct E0 as [more ->]. now exists more.
      - peel E0. unfold ret in E0. injection E0 as <- _. now exists [].
      - peel E0. unfold ret in E0. injection E0 as <- _. now exists []. }
    destruct Hvalues as [more ->].
    unfold ret in H. injection H as <- _.
    exists more. split; [exact E|]. split; [reflexivity | exact Hrest].
Qed.

(** C9, as the code has it.  Let the expression parser, in the mode
    that ignores newlines, read [x] from the tokens [tx] up to what
    follows them, and [y] from [ty] likewise, each element starting on
    a token that counts and [tx] not on a closing parenthesis.  Then
    on [( tx )], [exparseOther] returns [x] itself, and on [( tx , ty
    )] it returns TUPLE [x; y]; in both cases the cursor is left past
    the closing parenthesis and the diagnostics are those the elements
    left, none being added.  A trailing comma is not accepted: on
    [( tx , )] the expression parser is run on the closing parenthesis
    for a second element, and whenever [exparseOther] returns, the
    result is the TUPLE of [x], of what the expression parser returned
    there and of the elements read after it, never the tuple of [x]
    alone; and with [kh_parseExpression] for the expression parser,
    the diagnostic [unexpected token in an expression] is among the
    diagnostics. *)
Theorem exparseOther_parentheses :
  (forall pe ps n ignore_newline filter_type,
      (2 <= n)%nat ->
      (forall tx rest x tokx e0 e1,
          currentToken_from (tx ++ tok_close :: rest) true
          = (tokx, tx ++ tok_close :: rest) ->
          is_delimiter tokx khDelimiterToken_PARENTHESIS_CLOSE = false ->
          pe true filter_type
            {| cursor := tx ++ tok_close :: rest; errors := e0 |}
          = Some (x, {| cursor := tok_close :: rest; errors := e1 |}) ->
          exparseOther pe ps n ignore_newline filter_type
            {| cursor := tok_open :: tx ++ tok_close :: rest; errors := e0 |}
          = Some (x, {| cursor := rest; errors := e1 |}))
      /\ (forall tx ty rest x y tokx toky e0 e1 e2,
             currentToken_from (tx ++ tok_comma :: ty ++ tok_close :: rest)
               true
             = (tokx, tx ++ tok_comma :: ty ++ tok_close :: rest) ->
             is_delimiter tokx khDelimiterToken_PARENTHESIS_CLOSE = false ->
             pe true filter_type
               {| cursor := tx ++ tok_comma :: ty ++ tok_close :: rest;
                  errors := e0 |}
             = Some (x, {| cursor := tok_comma :: ty ++ tok_close :: rest;
                           errors := e1 |}) ->
             currentToken_from (ty ++ tok_close :: rest) true
             = (toky, ty ++ tok_close :: rest) ->
             pe true filter_type
               {| cursor := ty ++ tok_close :: rest; errors := e1 |}
             = Some (y, {| cursor := tok_close :: rest; errors := e2 |}) ->
             exparseOther pe ps n ignore_newline filter_type
               {| cursor :=
                    tok_open :: tx ++ tok_comma :: ty ++ tok_close :: rest;
                  errors := e0 |}
             = Some (khAstExpressionType_TUPLE [x; y],
                     {| cursor := rest; errors := e2 |}))
      /\ (forall tx rest x tokx e0 e1 r s',
             currentToken_from (tx ++ tok_comma :: tok_close :: rest) true
             = (tokx, tx ++ tok_comma :: tok_close :: rest) ->
             is_delimiter tokx khDelimiterToken_PARENTHESIS_CLOSE = false ->
             pe true filter_type
               {| cursor := tx ++ tok_comma :: tok_close :: rest;
                  errors := e0 |}
             = Some (x, {| cursor := tok_comma :: tok_close :: rest;
                           errors := e1 |}) ->
             exparseOther pe ps n ignore_newline filter_type
               {| cursor := tok_open :: tx ++ tok_comma :: tok_close :: rest;
                  errors := e0 |}
             = Some (r, s') ->
             exists y s2 more,
               pe true filter_type
                 {| cursor := tok_close :: rest; errors := e1 |}
               = Some (y, s2)
               /\ r = khAstExpressionType_TUPLE (x :: y :: more)))
  /\ (forall fuel ignore_newline filter_type tx rest x tokx e0 e1 r s',
         currentToken_from (tx ++ tok_comma :: tok_close :: rest) true
         = (tokx, tx ++ tok_comma :: tok_close :: rest) ->
         is_delimiter tokx khDelimiterToken_PARENTHESIS_CLOSE = false ->
         kh_parseExpression fuel true filter_type
           {| cursor := tx ++ tok_comma :: tok_close :: rest; errors := e0 |}
         = Some (x, {| cursor := tok_comma :: tok_close :: rest;
                       errors := e1 |}) ->
         exparseOther (kh_parseExpression fuel) (kh_parseAst fuel) fuel
           ignore_newline filter_type
           {| cursor := tok_open :: tx ++ tok_comma :: tok_close :: rest;
              errors := e0 |}
         = Some (r, s') ->
         In "unexpected token in an expression" (errors s')).
Proof.
  split.
  - intros pe ps n ig ft Hn. split; [|split].
    + destruct n as [|[|k]]; try lia.
      intros tx rest x tokx e0 e1 Hx Hnot Hpx.
      unfold exparseOther, exparseList. run.
      rewrite Hx. run. rewrite Hnot.
      cbn [exparseList_loop]. run. rewrite Hpx. run. reflexivity.
    + destruct n as [|[|k]]; try lia.
      intros tx ty rest x y tokx toky e0 e1 e2 Hx Hnot Hpx Hy Hpy.
      unfold exparseOther, exparseList. run.
      rewrite Hx. run. rewrite Hnot.
      cbn [exparseList_loop]. run. rewrite Hpx. run.
      rewrite Hy. run. rewrite Hpy. run. reflexivity.
    + intros tx rest x tokx e0 e1 r s' Hx Hnot Hpx H.
      destruct (exparseOther_trailing_comma_run _ _ _ _ _ _ _ _ _ _ _ _ _
                  Hx Hnot Hpx H) as (y & s2 & more & Hy & Hr & _).
      now exists y, s2, more.
  - intros fuel ig ft tx rest x tokx e0 e1 r s' Hx Hnot Hpx H.
    destruct (exparseOther_trailing_comma_run _ _ _ _ _ _ _ _ _ _ _ _ _
                Hx Hnot Hpx H) as (y & s2 & more & Hy & _ & Hrest).
    apply (extends_keeps (errors s2)).
    + apply Hrest. intros ig' ft'.
      exact (proj1 (kh_parse_steady fuel) ig' ft').
    + exact (kh_parseExpression_raises fuel true ft _ _ _ Hy eq_refl).
Qed.

(** The names [x] and [y] as elements, and [( x , )]. *)
Lemma exparseOther_parentheses_witness :
  exparseOther (kh_parseExpression 8) (kh_parseAst 8) 8 false false
    (start [tok_open; khTokenType_IDENTIFIER (codes "x"); tok_close])
  = Some (khAstExpressionType_IDENTIFIER (codes "x"), start [])
  /\ exparseOther (kh_parseExpression 8) (kh_parseAst 8) 8 false false
       (start [tok_open; khTokenType_IDENTIFIER (codes "x"); tok_comma;
               khTokenType_IDENTIFIER (codes "y"); tok_close])
     = Some (khAstExpressionType_TUPLE
               [khAstExpressionType_IDENTIFIER (codes "x");
                khAstExpressionType_IDENTIFIER (codes "y")],
             start [])
  /\ (exists y s2 more,
         kh_parseExpression 8 true false
           {| cursor := [tok_close]; errors := [] |}
         = Some (y, s2)
         /\ khAstExpressionType_TUPLE
              [khAstExpressionType_IDENTIFIER (codes "x");
               khAstExpressionType_INVALID]
            = khAstExpressionType_TUPLE
                (khAstExpressionType_IDENTIFIER (codes "x") :: y :: more))
  /\ In "unexpected token in an expression"
        ["unexpected token in an expression";
         "expecting a comma with another element or a closing delimiter"].
Proof.
  destruct exparseOther_parentheses as [Hgeneral Hreported].
  destruct (Hgeneral (kh_parseExpression 8) (kh_parseAst 8) 8%nat false false
              ltac:(lia)) as (Hone & Htwo & Hcomma).
  split; [|split; [|split]].
  - apply (Hone [khTokenType_IDENTIFIER (codes "x")] [] _
             (khTokenType_IDENTIFIER (codes "x")) [] []); reflexivity.
  - apply (Htwo [khTokenType_IDENTIFIER (codes "x")]
             [khTokenType_IDENTIFIER (codes "y")] [] _ _
             (khTokenType_IDENTIFIER (codes "x"))
             (khTokenType_IDENTIFIER (codes "y")) [] [] []); reflexivity.
  - apply (Hcomma [khTokenType_IDENTIFIER (codes "x")] []
             (khAstExpressionType_IDENTIFIER (codes "x"))
             (khTokenType_IDENTIFIER (codes "x")) [] []
             (khAstExpressionType_TUPLE
                [khAstExpressionType_IDENTIFIER (codes "x");
                 khAstExpressionType_INVALID])
             {| cursor := [];
                errors :=
                  ["unexpected token in an expression";
                   "expecting a comma with another element or a closing delimiter"]
             |}); reflexivity.
  - apply (Hreported 8%nat false false [khTokenType_IDENTIFIER (codes "x")] []
             (khAstExpressionType_IDENTIFIER (codes "x"))
             (khTokenType_IDENTIFIER (codes "x")) [] []
             (khAstExpressionType_TUPLE
                [khAstExpressionType_IDENTIFIER (codes "x");
                 khAstExpressionType_INVALID])
             {| cursor := [];
                errors :=
                  ["unexpected token in an expression";
                   "expecting a comma with another element or a closing delimiter"]
             |}); reflexivity.
Defined.

End ParserSpec.
